(** * Layout of a Step Functions definition as a node/edge graph

    A shallow embedding of [parseStateMachine] (with its inner recursive
    [processState] and the helper [getChoiceLabel]) from
    src/src/context/EndpointContext.js, and the properties of the
    graph it returns.

    Modelling conventions.
    - A definition is taken after JSON decoding, with the shape the code
      reads: optional fields are [option]s, arrays are lists, the [States]
      object is a finite map from names to state objects.
    - Property lookup [states[name]] finds the own keys of the object and,
      after them, the names every object inherits from Object.prototype
      ("constructor", "toString", "__proto__", ...), whose values are truthy
      and have none of the fields the code reads; [Object.keys] counts the own
      keys only.  [statesOf] is the object as lookup reads it, [ownStates] the
      own keys.
    - JavaScript truthiness is written out: a string is truthy when it is not
      empty, an array or object is truthy when it is present.
    - Coordinates are integers.  The spacing constants are even, so the
      halving [totalWidth / 2] is exact, and every coordinate the code computes
      is an integer (exact in IEEE doubles below 2^53).
    - [nodes.push] and [edges.push] append at the end.
    - The working sets [nodes], [edges], [nodePositions], [processedStates]
      are allocated by each call of [parseStateMachine]; they are the fields of
      [layoutState], threaded through a small state monad.
    - [processState] is recursive through the definition's transition graph
      and contains a [while] loop over a branch's [Next] chain.  Both are
      driven by one budget, the fuel: it bounds how deep the calls of
      [processState] nest (each nested call gets one unit less, as each takes
      a frame of the engine's call stack) and how often one branch loop
      iterates.  A run that exceeds the budget has no result ([None] in the
      monad, [Diverges] at top level): in the engine it is a loop that does
      not end, or a nesting that the call stack does not hold (a RangeError).
      So a graph returned with fuel [n] is the graph the code returns on an
      engine whose stack holds [n] nested calls; the size of that stack is
      not modelled.
    - A number is read by the code only to interpolate it into a label, so it
      is represented by the text that interpolation gives.
    - Constant presentation fields of nodes and edges ([type: "custom"],
      [type: "smoothstep"], [strokeWidth], label styles) are left out; the
      fields that distinguish the kinds of edges are kept. *)

From stdpp Require Import gmap strings list fin_maps pretty.

Open Scope string_scope.
Open Scope Z_scope.

(** ** Input: the decoded definition *)

Record catchBlock := mkCatch { cbNext : option string }.

(** A JavaScript number.  The code never computes with the numeric operand
    of a rule: it interpolates it into a template literal, which applies
    [Number.prototype.toString] ("5", "0.5", "1e+21"); a number is
    represented by that text. *)
Record number := mkNumber { numberText : string }.

(** A choice rule: the target and the fields [getChoiceLabel] reads. *)
Record choice := mkChoice {
  chNext : option string;
  Variable_ : option string;
  StringEquals : option string;
  BooleanEquals : option bool;
  NumericEquals : option number;
  NumericGreaterThan : option number;
  NumericLessThan : option number;
  NumericGreaterThanEquals : option number;
  NumericLessThanEquals : option number;
  IsPresent : option bool
}.

(** State objects, and definitions [{StartAt, States}]: the top-level document
    and each entry of a Parallel state's [Branches] have this shape. *)
Inductive stateObj := mkState {
  Type_ : option string;
  Next : option string;
  End_ : bool;
  Catch : option (list catchBlock);
  Choices : option (list choice);
  Default : option string;
  Branches : option (list machine)
}
with machine := mkMachine {
  StartAt : option string;
  States : option (gmap string stateObj)
}.

(** The properties every object inherits from [Object.prototype]
    (ECMAScript, with the legacy accessors of its Annex B). *)
Definition Object_prototype : list string :=
  ["constructor"; "__defineGetter__"; "__defineSetter__"; "hasOwnProperty";
   "__lookupGetter__"; "__lookupSetter__"; "isPrototypeOf";
   "propertyIsEnumerable"; "toString"; "valueOf"; "__proto__";
   "toLocaleString"].

(** What [states[name]] gives for an inherited name: a function (for
    [__proto__], the prototype object).  It is truthy, and [Type], [Next],
    [End], [Catch], [Choices], [Default] and [Branches] are undefined on
    it. *)
Definition inheritedValue : stateObj :=
  mkState None None false None None None None.

Definition inherited : gmap string stateObj :=
  list_to_map ((λ name, (name, inheritedValue)) <$> Object_prototype).

(** [m.States || {}] as [Object.keys] reads it: the own keys. *)
Definition ownStates (m : machine) : gmap string stateObj :=
  default ∅ (States m).

(** [m.States || {}] as the lookup [states[name]] reads it: an own key, or
    else an inherited name. *)
Definition statesOf (m : machine) : gmap string stateObj :=
  ownStates m ∪ inherited.

(** A string used as a condition: [Some s] when it is present and not empty. *)
Definition truthy (o : option string) : option string :=
  match o with
  | Some s => if decide (s = EmptyString) then None else Some s
  | None => None
  end.

(** ** Output: nodes and edges *)

Record position := mkPos { pos_x : Z; pos_y : Z }.

(** The values stored in [nodePositions]: a position object, or (under the
    [..._end] keys) the id of the last node of a branch.  The source of a
    rejoin edge is read back from that map, so an edge source has this type. *)
Inductive posEntry :=
  | PosXY (p : position)
  | PosId (s : string).

#[global] Instance position_eq_dec : EqDecision position.
Proof. solve_decision. Defined.
#[global] Instance posEntry_eq_dec : EqDecision posEntry.
Proof. solve_decision. Defined.

(** Template-literal rendering of such a value. *)
Definition entryString (v : posEntry) : string :=
  match v with
  | PosId s => s
  | PosXY _ => "[object Object]"
  end.

Definition entryTruthy (v : posEntry) : bool :=
  match v with
  | PosId s => bool_decide (s ≠ EmptyString)
  | PosXY _ => true
  end.

Record nodeData := mkData {
  label : string;
  type : option string;
  state : option stateObj;
  hasCatch : option bool;
  isBranch : bool
}.

Module Node.
Record t := mk { id : string; position : position; data : nodeData }.
End Node.

Module Edge.
Record t := mk {
  id : string;
  source : posEntry;
  target : string;
  label : option string;
  sourceHandle : option string;
  targetHandle : option string;
  animated : bool;
  stroke : string;
  strokeDasharray : option string
}.
End Edge.

Record graph := mkGraph { g_nodes : list Node.t; g_edges : list Edge.t }.

Definition plainEdge (id : string) (source : posEntry) (target : string)
    (stroke : string) : Edge.t :=
  Edge.mk id source target None None None false stroke None.

(** ** Constants *)

Definition HORIZONTAL_SPACING : Z := 240.
Definition VERTICAL_SPACING : Z := 100.
Definition PARALLEL_BRANCH_SPACING : Z := 200.

(** ** getChoiceLabel *)

Definition dot : Ascii.ascii := Ascii.ascii_of_nat 46.

(** [s.split(".").pop()]: the part of [s] after its last dot. *)
Fixpoint lastSegment_go (acc : string) (s : string) : string :=
  match s with
  | EmptyString => acc
  | String c s' =>
      if Ascii.eqb c dot then lastSegment_go EmptyString s'
      else lastSegment_go (acc ++ String c EmptyString) s'
  end.
Definition lastSegment (s : string) : string := lastSegment_go EmptyString s.

Definition boolString (b : bool) : string := if b then "true" else "false".
(** The fallback label: the string literal of the last line of
    [getChoiceLabel], which the source file holds as the eight bytes
    C3 A2 E2 80 A0 E2 80 99 (UTF-8 for U+00E2, U+2020, U+2019). *)
Definition arrowLabel : string :=
  foldr (λ byte s, String (Ascii.ascii_of_nat byte) s) EmptyString
    [195; 162; 226; 128; 160; 226; 128; 153]%nat.
Definition quote : string := String (Ascii.ascii_of_nat 34) EmptyString.

Definition getChoiceLabel (c : choice) : string :=
  match truthy (Variable_ c) with
  | Some v =>
      let varName := lastSegment v in
      match StringEquals c with
      | Some s => varName ++ " = " ++ quote ++ s ++ quote
      | None =>
      match BooleanEquals c with
      | Some b => varName ++ " = " ++ boolString b
      | None =>
      match NumericEquals c with
      | Some n => varName ++ " = " ++ numberText n
      | None =>
      match NumericGreaterThan c with
      | Some n => varName ++ " > " ++ numberText n
      | None =>
      match NumericLessThan c with
      | Some n => varName ++ " < " ++ numberText n
      | None =>
      match NumericGreaterThanEquals c with
      | Some n => varName ++ " >= " ++ numberText n
      | None =>
      match NumericLessThanEquals c with
      | Some n => varName ++ " <= " ++ numberText n
      | None =>
      match IsPresent c with
      | Some b => if b then varName ++ " exists" else varName ++ " !exists"
      | None => arrowLabel
      end end end end end end end end
  | None => arrowLabel
  end.

(** ** The working sets and the traversal monad *)

Record layoutState := mkLayout {
  nodes : list Node.t;
  edges : list Edge.t;
  nodePositions : gmap string posEntry;
  processedStates : gset string
}.

(** A computation over the working sets; [None] is a run out of fuel. *)
Definition M (A : Type) : Type := layoutState → option (A * layoutState).

Definition ret {A} (a : A) : M A := λ σ, Some (a, σ).
Definition bind {A B} (m : M A) (k : A → M B) : M B :=
  λ σ, match m σ with
       | Some (a, σ') => k a σ'
       | None => None
       end.
Definition outOfFuel {A} : M A := λ _, None.

Notation "x ⟵ m ; k" := (bind m (λ x, k))
  (at level 20, m at level 100, k at level 200, only parsing).
Notation "m ;;; k" := (bind m (λ _, k))
  (at level 100, k at level 200, right associativity, only parsing).

(** The four updates of the working sets: [nodes.push], [edges.push],
    [nodePositions.set], [processedStates.add]. *)
Definition push_node (n : Node.t) (σ : layoutState) : layoutState :=
  mkLayout (nodes σ ++ [n]) (edges σ) (nodePositions σ) (processedStates σ).
Definition push_edge (e : Edge.t) (σ : layoutState) : layoutState :=
  mkLayout (nodes σ) (edges σ ++ [e]) (nodePositions σ) (processedStates σ).
Definition set_position (k : string) (v : posEntry) (σ : layoutState) : layoutState :=
  mkLayout (nodes σ) (edges σ) (<[k := v]> (nodePositions σ)) (processedStates σ).
Definition add_processed (s : string) (σ : layoutState) : layoutState :=
  mkLayout (nodes σ) (edges σ) (nodePositions σ) ({[s]} ∪ processedStates σ).

Definition pushNode (n : Node.t) : M unit := λ σ, Some (tt, push_node n σ).
Definition pushEdge (e : Edge.t) : M unit := λ σ, Some (tt, push_edge e σ).
Definition setPosition (k : string) (v : posEntry) : M unit :=
  λ σ, Some (tt, set_position k v σ).
Definition getPosition (k : string) : M (option posEntry) :=
  λ σ, Some (nodePositions σ !! k, σ).
Definition addProcessed (s : string) : M unit := λ σ, Some (tt, add_processed s σ).
Definition hasProcessed (s : string) : M bool :=
  λ σ, Some (bool_decide (s ∈ processedStates σ), σ).

(** [l.forEach((a, index) => ...)], with the variables the callback assigns
    carried as an accumulator. *)
Fixpoint forEachFrom {A V} (f : A → nat → V → M V) (l : list A) (index : nat)
    (s : V) : M V :=
  match l with
  | [] => ret s
  | a :: l' => s' ⟵ f a index s; forEachFrom f l' (S index) s'
  end.
Definition forEach {A V} (f : A → nat → V → M V) (l : list A) (s : V) : M V :=
  forEachFrom f l 0%nat s.

(** ** processState *)

Definition branchId (stateName : string) (index : nat) (inner : string) : string :=
  stateName ++ "_branch_" ++ pretty index ++ "_" ++ inner.

Definition branchNode (id : string) (branchX y : Z) (name : string)
    (st : stateObj) : Node.t :=
  Node.mk id (mkPos branchX y) (mkData name (Type_ st) (Some st) None true).

(** The three ways [processState] lays a state out: the [if] / [else if] /
    [else] on [state.Type] and the presence of [Branches] or [Choices]. *)
Inductive kind :=
  | KParallel (branches : list machine)
  | KChoice (choices : list choice)
  | KRegular.

Definition dispatch (st : stateObj) : kind :=
  match bool_decide (Type_ st = Some "Parallel"), Branches st,
        bool_decide (Type_ st = Some "Choice"), Choices st with
  | true, Some branches, _, _ => KParallel branches
  | _, _, true, Some choices => KChoice choices
  | _, _, _, _ => KRegular
  end.

Definition isFail (st : stateObj) : bool := bool_decide (Type_ st = Some "Fail").

Definition mainNode (stateName : string) (x y : Z) (st : stateObj) : Node.t :=
  let hasCatch :=
    match Catch st with
    | Some rules => Some (bool_decide (0 < length rules)%nat)
    | None => None
    end in
  Node.mk stateName (mkPos x y) (mkData stateName (Type_ st) (Some st) hasCatch false).

Definition failNode (next : string) (failX failY : Z) (t : stateObj) : Node.t :=
  Node.mk next (mkPos failX failY) (mkData next (Type_ t) (Some t) None false).

Definition endNodeId (stateName : string) : string :=
  "__END_" ++ stateName ++ "__".

Definition endNode (stateName : string) (x nextY : Z) : Node.t :=
  Node.mk (endNodeId stateName) (mkPos x nextY)
    (mkData "End" (Some "End") None None false).

Section Traversal.

(** The top-level [States] object, which [processState] closes over, as
    the lookup [states[name]] reads it ([statesOf] of the definition). *)
Variable states : gmap string stateObj.

(** The loop [while (currentBranchState && currentBranchState.Next)] of one
    branch: returns the final [prevBranchNodeId] and [branchY]. *)
Fixpoint walkBranch (fuel : nat) (branchStates : gmap string stateObj)
    (stateName : string) (index : nat) (branchX : Z)
    (currentBranchState : stateObj) (prevBranchNodeId : string)
    (branchY : Z) : M (string * Z) :=
  match truthy (Next currentBranchState) with
  | None => ret (prevBranchNodeId, branchY)
  | Some nextStateName =>
      match branchStates !! nextStateName with
      | None => ret (prevBranchNodeId, branchY)
      | Some nextState =>
          match fuel with
          | O => outOfFuel
          | S fuel' =>
              let nextBranchNodeId := branchId stateName index nextStateName in
              pushNode (branchNode nextBranchNodeId branchX branchY nextStateName nextState) ;;;
              pushEdge (plainEdge (prevBranchNodeId ++ "-to-" ++ nextBranchNodeId)
                          (PosId prevBranchNodeId) nextBranchNodeId "#6b7280") ;;;
              setPosition nextBranchNodeId (PosXY (mkPos branchX branchY)) ;;;
              walkBranch fuel' branchStates stateName index branchX nextState
                nextBranchNodeId (branchY + VERTICAL_SPACING)
          end
      end
  end.

(** The callback of the first [state.Branches.forEach]. *)
Definition layoutBranch (fuel : nat) (stateName : string) (startX nextY : Z)
    (branch : machine) (index : nat) (maxBranchY : Z) : M Z :=
  let branchX := startX + Z.of_nat index * PARALLEL_BRANCH_SPACING in
  let branchStates := statesOf branch in
  match truthy (StartAt branch) with
  | None => ret maxBranchY
  | Some branchStartState =>
      match branchStates !! branchStartState with
      | None => ret maxBranchY
      | Some startState =>
          let branchNodeId := branchId stateName index branchStartState in
          pushNode (branchNode branchNodeId branchX nextY branchStartState startState) ;;;
          pushEdge (plainEdge (stateName ++ "-to-" ++ branchNodeId)
                      (PosId stateName) branchNodeId "#a78bfa") ;;;
          setPosition branchNodeId (PosXY (mkPos branchX nextY)) ;;;
          r ⟵ walkBranch fuel branchStates stateName index branchX startState
                branchNodeId (nextY + VERTICAL_SPACING);
          setPosition (branchId stateName index "end") (PosId (fst r)) ;;;
          ret (Z.max maxBranchY (snd r))
      end
  end.

(** The callback of the second [state.Branches.forEach] (rejoin edges). *)
Definition rejoinBranch (stateName next : string)
    (branch : machine) (index : nat) (u : unit) : M unit :=
  lastBranchNode ⟵ getPosition (branchId stateName index "end");
  match lastBranchNode with
  | Some v =>
      if entryTruthy v then
        pushEdge (plainEdge (entryString v ++ "-to-" ++ next) v next "#a78bfa")
      else ret tt
  | None => ret tt
  end.

Definition choiceEdge (stateName : string) (index : nat) (c : choice)
    (next : string) : Edge.t :=
  Edge.mk (stateName ++ "-choice-" ++ pretty index ++ "-" ++ next)
    (PosId stateName) next (Some (getChoiceLabel c)) None None false
    "#fbbf24" None.

Definition defaultEdge (stateName next : string) : Edge.t :=
  Edge.mk (stateName ++ "-default-" ++ next)
    (PosId stateName) next (Some "default") None None false
    "#6b7280" (Some "6,4").

Definition catchEdge (stateName : string) (index : nat) (next : string)
    (targetIsFail : bool) : Edge.t :=
  Edge.mk (stateName ++ "-catch-" ++ pretty index ++ "-" ++ next)
    (PosId stateName) next (Some "error") (Some "right")
    (Some (if targetIsFail then "left" else "top")) false
    "#f87171" (Some "4,4").

Section Body.

(** The recursive calls of [processState], and the fuel of the branch
    loops. *)
Variable rec : string → Z → Z → M Z.
Variable fuel : nat.

(** The callback of [state.Choices.forEach]; the accumulator is
    [(maxChoiceY, choiceTargets)]. *)
Definition layoutChoice (stateName : string) (startX nextY : Z)
    (c : choice) (index : nat) (acc : Z * gset string) : M (Z * gset string) :=
  let '(maxChoiceY, choiceTargets) := acc in
  match truthy (chNext c) with
  | None => ret acc
  | Some next =>
      if bool_decide (next ∈ choiceTargets) then ret acc
      else
        let choiceTargets := {[next]} ∪ choiceTargets in
        let choiceX := startX + Z.of_nat index * HORIZONTAL_SPACING in
        pushEdge (choiceEdge stateName index c next) ;;;
        seen ⟵ hasProcessed next;
        if seen then ret (maxChoiceY, choiceTargets)
        else
          choiceY ⟵ rec next choiceX nextY;
          ret (Z.max maxChoiceY choiceY, choiceTargets)
  end.

(** The callback of [state.Catch.forEach]. *)
Definition layoutCatch (stateName : string) (x y : Z)
    (catchBlock : catchBlock) (index : nat) (u : unit) : M unit :=
  match truthy (cbNext catchBlock) with
  | None => ret tt
  | Some next =>
      let targetState := states !! next in
      let targetIsFail :=
        match targetState with
        | Some t => isFail t
        | None => false
        end in
      pushEdge (catchEdge stateName index next targetIsFail) ;;;
      seen ⟵ hasProcessed next;
      match targetState with
      | Some t =>
          if targetIsFail && negb seen then
            addProcessed next ;;;
            let failX := x + HORIZONTAL_SPACING in
            let failY := y in
            pushNode (failNode next failX failY t) ;;;
            setPosition next (PosXY (mkPos failX failY))
          else ret tt
      | None => ret tt
      end
  end.

Definition processParallel (stateName : string) (x nextY : Z)
    (st : stateObj) (branches : list machine) : M Z :=
  let branchCount := Z.of_nat (length branches) in
  let totalWidth := (branchCount - 1) * PARALLEL_BRANCH_SPACING in
  let startX := x - totalWidth / 2 in
  maxBranchY ⟵ forEach (layoutBranch fuel stateName startX nextY) branches nextY;
  let nextY := maxBranchY in
  match truthy (Next st) with
  | Some next =>
      forEach (rejoinBranch stateName next) branches tt ;;;
      rec next x nextY
  | None => ret nextY
  end.

Definition processChoice (stateName : string) (x nextY : Z)
    (st : stateObj) (choices : list choice) : M Z :=
  let choiceCount :=
    Z.of_nat (length choices)
    + (match truthy (Default st) with Some _ => 1 | None => 0 end) in
  let totalWidth := (choiceCount - 1) * HORIZONTAL_SPACING in
  let startX := x - totalWidth / 2 in
  acc ⟵ forEach (layoutChoice stateName startX nextY) choices (nextY, ∅);
  let '(maxChoiceY, choiceTargets) := acc in
  match truthy (Default st) with
  | Some next =>
      if bool_decide (next ∈ choiceTargets) then ret maxChoiceY
      else
        let defaultIndex := Z.of_nat (length choices) in
        let defaultX := startX + defaultIndex * HORIZONTAL_SPACING in
        pushEdge (defaultEdge stateName next) ;;;
        seen ⟵ hasProcessed next;
        if seen then ret maxChoiceY
        else
          defaultY ⟵ rec next defaultX nextY;
          ret (Z.max maxChoiceY defaultY)
  | None => ret maxChoiceY
  end.

Definition processRegular (stateName : string) (x y nextY : Z)
    (st : stateObj) : M Z :=
  match Catch st with
  | Some rules => forEach (layoutCatch stateName x y) rules tt
  | None => ret tt
  end ;;;
  nextY ⟵ match truthy (Next st) with
          | Some next =>
              pushEdge (plainEdge (stateName ++ "-" ++ next)
                          (PosId stateName) next "#6b7280") ;;;
              seen ⟵ hasProcessed next;
              if seen then ret nextY else rec next x nextY
          | None => ret nextY
          end;
  if End_ st then
    pushNode (endNode stateName x nextY) ;;;
    pushEdge (plainEdge (stateName ++ "-" ++ endNodeId stateName)
                (PosId stateName) (endNodeId stateName) "#f87171") ;;;
    ret (nextY + VERTICAL_SPACING)
  else ret nextY.

(** The body of [processState], with its recursive calls abstracted. *)
Definition processState_body (stateName : string) (x y : Z) : M Z :=
  seen ⟵ hasProcessed stateName;
  match (if seen then None else states !! stateName) with
  | None => ret y
  | Some st =>
      addProcessed stateName ;;;
      pushNode (mainNode stateName x y st) ;;;
      setPosition stateName (PosXY (mkPos x y)) ;;;
      let nextY := y + VERTICAL_SPACING in
      match dispatch st with
      | KParallel branches => processParallel stateName x nextY st branches
      | KChoice choices => processChoice stateName x nextY st choices
      | KRegular => processRegular stateName x y nextY st
      end
  end.

End Body.

Fixpoint processState (fuel : nat) (stateName : string) (x y : Z) : M Z :=
  match fuel with
  | O => outOfFuel
  | S fuel' => processState_body (processState fuel') fuel' stateName x y
  end.

End Traversal.

(** ** parseStateMachine *)

(** The argument of [parseStateMachine]: nothing, [null], a JSON text, or an
    already decoded object. *)
Inductive jsInput :=
  | InUndefined
  | InNull
  | InString (s : string)
  | InObject (m : machine).

(** What [JSON.parse] returns on a text it accepts: [null], an object read
    with the fields of a definition, or another value (number, boolean,
    string, array), on which [States] and [StartAt] are undefined. *)
Inductive parsed :=
  | ParsedNull
  | ParsedObject (m : machine)
  | ParsedOther.

Inductive outcome :=
  | Returns (g : graph)
  | Throws
  | Diverges.

Definition emptyGraph : graph := mkGraph [] [].

Definition startNode : Node.t :=
  Node.mk "__START__" (mkPos 0 0) (mkData "Start" (Some "Start") None None false).

Definition startEdge (startAt : string) : Edge.t :=
  Edge.mk ("__START__-" ++ startAt) (PosId "__START__") startAt
    None None None true "#4ade80" None.

Definition initialLayout (startAt : string) : layoutState :=
  mkLayout [startNode] [startEdge startAt] ∅ ∅.

(** The part of [parseStateMachine] after decoding. *)
Definition layoutMachine (fuel : nat) (m : machine) : outcome :=
  let states := statesOf m in
  match truthy (StartAt m) with
  | None => Returns emptyGraph
  | Some startAt =>
      if bool_decide (size (ownStates m) = 0%nat) then Returns emptyGraph
      else
        match processState states fuel startAt 0 (0 + VERTICAL_SPACING)
                (initialLayout startAt) with
        | Some (_, σ) => Returns (mkGraph (nodes σ) (edges σ))
        | None => Diverges
        end
  end.

Section Parse.

(** The platform's [JSON.parse] on a text; [None] when it raises a
    [SyntaxError]. *)
Variable JSON_parse : string → option parsed.

(** The guarded decoding at the head of [parseStateMachine]: a falsy or
    string argument goes through [JSON.parse], whose error is caught.
    [JSON.parse(undefined)] reads the text "undefined", which is not JSON;
    [JSON.parse(null)] reads the text "null" and returns [null]. *)
Definition decode (definition : jsInput) : option parsed :=
  match definition with
  | InUndefined => None
  | InNull => Some ParsedNull
  | InString s => JSON_parse s
  | InObject m => Some (ParsedObject m)
  end.

Definition parseStateMachine (fuel : nat) (definition : jsInput) : outcome :=
  match decode definition with
  | None => Returns emptyGraph
  | Some ParsedNull => Throws
  | Some ParsedOther => Returns emptyGraph
  | Some (ParsedObject m) => layoutMachine fuel m
  end.

End Parse.

(** The ids of a list of nodes. *)
Definition nodeIds (ns : list Node.t) : list string := Node.id <$> ns.


(** ** The traversal as a transition system

    [processState] is a depth-first traversal.  Its run is described by the
    atomic updates it performs on the working sets, each with the facts the
    code has established when it performs it, over configurations that pair
    the working sets with the stack of the states being laid out.  A stack
    frame records the state's name, the anchor [(x, y)] it was given, and,
    for a Choice state, the targets already drawn ([choiceTargets] and the
    default).  The frames are not data of the code's; they only serve to
    state invariants. *)

Record frame := mkFrame {
  f_name : string;
  f_x : Z;
  f_y : Z;
  f_targets : gset string
}.

Definition config : Type := list frame * layoutState.

(** The targets [processState] follows from a state it lays out. *)
Definition successors (st : stateObj) : list string :=
  match dispatch st with
  | KParallel _ => option_list (truthy (Next st))
  | KChoice choices =>
      omap (λ c, truthy (chNext c)) choices ++ option_list (truthy (Default st))
  | KRegular => option_list (truthy (Next st))
  end.

Definition catchTargets (st : stateObj) : list string :=
  match dispatch st, Catch st with
  | KRegular, Some rules => omap (λ c, truthy (cbNext c)) rules
  | _, _ => []
  end.

Definition targetIsFail (states : gmap string stateObj) (next : string) : bool :=
  match states !! next with
  | Some t => isFail t
  | None => false
  end.

Definition visited (name : string) (x y : Z) (st : stateObj)
    (σ : layoutState) : layoutState :=
  set_position name (PosXY (mkPos x y))
    (push_node (mainNode name x y st) (add_processed name σ)).

Definition branchStarted (name : string) (index : nat) (s : string)
    (bst : stateObj) (bx ny : Z) (σ : layoutState) : layoutState :=
  let bid := branchId name index s in
  set_position bid (PosXY (mkPos bx ny))
    (push_edge (plainEdge (name ++ "-to-" ++ bid) (PosId name) bid "#a78bfa")
       (push_node (branchNode bid bx ny s bst) σ)).

Definition branchAdvanced (name : string) (index : nat) (prev s : string)
    (nst : stateObj) (bx by_ : Z) (σ : layoutState) : layoutState :=
  let nid := branchId name index s in
  set_position nid (PosXY (mkPos bx by_))
    (push_edge (plainEdge (prev ++ "-to-" ++ nid) (PosId prev) nid "#6b7280")
       (push_node (branchNode nid bx by_ s nst) σ)).

Definition failPlaced (next : string) (t : stateObj) (x y : Z)
    (σ : layoutState) : layoutState :=
  set_position next (PosXY (mkPos (x + HORIZONTAL_SPACING) y))
    (push_node (failNode next (x + HORIZONTAL_SPACING) y t)
       (add_processed next σ)).

Definition endPlaced (name : string) (x ny : Z) (σ : layoutState) : layoutState :=
  push_edge (plainEdge (name ++ "-" ++ endNodeId name) (PosId name)
               (endNodeId name) "#f87171")
    (push_node (endNode name x ny) σ).

(** [t] is on the [Next] chain that starts at [s], inside the states [bs] of a
    branch. *)
Inductive onChain (bs : gmap string stateObj) : string → string → Prop :=
  | onChain_here s : is_Some (bs !! s) → onChain bs s s
  | onChain_next s st n t :
      bs !! s = Some st → truthy (Next st) = Some n →
      onChain bs n t → onChain bs s t.

Definition withTarget (fr : frame) (t : string) : frame :=
  mkFrame (f_name fr) (f_x fr) (f_y fr) ({[t]} ∪ f_targets fr).

Section Steps.

Variable states : gmap string stateObj.
Variable startAt : string.

(** [name] has been laid out, or is not a state at all. *)
Definition done (σ : layoutState) (name : string) : Prop :=
  name ∈ processedStates σ ∨ states !! name = None.

(** [processState name] is called at top level with the start state, and
    otherwise with a successor of the state being laid out. *)
Definition callable (stk : list frame) (name : string) : Prop :=
  match stk with
  | [] => name = startAt
  | fr :: _ => ∃ st, states !! f_name fr = Some st ∧ name ∈ successors st
  end.

(** What has been done for a state when its call returns. *)
Record returnable (σ : layoutState) (fr : frame) (st : stateObj) : Prop :=
  mkReturnable {
    ret_successors : ∀ t, t ∈ successors st → done σ t;
    ret_fails : ∀ t, t ∈ catchTargets st → targetIsFail states t = true →
                     t ∈ processedStates σ;
    ret_targets : ∀ cs t, dispatch st = KChoice cs → t ∈ successors st →
                          t ∈ f_targets fr;
    ret_catches : ∀ rules index cb next,
        dispatch st = KRegular → Catch st = Some rules →
        rules !! index = Some cb → truthy (cbNext cb) = Some next →
        catchEdge (f_name fr) index next (targetIsFail states next) ∈ edges σ;
    ret_chains : ∀ brs index br s t,
        dispatch st = KParallel brs → brs !! index = Some br →
        truthy (StartAt br) = Some s → onChain (statesOf br) s t →
        branchId (f_name fr) index t ∈ nodeIds (nodes σ)
  }.

Inductive step : config → config → Prop :=
  | step_visit stk σ name x y st :
      name ∉ processedStates σ →
      states !! name = Some st →
      callable stk name →
      step (stk, σ) (mkFrame name x y ∅ :: stk, visited name x y st σ)
  | step_return stk σ fr st :
      states !! f_name fr = Some st →
      returnable σ fr st →
      step (fr :: stk, σ) (stk, σ)
  | step_branch_start stk σ fr st brs index br s bst bx ny :
      states !! f_name fr = Some st →
      dispatch st = KParallel brs →
      brs !! index = Some br →
      truthy (StartAt br) = Some s →
      statesOf br !! s = Some bst →
      step (fr :: stk, σ)
           (fr :: stk, branchStarted (f_name fr) index s bst bx ny σ)
  | step_branch_next stk σ fr st brs index br cur curSt s nst bx by_ :
      states !! f_name fr = Some st →
      dispatch st = KParallel brs →
      brs !! index = Some br →
      statesOf br !! cur = Some curSt →
      truthy (Next curSt) = Some s →
      statesOf br !! s = Some nst →
      branchId (f_name fr) index cur ∈ nodeIds (nodes σ) →
      step (fr :: stk, σ)
           (fr :: stk,
            branchAdvanced (f_name fr) index (branchId (f_name fr) index cur)
              s nst bx by_ σ)
  | step_branch_end stk σ fr st brs index br last lastSt :
      states !! f_name fr = Some st →
      dispatch st = KParallel brs →
      brs !! index = Some br →
      statesOf br !! last = Some lastSt →
      branchId (f_name fr) index last ∈ nodeIds (nodes σ) →
      step (fr :: stk, σ)
           (fr :: stk,
            set_position (branchId (f_name fr) index "end")
              (PosId (branchId (f_name fr) index last)) σ)
  | step_rejoin stk σ fr st brs index next v :
      states !! f_name fr = Some st →
      dispatch st = KParallel brs →
      truthy (Next st) = Some next →
      (index < length brs)%nat →
      nodePositions σ !! branchId (f_name fr) index "end" = Some v →
      entryTruthy v = true →
      step (fr :: stk, σ)
           (fr :: stk,
            push_edge (plainEdge (entryString v ++ "-to-" ++ next) v next "#a78bfa") σ)
  | step_choice_edge stk σ fr st cs index c next :
      states !! f_name fr = Some st →
      dispatch st = KChoice cs →
      cs !! index = Some c →
      truthy (chNext c) = Some next →
      next ∉ f_targets fr →
      step (fr :: stk, σ)
           (withTarget fr next :: stk,
            push_edge (choiceEdge (f_name fr) index c next) σ)
  | step_default_edge stk σ fr st cs next :
      states !! f_name fr = Some st →
      dispatch st = KChoice cs →
      truthy (Default st) = Some next →
      next ∉ f_targets fr →
      step (fr :: stk, σ)
           (withTarget fr next :: stk,
            push_edge (defaultEdge (f_name fr) next) σ)
  | step_catch_edge stk σ fr st rules index cb next :
      states !! f_name fr = Some st →
      dispatch st = KRegular →
      Catch st = Some rules →
      rules !! index = Some cb →
      truthy (cbNext cb) = Some next →
      step (fr :: stk, σ)
           (fr :: stk,
            push_edge (catchEdge (f_name fr) index next (targetIsFail states next)) σ)
  | step_catch_fail stk σ fr st rules index cb next t :
      states !! f_name fr = Some st →
      dispatch st = KRegular →
      Catch st = Some rules →
      rules !! index = Some cb →
      truthy (cbNext cb) = Some next →
      states !! next = Some t →
      isFail t = true →
      next ∉ processedStates σ →
      step (fr :: stk, σ)
           (fr :: stk, failPlaced next t (f_x fr) (f_y fr) σ)
  | step_next_edge stk σ fr st next :
      states !! f_name fr = Some st →
      dispatch st = KRegular →
      truthy (Next st) = Some next →
      step (fr :: stk, σ)
           (fr :: stk,
            push_edge (plainEdge (f_name fr ++ "-" ++ next) (PosId (f_name fr))
                         next "#6b7280") σ)
  | step_end stk σ fr st ny :
      states !! f_name fr = Some st →
      dispatch st = KRegular →
      End_ st = true →
      step (fr :: stk, σ) (fr :: stk, endPlaced (f_name fr) (f_x fr) ny σ).

Definition steps : config → config → Prop := rtc step.

End Steps.

Open Scope list_scope.

(** ** Vocabulary of the statements *)

(** A node that stands for a state of the top-level [States] object: it
    carries the state object and is not a branch member.  (The entry and exit
    markers carry no state object; branch nodes have [isBranch] set.) *)
Definition isStateNode (n : Node.t) : bool :=
  match state (Node.data n) with
  | Some _ => negb (isBranch (Node.data n))
  | None => false
  end.

Definition stateNodes (ns : list Node.t) : list Node.t :=
  List.filter isStateNode ns.

Definition stateNodeIds (ns : list Node.t) : list string :=
  Node.id <$> stateNodes ns.

(** The edges drawn for catch rules, for choice rules and for the default of a
    Choice state, told apart by their stroke and dash pattern. *)
Definition isErrorEdge (e : Edge.t) : bool :=
  bool_decide (Edge.strokeDasharray e = Some "4,4").
Definition isFanEdge (e : Edge.t) : bool :=
  bool_decide (Edge.stroke e = "#fbbf24")
  || bool_decide (Edge.strokeDasharray e = Some "6,4").

(** The transitions written in a state object, whatever its kind. *)
Definition references (st : stateObj) : list string :=
  option_list (truthy (Next st))
  ++ omap (λ c, truthy (chNext c)) (default [] (Choices st))
  ++ option_list (truthy (Default st)).

Definition catchReferences (st : stateObj) : list string :=
  omap (λ c, truthy (cbNext c)) (default [] (Catch st)).

(** The transitions of the main graph: those [processState] follows out of a
    state, none out of a Fail state. *)
Definition transitions (st : stateObj) : list string :=
  if isFail st then [] else successors st.

Inductive reachable (states : gmap string stateObj) (startAt : string)
    : string → Prop :=
  | reachable_start :
      is_Some (states !! startAt) → reachable states startAt startAt
  | reachable_step s st t :
      reachable states startAt s →
      states !! s = Some st →
      t ∈ transitions st →
      is_Some (states !! t) →
      reachable states startAt t.

(** The definition that [parseStateMachine] lays out, when its argument
    decodes to an object. *)
Definition definitionOf (JSON_parse : string → option parsed)
    (definition : jsInput) : option machine :=
  match decode JSON_parse definition with
  | Some (ParsedObject m) => Some m
  | _ => None
  end.

(** A [JSON.parse] that rejects every text, for inputs that are objects
    already (on which [parseStateMachine] does not call it). *)
Definition rejectAll : string → option parsed := λ _, None.

(** No dangling reference: both ends of every edge are ids of nodes. *)
Definition noDangling (g : graph) : Prop :=
  ∀ e, e ∈ g_edges g →
    (∃ s, Edge.source e = PosId s ∧ s ∈ nodeIds (g_nodes g))
    ∧ Edge.target e ∈ nodeIds (g_nodes g).

(** Reachability as the specification words it: from the start state of a
    definition along the [Next], choice and default transitions written in
    its states, and from a reachable Parallel state into its branches. *)
Inductive reachesIn (m : machine) : string → Prop :=
  | reachesIn_start s :
      truthy (StartAt m) = Some s → is_Some (ownStates m !! s) →
      reachesIn m s
  | reachesIn_step s st t :
      reachesIn m s → ownStates m !! s = Some st →
      t ∈ references st → is_Some (ownStates m !! t) →
      reachesIn m t.

Inductive specReachable (m : machine) : string → Prop :=
  | specReachable_main t : reachesIn m t → specReachable m t
  | specReachable_branch p st brs br t :
      reachesIn m p → ownStates m !! p = Some st →
      Branches st = Some brs → br ∈ brs →
      reachesIn br t → specReachable m t.

(** The labels of the returned nodes: every node made for a state carries
    the state's name as its label. *)
Definition nodeLabels (g : graph) : list string :=
  (λ n, label (Node.data n)) <$> g_nodes g.

(** The choice and default edges from [s] to [t]. *)
Definition fanEdgesBetween (g : graph) (s t : string) : list Edge.t :=
  List.filter
    (λ e, isFanEdge e
          && bool_decide (Edge.source e = PosId s ∧ Edge.target e = t))
    (g_edges g).

(** How many rules of a Choice state (its default included) name [t]. *)
Definition referenceCount (st : stateObj) (t : string) : nat :=
  length (List.filter (λ x, bool_decide (x = t))
            (omap (λ c, truthy (chNext c)) (default [] (Choices st))
             ++ option_list (truthy (Default st)))).

(** [m'] returns whatever [m] returns. *)
Definition extends {A} (m m' : M A) : Prop :=
  ∀ σ r, m σ = Some r → m' σ = Some r.

(** [m] returns from [σ], with a result and working sets that satisfy [Q]. *)
Definition total {A} (m : M A) (σ : layoutState)
    (Q : A → layoutState → Prop) : Prop :=
  ∃ a σ', m σ = Some (a, σ') ∧ Q a σ'.

(** The [Next] chain from the state [st] of a branch leaves the branch's
    states, or ends, within [k] steps: the branch loop stops. *)
Fixpoint chainStopsWithin (k : nat) (bs : gmap string stateObj)
    (st : stateObj) : bool :=
  match truthy (Next st) with
  | None => true
  | Some n =>
      match bs !! n with
      | None => true
      | Some nst =>
          match k with
          | O => false
          | S k' => chainStopsWithin k' bs nst
          end
      end
  end.

(** Every branch of every Parallel state has a chain that stops within [k]
    steps. *)
Definition branchesBounded (k : nat) (states : gmap string stateObj) : Prop :=
  ∀ name st brs br start sst,
    states !! name = Some st → dispatch st = KParallel brs → br ∈ brs →
    truthy (StartAt br) = Some start → statesOf br !! start = Some sst →
    chainStopsWithin k (statesOf br) sst = true.

Definition laysOutBranches (st : stateObj) : bool :=
  match dispatch st with
  | KParallel _ => true
  | _ => false
  end.

(** The states in [kept] stay processed. *)
Definition keeps (kept : gset string) (σ : layoutState) : Prop :=
  kept ⊆ processedStates σ.

(** The states not yet processed. *)
Definition unprocessed (states : gmap string stateObj) (σ : layoutState)
    : gset string :=
  dom states ∖ processedStates σ.

(** The [Next] of a state of the branch [br] is absent, or is a name that
    [branchStates[name]] does not find: the chain stops at this state. *)
Definition chainStops (br : machine) (st : stateObj) : Prop :=
  match truthy (Next st) with
  | Some n => statesOf br !! n = None
  | None => True
  end.

(** The branch [br] is a chain of two states: its [StartAt] is [a1], whose
    [Next] is [a2], where the chain stops. *)
Record linearChain2 (br : machine) (a1 : string) (sa1 : stateObj)
    (a2 : string) (sa2 : stateObj) : Prop := mkChain2 {
  lc_start : truthy (StartAt br) = Some a1;
  lc_first : statesOf br !! a1 = Some sa1;
  lc_next : truthy (Next sa1) = Some a2;
  lc_second : statesOf br !! a2 = Some sa2;
  lc_stops : chainStops br sa2
}.

(** Example inputs. *)
Definition task (next : option string) (e : bool) : stateObj :=
  mkState (Some "Task") next e None None None None.

(** [{StartAt: "A", States: {A: {Type: "Task", Next: "Missing"}}}] *)
Definition danglingNext : machine :=
  mkMachine (Some "A") (Some {[ "A" := task (Some "Missing") false ]}).

Definition pass (next : option string) (e : bool) : stateObj :=
  mkState (Some "Pass") next e None None None None.

Definition rule (next : string) : choice :=
  mkChoice (Some next) None None None None None None None None None.

(** A Parallel state whose only branch starts at a Choice state [C] with one
    rule, to the state [T] of the branch. *)
Definition choiceInBranch : machine :=
  mkMachine (Some "P")
    (Some {[ "P" :=
      mkState (Some "Parallel") None true None None None
        (Some [mkMachine (Some "C")
                 (Some {[ "C" := mkState (Some "Choice") None false None
                                   (Some [rule "T"]) None None;
                          "T" := pass None true ]})]) ]}).

(** A Choice state with two rules and a default, all three to [T]. *)
Definition duplicateChoice : machine :=
  mkMachine (Some "C")
    (Some {[ "C" := mkState (Some "Choice") None false None
                      (Some [rule "T"; rule "T"]) (Some "T") None;
             "T" := pass None true ]}).

(** A Task that catches to a Fail state and to a Pass state, neither
    referenced elsewhere. *)
Definition catching : machine :=
  mkMachine (Some "A")
    (Some {[ "A" := mkState (Some "Task") None true
                      (Some [mkCatch (Some "F"); mkCatch (Some "R")])
                      None None None;
             "F" := mkState (Some "Fail") None false None None None None;
             "R" := pass None true ]}).

(** [{StartAt: "X", States: {A: {Type: "Task", End: true}}}]: the start state
    is not a key of [States]. *)
Definition startNotAKey : machine :=
  mkMachine (Some "X") (Some {[ "A" := task None true ]}).

(** [{StartAt: "constructor", States: {A: {Type: "Task", End: true}}}]: the
    start state is not a key of [States], and [States] inherits a property
    of that name. *)
Definition startInherited : machine :=
  mkMachine (Some "constructor") (Some {[ "A" := task None true ]}).

(** [{States: {}, StartAt: "X"}] *)
Definition noStates : machine := mkMachine (Some "X") (Some ∅).

(** A Parallel state with [End: true] and one branch of one state. *)
Definition parallelEnd : machine :=
  mkMachine (Some "P")
    (Some {[ "P" :=
      mkState (Some "Parallel") None true None None None
        (Some [mkMachine (Some "a") (Some {[ "a" := pass None true ]})]) ]}).

(** A Parallel state that catches to a Fail state:
    [{StartAt: "P", States: {P: {Type: "Parallel", End: true,
      Branches: [{StartAt: "a", States: {a: {Type: "Pass", End: true}}}],
      Catch: [{Next: "F"}]}, F: {Type: "Fail"}}}] *)
Definition parallelCatch : machine :=
  mkMachine (Some "P")
    (Some {[ "P" :=
      mkState (Some "Parallel") None true (Some [mkCatch (Some "F")]) None None
        (Some [mkMachine (Some "a") (Some {[ "a" := pass None true ]})]);
             "F" := mkState (Some "Fail") None false None None None None ]}).

(** A Parallel state whose branch loops: [A.Next = B], [B.Next = A]. *)
Definition cycleStates : gmap string stateObj :=
  {[ "A" := pass (Some "B") false; "B" := pass (Some "A") false ]}.

Definition branchCycle : machine :=
  mkMachine (Some "P")
    (Some {[ "P" :=
      mkState (Some "Parallel") None true None None None
        (Some [mkMachine (Some "A") (Some cycleStates)]) ]}).

(** A Parallel state with two branches of two states each, followed by a
    shared successor. *)
Definition rejoinExample : machine :=
  mkMachine (Some "P")
    (Some {[ "P" :=
      mkState (Some "Parallel") (Some "S") false None None None
        (Some [mkMachine (Some "a1")
                 (Some {[ "a1" := task (Some "a2") false;
                          "a2" := task None true ]});
               mkMachine (Some "b1")
                 (Some {[ "b1" := task (Some "b2") false;
                          "b2" := task None true ]})]);
             "S" := task None true ]}).

(** Two states that name each other: a cycle in the main graph. *)
Definition mainCycle : machine :=
  mkMachine (Some "A")
    (Some {[ "A" := task (Some "B") false; "B" := task (Some "A") false ]}).

(** ** Invariants of the transition system *)

Section Invariants.

Variable states : gmap string stateObj.
Variable startAt : string.

(** What a call of [processState] does, seen from its caller: a run of the
    transition system that leaves the stack as it found it, after which the
    state it was called on is laid out, unless it is not a state. *)
Definition call_spec (rec : string → Z → Z → M Z) : Prop :=
  ∀ stk name x y σ r σ',
    callable states startAt stk name →
    rec name x y σ = Some (r, σ') →
    steps states startAt (stk, σ) (stk, σ') ∧ done states σ' name.

(** Bookkeeping: the state nodes are the processed states, once each; string
    sources and stored branch ends are node ids; every frame has its node. *)
Record invNodes (c : config) : Prop := mkInvNodes {
  in_processed : ∀ s, s ∈ processedStates c.2 ↔ s ∈ stateNodeIds (nodes c.2);
  in_states : ∀ s, s ∈ processedStates c.2 → is_Some (states !! s);
  in_nodup : NoDup (stateNodeIds (nodes c.2));
  in_sources : ∀ e s, e ∈ edges c.2 → Edge.source e = PosId s →
                      s ∈ nodeIds (nodes c.2);
  in_positions : ∀ k s, nodePositions c.2 !! k = Some (PosId s) →
                        s ∈ nodeIds (nodes c.2);
  in_frames : ∀ fr, fr ∈ c.1 →
                ∃ n, n ∈ nodes c.2 ∧ isStateNode n = true ∧
                     Node.id n = f_name fr ∧
                     Node.position n = mkPos (f_x fr) (f_y fr);
  in_stack : NoDup (f_name <$> c.1)
}.

(** An edge whose target needs no further node: the target is a node, or is
    not a state, or the edge is a catch edge to a state that is not a Fail
    state. *)
Definition targetSettled (ns : list Node.t) (e : Edge.t) : Prop :=
  Edge.target e ∈ nodeIds ns
  ∨ states !! Edge.target e = None
  ∨ (isErrorEdge e = true ∧ targetIsFail states (Edge.target e) = false).

(** A target that a state on the stack is still to lay out. *)
Definition pendingOn (stk : list frame) (t : string) : Prop :=
  ∃ fr st, fr ∈ stk ∧ states !! f_name fr = Some st ∧
    (t ∈ successors st ∨ (t ∈ catchTargets st ∧ targetIsFail states t = true)).

Definition invTargets (c : config) : Prop :=
  ∀ e, e ∈ edges c.2 →
    targetSettled (nodes c.2) e ∨ Edge.target e = startAt
    ∨ pendingOn c.1 (Edge.target e).

(** What the returned working sets hold for a state whose call has
    returned. *)
Record laidOut (σ : layoutState) (s : string) (st : stateObj) : Prop :=
  mkLaidOut {
    lo_successors : ∀ t, t ∈ successors st → done states σ t;
    lo_fails : ∀ t, t ∈ catchTargets st → targetIsFail states t = true →
                    t ∈ processedStates σ;
    lo_catches : ∀ rules index cb next,
        dispatch st = KRegular → Catch st = Some rules →
        rules !! index = Some cb → truthy (cbNext cb) = Some next →
        catchEdge s index next (targetIsFail states next) ∈ edges σ;
    lo_chains : ∀ brs index br b t,
        dispatch st = KParallel brs → brs !! index = Some br →
        truthy (StartAt br) = Some b → onChain (statesOf br) b t →
        branchId s index t ∈ nodeIds (nodes σ);
    lo_fan : ∀ cs t, dispatch st = KChoice cs → t ∈ successors st →
        ∃ e, e ∈ edges σ ∧ isFanEdge e = true ∧
             Edge.source e = PosId s ∧ Edge.target e = t
  }.

(** Every processed state is on the stack, or is a Fail state, or has been
    laid out in full; the targets recorded in a frame have their edge. *)
Record invClosed (c : config) : Prop := mkInvClosed {
  ic_processed : ∀ s, s ∈ processedStates c.2 →
      (∃ fr, fr ∈ c.1 ∧ f_name fr = s)
      ∨ ∃ st, states !! s = Some st ∧ (isFail st = true ∨ laidOut c.2 s st);
  ic_targets : ∀ fr t, fr ∈ c.1 → t ∈ f_targets fr →
      ∃ e, e ∈ edges c.2 ∧ isFanEdge e = true ∧
           Edge.source e = PosId (f_name fr) ∧ Edge.target e = t
}.

(** Where a state node comes from: the start state, a successor of some
    state, or a Fail state placed beside a state that catches to it. *)
Definition justified (ns : list Node.t) (n : Node.t) : Prop :=
  Node.id n = startAt
  ∨ (∃ s st, states !! s = Some st ∧ Node.id n ∈ successors st)
  ∨ (∃ m st t,
       m ∈ ns ∧ isStateNode m = true ∧
       states !! Node.id m = Some st ∧ Node.id n ∈ catchTargets st ∧
       states !! Node.id n = Some t ∧ isFail t = true ∧
       Node.position n =
         mkPos (pos_x (Node.position m) + HORIZONTAL_SPACING)
               (pos_y (Node.position m))).

Definition invJustified (c : config) : Prop :=
  ∀ n, n ∈ nodes c.2 → isStateNode n = true → justified (nodes c.2) n.

(** The (source, target) pairs of the choice and default edges. *)
Definition fanKeys (es : list Edge.t) : list (posEntry * string) :=
  (λ e, (Edge.source e, Edge.target e)) <$> List.filter isFanEdge es.

Record invFan (c : config) : Prop := mkInvFan {
  if_sources : ∀ e, e ∈ edges c.2 → isFanEdge e = true →
      ∃ s, Edge.source e = PosId s ∧ s ∈ processedStates c.2;
  if_nodup : NoDup (fanKeys (edges c.2));
  if_frames : ∀ fr e, fr ∈ c.1 → e ∈ edges c.2 → isFanEdge e = true →
      Edge.source e = PosId (f_name fr) → Edge.target e ∈ f_targets fr
}.

(** The facts that hold of the working sets when [processState] has returned
    to [parseStateMachine]. *)
Record finalFacts (σ : layoutState) : Prop := mkFinal {
  ff_nodes : invNodes ([], σ);
  ff_targets : invTargets ([], σ);
  ff_closed : invClosed ([], σ);
  ff_justified : invJustified ([], σ);
  ff_fan : invFan ([], σ);
  ff_start : done states σ startAt
}.

End Invariants.


(** ** Completed calls of processState

    The transition system records which updates a run performs; where an
    update lands (the anchor of a node, the row of an exit marker) is read off
    the code of the call that performs it.  The definitions below tie every
    processed state to the call of [processState] that laid it out. *)

(** Partial correctness of a computation over the working sets. *)
Definition hoare {A} (P : layoutState → Prop) (m : M A)
    (Q : A → layoutState → Prop) : Prop :=
  ∀ σ a σ', P σ → m σ = Some (a, σ') → Q a σ'.

(** [nodes] and [edges] are only pushed to. *)
Definition grows (σ σ' : layoutState) : Prop :=
  nodes σ `prefix_of` nodes σ' ∧ edges σ `prefix_of` edges σ'.

(** A call [processState(s, x, y)] on a state not yet processed has returned,
    and what it pushed is in [σ]. *)
Definition completed (states : gmap string stateObj) (σ : layoutState)
    (s : string) (x y : Z) : Prop :=
  ∃ fuel σ0 r σ1,
    (s ∉ processedStates σ0) ∧
    processState states fuel s x y σ0 = Some (r, σ1) ∧
    grows σ1 σ.

(** Every processed state is being laid out (it is in [pend]), or is a Fail
    state, or has been laid out by a completed call. *)
Definition settled (states : gmap string stateObj) (pend : gset string)
    (σ : layoutState) : Prop :=
  ∀ s, s ∈ processedStates σ →
    s ∈ pend ∨ targetIsFail states s = true
    ∨ ∃ x y, completed states σ s x y.

(** The [k]-th state on the [Next] chain of a branch that starts at [s]:
    the states the branch loop visits, in order. *)
Fixpoint chainNth (bs : gmap string stateObj) (s : string) (k : nat)
    : option string :=
  match bs !! s with
  | None => None
  | Some st =>
      match k with
      | O => Some s
      | S k' =>
          match truthy (Next st) with
          | Some n => chainNth bs n k'
          | None => None
          end
      end
  end.

(** The column of branch [index] of a Parallel state at [x] with
    [branchCount] branches: [startX + index * PARALLEL_BRANCH_SPACING]. *)
Definition branchColumn (x : Z) (branchCount index : nat) : Z :=
  x - (Z.of_nat branchCount - 1) * PARALLEL_BRANCH_SPACING / 2
  + Z.of_nat index * PARALLEL_BRANCH_SPACING.

(** The [k]-th state [t] of the chain of branch [index] of the Parallel state
    [p] is drawn in [ns] and [es]: its node, in the column [bx] and [k] rows
    under the row [y0] of the branch's first node, and the edge that leads to
    it, from [p] for the first node of the branch and from the node of the
    state before it on the chain for the others. *)
Definition chainPlaced (ns : list Node.t) (es : list Edge.t) (p : string)
    (index : nat) (bs : gmap string stateObj) (b : string) (bx y0 : Z)
    (k : nat) (t : string) : Prop :=
  ∃ tst, bs !! t = Some tst
    ∧ branchNode (branchId p index t) bx (y0 + VERTICAL_SPACING * Z.of_nat k)
        t tst ∈ ns
    ∧ match k with
      | O =>
          plainEdge (p +:+ "-to-" +:+ branchId p index t) (PosId p)
            (branchId p index t) "#a78bfa" ∈ es
      | S k' =>
          ∀ t', chainNth bs b k' = Some t' →
            plainEdge (branchId p index t' +:+ "-to-" +:+ branchId p index t)
              (PosId (branchId p index t')) (branchId p index t) "#6b7280"
              ∈ es
      end.

(** The character [c] does not occur in [s]. *)
Fixpoint lacks (c : Ascii.ascii) (s : string) : bool :=
  match s with
  | EmptyString => true
  | String c' s' => negb (Ascii.eqb c' c) && lacks c s'
  end.

Definition underscore : Ascii.ascii := Ascii.ascii_of_nat 95.
Definition space : Ascii.ascii := Ascii.ascii_of_nat 32.

(** No character of [s] is an underscore: true of the decimal digits of a
    branch index, which an underscore follows in a branch-scoped id. *)
Definition noUnderscore (s : string) : bool := lacks underscore s.

(** A choice rule without any of the comparisons [getChoiceLabel] shows. *)
Definition noComparison (c : choice) : Prop :=
  StringEquals c = None ∧ BooleanEquals c = None ∧ NumericEquals c = None
  ∧ NumericGreaterThan c = None ∧ NumericLessThan c = None
  ∧ NumericGreaterThanEquals c = None ∧ NumericLessThanEquals c = None
  ∧ IsPresent c = None.

(** The last state on the chain of a branch that starts at [b]: the [k]-th
    state, where the chain has no state after it. *)
Definition chainLast (bs : gmap string stateObj) (b : string) (k : nat)
    (last : string) : Prop :=
  chainNth bs b k = Some last ∧ chainNth bs b (S k) = None.

(** ** Where nodes and edges come from *)

(** The five kinds of nodes [parseStateMachine] makes: the entry marker; the
    node of a state of the definition, pushed by [processState] or, for a Fail
    state, beside a state that catches to it; the node of a state of a branch
    of a Parallel state; the exit marker of a regular state with
    [End: true]. *)
Inductive nodeOrigin (states : gmap string stateObj) : Node.t → Prop :=
  | origin_start : nodeOrigin states startNode
  | origin_state s st x y :
      states !! s = Some st → nodeOrigin states (mainNode s x y st)
  | origin_fail s st x y :
      states !! s = Some st → isFail st = true →
      nodeOrigin states (failNode s x y st)
  | origin_branch p st brs index br t bst x y :
      states !! p = Some st → dispatch st = KParallel brs →
      brs !! index = Some br → statesOf br !! t = Some bst →
      nodeOrigin states (branchNode (branchId p index t) x y t bst)
  | origin_end s st x y :
      states !! s = Some st → dispatch st = KRegular → End_ st = true →
      nodeOrigin states (endNode s x y).

(** The nine kinds of edges: the entry edge; the [Next] edge, the catch edges
    and the exit edge of a regular state; the rule edges and the default edge
    of a Choice state; for a Parallel state the edge into a branch, the edges
    along a branch, and the rejoin edges to its [Next], whose source is what
    [nodePositions] holds for the end of the branch. *)
Inductive edgeOrigin (states : gmap string stateObj) (startAt : string)
    : Edge.t → Prop :=
  | origin_entry : edgeOrigin states startAt (startEdge startAt)
  | origin_next s st t :
      states !! s = Some st → dispatch st = KRegular →
      truthy (Next st) = Some t →
      edgeOrigin states startAt
        (plainEdge (s +:+ "-" +:+ t) (PosId s) t "#6b7280")
  | origin_catch s st rules index cb t :
      states !! s = Some st → dispatch st = KRegular →
      Catch st = Some rules → rules !! index = Some cb →
      truthy (cbNext cb) = Some t →
      edgeOrigin states startAt (catchEdge s index t (targetIsFail states t))
  | origin_exit s st :
      states !! s = Some st → dispatch st = KRegular → End_ st = true →
      edgeOrigin states startAt
        (plainEdge (s +:+ "-" +:+ endNodeId s) (PosId s) (endNodeId s) "#f87171")
  | origin_choice s st cs index c t :
      states !! s = Some st → dispatch st = KChoice cs →
      cs !! index = Some c → truthy (chNext c) = Some t →
      edgeOrigin states startAt (choiceEdge s index c t)
  | origin_default s st cs t :
      states !! s = Some st → dispatch st = KChoice cs →
      truthy (Default st) = Some t →
      edgeOrigin states startAt (defaultEdge s t)
  | origin_branch_entry p st brs index br b :
      states !! p = Some st → dispatch st = KParallel brs →
      brs !! index = Some br → truthy (StartAt br) = Some b →
      is_Some (statesOf br !! b) →
      edgeOrigin states startAt
        (plainEdge (p +:+ "-to-" +:+ branchId p index b) (PosId p)
           (branchId p index b) "#a78bfa")
  | origin_branch_next p st brs index br cur curSt t :
      states !! p = Some st → dispatch st = KParallel brs →
      brs !! index = Some br → statesOf br !! cur = Some curSt →
      truthy (Next curSt) = Some t → is_Some (statesOf br !! t) →
      edgeOrigin states startAt
        (plainEdge (branchId p index cur +:+ "-to-" +:+ branchId p index t)
           (PosId (branchId p index cur)) (branchId p index t) "#6b7280")
  | origin_rejoin p st brs index v t :
      states !! p = Some st → dispatch st = KParallel brs →
      truthy (Next st) = Some t → (index < length brs)%nat →
      entryTruthy v = true →
      edgeOrigin states startAt
        (plainEdge (entryString v +:+ "-to-" +:+ t) v t "#a78bfa").

(** Every node and edge has an origin; a state being laid out has the node
    [processState] pushed for it; the source of a catch edge has such a
    node, its target being processed when it is a Fail state, unless the
    source is still being laid out; a node without a state object is the
    entry marker or the exit marker of a state that has its node, in the same
    column; the entry marker and the entry edge come first, once. *)
Record invOrigin (states : gmap string stateObj) (startAt : string)
    (c : config) : Prop := mkInvOrigin {
  io_nodes : ∀ n, n ∈ nodes c.2 → nodeOrigin states n;
  io_edges : ∀ e, e ∈ edges c.2 → edgeOrigin states startAt e;
  io_frames : ∀ fr, fr ∈ c.1 →
      ∃ st, states !! f_name fr = Some st ∧
            mainNode (f_name fr) (f_x fr) (f_y fr) st ∈ nodes c.2;
  io_catch : ∀ s index t b, catchEdge s index t b ∈ edges c.2 →
      ∃ st x y, states !! s = Some st ∧ mainNode s x y st ∈ nodes c.2 ∧
        dispatch st = KRegular ∧ t ∈ catchTargets st ∧
        b = targetIsFail states t ∧
        (b = true → t ∈ processedStates c.2 ∨ ∃ fr, fr ∈ c.1 ∧ f_name fr = s);
  io_markers : ∀ n, n ∈ nodes c.2 → state (Node.data n) = None →
      n = startNode
      ∨ ∃ s st x y ny, n = endNode s x ny ∧ states !! s = Some st ∧
          dispatch st = KRegular ∧ End_ st = true ∧
          mainNode s x y st ∈ nodes c.2;
  io_entry : ∃ ns es,
      nodes c.2 = startNode :: ns ∧ edges c.2 = startEdge startAt :: es ∧
      (∀ n, n ∈ ns → n ≠ startNode) ∧
      (∀ e, e ∈ es → Edge.animated e = false)
}.

(** The same stack, up to the targets recorded in its frames. *)
Definition sameFrames (stk stk' : list frame) : Prop :=
  (∀ fr', fr' ∈ stk' →
     ∃ fr, fr ∈ stk ∧ f_name fr' = f_name fr ∧ f_x fr' = f_x fr ∧ f_y fr' = f_y fr)
  ∧ (∀ fr, fr ∈ stk → ∃ fr', fr' ∈ stk' ∧ f_name fr' = f_name fr).

(** ** CustomNode (src/components/StateMachineDiagram.js)

    The component that draws a node from its [data].  Of the element it
    returns, the class name of the outer [div] and the [Handle] children (the
    points edges attach to) are modelled; the content [div] with the icon, the
    label and the type caption is not. *)

Inductive handlePosition := Top | Left | Bottom | Right.

Record Handle := mkHandle {
  h_type : string;
  h_position : handlePosition;
  h_id : string;
  h_className : string
}.

Record customNode := mkCustomNode {
  cn_className : string;
  cn_handles : list Handle
}.

(** [l.filter(Boolean)] on strings: the empty strings are dropped. *)
Definition filterBoolean (l : list string) : list string :=
  List.filter (λ s, negb (String.eqb s EmptyString)) l.

(** [l.join(sep)] *)
Fixpoint join (sep : string) (l : list string) : string :=
  match l with
  | [] => EmptyString
  | [s] => s
  | s :: l' => s +:+ sep +:+ join sep l'
  end.

Section CustomNode.

(** [String.prototype.toLowerCase] *)
Variable toLowerCase : string → string.

Definition nodeClasses (type : string) (isBranch : bool) : string :=
  join " "
    (filterBoolean
       ["custom-node"; "custom-node-" +:+ toLowerCase type;
        if isBranch then "is-branch" else EmptyString]).

(** [None] when the component throws: [type.toLowerCase()] on a [data]
    without [type]. *)
Definition CustomNode (data : nodeData) : option customNode :=
  match type data with
  | None => None
  | Some ty =>
      let isStart := bool_decide (ty = "Start") in
      let isEnd := bool_decide (ty = "End") in
      let isFail := bool_decide (ty = "Fail") in
      Some (mkCustomNode (nodeClasses ty (isBranch data))
        ((if negb isStart
          then [mkHandle "target" Top "top" "custom-handle"] else [])
         ++ (if isFail
             then [mkHandle "target" Left "left"
                     "custom-handle custom-handle-error"] else [])
         ++ (if negb isEnd && negb isFail
             then [mkHandle "source" Bottom "bottom" "custom-handle"] else [])
         ++ (match hasCatch data with
             | Some true =>
                 [mkHandle "source" Right "right"
                    "custom-handle custom-handle-error"]
             | _ => []
             end)))
  end.

End CustomNode.

(** The handle with id [id] and type [ty] (["source"] or ["target"]) is among
    those the component renders. *)
Definition hasHandle (r : customNode) (ty id : string) : Prop :=
  ∃ h, h ∈ cn_handles r ∧ h_type h = ty ∧ h_id h = id.

(** ** The states that are drawn

    What [processState] can reach: the start state; a successor of a state it
    reaches (the [Next] of a regular or Parallel state, the targets of a
    Choice state); a Fail state named by a catch rule of a regular state it
    reaches. *)
Inductive drawnFrom (states : gmap string stateObj) (startAt : string)
    : string → Prop :=
  | drawn_start :
      is_Some (states !! startAt) → drawnFrom states startAt startAt
  | drawn_successor s st t :
      drawnFrom states startAt s → states !! s = Some st →
      t ∈ successors st → is_Some (states !! t) →
      drawnFrom states startAt t
  | drawn_caught s st t :
      drawnFrom states startAt s → states !! s = Some st →
      t ∈ catchTargets st → targetIsFail states t = true →
      drawnFrom states startAt t.

Definition invDrawn (states : gmap string stateObj) (startAt : string)
    (c : config) : Prop :=
  (∀ s, s ∈ processedStates c.2 → drawnFrom states startAt s)
  ∧ (∀ fr, fr ∈ c.1 → f_name fr ∈ processedStates c.2).

(** ** EndpointProvider (src/context/EndpointContext.js) and
    ConnectionStatus (src/components/ConnectionStatus.js)

    The provider's React state is a record, [localStorage] a finite map from
    keys to strings, and a state setter an update of the record.  An error
    message ([error.message], the [message] of a response body) is a string or
    is absent. *)

Definition DEFAULT_ENDPOINT : string := "http://localhost:8083".
Definition STORAGE_KEY : string := "stepfunctions-endpoint".

Record providerState := mkProvider {
  endpoint : string;
  isConnected : bool;
  isChecking : bool;
  lastError : option string
}.

(** The provider as it is mounted: the initializer of [endpoint] reads
    [localStorage] ([saved || DEFAULT_ENDPOINT]). *)
Definition EndpointProvider (localStorage : gmap string string) : providerState :=
  mkProvider (default DEFAULT_ENDPOINT (truthy (localStorage !! STORAGE_KEY)))
    false true None.

Definition updateEndpoint (newEndpoint : string)
    (c : providerState * gmap string string) : providerState * gmap string string :=
  (mkProvider newEndpoint (isConnected c.1) (isChecking c.1) (lastError c.1),
   <[STORAGE_KEY := newEndpoint]> c.2).

(** What the request of [checkConnection] comes to: [fetch] rejects with an
    error; or it resolves with a response that is [ok], or with one that is
    not, whose body [response.json()] fails to decode, or decodes to [null],
    to an object with or without a [message], or to another value. *)
Inductive errorBody :=
  | BodyInvalid (message : option string)
  | BodyNull
  | BodyObject (message : option string)
  | BodyOther.

Inductive fetchResult :=
  | FetchRejected (message : option string)
  | FetchOk
  | FetchError (body : errorBody).

(** [message || fallback] *)
Definition orElse (message : option string) (fallback : string) : string :=
  default fallback (truthy message).

Section CheckConnection.

(** The message of the [TypeError] raised by reading [message] of [null]. *)
Variable nullMessage : option string.

(** The provider's state when [checkConnection] has started
    ([setIsChecking(true); setLastError(null)]) and when it has settled. *)
Definition checkStarted (p : providerState) : providerState :=
  mkProvider (endpoint p) (isConnected p) true None.

Definition checkConnection (r : fetchResult) (p : providerState) : providerState :=
  let caught message :=
    mkProvider (endpoint p) false false
      (Some (orElse message "Unable to connect")) in
  match r with
  | FetchRejected message => caught message
  | FetchOk => mkProvider (endpoint p) true false None
  | FetchError (BodyInvalid message) => caught message
  | FetchError BodyNull => caught nullMessage
  | FetchError (BodyObject message) =>
      mkProvider (endpoint p) false false
        (Some (orElse message "Connection failed"))
  | FetchError BodyOther =>
      mkProvider (endpoint p) false false (Some "Connection failed")
  end.

End CheckConnection.

(** ConnectionStatus: the status text, the status class, and whether the
    error box is rendered ([lastError && !isConnected]). *)
Definition getStatusText (p : providerState) : string :=
  if isChecking p then "Checking..."
  else if isConnected p then "Connected" else "Disconnected".

Definition getStatusClass (p : providerState) : string :=
  if isChecking p then "status-checking"
  else if isConnected p then "status-connected" else "status-disconnected".

Definition showsError (p : providerState) : bool :=
  match truthy (lastError p) with
  | Some _ => negb (isConnected p)
  | None => false
  end.

(** ** Where a call of processState puts a state

    The column of the target of rule [index] of a Choice state at [x]
    ([startX + index * HORIZONTAL_SPACING]; the default counts as one rule
    more, after the others). *)
Definition choiceColumn (x : Z) (st : stateObj) (choices : list choice)
    (index : nat) : Z :=
  x - (Z.of_nat (length choices)
       + (match truthy (Default st) with Some _ => 1 | None => 0 end) - 1)
      * HORIZONTAL_SPACING / 2
  + Z.of_nat index * HORIZONTAL_SPACING.

(** [ny] is the row below the branches [brs] whose first nodes are on the row
    [y1]: [maxBranchY], the greatest of [y1] and of the rows under the last
    node of each branch. *)
Definition belowBranches (brs : list machine) (y1 ny : Z) : Prop :=
  y1 ≤ ny
  ∧ (∀ index br b k last,
       brs !! index = Some br → truthy (StartAt br) = Some b →
       chainLast (statesOf br) b k last →
       y1 + VERTICAL_SPACING * (Z.of_nat k + 1) ≤ ny)
  ∧ (ny = y1
     ∨ ∃ index br b k last,
         brs !! index = Some br ∧ truthy (StartAt br) = Some b ∧
         chainLast (statesOf br) b k last ∧
         ny = y1 + VERTICAL_SPACING * (Z.of_nat k + 1)).

(** The recursive calls in the body of [processState] on the state [st] laid
    out at [(x, y)]: on which state, and with which anchor.  A Choice state
    calls on the target of a rule at the first rule that names it
    ([choiceTargets] holds the targets of the rules before), and on its
    default when no rule names it. *)
Inductive callSite (st : stateObj) (x y : Z) : string → Z → Z → Prop :=
  | site_next t :
      dispatch st = KRegular → truthy (Next st) = Some t →
      callSite st x y t x (y + VERTICAL_SPACING)
  | site_choice cs index c t :
      dispatch st = KChoice cs → cs !! index = Some c →
      truthy (chNext c) = Some t →
      (∀ j c', (j < index)%nat → cs !! j = Some c' →
         truthy (chNext c') ≠ Some t) →
      callSite st x y t (choiceColumn x st cs index) (y + VERTICAL_SPACING)
  | site_default cs t :
      dispatch st = KChoice cs → truthy (Default st) = Some t →
      (∀ j c', cs !! j = Some c' → truthy (chNext c') ≠ Some t) →
      callSite st x y t (choiceColumn x st cs (length cs))
        (y + VERTICAL_SPACING)
  | site_parallel brs t ny :
      dispatch st = KParallel brs → truthy (Next st) = Some t →
      belowBranches brs (y + VERTICAL_SPACING) ny →
      callSite st x y t x ny.

(** How the node [n] of a state came to its place, [ns] being the nodes
    pushed before it: it is the node of the start state, one row under the
    entry marker; or it was pushed by a call made while laying out a state
    that has its node in [ns]; or it is a Fail state put beside a state that
    catches to it. *)
Definition placed (states : gmap string stateObj) (startAt : string)
    (ns : list Node.t) (n : Node.t) : Prop :=
  (∃ st, states !! startAt = Some st
     ∧ n = mainNode startAt 0 VERTICAL_SPACING st)
  ∨ (∃ s st x y t tst x' y',
       states !! s = Some st ∧ mainNode s x y st ∈ ns ∧
       states !! t = Some tst ∧ callSite st x y t x' y' ∧
       n = mainNode t x' y' tst)
  ∨ (∃ s st x y t tst,
       states !! s = Some st ∧ mainNode s x y st ∈ ns ∧
       t ∈ catchTargets st ∧ states !! t = Some tst ∧ isFail tst = true ∧
       n = failNode t (x + HORIZONTAL_SPACING) y tst).

(** The condition under which [processState] is called on [name] at
    [(x, y)]: at top level, or from a call site of a state with its node. *)
Definition calledFrom (states : gmap string stateObj) (startAt : string)
    (name : string) (x y : Z) (σ : layoutState) : Prop :=
  (name = startAt ∧ x = 0 ∧ y = VERTICAL_SPACING)
  ∨ ∃ s st xs ys,
      states !! s = Some st ∧ mainNode s xs ys st ∈ nodes σ ∧
      callSite st xs ys name x y.

Definition allPlaced (states : gmap string stateObj) (startAt : string)
    (ns : list Node.t) : Prop :=
  ∀ i n, ns !! i = Some n → isStateNode n = true →
    placed states startAt (take i ns) n.

(** The states whose layout calls [processState] on [t], and the states that
    catch to [t]. *)
Definition referrers (states : gmap string stateObj) (t : string)
    : list string :=
  (map_to_list (filter (λ p, t ∈ successors p.2) states)).*1.

Definition catchers (states : gmap string stateObj) (t : string)
    : list string :=
  (map_to_list (filter (λ p, t ∈ catchTargets p.2) states)).*1.

(** The index of the first rule of [choices] that names [t]; the number of
    rules, which is the index of the default, when none does. *)
Fixpoint choiceIndex (choices : list choice) (t : string) : nat :=
  match choices with
  | [] => 0
  | c :: choices' =>
      if bool_decide (truthy (chNext c) = Some t) then 0
      else S (choiceIndex choices' t)
  end.

(** A Choice state with two rules and a default, to three states. *)
Definition choiceFan : machine :=
  mkMachine (Some "C")
    (Some {[ "C" := mkState (Some "Choice") None false None
                      (Some [rule "X"; rule "Y"]) (Some "Z") None;
             "X" := pass None true;
             "Y" := pass None true;
             "Z" := mkState (Some "Fail") None false None None None None ]}).

(** ** ConnectionStatus: editing the endpoint
    (src/components/ConnectionStatus.js)

    The component keeps [isEditing] and [tempEndpoint], the text of the
    input, beside the provider's state and [localStorage]. *)
Record widgetState := mkWidget {
  isEditing : bool;
  tempEndpoint : string
}.

Record application := mkApp {
  provider : providerState;
  localStorage : gmap string string;
  widget : widgetState
}.

(** The application as it is mounted: [useState(false)] and
    [useState(endpoint)]. *)
Definition mount (storage : gmap string string) : application :=
  let p := EndpointProvider storage in
  mkApp p storage (mkWidget false (endpoint p)).

(** What happens to the application: a click on the edit button, rendered
    when not editing; a change of the input and a click on the save or the
    cancel button, rendered when editing; a run of [checkConnection] (at
    mount, every 30 seconds, when the endpoint changes, or on a click on the
    refresh button), which starts and then settles with what its request
    comes to. *)
Inductive event :=
  | ClickEdit
  | Change (value : string)
  | ClickSave
  | ClickCancel
  | CheckStarted
  | Checked (r : fetchResult).

Definition handleSave (a : application) : application :=
  let '(p, storage) :=
    updateEndpoint (tempEndpoint (widget a)) (provider a, localStorage a) in
  mkApp p storage (mkWidget false (tempEndpoint (widget a))).

Definition handleCancel (a : application) : application :=
  mkApp (provider a) (localStorage a) (mkWidget false (endpoint (provider a))).

Section Handle.

Variable nullMessage : option string.

Definition handle (a : application) (e : event) : application :=
  match e with
  | ClickEdit =>
      if isEditing (widget a) then a
      else mkApp (provider a) (localStorage a)
             (mkWidget true (tempEndpoint (widget a)))
  | Change value =>
      if isEditing (widget a) then
        mkApp (provider a) (localStorage a) (mkWidget true value)
      else a
  | ClickSave => if isEditing (widget a) then handleSave a else a
  | ClickCancel => if isEditing (widget a) then handleCancel a else a
  | CheckStarted =>
      mkApp (checkStarted (provider a)) (localStorage a) (widget a)
  | Checked r =>
      mkApp (checkConnection nullMessage r (provider a)) (localStorage a)
        (widget a)
  end.

End Handle.

(** ** StateMachineDiagram: loading a definition
    (src/components/StateMachineDiagram.js) *)

(** The value [response.json()] resolves to: [null], an object with its
    [name] and [definition] (absent, [null], a text or an object), or another
    value, which has neither. *)
Inductive described :=
  | DescribedNull
  | DescribedObject (name : option string) (definition : jsInput)
  | DescribedOther.

(** What the request of [fetchStateMachine] comes to: [fetch] rejects; the
    response is not [ok]; its body fails to decode; or it decodes. *)
Inductive describeResult :=
  | DescribeRejected (message : option string)
  | DescribeNotOk
  | DescribeInvalid (message : option string)
  | DescribeJson (data : described).

Module Page.

Record state := mk {
  stateMachine : described;
  loading : bool;
  error : option string;
  nodes : list Node.t;
  edges : list Edge.t
}.

End Page.

(** The component as it is mounted. *)
Definition StateMachineDiagram : Page.state :=
  Page.mk DescribedNull true None [] [].

(** What the component renders: the loading screen, the error screen with
    its message, or the page with the name ([stateMachine?.name]) and the
    diagram. *)
Inductive view :=
  | ViewLoading
  | ViewError (message : string)
  | ViewDiagram (name : option string) (ns : list Node.t) (es : list Edge.t).

Definition nameOf (data : described) : option string :=
  match data with
  | DescribedObject name _ => name
  | _ => None
  end.

Definition render (d : Page.state) : view :=
  if Page.loading d then ViewLoading
  else
    match truthy (Page.error d) with
    | Some message => ViewError message
    | None =>
        ViewDiagram (nameOf (Page.stateMachine d)) (Page.nodes d)
          (Page.edges d)
    end.

Section FetchStateMachine.

Variable JSON_parse : string → option parsed.
(** The messages of the [TypeError]s raised by reading [definition] of
    [null] and by reading [States] of [null]. *)
Variable nullMessage : option string.
Variable throwMessage : option string.

(** [fetchStateMachine], run to its end; [None] when [parseStateMachine]
    does not return. *)
Definition fetchStateMachine (fuel : nat) (decodedArn : string)
    (r : describeResult) (d : Page.state) : option Page.state :=
  if bool_decide (decodedArn = EmptyString) then Some d
  else
    let caught message (sm : described) :=
      Some (Page.mk sm false message (Page.nodes d) (Page.edges d)) in
    match r with
    | DescribeRejected message => caught message (Page.stateMachine d)
    | DescribeNotOk =>
        caught (Some "Failed to fetch state machine") (Page.stateMachine d)
    | DescribeInvalid message => caught message (Page.stateMachine d)
    | DescribeJson data =>
        match data with
        | DescribedNull => caught nullMessage data
        | _ =>
            let definition :=
              match data with
              | DescribedObject _ definition => definition
              | _ => InUndefined
              end in
            match parseStateMachine JSON_parse fuel definition with
            | Returns g => Some (Page.mk data false None (g_nodes g) (g_edges g))
            | Throws => caught throwMessage data
            | Diverges => None
            end
        end
    end.

End FetchStateMachine.

(** ** The ids of the nodes

    No name of a state of the definition holds an underscore. *)
Definition plainNames (states : gmap string stateObj) : bool :=
  bool_decide (map_Forall (λ s _, noUnderscore s = true) states).

(** A name that [states[name]] can find when the keys of [States] hold no
    underscore: a name without underscore, or one of the names every object
    inherits. *)
Definition tame (s : string) : Prop :=
  noUnderscore s = true ∨ s ∈ Object_prototype.

(** The ids of the nodes pushed so far: the entry marker; the processed
    states; the states of the branches of the processed Parallel states,
    those in [pre] standing before their branch loop; the exit markers of
    the processed states, those in [pend] being still laid out. *)
Inductive idKind (states : gmap string stateObj) (σ : layoutState)
    (pre pend : gset string) : string → Prop :=
  | kind_start : idKind states σ pre pend "__START__"
  | kind_state s :
      s ∈ processedStates σ → is_Some (states !! s) →
      idKind states σ pre pend s
  | kind_branch p index x :
      p ∈ processedStates σ → is_Some (states !! p) → p ∉ pre →
      idKind states σ pre pend (branchId p index x)
  | kind_end s :
      s ∈ processedStates σ → s ∉ pend →
      idKind states σ pre pend (endNodeId s).

Record idsInv (states : gmap string stateObj) (pre pend : gset string)
    (σ : layoutState) : Prop := mkIdsInv {
  ids_nodup : NoDup (nodeIds (nodes σ));
  ids_kind : ∀ id, id ∈ nodeIds (nodes σ) → idKind states σ pre pend id;
  ids_pend : pend ⊆ processedStates σ
}.

(** A state named like the exit marker of the state that leads to it. *)
Definition markerName : machine :=
  mkMachine (Some "A")
    (Some {[ "A" := task (Some "__END_A__") true;
             "__END_A__" := task None false ]}).


(** ** The ids of the edges *)

Definition hyphen : Ascii.ascii := Ascii.ascii_of_nat 45.
Definition noHyphen (s : string) : bool := lacks hyphen s.

(** A name without hyphen and without underscore. *)
Definition plain (s : string) : bool := noHyphen s && noUnderscore s.

Definition edgeIds (es : list Edge.t) : list string := Edge.id <$> es.

(** The definitions on which the ids of the edges are kept apart by their
    hyphens: the names of the states are plain, the [Next] of a state laid
    out by the regular path is plain, and the names of the states of the
    branches of a Parallel state hold no hyphen. *)
Definition plainState (s : string) (st : stateObj) : Prop :=
  plain s = true
  ∧ match dispatch st with
    | KRegular =>
        match truthy (Next st) with
        | Some next => plain next = true
        | None => True
        end
    | KChoice _ => True
    | KParallel branches =>
        Forall (λ br, map_Forall (λ t _, noHyphen t = true) (statesOf br))
          branches
    end.

Global Instance plainState_dec s st : Decision (plainState s st).
Proof.
  unfold plainState. destruct (dispatch st); [| |destruct (truthy (Next st))];
    apply _.
Defined.

Definition plainDefinition (states : gmap string stateObj) : bool :=
  bool_decide (map_Forall plainState states).

(** The id of an edge pushed while laying out a state of [owners]: what
    precedes its first hyphen is the name of that state, or the id of a node
    of one of its branches. *)
Definition idOwned (owners : gset string) (id : string) : Prop :=
  ∃ src rest,
    id = src +:+ "-" +:+ rest ∧ noHyphen src = true
    ∧ (src ∈ owners ∨ ∃ p index t, src = branchId p index t ∧ p ∈ owners).

(** The ids of the edges along the nodes [ids] of a branch. *)
Fixpoint chainEdgeIds (ids : list string) : list string :=
  match ids with
  | prev :: ((next :: _) as rest) =>
      (prev +:+ "-to-" +:+ next) :: chainEdgeIds rest
  | _ => []
  end.

Record edgesInv (states : gmap string stateObj) (startAt : string)
    (σ : layoutState) : Prop := mkEdgesInv {
  ei_nodup : NoDup (edgeIds (edges σ));
  ei_owned : ∀ id, id ∈ edgeIds (edges σ) →
               id = "__START__-" +:+ startAt
               ∨ idOwned (processedStates σ) id;
  ei_states : ∀ s, s ∈ processedStates σ → is_Some (states !! s);
  ei_keys : ∀ key, is_Some (nodePositions σ !! key) →
              key ∈ processedStates σ
              ∨ ∃ p index x, key = branchId p index x ∧ p ∈ processedStates σ
}.

(** What a run from [σ] to [σ'] pushed belongs to the states it
    processed. *)
Definition newOwned (σ σ' : layoutState) : Prop :=
  processedStates σ ⊆ processedStates σ'
  ∧ ∀ id, id ∈ edgeIds (edges σ') →
      id ∈ edgeIds (edges σ)
      ∨ idOwned (processedStates σ' ∖ processedStates σ) id.

(** While the state [name], not processed in [σ], is laid out: [own] holds
    of the ids pushed for it so far. *)
Record bodyInv (states : gmap string stateObj) (startAt : string)
    (σ : layoutState) (name : string) (own : string → Prop)
    (τ : layoutState) : Prop := mkBodyInv {
  bi_inv : edgesInv states startAt τ;
  bi_fresh : name ∉ processedStates σ;
  bi_name : name ∈ processedStates τ;
  bi_new : newOwned σ τ;
  bi_own : ∀ id, id ∈ edgeIds (edges τ) → idOwned {[name]} id → own id
}.

(** The ids pushed for the rules of [name] before the rule [i], for the
    catch rules ([kind] is [-catch-]) and for the choice rules
    ([-choice-]). *)
Definition indexedIds (name kind : string) (i : nat) (id : string) : Prop :=
  ∃ j next, (j < i)%nat ∧ id = name +:+ kind +:+ pretty j +:+ "-" +:+ next.

(** The state [t] is not the last of the chain of the branch [j] of
    [branches]; the state [l] is. *)
Definition notLast (branches : list machine) (j : nat) (t : string) : Prop :=
  ∀ br b k l,
    branches !! j = Some br → truthy (StartAt br) = Some b →
    chainLast (statesOf br) b k l → t ≠ l.

Definition isLast (branches : list machine) (j : nat) (l : string) : Prop :=
  ∃ br b k,
    branches !! j = Some br ∧ truthy (StartAt br) = Some b
    ∧ chainLast (statesOf br) b k l.

(** The ids pushed for the branches of [name] before the branch [i]: the
    edge to the first node of a branch, and the edges along a branch, each
    from a node that is not the last. *)
Definition branchIds (branches : list machine) (name : string) (i : nat)
    (id : string) : Prop :=
  ∃ j, (j < i)%nat
    ∧ ((∃ b, id = name +:+ "-to-" +:+ branchId name j b)
       ∨ (∃ t rest, id = branchId name j t +:+ "-" +:+ rest
                    ∧ noHyphen t = true ∧ notLast branches j t)).

(** The ids pushed by the second loop over the branches before the branch
    [i]: the rejoin edges, each from the last node of a branch. *)
Definition rejoinIds (branches : list machine) (name next : string) (i : nat)
    (id : string) : Prop :=
  branchIds branches name (length branches) id
  ∨ ∃ j l, (j < i)%nat
      ∧ id = branchId name j l +:+ "-to-" +:+ next ∧ isLast branches j l.

(** The keys of [nodePositions] under the branches of [name]: of the
    branches before [i] only, that have a chain. *)
Definition branchKeys (branches : list machine) (name : string) (i : nat)
    (σ : layoutState) : Prop :=
  ∀ j x, is_Some (nodePositions σ !! branchId name j x) →
    (j < i)%nat ∧ ∃ l, isLast branches j l.

(** ** The edges of the branches of a Parallel state *)

(** The edge into branch [index] of the Parallel state [p], and the rejoin
    edge from the node of [last], the last state of that branch's chain, to
    [next]. *)
Definition entryEdge (p : string) (index : nat) (b : string) : Edge.t :=
  plainEdge (p +:+ "-to-" +:+ branchId p index b) (PosId p)
    (branchId p index b) "#a78bfa".

Definition rejoinEdge (p : string) (index : nat) (last next : string) : Edge.t :=
  plainEdge (branchId p index last +:+ "-to-" +:+ next)
    (PosId (branchId p index last)) next "#a78bfa".

(** The two kinds of edges drawn with the stroke of the branches. *)
Inductive branchEdge (states : gmap string stateObj) : Edge.t → Prop :=
  | branch_entry p st brs index br b :
      states !! p = Some st → dispatch st = KParallel brs →
      brs !! index = Some br → truthy (StartAt br) = Some b →
      is_Some (statesOf br !! b) →
      branchEdge states (entryEdge p index b)
  | branch_rejoin p st brs index br b k last next :
      states !! p = Some st → dispatch st = KParallel brs →
      truthy (Next st) = Some next →
      brs !! index = Some br → truthy (StartAt br) = Some b →
      chainLast (statesOf br) b k last →
      branchEdge states (rejoinEdge p index last next).

(** Every edge with the stroke of the branches is one of these two; the
    processed names are found in [States], and every key of [nodePositions]
    is a processed name or is scoped to one. *)
Record rejoinInv (states : gmap string stateObj) (σ : layoutState) : Prop :=
  mkRejoinInv {
    ri_edges : ∀ e, e ∈ edges σ → Edge.stroke e = "#a78bfa" →
                 branchEdge states e;
    ri_states : ∀ s, s ∈ processedStates σ → is_Some (states !! s);
    ri_keys : ∀ key, is_Some (nodePositions σ !! key) →
                key ∈ processedStates σ
                ∨ ∃ p index x, key = branchId p index x ∧ p ∈ processedStates σ
  }.

(** All the edges that arrive at the node id [t]. *)
Definition incoming (g : graph) (t : string) : list Edge.t :=
  List.filter (λ e, bool_decide (Edge.target e = t)) (g_edges g).

(** The edges that arrive at [t] from a node of a branch of [p]: their
    source is an id that begins with [<p>_branch_]. *)
Definition fromBranches (g : graph) (p t : string) : list Edge.t :=
  List.filter
    (λ e, match Edge.source e with
          | PosId s => String.prefix (p +:+ "_branch_") s
          | PosXY _ => false
          end)
    (incoming g t).

(** A Choice state that leads to [S] and to a Parallel state with two
    branches of two states each, which is followed by [S]:
    [{StartAt: "C", States: {
        C: {Type: "Choice", Choices: [{Next: "S"}, {Next: "P"}]},
        P: {Type: "Parallel", Next: "S", Branches: [
              {StartAt: "a1", States: {a1: {Type: "Task", Next: "a2"},
                                       a2: {Type: "Task", End: true}}},
              {StartAt: "b1", States: {b1: {Type: "Task", Next: "b2"},
                                       b2: {Type: "Task", End: true}}}]},
        S: {Type: "Task", End: true}}}] *)
Definition rejoinShared : machine :=
  mkMachine (Some "C")
    (Some {[ "C" := mkState (Some "Choice") None false None
                      (Some [rule "S"; rule "P"]) None None;
             "P" :=
      mkState (Some "Parallel") (Some "S") false None None None
        (Some [mkMachine (Some "a1")
                 (Some {[ "a1" := task (Some "a2") false;
                          "a2" := task None true ]});
               mkMachine (Some "b1")
                 (Some {[ "b1" := task (Some "b2") false;
                          "b2" := task None true ]})]);
             "S" := task None true ]}).

(** ** The edge of a target of a Choice state

    The edge drawn from the Choice state [name] to [t]: that of the first
    rule that names [t], with its index and its label, or the default edge
    when no rule names [t]. *)
Definition fanEdge (name : string) (choices : list choice) (t : string)
    : Edge.t :=
  match choices !! choiceIndex choices t with
  | Some c => choiceEdge name (choiceIndex choices t) c t
  | None => defaultEdge name t
  end.

(** ** The states whose transitions are followed

    [processState] runs its body on the start state and on the successors
    of a state it runs its body on; a catch rule leads to no call. *)
Inductive followed (states : gmap string stateObj) (startAt : string)
    : string → Prop :=
  | followed_start :
      is_Some (states !! startAt) → followed states startAt startAt
  | followed_successor s st t :
      followed states startAt s → states !! s = Some st →
      t ∈ successors st → is_Some (states !! t) →
      followed states startAt t.

(** A Fail state named by a catch rule of a followed state, laid out by
    the regular path. *)
Definition caught (states : gmap string stateObj) (startAt : string)
    (u : string) : Prop :=
  ∃ t stT, followed states startAt t ∧ states !! t = Some stT
    ∧ u ∈ catchTargets stT ∧ targetIsFail states u = true.

Definition invFollowed (states : gmap string stateObj) (startAt : string)
    (c : config) : Prop :=
  (∀ s, s ∈ processedStates c.2 →
     followed states startAt s ∨ caught states startAt s)
  ∧ (∀ fr, fr ∈ c.1 → followed states startAt (f_name fr)).

(** A Task whose [Next] and whose catch rule both name the Pass state [B]:
    [{StartAt: "A", States: {
        A: {Type: "Task", Next: "B", Catch: [{Next: "B"}]},
        B: {Type: "Pass", End: true}}}] *)
Definition catchBelow : machine :=
  mkMachine (Some "A")
    (Some {[ "A" := mkState (Some "Task") (Some "B") false
                      (Some [mkCatch (Some "B")]) None None None;
             "B" := pass None true ]}).

(** Three states in a row, the first named with a hyphen: [A-B], [C], [A],
    the last with a [Next] that is not a state. *)
Definition hyphenNames : machine :=
  mkMachine (Some "A-B")
    (Some {[ "A-B" := task (Some "C") false;
             "C" := task (Some "A") false;
             "A" := task (Some "B-C") false ]}).

(** ** Definitions that are one sequence of states

    [follows states startAt s rest]: the state [s] is laid out by the regular
    path and is not a Fail state, and the states of [rest] come after it,
    each the [Next] of the one before and led to by no other state. *)
Fixpoint follows (states : gmap string stateObj) (startAt : string)
    (s : string) (rest : list string) : bool :=
  match states !! s with
  | Some st =>
      match dispatch st with KRegular => true | _ => false end
      && negb (isFail st)
      && match rest with
         | [] => true
         | t :: rest' =>
             bool_decide (truthy (Next st) = Some t)
             && bool_decide (t ≠ startAt)
             && bool_decide (referrers states t = [s])
             && follows states startAt t rest'
         end
  | None => false
  end.

(** [names] is such a sequence, from the start state on. *)
Definition straightLine (states : gmap string stateObj) (startAt : string)
    (names : list string) : bool :=
  match names with
  | s :: rest => bool_decide (s = startAt) && follows states startAt s rest
  | [] => false
  end.

(** Three Pass states in a row. *)
Definition threeSteps : machine :=
  mkMachine (Some "A")
    (Some {[ "A" := pass (Some "B") false;
             "B" := pass (Some "C") false;
             "C" := pass None true ]}).


(** * Property lookup on a States object *)

Lemma Object_prototype_NoDup : NoDup Object_prototype.
Proof. refine (bool_decide_unpack _ _). vm_compute. exact I. Qed.

Lemma inherited_Some s st :
  inherited !! s = Some st ↔ s ∈ Object_prototype ∧ st = inheritedValue.
Proof.
  unfold inherited. split.
  - intros H%elem_of_list_to_map_2.
    apply list_elem_of_fmap in H as (name & [= -> ->] & Hin). done.
  - intros [Hin ->]. apply elem_of_list_to_map_1.
    + refine (bool_decide_unpack _ _). vm_compute. exact I.
    + apply list_elem_of_fmap. by exists s.
Qed.

Lemma inherited_None s : inherited !! s = None ↔ s ∉ Object_prototype.
Proof.
  split.
  - intros Hnone Hin.
    assert (inherited !! s = Some inheritedValue) by by apply inherited_Some.
    congruence.
  - intros Hnot. destruct (inherited !! s) as [st|] eqn:E; [|done].
    apply inherited_Some in E as [? _]. done.
Qed.

(** [states[name]]: the own key when there is one, else the inherited
    name. *)
Lemma statesOf_Some m s st :
  statesOf m !! s = Some st ↔
  ownStates m !! s = Some st
  ∨ (ownStates m !! s = None ∧ s ∈ Object_prototype ∧ st = inheritedValue).
Proof.
  unfold statesOf. rewrite lookup_union_Some_raw, inherited_Some. tauto.
Qed.

Lemma statesOf_None m s :
  statesOf m !! s = None ↔ ownStates m !! s = None ∧ s ∉ Object_prototype.
Proof. unfold statesOf. by rewrite lookup_union_None, inherited_None. Qed.

Lemma statesOf_own m s st :
  ownStates m !! s = Some st → statesOf m !! s = Some st.
Proof. intros. apply statesOf_Some. by left. Qed.

(** A value that has one of the fields the code reads is an own key. *)
Lemma statesOf_written m s st :
  statesOf m !! s = Some st → st ≠ inheritedValue →
  ownStates m !! s = Some st.
Proof. intros [?|(_ & _ & ->)]%statesOf_Some ?; done. Qed.

Lemma ownStates_size m s st :
  ownStates m !! s = Some st → size (ownStates m) ≠ 0%nat.
Proof.
  intros Hs Hsize%map_size_empty_inv. rewrite Hsize in Hs.
  by rewrite lookup_empty in Hs.
Qed.

(** An inherited value is laid out as a regular state without transitions. *)
Lemma inheritedValue_successors : successors inheritedValue = [].
Proof. reflexivity. Qed.

Lemma statesOf_successors m s st t :
  statesOf m !! s = Some st → t ∈ successors st →
  ownStates m !! s = Some st.
Proof.
  intros Hs Ht. apply (statesOf_written _ _ _ Hs). intros ->.
  by apply elem_of_nil in Ht.
Qed.

Lemma statesOf_parallel m s st brs :
  statesOf m !! s = Some st → dispatch st = KParallel brs →
  ownStates m !! s = Some st.
Proof. intros Hs Hk. apply (statesOf_written _ _ _ Hs). by intros ->. Qed.

Lemma statesOf_choice m s st cs :
  statesOf m !! s = Some st → dispatch st = KChoice cs →
  ownStates m !! s = Some st.
Proof. intros Hs Hk. apply (statesOf_written _ _ _ Hs). by intros ->. Qed.

Lemma statesOf_fail m s st :
  statesOf m !! s = Some st → isFail st = true →
  ownStates m !! s = Some st.
Proof. intros Hs Hk. apply (statesOf_written _ _ _ Hs). by intros ->. Qed.


(** * Reasoning about runs of the traversal monad *)

Lemma bind_Some {A B} (m : M A) (k : A → M B) σ r :
  bind m k σ = Some r → ∃ a σ1, m σ = Some (a, σ1) ∧ k a σ1 = Some r.
Proof. unfold bind. destruct (m σ) as [[a σ1]|]; [eauto | done]. Qed.

Lemma ret_Some {A} (a : A) σ r : ret a σ = Some r → r = (a, σ).
Proof. unfold ret. congruence. Qed.

Lemma pushNode_Some n σ r : pushNode n σ = Some r → r = (tt, push_node n σ).
Proof. unfold pushNode. congruence. Qed.

Lemma pushEdge_Some e σ r : pushEdge e σ = Some r → r = (tt, push_edge e σ).
Proof. unfold pushEdge. congruence. Qed.

Lemma setPosition_Some k v σ r :
  setPosition k v σ = Some r → r = (tt, set_position k v σ).
Proof. unfold setPosition. congruence. Qed.

Lemma getPosition_Some k σ r :
  getPosition k σ = Some r → r = (nodePositions σ !! k, σ).
Proof. unfold getPosition. congruence. Qed.

Lemma addProcessed_Some s σ r :
  addProcessed s σ = Some r → r = (tt, add_processed s σ).
Proof. unfold addProcessed. congruence. Qed.

Lemma hasProcessed_Some s σ r :
  hasProcessed s σ = Some r → r = (bool_decide (s ∈ processedStates σ), σ).
Proof. unfold hasProcessed. congruence. Qed.

Lemma outOfFuel_Some {A} σ (r : A * layoutState) : outOfFuel σ = Some r → False.
Proof. unfold outOfFuel. congruence. Qed.

(** One inversion step on a hypothesis that a monadic computation returned. *)
Ltac minv1 :=
  match goal with
  | H : bind _ _ _ = Some _ |- _ =>
      let a := fresh "a" in let σ := fresh "σ" in let E := fresh "E" in
      apply bind_Some in H as (a & σ & E & H)
  | H : ret _ _ = Some _ |- _ => apply ret_Some in H; subst
  | H : pushNode _ _ = Some _ |- _ => apply pushNode_Some in H
  | H : pushEdge _ _ = Some _ |- _ => apply pushEdge_Some in H
  | H : setPosition _ _ _ = Some _ |- _ => apply setPosition_Some in H
  | H : getPosition _ _ = Some _ |- _ => apply getPosition_Some in H
  | H : addProcessed _ _ = Some _ |- _ => apply addProcessed_Some in H
  | H : hasProcessed _ _ = Some _ |- _ => apply hasProcessed_Some in H
  | H : outOfFuel _ = Some _ |- _ => destruct (outOfFuel_Some _ _ H)
  | H : (_, _) = (_, _) |- _ => injection H as ? ?; subst
  | H : ?r = (_, _) |- _ => is_var r; subst r
  end.
Ltac minv := repeat minv1.

(** The loop rule for [forEach]: an invariant indexed by the iteration. *)
Lemma forEachFrom_inv {A V} (Inv : nat → V → layoutState → Prop)
    (f : A → nat → V → M V) (l : list A) :
  ∀ i0 s0 σ s' σ',
    Inv i0 s0 σ →
    (∀ i a s σ s1 σ1,
        l !! i = Some a → Inv (i0 + i)%nat s σ →
        f a (i0 + i)%nat s σ = Some (s1, σ1) → Inv (S (i0 + i)) s1 σ1) →
    forEachFrom f l i0 s0 σ = Some (s', σ') →
    Inv (i0 + length l)%nat s' σ'.
Proof.
  induction l as [|a l IH]; intros i0 s0 σ s' σ' H0 Hstep Hrun; simpl in Hrun.
  - minv. by rewrite Nat.add_0_r.
  - minv.
    replace (i0 + length (a :: l))%nat with (S i0 + length l)%nat by (simpl; lia).
    eapply IH; [| | exact Hrun].
    + specialize (Hstep 0%nat a s0 σ). rewrite Nat.add_0_r in Hstep.
      eapply Hstep; eauto.
    + intros i b s σ1 s1 σ2 Hl HI Hf.
      replace (S i0 + i)%nat with (i0 + S i)%nat in * by lia.
      eapply Hstep; eauto.
Qed.

Lemma forEach_inv {A V} (Inv : nat → V → layoutState → Prop)
    (f : A → nat → V → M V) (l : list A) s0 σ s' σ' :
  Inv 0%nat s0 σ →
  (∀ i a s σ s1 σ1,
      l !! i = Some a → Inv i s σ →
      f a i s σ = Some (s1, σ1) → Inv (S i) s1 σ1) →
  forEach f l s0 σ = Some (s', σ') →
  Inv (length l) s' σ'.
Proof.
  intros H0 Hstep Hrun.
  apply (forEachFrom_inv Inv f l 0%nat s0 σ s' σ' H0); [|exact Hrun].
  intros i a s σ1 s1 σ2. simpl. apply Hstep.
Qed.

Lemma nodeIds_snoc ns n : nodeIds (ns ++ [n]) = nodeIds ns ++ [Node.id n].
Proof. unfold nodeIds. by rewrite fmap_app. Qed.

Lemma nodeIds_app ns ns' : nodeIds (ns ++ ns') = nodeIds ns ++ nodeIds ns'.
Proof. unfold nodeIds. by rewrite fmap_app. Qed.

Lemma onChain_in bs s t : onChain bs s t → is_Some (bs !! s).
Proof. destruct 1; eauto. Qed.

Lemma onChain_end bs s t : onChain bs s t → is_Some (bs !! t).
Proof. induction 1; eauto. Qed.

(** * The code refines the transition system *)

Section Refinement.

Variable states : gmap string stateObj.
Variable startAt : string.

Local Abbreviation step := (step states startAt).
Local Abbreviation steps := (steps states startAt).
Local Abbreviation done := (done states).
Local Abbreviation callable := (callable states startAt).
Local Abbreviation call_spec := (call_spec states startAt).

Lemma steps_refl c : steps c c.
Proof. apply rtc_refl. Qed.

Lemma steps_trans c1 c2 c3 : steps c1 c2 → steps c2 c3 → steps c1 c3.
Proof. apply rtc_trans. Qed.

Lemma steps_r c1 c2 c3 : steps c1 c2 → step c2 c3 → steps c1 c3.
Proof. intros. eapply rtc_r; eauto. Qed.

Lemma step_processed c c' :
  step c c' → processedStates c.2 ⊆ processedStates c'.2.
Proof. destruct 1; simpl; set_solver. Qed.

Lemma steps_processed c c' :
  steps c c' → processedStates c.2 ⊆ processedStates c'.2.
Proof.
  induction 1 as [|c1 c2 c3 H1 _ IH]; [done|].
  apply step_processed in H1. set_solver.
Qed.

Lemma step_nodes c c' : step c c' → nodes c.2 `prefix_of` nodes c'.2.
Proof.
  destruct 1; simpl; try done;
    try (by apply prefix_app_r).
Qed.

Lemma steps_nodes c c' : steps c c' → nodes c.2 `prefix_of` nodes c'.2.
Proof.
  induction 1 as [|c1 c2 c3 H1 _ IH]; [done|].
  apply step_nodes in H1. by etrans.
Qed.

Lemma step_edges c c' : step c c' → edges c.2 `prefix_of` edges c'.2.
Proof.
  destruct 1; simpl; try done;
    try (by apply prefix_app_r).
Qed.

Lemma steps_edges c c' : steps c c' → edges c.2 `prefix_of` edges c'.2.
Proof.
  induction 1 as [|c1 c2 c3 H1 _ IH]; [done|].
  apply step_edges in H1. by etrans.
Qed.

Lemma done_mono σ σ' name :
  done σ name → processedStates σ ⊆ processedStates σ' → done σ' name.
Proof. intros [H|H] Hsub; [left; set_solver | by right]. Qed.

Lemma done_steps stk σ stk' σ' name :
  done σ name → steps (stk, σ) (stk', σ') → done σ' name.
Proof.
  intros Hd Hs. eapply done_mono; [exact Hd|].
  by apply steps_processed in Hs.
Qed.

Section Parallel.

Context (stk : list frame) (fr : frame) (st : stateObj) (brs : list machine).
Hypothesis Hst : states !! f_name fr = Some st.
Hypothesis Hkind : dispatch st = KParallel brs.

Lemma walkBranch_steps fuel index br bx :
  brs !! index = Some br →
  ∀ cur curSt by_ σ r σ',
    statesOf br !! cur = Some curSt →
    branchId (f_name fr) index cur ∈ nodeIds (nodes σ) →
    walkBranch fuel (statesOf br) (f_name fr) index bx curSt
      (branchId (f_name fr) index cur) by_ σ = Some (r, σ') →
    steps (fr :: stk, σ) (fr :: stk, σ') ∧
    (∃ last lastSt,
      r.1 = branchId (f_name fr) index last ∧
      statesOf br !! last = Some lastSt ∧
      r.1 ∈ nodeIds (nodes σ')) ∧
    (∀ t, onChain (statesOf br) cur t →
          branchId (f_name fr) index t ∈ nodeIds (nodes σ')).
Proof.
  intros Hbr. induction fuel as [|fuel IH]; intros cur curSt by_ σ r σ' Hcur Hin Hrun.
  all: simpl in Hrun.
  all: destruct (truthy (Next curSt)) as [next|] eqn:Hnext.
  all: try destruct (statesOf br !! next) as [nst|] eqn:Hn.
  all: minv.
  all: try (split; [apply steps_refl|]; split; [by eauto|];
            intros t Ht; inversion Ht as [|? ? ? ? Hs Hnx Hch]; subst; [done|];
            apply onChain_in in Hch as [? Hch]; congruence).
  eapply IH in Hrun as (Hs & Hlast & Hchain); [| exact Hn |].
  2:{ simpl. rewrite nodeIds_snoc. apply elem_of_app. right.
      by apply list_elem_of_singleton. }
  assert (Hfirst : step (fr :: stk, σ)
            (fr :: stk,
             branchAdvanced (f_name fr) index (branchId (f_name fr) index cur)
               next nst bx by_ σ)).
  { eapply step_branch_next; eauto. }
  split; [eapply steps_trans; [by apply rtc_once | exact Hs] |].
  split; [exact Hlast|].
  intros t Ht. inversion Ht as [|? ? ? ? Hs' Hnx Hch]; subst.
  - apply steps_nodes in Hs. simpl in Hs.
    destruct Hs as [k ->]. rewrite nodeIds_app. apply elem_of_app. left.
    rewrite nodeIds_snoc. apply elem_of_app. by left.
  - apply Hchain. congruence.
Qed.

Lemma layoutBranch_steps fuel startX nextY index br mb σ r σ' :
  brs !! index = Some br →
  layoutBranch fuel (f_name fr) startX nextY br index mb σ = Some (r, σ') →
  steps (fr :: stk, σ) (fr :: stk, σ') ∧
  (∀ s t, truthy (StartAt br) = Some s → onChain (statesOf br) s t →
          branchId (f_name fr) index t ∈ nodeIds (nodes σ')).
Proof.
  intros Hbr Hrun. unfold layoutBranch in Hrun.
  destruct (truthy (StartAt br)) as [s|] eqn:Hs;
    [|minv; split; [apply steps_refl | done]].
  destruct (statesOf br !! s) as [bst|] eqn:Hb.
  2:{ minv. split; [apply steps_refl|]. intros s' t [= <-] Hch.
      apply onChain_in in Hch as [? Hch]. congruence. }
  minv.
  match goal with
  | H : walkBranch _ _ _ _ _ _ _ _ _ = Some _ |- _ =>
      eapply walkBranch_steps in H as (Hw & (last & lastSt & Hl1 & Hl2 & Hl3) & Hch);
        eauto
  end.
  2:{ simpl. rewrite nodeIds_snoc. apply elem_of_app. right.
      by apply list_elem_of_singleton. }
  split.
  - eapply steps_r.
    + eapply steps_trans; [|exact Hw].
      apply rtc_once. eapply step_branch_start; eauto.
    + rewrite Hl1. eapply step_branch_end; eauto. by rewrite <- Hl1.
  - intros s' t [= <-] Ht. simpl. eauto.
Qed.

Lemma layoutBranches_steps fuel startX nextY mb σ r σ' :
  forEach (layoutBranch fuel (f_name fr) startX nextY) brs mb σ = Some (r, σ') →
  steps (fr :: stk, σ) (fr :: stk, σ') ∧
  (∀ index br s t, brs !! index = Some br →
     truthy (StartAt br) = Some s → onChain (statesOf br) s t →
     branchId (f_name fr) index t ∈ nodeIds (nodes σ')).
Proof.
  intros Hrun.
  apply (forEach_inv (λ i _ σ1,
    steps (fr :: stk, σ) (fr :: stk, σ1) ∧
    (∀ index br s t, (index < i)%nat → brs !! index = Some br →
       truthy (StartAt br) = Some s → onChain (statesOf br) s t →
       branchId (f_name fr) index t ∈ nodeIds (nodes σ1)))) in Hrun.
  - destruct Hrun as [Hs Hall]. split; [done|].
    intros index br s t Hbr. eapply Hall; eauto. by eapply lookup_lt_Some.
  - split; [apply steps_refl|]. intros; lia.
  - intros i br s σ1 s1 σ2 Hbr [Hs Hall] Hf.
    eapply layoutBranch_steps in Hf as [Hs2 Hnew]; eauto.
    split; [eapply steps_trans; eauto|].
    intros index br' s' t Hlt Hbr' Hstart Hch.
    destruct (decide (index = i)) as [->|Hne].
    + rewrite Hbr in Hbr'. injection Hbr' as <-. eauto.
    + apply steps_nodes in Hs2. simpl in Hs2. destruct Hs2 as [k ->].
      rewrite nodeIds_app. apply elem_of_app. left.
      eapply Hall; eauto. lia.
Qed.

Lemma rejoin_steps next u σ r σ' :
  truthy (Next st) = Some next →
  forEach (rejoinBranch (f_name fr) next) brs u σ = Some (r, σ') →
  steps (fr :: stk, σ) (fr :: stk, σ').
Proof.
  intros Hnext Hrun.
  apply (forEach_inv (λ _ _ σ1, steps (fr :: stk, σ) (fr :: stk, σ1))) in Hrun;
    [done | apply steps_refl |].
  intros i br s σ1 s1 σ2 Hbr Hs Hf.
  unfold rejoinBranch in Hf. minv.
  destruct (nodePositions σ1 !! branchId (f_name fr) i "end") as [v|] eqn:Hv;
    [|minv; done].
  destruct (entryTruthy v) eqn:Htr; minv; [|done].
  eapply steps_r; [exact Hs|].
  eapply step_rejoin; eauto. by eapply lookup_lt_Some.
Qed.

End Parallel.

(** Uses the specification [Hrec] of the recursive calls on the call found
    among the hypotheses. *)
Ltac call_rec Hrec Hcall Hs Hd :=
  match goal with
  | H : _ = Some _ |- _ =>
      pose proof (Hrec _ _ _ _ _ _ _ Hcall H) as [Hs Hd]; clear H
  end.


Section Body.

Variable rec : string → Z → Z → M Z.
Variable fuel : nat.
Hypothesis Hrec : call_spec rec.

Lemma layoutChoice_steps stk fr st cs startX nextY c index acc σ acc' σ' :
  states !! f_name fr = Some st →
  dispatch st = KChoice cs →
  cs !! index = Some c →
  f_targets fr = acc.2 →
  (∀ t, t ∈ acc.2 → done σ t) →
  layoutChoice rec (f_name fr) startX nextY c index acc σ = Some (acc', σ') →
  ∃ fr',
    f_name fr' = f_name fr ∧ f_x fr' = f_x fr ∧ f_y fr' = f_y fr ∧
    f_targets fr' = acc'.2 ∧
    steps (fr :: stk, σ) (fr' :: stk, σ') ∧
    (∀ t, t ∈ acc'.2 → done σ' t) ∧
    acc.2 ⊆ acc'.2 ∧
    (∀ t, truthy (chNext c) = Some t → t ∈ acc'.2).
Proof.
  intros Hst Hkind Hc HT Hdone Hrun.
  unfold layoutChoice in Hrun. destruct acc as [maxY T]. simpl in *. subst T.
  destruct (truthy (chNext c)) as [next|] eqn:Hnext.
  2:{ minv. exists fr. repeat split; auto using steps_refl. done. }
  case_bool_decide as Hin.
  { minv. exists fr. repeat split; auto using steps_refl.
    intros t [= <-]. done. }
  minv.
  assert (Hedge : step (fr :: stk, σ)
            (withTarget fr next :: stk,
             push_edge (choiceEdge (f_name fr) index c next) σ)).
  { eapply step_choice_edge; eauto. }
  assert (Hcall : callable (withTarget fr next :: stk) next).
  { simpl. exists st. split; [done|]. unfold successors. rewrite Hkind.
    apply elem_of_app. left. apply list_elem_of_omap.
    exists c. split; [|done]. by eapply list_elem_of_lookup_2. }
  case_bool_decide as Hseen; minv.
  - exists (withTarget fr next). simpl. repeat split; auto.
    + by apply rtc_once.
    + intros t [->%elem_of_singleton|Ht]%elem_of_union.
      * by left.
      * apply Hdone in Ht. eapply done_mono; [exact Ht|]. done.
    + set_solver.
    + intros t [= <-]. set_solver.
  - call_rec Hrec Hcall Hs Hd.
    exists (withTarget fr next). simpl. repeat split; auto.
    + eapply steps_trans; [by apply rtc_once | exact Hs].
    + intros t [->%elem_of_singleton|Ht]%elem_of_union; [done|].
      apply Hdone in Ht. eapply done_mono; [exact Ht|].
      by apply steps_processed in Hs.
    + set_solver.
    + intros t [= <-]. set_solver.
Qed.

Lemma layoutChoices_steps stk fr st cs startX nextY maxY σ acc' σ' :
  states !! f_name fr = Some st →
  dispatch st = KChoice cs →
  f_targets fr = ∅ →
  forEach (layoutChoice rec (f_name fr) startX nextY) cs (maxY, ∅) σ
    = Some (acc', σ') →
  ∃ fr',
    f_name fr' = f_name fr ∧ f_x fr' = f_x fr ∧ f_y fr' = f_y fr ∧
    f_targets fr' = acc'.2 ∧
    steps (fr :: stk, σ) (fr' :: stk, σ') ∧
    (∀ t, t ∈ acc'.2 → done σ' t) ∧
    (∀ c t, c ∈ cs → truthy (chNext c) = Some t → t ∈ acc'.2).
Proof.
  intros Hst Hkind HT Hrun.
  apply (forEach_inv (λ i acc1 σ1,
    ∃ fr',
      f_name fr' = f_name fr ∧ f_x fr' = f_x fr ∧ f_y fr' = f_y fr ∧
      f_targets fr' = acc1.2 ∧
      steps (fr :: stk, σ) (fr' :: stk, σ1) ∧
      (∀ t, t ∈ acc1.2 → done σ1 t) ∧
      (∀ j c t, (j < i)%nat → cs !! j = Some c →
                truthy (chNext c) = Some t → t ∈ acc1.2))) in Hrun.
  - destruct Hrun as (fr' & ? & ? & ? & ? & ? & ? & Hall).
    exists fr'. repeat split; auto.
    intros c t [j Hj]%list_elem_of_lookup_1 Ht.
    eapply Hall; eauto. by eapply lookup_lt_Some.
  - exists fr. simpl. repeat split; auto using steps_refl.
    + set_solver.
    + intros; lia.
  - intros i c acc1 σ1 acc2 σ2 Hc (fr1 & Hn & Hx & Hy & HT1 & Hs1 & Hd1 & Hall1) Hf.
    rewrite <- Hn in Hf.
    eapply (layoutChoice_steps stk fr1) in Hf
      as (fr2 & Hn2 & Hx2 & Hy2 & HT2 & Hs2 & Hd2 & Hsub & Hc2); eauto.
    2:{ by rewrite Hn. }
    exists fr2. repeat split; try congruence; auto.
    + eapply steps_trans; eauto.
    + intros j c' t Hj Hc' Ht.
      destruct (decide (j = i)) as [->|Hne].
      * rewrite Hc in Hc'. injection Hc' as <-. by apply Hc2.
      * apply Hsub. eapply Hall1; eauto. lia.
Qed.

Lemma processChoice_steps stk fr st cs x nextY σ r σ' :
  states !! f_name fr = Some st →
  dispatch st = KChoice cs →
  f_targets fr = ∅ →
  processChoice rec (f_name fr) x nextY st cs σ = Some (r, σ') →
  steps (fr :: stk, σ) (stk, σ').
Proof.
  intros Hst Hkind HT Hrun. unfold processChoice in Hrun. minv.
  destruct a as [maxY T].
  eapply (layoutChoices_steps stk) in E
    as (fr1 & Hn & Hx & Hy & HT1 & Hs1 & Hd1 & Hall1); eauto.
  simpl in *. subst T.
  assert (Hret : ∀ fr2 σ2,
    f_name fr2 = f_name fr →
    steps (fr :: stk, σ) (fr2 :: stk, σ2) →
    f_targets fr1 ⊆ f_targets fr2 →
    (∀ t, t ∈ f_targets fr2 → done σ2 t) →
    (∀ t, truthy (Default st) = Some t → t ∈ f_targets fr2) →
    steps (fr :: stk, σ) (stk, σ2)).
  { intros fr2 σ2 Hn2 Hs2 Hsub Hd2 Hdef.
    assert (Hall : ∀ t, t ∈ successors st → t ∈ f_targets fr2).
    { intros t Ht. unfold successors in Ht. rewrite Hkind in Ht.
      apply elem_of_app in Ht as [Ht|Ht].
      - apply list_elem_of_omap in Ht as (c & Hc & Hct).
        apply Hsub. eauto.
      - destruct (truthy (Default st)); simpl in Ht; [|by apply elem_of_nil in Ht].
        apply list_elem_of_singleton in Ht as ->. eauto. }
    eapply steps_r; [exact Hs2|].
    eapply step_return; [by rewrite Hn2|]. split.
    - eauto.
    - intros t Ht. unfold catchTargets in Ht. rewrite Hkind in Ht.
      by apply elem_of_nil in Ht.
    - eauto.
    - intros; congruence.
    - intros; congruence. }
  destruct (truthy (Default st)) as [next|] eqn:Hdef.
  2:{ minv. eapply (Hret fr1); eauto. done. }
  case_bool_decide as Hin.
  { minv. eapply (Hret fr1); eauto. by intros t [= <-]. }
  minv.
  assert (Hedge : step (fr1 :: stk, σ0)
            (withTarget fr1 next :: stk,
             push_edge (defaultEdge (f_name fr1) next) σ0)).
  { eapply step_default_edge; eauto. by rewrite Hn. }
  rewrite Hn in Hedge.
  assert (Hsub : f_targets fr1 ⊆ f_targets (withTarget fr1 next)).
  { simpl. set_solver. }
  assert (Hnew : ∀ t, Some next = Some t → t ∈ f_targets (withTarget fr1 next)).
  { intros t [= <-]. simpl. set_solver. }
  case_bool_decide as Hseen; minv.
  - eapply (Hret (withTarget fr1 next)); eauto.
    + eapply steps_r; eauto.
    + simpl. intros t [->%elem_of_singleton|Ht]%elem_of_union; [by left|].
      apply Hd1 in Ht. eapply done_mono; [exact Ht|]. done.
  - assert (Hcall : callable (withTarget fr1 next :: stk) next).
    { simpl. exists st. split; [by rewrite Hn|]. unfold successors.
      rewrite Hkind, Hdef. apply elem_of_app. right. simpl. set_solver. }
    call_rec Hrec Hcall Hs Hd.
    eapply (Hret (withTarget fr1 next)); eauto.
    + eapply steps_trans; [|exact Hs]. eapply steps_r; eauto.
    + simpl. intros t [->%elem_of_singleton|Ht]%elem_of_union; [done|].
      apply Hd1 in Ht. eapply done_mono; [exact Ht|].
      by apply steps_processed in Hs.
Qed.

Lemma layoutCatch_steps stk fr st rules index cb u σ r σ' :
  states !! f_name fr = Some st →
  dispatch st = KRegular →
  Catch st = Some rules →
  rules !! index = Some cb →
  layoutCatch states (f_name fr) (f_x fr) (f_y fr) cb index u σ = Some (r, σ') →
  steps (fr :: stk, σ) (fr :: stk, σ') ∧
  ∀ t, truthy (cbNext cb) = Some t →
       catchEdge (f_name fr) index t (targetIsFail states t) ∈ edges σ' ∧
       (targetIsFail states t = true → t ∈ processedStates σ').
Proof.
  intros Hst Hkind Hcatch Hcb Hrun. unfold layoutCatch in Hrun.
  destruct (truthy (cbNext cb)) as [next|] eqn:Hnext;
    [|minv; split; [apply steps_refl | done]].
  minv.
  assert (Hedge : step (fr :: stk, σ)
            (fr :: stk,
             push_edge (catchEdge (f_name fr) index next (targetIsFail states next)) σ)).
  { eapply step_catch_edge; eauto. }
  assert (Hin : ∀ σ2, edges σ2 = edges σ ++
                        [catchEdge (f_name fr) index next (targetIsFail states next)] →
                catchEdge (f_name fr) index next (targetIsFail states next) ∈ edges σ2).
  { intros σ2 ->. apply elem_of_app. right. by apply list_elem_of_singleton. }
  unfold targetIsFail in *.
  destruct (states !! next) as [t|] eqn:Ht.
  2:{ minv. split; [by apply rtc_once|]. intros t' [= <-]. rewrite Ht.
      split; [by apply Hin | done]. }
  destruct (isFail t) eqn:Hfail; simpl in Hrun.
  2:{ minv. split; [by apply rtc_once|]. intros t' [= <-]. rewrite Ht, Hfail.
      split; [by apply Hin | done]. }
  case_bool_decide as Hseen; simpl in Hrun; minv.
  { split; [by apply rtc_once|]. intros t' [= <-]. rewrite Ht, Hfail.
    split; [by apply Hin | done]. }
  split.
  - eapply steps_r; [by apply rtc_once|].
    eapply step_catch_fail; eauto.
  - intros t' [= <-]. rewrite Ht, Hfail. split; [by apply Hin|].
    intros _. simpl. set_solver.
Qed.

Lemma layoutCatches_steps stk fr st rules u σ r σ' :
  states !! f_name fr = Some st →
  dispatch st = KRegular →
  Catch st = Some rules →
  forEach (layoutCatch states (f_name fr) (f_x fr) (f_y fr)) rules u σ
    = Some (r, σ') →
  steps (fr :: stk, σ) (fr :: stk, σ') ∧
  ∀ index cb t, rules !! index = Some cb → truthy (cbNext cb) = Some t →
       catchEdge (f_name fr) index t (targetIsFail states t) ∈ edges σ' ∧
       (targetIsFail states t = true → t ∈ processedStates σ').
Proof.
  intros Hst Hkind Hcatch Hrun.
  apply (forEach_inv (λ i _ σ1,
    steps (fr :: stk, σ) (fr :: stk, σ1) ∧
    ∀ j cb t, (j < i)%nat → rules !! j = Some cb →
              truthy (cbNext cb) = Some t →
              catchEdge (f_name fr) j t (targetIsFail states t) ∈ edges σ1 ∧
              (targetIsFail states t = true → t ∈ processedStates σ1))) in Hrun.
  - destruct Hrun as [Hs Hall]. split; [done|].
    intros index cb t Hcb. eapply Hall; eauto. by eapply lookup_lt_Some.
  - split; [apply steps_refl|]. intros; lia.
  - intros i cb s σ1 s1 σ2 Hcb [Hs Hall] Hf.
    eapply layoutCatch_steps in Hf as [Hs2 Hnew]; eauto.
    split; [eapply steps_trans; eauto|].
    intros j cb' t Hj Hcb' Ht.
    destruct (decide (j = i)) as [->|Hne].
    + rewrite Hcb in Hcb'. injection Hcb' as <-. eauto.
    + destruct (Hall j cb' t) as [He Hp]; [lia|done|done|].
      pose proof (steps_processed _ _ Hs2) as Hsub.
      pose proof (steps_edges _ _ Hs2) as [k Hk]. simpl in *.
      split; [rewrite Hk; apply elem_of_app; by left | auto].
Qed.

Lemma catchTargets_lookup st t :
  t ∈ catchTargets st →
  ∃ rules index cb, dispatch st = KRegular ∧ Catch st = Some rules ∧
                    rules !! index = Some cb ∧ truthy (cbNext cb) = Some t.
Proof.
  unfold catchTargets. destruct (dispatch st); try (by intros ?%elem_of_nil).
  destruct (Catch st) as [rules|]; [|by intros ?%elem_of_nil].
  intros (cb & [i Hi]%list_elem_of_lookup_1 & Hcb)%list_elem_of_omap.
  exists rules, i, cb. auto.
Qed.

Lemma processRegular_steps stk fr st nextY σ r σ' :
  states !! f_name fr = Some st →
  dispatch st = KRegular →
  processRegular states rec (f_name fr) (f_x fr) (f_y fr) nextY st σ = Some (r, σ') →
  steps (fr :: stk, σ) (stk, σ').
Proof.
  intros Hst Hkind Hrun. unfold processRegular in Hrun. minv.
  assert (Hcatch : steps (fr :: stk, σ) (fr :: stk, σ0) ∧
            ∀ rules index cb t, Catch st = Some rules →
              rules !! index = Some cb → truthy (cbNext cb) = Some t →
              catchEdge (f_name fr) index t (targetIsFail states t) ∈ edges σ0 ∧
              (targetIsFail states t = true → t ∈ processedStates σ0)).
  { destruct (Catch st) as [rules|] eqn:Hrules.
    - eapply (layoutCatches_steps stk) in E as [Hs Hall]; eauto.
      split; [done|]. intros rules' index cb t [= <-]. eauto.
    - minv. split; [apply steps_refl | done]. }
  destruct Hcatch as [Hcatch Hrules]. clear E.
  assert (Hnext : steps (fr :: stk, σ0) (fr :: stk, σ1) ∧
                  ∀ t, t ∈ successors st → done σ1 t).
  { unfold successors. rewrite Hkind.
    destruct (truthy (Next st)) as [next|] eqn:Hnext; simpl.
    2:{ minv. split; [apply steps_refl|]. by intros t ?%elem_of_nil. }
    minv.
    assert (Hedge : step (fr :: stk, σ0)
              (fr :: stk,
               push_edge (plainEdge (f_name fr ++ "-" ++ next) (PosId (f_name fr))
                            next "#6b7280") σ0)).
    { eapply step_next_edge; eauto. }
    case_bool_decide as Hseen; minv.
    - split; [by apply rtc_once|].
      intros t ->%list_elem_of_singleton. by left.
    - assert (Hcall : callable (fr :: stk) next).
      { simpl. exists st. split; [done|]. unfold successors.
        rewrite Hkind, Hnext. simpl. set_solver. }
      call_rec Hrec Hcall Hs Hd.
      split; [eapply steps_trans; [by apply rtc_once | exact Hs]|].
      by intros t ->%list_elem_of_singleton. }
  destruct Hnext as [Hnext Hsucc]. clear E0.
  assert (Hend : steps (fr :: stk, σ1) (fr :: stk, σ')).
  { destruct (End_ st) eqn:Hend; minv; [|apply steps_refl].
    apply rtc_once. eapply step_end; eauto. }
  pose proof (steps_trans _ _ _ Hnext Hend) as Hrest.
  eapply steps_r.
  - eapply steps_trans; [exact Hcatch | exact Hrest].
  - eapply step_return; [exact Hst|]. split.
    + intros t Ht. eapply done_steps; eauto.
    + intros t (rules & index & cb & _ & Hr & Hcb & Ht)%catchTargets_lookup Hfail.
      destruct (Hrules _ _ _ _ Hr Hcb Ht) as [_ Hp].
      apply steps_processed in Hrest. simpl in Hrest. auto.
    + intros; congruence.
    + intros rules index cb next _ Hr Hcb Ht.
      destruct (Hrules _ _ _ _ Hr Hcb Ht) as [He _].
      apply steps_edges in Hrest as [k Hk]. simpl in Hk.
      rewrite Hk. apply elem_of_app. by left.
    + intros; congruence.
Qed.

Lemma processParallel_steps stk fr st brs x nextY σ r σ' :
  states !! f_name fr = Some st →
  dispatch st = KParallel brs →
  processParallel rec fuel (f_name fr) x nextY st brs σ = Some (r, σ') →
  steps (fr :: stk, σ) (stk, σ').
Proof.
  intros Hst Hkind Hrun. unfold processParallel in Hrun. minv.
  eapply (layoutBranches_steps stk) in E as [Hbrs Hchains]; eauto.
  assert (Hnext : steps (fr :: stk, σ0) (fr :: stk, σ') ∧
                  ∀ t, t ∈ successors st → done σ' t).
  { unfold successors. rewrite Hkind.
    destruct (truthy (Next st)) as [next|] eqn:Hnext; simpl.
    2:{ minv. split; [apply steps_refl|]. by intros t ?%elem_of_nil. }
    minv.
    eapply (rejoin_steps stk) in E; eauto.
    assert (Hcall : callable (fr :: stk) next).
    { simpl. exists st. split; [done|]. unfold successors.
      rewrite Hkind, Hnext. simpl. set_solver. }
    call_rec Hrec Hcall Hs Hd.
    split; [eapply steps_trans; eauto|].
    by intros t ->%list_elem_of_singleton. }
  destruct Hnext as [Hnext Hsucc].
  eapply steps_r.
  - eapply steps_trans; eauto.
  - eapply step_return; [exact Hst|]. split.
    + done.
    + intros t Ht. unfold catchTargets in Ht. rewrite Hkind in Ht.
      by apply elem_of_nil in Ht.
    + intros; congruence.
    + intros; congruence.
    + intros brs' index br s t Hk Hbr Hstart Hch.
      replace brs' with brs in * by congruence.
      apply steps_nodes in Hnext as [k Hpre]. simpl in Hpre. rewrite Hpre.
      rewrite nodeIds_app. apply elem_of_app. left. eauto.
Qed.

Lemma processState_body_spec : call_spec (processState_body states rec fuel).
Proof.
  intros stk name x y σ r σ' Hcall Hrun. unfold processState_body in Hrun.
  minv. case_bool_decide as Hseen.
  { minv. split; [apply steps_refl | by left]. }
  destruct (states !! name) as [st|] eqn:Hst.
  2:{ minv. split; [apply steps_refl | by right]. }
  minv.
  assert (Hvisit : step (stk, σ) (mkFrame name x y ∅ :: stk, visited name x y st σ)).
  { by apply step_visit. }
  unfold visited in Hvisit.
  assert (Hbody : steps (mkFrame name x y ∅ :: stk,
                         set_position name (PosXY (mkPos x y))
                           (push_node (mainNode name x y st) (add_processed name σ)))
                        (stk, σ')).
  { destruct (dispatch st) as [brs|cs|] eqn:Hkind.
    - eapply (processParallel_steps stk (mkFrame name x y ∅)); eauto.
    - eapply (processChoice_steps stk (mkFrame name x y ∅)); eauto.
    - eapply (processRegular_steps stk (mkFrame name x y ∅)); eauto. }
  split.
  - eapply steps_trans; [by apply rtc_once | exact Hbody].
  - left. apply steps_processed in Hbody. simpl in Hbody. set_solver.
Qed.

End Body.

(** Every returning call of [processState] is a run of the transition system
    that leaves the stack as it found it, and lays out the state it was called
    on unless that is not a state. *)
Lemma processState_steps fuel : call_spec (processState states fuel).
Proof.
  induction fuel as [|fuel IH].
  - intros stk name x y σ r σ' _ Hrun. simpl in Hrun. minv.
  - simpl. by apply processState_body_spec.
Qed.

End Refinement.


(** * Invariants of the transition system *)

Lemma stateNodes_snoc ns n :
  stateNodes (ns ++ [n]) = stateNodes ns ++ (if isStateNode n then [n] else []).
Proof. unfold stateNodes. rewrite List.filter_app. simpl. by destruct (isStateNode n). Qed.

Lemma stateNodeIds_snoc ns n :
  stateNodeIds (ns ++ [n]) =
  stateNodeIds ns ++ (if isStateNode n then [Node.id n] else []).
Proof.
  unfold stateNodeIds. rewrite stateNodes_snoc, fmap_app.
  by destruct (isStateNode n).
Qed.

Lemma elem_of_stateNodes ns n :
  n ∈ stateNodes ns ↔ n ∈ ns ∧ isStateNode n = true.
Proof. unfold stateNodes. rewrite !list_elem_of_In. apply List.filter_In. Qed.

Lemma elem_of_stateNodeIds ns s :
  s ∈ stateNodeIds ns ↔ ∃ n, n ∈ ns ∧ isStateNode n = true ∧ Node.id n = s.
Proof.
  unfold stateNodeIds. rewrite list_elem_of_fmap. split.
  - intros (n & -> & Hn). apply elem_of_stateNodes in Hn as [? ?]. eauto.
  - intros (n & Hn & Hs & <-). exists n. split; [done|].
    by apply elem_of_stateNodes.
Qed.

Lemma stateNodeIds_nodeIds ns s : s ∈ stateNodeIds ns → s ∈ nodeIds ns.
Proof.
  intros (n & Hn & _ & <-)%elem_of_stateNodeIds.
  unfold nodeIds. apply list_elem_of_fmap. eauto.
Qed.

Lemma elem_of_nodeIds ns s : s ∈ nodeIds ns ↔ ∃ n, n ∈ ns ∧ Node.id n = s.
Proof. unfold nodeIds. rewrite list_elem_of_fmap. naive_solver. Qed.

Lemma inv_steps {states startAt} (I : config → Prop) :
  (∀ c c', I c → step states startAt c c' → I c') →
  ∀ c c', steps states startAt c c' → I c → I c'.
Proof. intros Hpres c c' Hs. induction Hs; eauto. Qed.

Section NodeInvariant.

Variable states : gmap string stateObj.
Variable startAt : string.

Local Abbreviation step := (step states startAt).
Local Abbreviation steps := (steps states startAt).
Local Abbreviation invNodes := (invNodes states).

Lemma invNodes_frame_id stk σ fr :
  invNodes (stk, σ) → fr ∈ stk → f_name fr ∈ nodeIds (nodes σ).
Proof.
  intros HI Hfr. destruct (in_frames _ _ HI fr Hfr) as (n & Hn & _ & Hid & _).
  apply elem_of_nodeIds. eauto.
Qed.

Lemma invNodes_frame_processed stk σ fr :
  invNodes (stk, σ) → fr ∈ stk → f_name fr ∈ processedStates σ.
Proof.
  intros HI Hfr. destruct (in_frames _ _ HI fr Hfr) as (n & Hn & Hs & Hid & _).
  apply (in_processed _ _ HI). apply elem_of_stateNodeIds. eauto.
Qed.

Lemma invNodes_initial : invNodes ([], initialLayout startAt).
Proof.
  split; simpl.
  - intros s. unfold stateNodeIds. simpl. set_solver.
  - set_solver.
  - unfold stateNodeIds. simpl. constructor.
  - intros e s ->%list_elem_of_singleton [= <-]. unfold nodeIds. simpl. set_solver.
  - intros k s. by rewrite lookup_empty.
  - intros fr []%elem_of_nil.
  - constructor.
Qed.

Lemma invNodes_push_node stk σ n :
  invNodes (stk, σ) → isStateNode n = false → invNodes (stk, push_node n σ).
Proof.
  intros [H1 H2 H3 H4 H5 H6 H7] Hn. split; simpl in *.
  - intros s. rewrite stateNodeIds_snoc, Hn, app_nil_r. apply H1.
  - done.
  - by rewrite stateNodeIds_snoc, Hn, app_nil_r.
  - intros e s He Hs. rewrite nodeIds_snoc. apply elem_of_app. left. eauto.
  - intros k s Hk. rewrite nodeIds_snoc. apply elem_of_app. left. eauto.
  - intros fr Hfr. destruct (H6 fr Hfr) as (m & Hm & ?). exists m.
    split; [|done]. apply elem_of_app. by left.
  - done.
Qed.

Lemma invNodes_push_edge stk σ e :
  invNodes (stk, σ) →
  (∀ s, Edge.source e = PosId s → s ∈ nodeIds (nodes σ)) →
  invNodes (stk, push_edge e σ).
Proof.
  intros [H1 H2 H3 H4 H5 H6 H7] He. split; simpl in *; try done.
  intros e' s [He'| ->%list_elem_of_singleton]%elem_of_app Hs; eauto.
Qed.

Lemma invNodes_set_position stk σ k v :
  invNodes (stk, σ) →
  (∀ s, v = PosId s → s ∈ nodeIds (nodes σ)) →
  invNodes (stk, set_position k v σ).
Proof.
  intros [H1 H2 H3 H4 H5 H6 H7] Hv. split; simpl in *; try done.
  intros k' s. rewrite lookup_insert. case_decide; [|eauto].
  intros [= ->]. eauto.
Qed.

Lemma invNodes_place stk σ n :
  invNodes (stk, σ) →
  isStateNode n = true →
  Node.id n ∉ processedStates σ →
  is_Some (states !! Node.id n) →
  invNodes (stk, push_node n (add_processed (Node.id n) σ)).
Proof.
  intros [H1 H2 H3 H4 H5 H6 H7] Hn Hfresh Hst. split; simpl in *.
  - intros s. rewrite stateNodeIds_snoc, Hn, elem_of_app, list_elem_of_singleton.
    rewrite elem_of_union, elem_of_singleton, H1. tauto.
  - intros s [->%elem_of_singleton|Hs]%elem_of_union; eauto.
  - rewrite stateNodeIds_snoc, Hn. apply NoDup_app. split; [done|].
    split; [|apply NoDup_singleton].
    intros s Hs ->%list_elem_of_singleton. apply Hfresh. by apply H1.
  - intros e s He Hs. rewrite nodeIds_snoc. apply elem_of_app. left. eauto.
  - intros k s Hk. rewrite nodeIds_snoc. apply elem_of_app. left. eauto.
  - intros fr Hfr. destruct (H6 fr Hfr) as (m & Hm & ?). exists m.
    split; [|done]. apply elem_of_app. by left.
  - done.
Qed.

Lemma invNodes_push_frame stk σ fr :
  invNodes (stk, σ) →
  (∃ n, n ∈ nodes σ ∧ isStateNode n = true ∧ Node.id n = f_name fr ∧
        Node.position n = mkPos (f_x fr) (f_y fr)) →
  f_name fr ∉ f_name <$> stk →
  invNodes (fr :: stk, σ).
Proof.
  intros [H1 H2 H3 H4 H5 H6 H7] Hn Hfresh. split; simpl in *; try done.
  - intros fr' [->|Hfr]%elem_of_cons; eauto.
  - by constructor.
Qed.

Lemma invNodes_pop_frame stk σ fr : invNodes (fr :: stk, σ) → invNodes (stk, σ).
Proof.
  intros [H1 H2 H3 H4 H5 H6 H7]. split; simpl in *; try done.
  - intros fr' Hfr. apply H6. by right.
  - by apply NoDup_cons in H7 as [_ ?].
Qed.

Lemma invNodes_withTarget stk σ fr t :
  invNodes (fr :: stk, σ) → invNodes (withTarget fr t :: stk, σ).
Proof.
  intros [H1 H2 H3 H4 H5 H6 H7]. split; simpl in *; try done.
  intros fr' [->|Hfr]%elem_of_cons.
  - apply (H6 fr). by left.
  - apply H6. by right.
Qed.

Lemma invNodes_step c c' : invNodes c → step c c' → invNodes c'.
Proof.
  intros HI Hstep. destruct Hstep.
  - (* visit *)
    apply invNodes_push_frame.
    + apply invNodes_set_position; [|done].
      apply (invNodes_place stk σ (mainNode name x y st)); auto.
    + exists (mainNode name x y st). simpl. repeat split; auto.
      apply elem_of_app. right. by apply list_elem_of_singleton.
    + intros (fr & Hn & Hfr)%list_elem_of_fmap.
      apply (invNodes_frame_processed _ _ _ HI) in Hfr. by rewrite <- Hn in Hfr.
  - (* return *)
    by eapply invNodes_pop_frame.
  - (* branch start *)
    apply invNodes_set_position; [|done].
    apply invNodes_push_edge.
    + by apply invNodes_push_node.
    + intros s0 [= <-]. simpl. rewrite nodeIds_snoc. apply elem_of_app. left.
      eapply invNodes_frame_id; eauto. by left.
  - (* branch next *)
    apply invNodes_set_position; [|done].
    apply invNodes_push_edge.
    + by apply invNodes_push_node.
    + intros s0 [= <-]. simpl. rewrite nodeIds_snoc. apply elem_of_app. by left.
  - (* branch end *)
    apply invNodes_set_position; [done|]. by intros s0 [= <-].
  - (* rejoin *)
    apply invNodes_push_edge; [done|].
    intros s Hs. simpl in Hs. subst v. eapply (in_positions _ _ HI); eauto.
  - (* choice edge *)
    apply invNodes_push_edge; [by apply invNodes_withTarget|].
    intros s [= <-]. eapply invNodes_frame_id; eauto. by left.
  - (* default edge *)
    apply invNodes_push_edge; [by apply invNodes_withTarget|].
    intros s [= <-]. eapply invNodes_frame_id; eauto. by left.
  - (* catch edge *)
    apply invNodes_push_edge; [done|].
    intros s [= <-]. eapply invNodes_frame_id; eauto. by left.
  - (* catch fail *)
    apply invNodes_set_position; [|done].
    apply (invNodes_place (fr :: stk) σ
             (failNode next (f_x fr + HORIZONTAL_SPACING) (f_y fr) t)); auto.
  - (* next edge *)
    apply invNodes_push_edge; [done|].
    intros s [= <-]. eapply invNodes_frame_id; eauto. by left.
  - (* end marker *)
    apply invNodes_push_edge; [by apply invNodes_push_node|].
    intros s [= <-]. simpl. rewrite nodeIds_snoc. apply elem_of_app. left.
    eapply invNodes_frame_id; eauto. by left.
Qed.

Lemma invNodes_steps c c' : invNodes c → steps c c' → invNodes c'.
Proof. intros HI Hs. eapply inv_steps; eauto using invNodes_step. Qed.

End NodeInvariant.


Section TargetInvariant.

Variable states : gmap string stateObj.
Variable startAt : string.

Local Abbreviation step := (step states startAt).
Local Abbreviation steps := (steps states startAt).
Local Abbreviation invNodes := (invNodes states).
Local Abbreviation invTargets := (invTargets states startAt).
Local Abbreviation targetSettled := (targetSettled states).
Local Abbreviation pendingOn := (pendingOn states).

Lemma targetSettled_mono ns ns' e :
  targetSettled ns e → ns `prefix_of` ns' → targetSettled ns' e.
Proof.
  intros [H|H] [k ->]; [left | by right].
  unfold nodeIds in *. rewrite fmap_app. apply elem_of_app. by left.
Qed.

Lemma pendingOn_cons stk fr t : pendingOn stk t → pendingOn (fr :: stk) t.
Proof.
  intros (fr' & st & Hfr & ?). exists fr', st. split; [by right | done].
Qed.

Lemma pendingOn_withTarget stk fr t' t :
  pendingOn (fr :: stk) t → pendingOn (withTarget fr t' :: stk) t.
Proof.
  intros (fr' & st & [->|Hfr]%elem_of_cons & ?).
  - exists (withTarget fr t'), st. split; [by left | done].
  - exists fr', st. split; [by right | done].
Qed.

Lemma pendingOn_top stk fr st t :
  states !! f_name fr = Some st → t ∈ successors st → pendingOn (fr :: stk) t.
Proof. intros Hst Ht. exists fr, st. split; [by left | auto]. Qed.

(** The invariant is kept when nodes are added and the stack is kept. *)
Lemma invTargets_grow stk σ σ' :
  invTargets (stk, σ) →
  nodes σ `prefix_of` nodes σ' → edges σ' = edges σ →
  invTargets (stk, σ').
Proof.
  intros HI Hn He e Hin. simpl in *. rewrite He in Hin.
  destruct (HI e Hin) as [H|H]; [left | by right].
  eapply targetSettled_mono; eauto.
Qed.

(** A new edge whose target is settled or pending. *)
Lemma invTargets_push_edge stk σ e :
  invTargets (stk, σ) →
  targetSettled (nodes σ) e ∨ pendingOn stk (Edge.target e) →
  invTargets (stk, push_edge e σ).
Proof.
  intros HI He e' [Hin| ->%list_elem_of_singleton]%elem_of_app; simpl.
  - apply HI, Hin.
  - tauto.
Qed.

Lemma invTargets_step c c' :
  invNodes c → invTargets c → step c c' → invTargets c'.
Proof.
  intros HN HI Hstep. destruct Hstep.
  - (* visit *)
    intros e Hin. simpl in *.
    destruct (HI e Hin) as [Hs|[Hs|Hs]]; [left | by right; left |].
    + eapply targetSettled_mono; eauto. by apply prefix_app_r.
    + right; right. by apply pendingOn_cons.
  - (* return *)
    intros e Hin. simpl in *.
    destruct (HI e Hin) as [Hs|[Hs|(fr' & st' & Hfr & Hst' & Hp)]];
      [by left | by right; left |].
    apply elem_of_cons in Hfr as [->|Hfr].
    2:{ right; right. by exists fr', st'. }
    left. replace st' with st in * by congruence.
    assert (Hdone : done states σ (Edge.target e)).
    { match goal with Hr : returnable _ _ _ _ |- _ => destruct Hr as [R1 R2 _ _ _] end.
      destruct Hp as [Hp|[Hp Hf]]; [by auto|]. left. by auto. }
    destruct Hdone as [Hd|Hd]; [left | by right; left].
    apply stateNodeIds_nodeIds. by apply (in_processed _ _ HN).
  - (* branch start *)
    apply (invTargets_grow _ (push_edge
             (plainEdge (f_name fr ++ "-to-" ++ branchId (f_name fr) index s)
                (PosId (f_name fr)) (branchId (f_name fr) index s) "#a78bfa")
             (push_node (branchNode (branchId (f_name fr) index s) bx ny s bst) σ)));
      [|done|done].
    apply invTargets_push_edge.
    + eapply invTargets_grow; eauto. by apply prefix_app_r.
    + left. left. simpl. rewrite nodeIds_snoc. apply elem_of_app. right.
      by apply list_elem_of_singleton.
  - (* branch next *)
    apply (invTargets_grow _ (push_edge
             (plainEdge (branchId (f_name fr) index cur ++ "-to-"
                         ++ branchId (f_name fr) index s)
                (PosId (branchId (f_name fr) index cur))
                (branchId (f_name fr) index s) "#6b7280")
             (push_node (branchNode (branchId (f_name fr) index s) bx by_ s nst) σ)));
      [|done|done].
    apply invTargets_push_edge.
    + eapply invTargets_grow; eauto. by apply prefix_app_r.
    + left. left. simpl. rewrite nodeIds_snoc. apply elem_of_app. right.
      by apply list_elem_of_singleton.
  - (* branch end *)
    eapply invTargets_grow; eauto.
  - (* rejoin *)
    apply invTargets_push_edge; [done|]. right. simpl.
    eapply pendingOn_top; eauto. unfold successors.
    match goal with H : dispatch _ = _ |- _ => rewrite H end.
    match goal with H : truthy _ = _ |- _ => rewrite H end.
    simpl. by apply list_elem_of_singleton.
  - (* choice edge *)
    apply invTargets_push_edge.
    + intros e Hin. destruct (HI e Hin) as [Hs|[Hs|Hs]]; auto.
      right; right. by apply pendingOn_withTarget.
    + right. simpl. eapply pendingOn_top; eauto. unfold successors.
      match goal with H : dispatch _ = _ |- _ => rewrite H end.
      apply elem_of_app. left. apply list_elem_of_omap.
      exists c. split; [by eapply list_elem_of_lookup_2 | done].
  - (* default edge *)
    apply invTargets_push_edge.
    + intros e Hin. destruct (HI e Hin) as [Hs|[Hs|Hs]]; auto.
      right; right. by apply pendingOn_withTarget.
    + right. simpl. eapply pendingOn_top; eauto. unfold successors.
      match goal with H : dispatch _ = _ |- _ => rewrite H end.
      match goal with H : truthy _ = _ |- _ => rewrite H end.
      apply elem_of_app. right. simpl. by apply list_elem_of_singleton.
  - (* catch edge *)
    apply invTargets_push_edge; [done|]. simpl.
    destruct (targetIsFail states next) eqn:Hfail.
    + right. exists fr, st. split; [by left|]. split; [done|]. right.
      split; [|done]. unfold catchTargets.
      match goal with H : dispatch _ = _ |- _ => rewrite H end.
      match goal with H : Catch _ = _ |- _ => rewrite H end.
      apply list_elem_of_omap. exists cb.
      split; [by eapply list_elem_of_lookup_2 | done].
    + left. right. right. done.
  - (* catch fail *)
    eapply invTargets_grow; eauto. simpl. by apply prefix_app_r.
  - (* next edge *)
    apply invTargets_push_edge; [done|]. right. simpl.
    eapply pendingOn_top; eauto. unfold successors.
    match goal with H : dispatch _ = _ |- _ => rewrite H end.
    match goal with H : truthy _ = _ |- _ => rewrite H end.
    simpl. by apply list_elem_of_singleton.
  - (* end marker *)
    apply invTargets_push_edge.
    + eapply invTargets_grow; eauto. by apply prefix_app_r.
    + left. left. simpl. rewrite nodeIds_snoc. apply elem_of_app. right.
      by apply list_elem_of_singleton.
Qed.

Lemma invTargets_initial : invTargets ([], initialLayout startAt).
Proof. intros e ->%list_elem_of_singleton. right. by left. Qed.

Lemma invTargets_steps c c' :
  invNodes c → invTargets c → steps c c' → invTargets c'.
Proof.
  intros HN HT Hs. revert HN HT.
  induction Hs as [|c1 c2 c3 H12 H23 IH]; [done|]. intros HN HT.
  apply IH.
  - eapply invNodes_step; eauto.
  - eapply invTargets_step; eauto.
Qed.

End TargetInvariant.


(** * From [layoutMachine] to the transition system *)

(** A returned graph is the empty graph of the guard, or the working sets at
    the end of a run from the initial configuration. *)
Lemma layoutMachine_Returns fuel m g :
  layoutMachine fuel m = Returns g →
  (g = emptyGraph ∧ (truthy (StartAt m) = None ∨ size (ownStates m) = 0%nat))
  ∨ ∃ startAt σ,
      truthy (StartAt m) = Some startAt ∧
      size (ownStates m) ≠ 0%nat ∧
      steps (statesOf m) startAt ([], initialLayout startAt) ([], σ) ∧
      done (statesOf m) σ startAt ∧
      g = mkGraph (nodes σ) (edges σ).
Proof.
  unfold layoutMachine. intros Hrun.
  destruct (truthy (StartAt m)) as [startAt|] eqn:Hstart.
  2:{ left. split; [congruence | by left]. }
  case_bool_decide as Hsize.
  { left. split; [congruence | by right]. }
  destruct (processState _ _ _ _ _ _) as [[r σ]|] eqn:Hp; [|done].
  right. exists startAt, σ.
  eapply (processState_steps (statesOf m) startAt fuel []) in Hp as [Hs Hd];
    [|done].
  split_and!; auto. congruence.
Qed.

Lemma layoutMachine_invNodes fuel m g :
  layoutMachine fuel m = Returns g →
  g = emptyGraph
  ∨ ∃ startAt σ,
      truthy (StartAt m) = Some startAt ∧
      steps (statesOf m) startAt ([], initialLayout startAt) ([], σ) ∧
      invNodes (statesOf m) ([], σ) ∧
      done (statesOf m) σ startAt ∧
      g = mkGraph (nodes σ) (edges σ).
Proof.
  intros [[-> _]|(startAt & σ & Hst & _ & Hs & Hd & ->)]%layoutMachine_Returns;
    [by left | right].
  exists startAt, σ. split_and!; auto.
  eapply invNodes_steps; [|exact Hs]. apply invNodes_initial.
Qed.


Section ClosedInvariant.

Variable states : gmap string stateObj.
Variable startAt : string.

Local Abbreviation step := (step states startAt).
Local Abbreviation steps := (steps states startAt).
Local Abbreviation invClosed := (invClosed states).
Local Abbreviation laidOut := (laidOut states).

Lemma laidOut_mono σ σ' s st :
  laidOut σ s st →
  nodes σ `prefix_of` nodes σ' → edges σ `prefix_of` edges σ' →
  processedStates σ ⊆ processedStates σ' →
  laidOut σ' s st.
Proof.
  intros [L1 L2 L3 L4 L5] [kn Hn] [ke He] Hp. split.
  - intros t Ht. eapply done_mono; eauto.
  - intros t Ht Hf. apply Hp. eauto.
  - intros rules index cb next ? ? ? ?. rewrite He. apply elem_of_app. left. eauto.
  - intros brs index br b t ? ? ? ?. rewrite Hn, nodeIds_app.
    apply elem_of_app. left. eauto.
  - intros cs t Hk Ht. destruct (L5 cs t Hk Ht) as (e & Hin & ?).
    exists e. split; [|done]. rewrite He. apply elem_of_app. by left.
Qed.

Lemma invClosed_same stk σ σ' :
  invClosed (stk, σ) →
  nodes σ `prefix_of` nodes σ' → edges σ `prefix_of` edges σ' →
  processedStates σ' = processedStates σ →
  invClosed (stk, σ').
Proof.
  intros [C1 C2] Hn He Hp. split; simpl in *.
  - intros s Hs. rewrite Hp in Hs.
    destruct (C1 s Hs) as [?|(st & Hst & [?|Hl])]; [by left | right..].
    + exists st. auto.
    + exists st. split; [done|]. right. eapply laidOut_mono; eauto.
      by rewrite Hp.
  - intros fr t Hfr Ht. destruct (C2 fr t Hfr Ht) as (e & Hin & ?).
    exists e. split; [|done]. destruct He as [k ->]. apply elem_of_app. by left.
Qed.

Lemma invClosed_withTarget stk σ fr e :
  invClosed (fr :: stk, σ) →
  isFanEdge e = true → Edge.source e = PosId (f_name fr) →
  invClosed (withTarget fr (Edge.target e) :: stk, push_edge e σ).
Proof.
  intros [C1 C2] Hfan Hsrc. split; simpl in *.
  - intros s Hs.
    destruct (C1 s Hs) as [(fr' & Hfr' & Hn)|(st & Hst & [?|Hl])].
    + left. apply elem_of_cons in Hfr' as [->|Hfr'].
      * exists (withTarget fr (Edge.target e)). split; [by left | done].
      * exists fr'. split; [by right | done].
    + right. exists st. auto.
    + right. exists st. split; [done|]. right.
      eapply laidOut_mono; eauto; simpl; try done. by apply prefix_app_r.
  - intros fr' t [->|Hfr']%elem_of_cons Ht; simpl in *.
    + apply elem_of_union in Ht as [->%elem_of_singleton|Ht].
      * exists e. split; [|done]. apply elem_of_app. right.
        by apply list_elem_of_singleton.
      * destruct (C2 fr t) as (e' & Hin & ?); [by left | done |].
        exists e'. split; [|done]. apply elem_of_app. by left.
    + destruct (C2 fr' t) as (e' & Hin & ?); [by right | done |].
      exists e'. split; [|done]. apply elem_of_app. by left.
Qed.

Lemma invClosed_step c c' : invClosed c → step c c' → invClosed c'.
Proof.
  intros HC Hstep.
  pose proof (step_nodes _ _ _ _ Hstep) as Hn.
  pose proof (step_edges _ _ _ _ Hstep) as He.
  destruct Hstep; simpl in Hn, He.
  - (* visit *)
    destruct HC as [C1 C2]. split; simpl in *.
    + intros s [->%elem_of_singleton|Hs]%elem_of_union.
      * left. exists (mkFrame name x y ∅). split; [by left | done].
      * destruct (C1 s Hs) as [(fr' & Hfr' & Hn')|(st' & Hst & [?|Hl])].
        -- left. exists fr'. split; [by right | done].
        -- right. exists st'. auto.
        -- right. exists st'. split; [done|]. right.
           eapply laidOut_mono; eauto. simpl. set_solver.
    + intros fr t [->|Hfr]%elem_of_cons Ht; [by apply elem_of_empty in Ht|].
      eauto.
  - (* return *)
    destruct HC as [C1 C2].
    match goal with Hr : returnable _ _ _ _ |- _ => destruct Hr as [R1 R2 R3 R4 R5] end.
    split; simpl in *.
    + intros s Hs.
      destruct (C1 s Hs) as [(fr' & Hfr' & Hn')|?]; [|by right].
      apply elem_of_cons in Hfr' as [->|Hfr'].
      * right. exists st. split; [congruence|]. right. subst s. split; auto.
        intros cs t Hk Ht. apply (C2 fr t); [by left | eauto].
      * left. exists fr'. auto.
    + intros fr' t Hfr'. apply C2. by right.
  - eapply invClosed_same; eauto.
  - eapply invClosed_same; eauto.
  - eapply invClosed_same; eauto.
  - eapply invClosed_same; eauto.
  - (* choice edge *)
    apply (invClosed_withTarget stk σ fr (choiceEdge (f_name fr) index c next));
      auto.
  - (* default edge *)
    apply (invClosed_withTarget stk σ fr (defaultEdge (f_name fr) next)); auto.
  - eapply invClosed_same; eauto.
  - (* catch fail *)
    destruct HC as [C1 C2]. split; simpl in *.
    + intros s [->%elem_of_singleton|Hs]%elem_of_union.
      * right. exists t. auto.
      * destruct (C1 s Hs) as [?|(st' & Hst & [?|Hl])]; [by left | right..].
        -- exists st'. auto.
        -- exists st'. split; [done|]. right.
           eapply laidOut_mono; eauto. simpl. set_solver.
    + eauto.
  - eapply invClosed_same; eauto.
  - eapply invClosed_same; eauto.
Qed.

Lemma invClosed_initial : invClosed ([], initialLayout startAt).
Proof.
  split; simpl.
  - intros s []%elem_of_empty.
  - intros fr t []%elem_of_nil.
Qed.

Lemma invClosed_steps c c' : invClosed c → steps c c' → invClosed c'.
Proof. intros HI Hs. eapply inv_steps; eauto using invClosed_step. Qed.

End ClosedInvariant.


Section JustifiedInvariant.

Variable states : gmap string stateObj.
Variable startAt : string.

Local Abbreviation step := (step states startAt).
Local Abbreviation steps := (steps states startAt).
Local Abbreviation invNodes := (invNodes states).
Local Abbreviation justified := (justified states startAt).
Local Abbreviation invJustified := (invJustified states startAt).

Lemma justified_mono ns ns' n :
  justified ns n → ns `prefix_of` ns' → justified ns' n.
Proof.
  intros [H|[H|(m & st & t & Hm & H)]] [k ->]; [by left | by right; left |].
  right; right. exists m, st, t. split; [|done]. apply elem_of_app. by left.
Qed.

(** Adding a node that is justified, or is not a state node. *)
Lemma invJustified_push_node stk stk' σ n :
  invJustified (stk, σ) →
  (isStateNode n = true → justified (nodes σ) n) →
  invJustified (stk', push_node n σ).
Proof.
  intros HJ Hn n' [Hin| ->%list_elem_of_singleton]%elem_of_app Hs; simpl in *.
  - eapply justified_mono; [by apply HJ | by apply prefix_app_r].
  - eapply justified_mono; [by apply Hn | by apply prefix_app_r].
Qed.

Lemma invJustified_step c c' :
  invNodes c → invJustified c → step c c' → invJustified c'.
Proof.
  intros HN HJ Hstep. destruct Hstep.
  - (* visit *)
    apply (invJustified_push_node stk (mkFrame name x y ∅ :: stk)
             (add_processed name σ)).
    + exact HJ.
    + intros _. simpl. destruct stk as [|fr stk]; simpl in *.
      * by left.
      * right; left. destruct H1 as (st' & ? & ?). eauto.
  - exact HJ.
  - (* branch start *)
    apply (invJustified_push_node (fr :: stk) (fr :: stk) σ); [done | discriminate].
  - (* branch next *)
    apply (invJustified_push_node (fr :: stk) (fr :: stk) σ); [done | discriminate].
  - exact HJ.
  - exact HJ.
  - exact HJ.
  - exact HJ.
  - exact HJ.
  - (* catch fail *)
    apply (invJustified_push_node (fr :: stk) (fr :: stk) (add_processed next σ)).
    + exact HJ.
    + intros _. right; right.
      destruct (in_frames _ _ HN fr) as (m & Hm & Hms & Hid & Hpos); [by left|].
      exists m, st, t. simpl in *. rewrite Hid, Hpos. simpl.
      split_and!; auto.
      unfold catchTargets.
      repeat match goal with
             | H : dispatch _ = _ |- _ => rewrite H
             | H : Catch _ = _ |- _ => rewrite H
             end.
      apply list_elem_of_omap. exists cb.
      split; [by eapply list_elem_of_lookup_2 | done].
  - exact HJ.
  - (* end marker *)
    apply (invJustified_push_node (fr :: stk) (fr :: stk) σ); [done | discriminate].
Qed.

Lemma invJustified_initial : invJustified ([], initialLayout startAt).
Proof. intros n ->%list_elem_of_singleton. discriminate. Qed.

Lemma invJustified_steps c c' :
  invNodes c → invJustified c → steps c c' → invJustified c'.
Proof.
  intros HN HJ Hs. revert HN HJ.
  induction Hs as [|c1 c2 c3 H12 H23 IH]; [done|]. intros HN HJ.
  apply IH.
  - eapply invNodes_step; eauto.
  - eapply invJustified_step; eauto.
Qed.

End JustifiedInvariant.


Lemma fanKeys_snoc es e :
  fanKeys (es ++ [e]) =
  fanKeys es ++ (if isFanEdge e then [(Edge.source e, Edge.target e)] else []).
Proof.
  unfold fanKeys. rewrite List.filter_app, fmap_app. simpl.
  by destruct (isFanEdge e).
Qed.

Lemma elem_of_fanKeys es k :
  k ∈ fanKeys es ↔
  ∃ e, e ∈ es ∧ isFanEdge e = true ∧ (Edge.source e, Edge.target e) = k.
Proof.
  unfold fanKeys. rewrite list_elem_of_fmap. split.
  - intros (e & -> & He). apply list_elem_of_In, List.filter_In in He as [He ?].
    exists e. by rewrite list_elem_of_In.
  - intros (e & He & Hf & <-). exists e. split; [done|].
    apply list_elem_of_In, List.filter_In. by rewrite <- list_elem_of_In.
Qed.

Section FanInvariant.

Variable states : gmap string stateObj.
Variable startAt : string.

Local Abbreviation step := (step states startAt).
Local Abbreviation steps := (steps states startAt).
Local Abbreviation invNodes := (invNodes states).

Lemma invFan_same stk σ σ' :
  invFan (stk, σ) → edges σ' = edges σ →
  processedStates σ ⊆ processedStates σ' →
  invFan (stk, σ').
Proof.
  intros [F1 F2 F3] He Hp. split; simpl in *; rewrite ?He; try done.
  intros e Hin Hf. destruct (F1 e Hin Hf) as (s & ? & ?). exists s. auto.
Qed.

Lemma invFan_set_position stk σ k v :
  invFan (stk, σ) → invFan (stk, set_position k v σ).
Proof. intros HF. by eapply invFan_same. Qed.

Lemma invFan_push_node stk σ n : invFan (stk, σ) → invFan (stk, push_node n σ).
Proof. intros HF. by eapply invFan_same. Qed.

Lemma invFan_add_processed stk σ s :
  invFan (stk, σ) → invFan (stk, add_processed s σ).
Proof. intros HF. eapply invFan_same; eauto. simpl. set_solver. Qed.

Lemma invFan_push_plain stk σ e :
  invFan (stk, σ) → isFanEdge e = false → invFan (stk, push_edge e σ).
Proof.
  intros [F1 F2 F3] He. split; simpl in *.
  - intros e' [Hin| ->%list_elem_of_singleton]%elem_of_app Hf; [eauto|congruence].
  - by rewrite fanKeys_snoc, He, app_nil_r.
  - intros fr e' Hfr [Hin| ->%list_elem_of_singleton]%elem_of_app Hf;
      [eauto|congruence].
Qed.

Lemma invFan_push_fan stk σ fr e :
  invNodes (fr :: stk, σ) →
  invFan (fr :: stk, σ) →
  isFanEdge e = true →
  Edge.source e = PosId (f_name fr) →
  Edge.target e ∉ f_targets fr →
  invFan (withTarget fr (Edge.target e) :: stk, push_edge e σ).
Proof.
  intros HN [F1 F2 F3] Hfan Hsrc Hfresh. split; simpl in *.
  - intros e' [Hin| ->%list_elem_of_singleton]%elem_of_app Hf; [eauto|].
    exists (f_name fr). split; [done|].
    eapply invNodes_frame_processed; eauto. by left.
  - rewrite fanKeys_snoc, Hfan. apply NoDup_app. split; [done|].
    split; [|apply NoDup_singleton].
    intros k (e' & Hin & Hf & <-)%elem_of_fanKeys [= Hs Ht]%list_elem_of_singleton.
    apply Hfresh. rewrite <- Ht. apply (F3 fr e'); auto; [by left | congruence].
  - intros fr' e' [->|Hfr']%elem_of_cons Hin Hf Hs; simpl in *.
    + apply elem_of_app in Hin as [Hin| ->%list_elem_of_singleton].
      * apply elem_of_union. right. apply (F3 fr e'); auto. by left.
      * apply elem_of_union. left. by apply elem_of_singleton.
    + apply elem_of_app in Hin as [Hin| ->%list_elem_of_singleton].
      * apply (F3 fr' e'); auto. by right.
      * exfalso. pose proof (in_stack _ _ HN) as Hnd. simpl in Hnd.
        apply NoDup_cons in Hnd as [Hnot _]. apply Hnot.
        apply list_elem_of_fmap. exists fr'. split; [congruence | done].
Qed.

Lemma invFan_step c c' : invNodes c → invFan c → step c c' → invFan c'.
Proof.
  intros HN HF Hstep. destruct Hstep.
  - (* visit *)
    destruct HF as [F1 F2 F3]. split; simpl in *; try done.
    + intros e Hin Hf. destruct (F1 e Hin Hf) as (s & ? & ?).
      exists s. split; [done|]. set_solver.
    + intros fr e [->|Hfr]%elem_of_cons Hin Hf Hs; [|eauto]. simpl in *.
      destruct (F1 e Hin Hf) as (s & Hs' & Hp). congruence.
  - (* return *)
    destruct HF as [F1 F2 F3]. split; simpl in *; try done.
    intros fr' e Hfr'. apply F3. by right.
  - (* branch start *)
    apply invFan_set_position, invFan_push_plain; [|reflexivity].
    by apply invFan_push_node.
  - (* branch next *)
    apply invFan_set_position, invFan_push_plain; [|reflexivity].
    by apply invFan_push_node.
  - by apply invFan_set_position.
  - (* rejoin *)
    apply invFan_push_plain; [done|reflexivity].
  - (* choice edge *)
    apply (invFan_push_fan stk σ fr (choiceEdge (f_name fr) index c next)); auto.
  - (* default edge *)
    apply (invFan_push_fan stk σ fr (defaultEdge (f_name fr) next)); auto.
  - (* catch edge *)
    apply invFan_push_plain; [done|reflexivity].
  - (* catch fail *)
    by apply invFan_set_position, invFan_push_node, invFan_add_processed.
  - (* next edge *)
    apply invFan_push_plain; [done|reflexivity].
  - (* end marker *)
    apply invFan_push_plain; [|reflexivity].
    by apply invFan_push_node.
Qed.

Lemma invFan_initial : invFan ([], initialLayout startAt).
Proof.
  split; simpl.
  - intros e ->%list_elem_of_singleton. discriminate.
  - unfold fanKeys. simpl. constructor.
  - intros fr e []%elem_of_nil.
Qed.

Lemma invFan_steps c c' : invNodes c → invFan c → steps c c' → invFan c'.
Proof.
  intros HN HF Hs. revert HN HF.
  induction Hs as [|c1 c2 c3 H12 H23 IH]; [done|]. intros HN HF.
  apply IH.
  - eapply invNodes_step; eauto.
  - eapply invFan_step; eauto.
Qed.

End FanInvariant.


(** * What holds of every returned graph *)

Lemma layoutMachine_final fuel m g :
  layoutMachine fuel m = Returns g →
  (g = emptyGraph ∧ (truthy (StartAt m) = None ∨ size (ownStates m) = 0%nat))
  ∨ ∃ startAt σ,
      truthy (StartAt m) = Some startAt ∧
      g = mkGraph (nodes σ) (edges σ) ∧
      finalFacts (statesOf m) startAt σ.
Proof.
  intros [?|(startAt & σ & Hst & _ & Hs & Hd & ->)]%layoutMachine_Returns;
    [by left | right].
  exists startAt, σ. split; [done|]. split; [done|].
  pose proof (invNodes_initial (statesOf m) startAt) as HN.
  split.
  - eapply invNodes_steps; eauto.
  - eapply invTargets_steps; eauto using invTargets_initial.
  - eapply invClosed_steps; eauto using invClosed_initial.
  - eapply invJustified_steps; eauto using invJustified_initial.
  - eapply invFan_steps; eauto using invFan_initial.
  - done.
Qed.

Lemma parseStateMachine_final JSON_parse fuel input m g :
  definitionOf JSON_parse input = Some m →
  parseStateMachine JSON_parse fuel input = Returns g →
  (g = emptyGraph ∧ (truthy (StartAt m) = None ∨ size (ownStates m) = 0%nat))
  ∨ ∃ startAt σ,
      truthy (StartAt m) = Some startAt ∧
      g = mkGraph (nodes σ) (edges σ) ∧
      finalFacts (statesOf m) startAt σ.
Proof.
  unfold definitionOf, parseStateMachine.
  destruct (decode JSON_parse input) as [[|m'|]|]; try discriminate.
  intros [= ->]. apply layoutMachine_final.
Qed.

Lemma successors_references st t : t ∈ successors st → t ∈ references st.
Proof.
  unfold successors, references, dispatch.
  destruct (bool_decide (Type_ st = Some "Parallel")), (Branches st),
    (bool_decide (Type_ st = Some "Choice")), (Choices st); simpl;
    rewrite ?elem_of_app; tauto.
Qed.

Lemma catchTargets_references st t :
  t ∈ catchTargets st → t ∈ catchReferences st.
Proof.
  unfold catchTargets, catchReferences.
  destruct (dispatch st), (Catch st); simpl; try done; by intros ?%elem_of_nil.
Qed.

Lemma dispatch_not_fail st : dispatch st ≠ KRegular → isFail st = false.
Proof.
  unfold dispatch, isFail. intros H.
  repeat case_bool_decide; try done; try congruence;
    destruct (Branches st), (Choices st); congruence.
Qed.

Lemma stateNode_unique ns n1 n2 :
  NoDup (stateNodeIds ns) →
  n1 ∈ ns → n2 ∈ ns → isStateNode n1 = true → isStateNode n2 = true →
  Node.id n1 = Node.id n2 → n1 = n2.
Proof.
  unfold stateNodeIds. intros Hnd H1 H2 Hs1 Hs2 Hid.
  assert (Hin1 : n1 ∈ stateNodes ns) by by apply elem_of_stateNodes.
  assert (Hin2 : n2 ∈ stateNodes ns) by by apply elem_of_stateNodes.
  clear H1 H2. induction (stateNodes ns) as [|n l IH]; [by apply elem_of_nil in Hin1|].
  rewrite fmap_cons in Hnd. apply NoDup_cons in Hnd as [Hnot Hnd].
  apply elem_of_cons in Hin1 as [->|Hin1], Hin2 as [->|Hin2]; auto.
  - exfalso. apply Hnot. rewrite Hid. apply list_elem_of_fmap. eauto.
  - exfalso. apply Hnot. rewrite <- Hid. apply list_elem_of_fmap. eauto.
Qed.

Lemma count_occ_NoDup (l : list string) s :
  NoDup l → s ∈ l → count_occ String.string_dec l s = 1%nat.
Proof.
  intros Hnd%NoDup_ListNoDup Hin.
  apply (proj1 (List.NoDup_count_occ' String.string_dec l)); [done|].
  by apply list_elem_of_In.
Qed.

Lemma fanEdges_count es s t :
  length (List.filter
            (λ e, isFanEdge e
                  && bool_decide (Edge.source e = PosId s ∧ Edge.target e = t)) es)
  = count_occ (λ x y, decide (x = y)) (fanKeys es) (PosId s, t).
Proof.
  unfold fanKeys. induction es as [|e es IH]; [done|]. simpl.
  destruct (isFanEdge e) eqn:Hf; simpl; [|done].
  destruct (decide ((Edge.source e, Edge.target e) = (PosId s, t))) as [Heq|Hne].
  - rewrite bool_decide_true; [simpl; by rewrite IH | by injection Heq].
  - rewrite bool_decide_false; [done|]. intros [? ?]. apply Hne. congruence.
Qed.

Lemma fanEdges_one es e s t :
  NoDup (fanKeys es) → e ∈ es → isFanEdge e = true →
  Edge.source e = PosId s → Edge.target e = t →
  length (List.filter
            (λ e, isFanEdge e
                  && bool_decide (Edge.source e = PosId s ∧ Edge.target e = t)) es)
  = 1%nat.
Proof.
  intros Hnd%NoDup_ListNoDup Hin Hf Hs Ht. rewrite fanEdges_count.
  apply (proj1 (List.NoDup_count_occ' _ (fanKeys es))); [done|].
  apply list_elem_of_In, elem_of_fanKeys. exists e. split_and!; auto. congruence.
Qed.

Section Final.

Variable states : gmap string stateObj.
Variable startAt : string.
Variable σ : layoutState.
Hypothesis HF : finalFacts states startAt σ.

Lemma final_processed s :
  s ∈ processedStates σ ↔ s ∈ stateNodeIds (nodes σ).
Proof. apply (in_processed _ _ (ff_nodes _ _ _ HF)). Qed.

(** A processed state is a Fail state or has been laid out in full. *)
Lemma final_laidOut s :
  s ∈ processedStates σ →
  ∃ st, states !! s = Some st ∧ (isFail st = true ∨ laidOut states σ s st).
Proof.
  intros Hs.
  destruct (ic_processed _ _ (ff_closed _ _ _ HF) s Hs)
    as [(fr & []%elem_of_nil & _)|?]; done.
Qed.

(** Depth-first completeness: every reachable state has been processed. *)
Lemma final_reachable t : reachable states startAt t → t ∈ processedStates σ.
Proof.
  induction 1 as [Hst|s st t Hr IH Hs Ht Hin].
  - destruct (ff_start _ _ _ HF) as [?|Hnone]; [done|].
    rewrite Hnone in Hst. by destruct Hst.
  - destruct (final_laidOut s IH) as (st' & Hs' & Hl).
    replace st' with st in * by congruence.
    unfold transitions in Ht.
    destruct Hl as [Hfail|Hl]; [rewrite Hfail in Ht; by apply elem_of_nil in Ht|].
    destruct (isFail st); [by apply elem_of_nil in Ht|].
    destruct (lo_successors _ _ _ _ Hl t Ht) as [?|Hnone]; [done|].
    rewrite Hnone in Hin. by destruct Hin.
Qed.

End Final.


(** * The claims *)

Lemma parseStateMachine_definitionOf JSON_parse fuel input m :
  definitionOf JSON_parse input = Some m →
  parseStateMachine JSON_parse fuel input = layoutMachine fuel m.
Proof.
  unfold definitionOf, parseStateMachine.
  destruct (decode JSON_parse input) as [[]|]; congruence.
Qed.

Lemma parseStateMachine_Returns JSON_parse fuel input g :
  parseStateMachine JSON_parse fuel input = Returns g →
  g = emptyGraph
  ∨ ∃ m, definitionOf JSON_parse input = Some m ∧ layoutMachine fuel m = Returns g.
Proof.
  unfold definitionOf, parseStateMachine.
  destruct (decode JSON_parse input) as [[|m|]|]; intros H; try discriminate H.
  - right. eauto.
  - left. congruence.
  - left. congruence.
Qed.




(** ** C4: reachable states appear once *)

(** C4 fails on the code: the state T of the branch is reachable from the
    start state (into the branch of P, then along the choice rule of C), and
    no returned node stands for it, while C has its branch node: the branch
    loop follows [Next] only.  The same two states as a definition of their
    own are both laid out: the main path dispatches on the Choice state. *)
Theorem choice_in_branch_counterexample :
  ∃ g st br g',
    parseStateMachine rejectAll 3 (InObject choiceInBranch) = Returns g
    ∧ specReachable choiceInBranch "T"
    ∧ ("T" ∉ nodeLabels g)
    ∧ branchId "P" 0 "C" ∈ nodeIds (g_nodes g)
    ∧ statesOf choiceInBranch !! "P" = Some st ∧ Branches st = Some [br]
    ∧ parseStateMachine rejectAll 3 (InObject br) = Returns g'
    ∧ "T" ∈ nodeLabels g'.
Proof.
  eexists. eexists. eexists. eexists.
  split; [vm_compute; reflexivity|]. split_and!.
  - eapply (specReachable_branch _ "P"); [| reflexivity | reflexivity | by left |].
    + apply reachesIn_start; [reflexivity | by eexists].
    + eapply (reachesIn_step _ "C"); [| reflexivity | | by eexists].
      * apply reachesIn_start; [reflexivity | by eexists].
      * vm_compute. by left.
  - intros Hin. apply list_elem_of_In in Hin. vm_compute in Hin.
    repeat destruct Hin as [Hin|Hin]; try discriminate Hin. done.
  - apply list_elem_of_In. vm_compute. auto.
  - reflexivity.
  - reflexivity.
  - vm_compute; reflexivity.
  - apply list_elem_of_In. vm_compute. auto.
Qed.

(** X29: every name reachable in the main graph (along the [Next] of a state
    laid out as a regular or Parallel state, and the choice and default
    targets of a Choice state, as far as [states[name]] finds them; nothing
    is followed out of a Fail state) appears exactly once among the state
    nodes; no state identifier has two state nodes; and every state on the
    [Next] chain of a branch of a reachable Parallel state has its branch
    node. *)
Theorem reachable_states_once JSON_parse fuel input m g startAt :
  definitionOf JSON_parse input = Some m →
  parseStateMachine JSON_parse fuel input = Returns g →
  truthy (StartAt m) = Some startAt →
  size (ownStates m) ≠ 0%nat →
  NoDup (stateNodeIds (g_nodes g))
  ∧ (∀ t, reachable (statesOf m) startAt t →
          count_occ String.string_dec (stateNodeIds (g_nodes g)) t = 1%nat)
  ∧ (∀ p st brs index br b t,
       reachable (statesOf m) startAt p →
       statesOf m !! p = Some st → dispatch st = KParallel brs →
       brs !! index = Some br → truthy (StartAt br) = Some b →
       onChain (statesOf br) b t →
       branchId p index t ∈ nodeIds (g_nodes g)).
Proof.
  intros Hm Hrun Hstart Hsize.
  destruct (parseStateMachine_final _ _ _ _ _ Hm Hrun)
    as [[-> Hempty]|(startAt' & σ & Hstart' & -> & HF)].
  { destruct Hempty; [congruence | done]. }
  replace startAt' with startAt in * by congruence. simpl.
  pose proof (in_nodup _ _ (ff_nodes _ _ _ HF)) as Hnd. simpl in Hnd.
  split; [done|]. split.
  - intros t Hr. apply count_occ_NoDup; [done|].
    apply (final_processed _ _ _ HF). by eapply final_reachable.
  - intros p st brs index br b t Hr Hp Hk Hbr Hb Hch.
    eapply final_reachable in Hr; [|exact HF].
    destruct (final_laidOut _ _ _ HF p Hr) as (st' & Hp' & [Hfail|Hl]).
    + replace st' with st in * by congruence.
      rewrite dispatch_not_fail in Hfail; [done | congruence].
    + replace st' with st in * by congruence.
      eapply (lo_chains _ _ _ _ Hl); eauto.
Qed.

(** X29 on a Parallel state with two branches [a1 → a2] and [b1 → b2],
    followed by a successor. *)
Lemma reachable_states_once_witness :
  definitionOf rejectAll (InObject rejoinExample) = Some rejoinExample
  ∧ ∃ g, parseStateMachine rejectAll 2 (InObject rejoinExample) = Returns g
    ∧ NoDup (stateNodeIds (g_nodes g))
    ∧ (∀ t, reachable (statesOf rejoinExample) "P" t →
            count_occ String.string_dec (stateNodeIds (g_nodes g)) t = 1%nat)
    ∧ (∀ p st brs index br b t,
         reachable (statesOf rejoinExample) "P" p →
         statesOf rejoinExample !! p = Some st → dispatch st = KParallel brs →
         brs !! index = Some br → truthy (StartAt br) = Some b →
         onChain (statesOf br) b t →
         branchId p index t ∈ nodeIds (g_nodes g)).
Proof.
  split; [reflexivity|]. eexists. split; [vm_compute; reflexivity|].
  apply (reachable_states_once rejectAll 2 (InObject rejoinExample) rejoinExample);
    [reflexivity | vm_compute; reflexivity | reflexivity | vm_compute; lia].
Defined.

(** ** C8: the catch side lane *)

(** C8 fails on the code: a Parallel state with branches whose catch rule
    names the Fail state F is laid out, its node is marked [hasCatch], and the
    graph has no node for F and no error edge: only the path of a regular
    state reads [Catch]. *)
Theorem parallel_catch_counterexample :
  ∃ g st, parseStateMachine rejectAll 2 (InObject parallelCatch) = Returns g
    ∧ statesOf parallelCatch !! "P" = Some st
    ∧ catchReferences st = ["F"]
    ∧ mainNode "P" 0 100 st ∈ g_nodes g
    ∧ hasCatch (Node.data (mainNode "P" 0 100 st)) = Some true
    ∧ ("F" ∉ nodeIds (g_nodes g))
    ∧ List.filter isErrorEdge (g_edges g) = [].
Proof.
  eexists. eexists. split; [vm_compute; reflexivity|].
  split; [reflexivity|]. split; [reflexivity|]. split_and!.
  - apply list_elem_of_In. vm_compute. auto.
  - reflexivity.
  - intros Hin. apply list_elem_of_In in Hin. vm_compute in Hin.
    repeat destruct Hin as [Hin|Hin]; try discriminate Hin. done.
  - reflexivity.
Qed.

(** X30, the catch side lane: for a state laid out as a regular state (not
    itself a Fail state) that has its node and has a catch rule to a Fail
    state named nowhere else, the Fail state has exactly one state node, in
    the row of the thrower and [HORIZONTAL_SPACING] to its right, and the
    error edge of the rule arrives at it by its left handle. *)
Theorem catch_fail_side_lane JSON_parse fuel input m g thrower stT rules index cb
    failName stF nT :
  definitionOf JSON_parse input = Some m →
  parseStateMachine JSON_parse fuel input = Returns g →
  statesOf m !! thrower = Some stT →
  dispatch stT = KRegular → isFail stT = false →
  Catch stT = Some rules → rules !! index = Some cb →
  truthy (cbNext cb) = Some failName →
  statesOf m !! failName = Some stF → isFail stF = true →
  truthy (StartAt m) ≠ Some failName →
  map_Forall (λ _ st, failName ∉ references st) (statesOf m) →
  map_Forall (λ s st, s ≠ thrower → failName ∉ catchReferences st) (statesOf m) →
  nT ∈ g_nodes g → isStateNode nT = true → Node.id nT = thrower →
  ∃ nF, nF ∈ g_nodes g ∧ isStateNode nF = true ∧ Node.id nF = failName
    ∧ Node.position nF
      = mkPos (pos_x (Node.position nT) + HORIZONTAL_SPACING)
          (pos_y (Node.position nT))
    ∧ (∀ n, n ∈ g_nodes g → isStateNode n = true → Node.id n = failName →
            n = nF)
    ∧ catchEdge thrower index failName true ∈ g_edges g.
Proof.
  intros Hm Hrun HT Hk HfT Hr Hcb Hnext HF' HfF Hstart Hrefs Hcrefs HnT HsT HidT.
  destruct (parseStateMachine_final _ _ _ _ _ Hm Hrun)
    as [[-> Hempty]|(startAt & σ & Hstart' & -> & HF)];
    [by apply elem_of_nil in HnT|].
  simpl in *.
  pose proof (in_nodup _ _ (ff_nodes _ _ _ HF)) as Hnd. simpl in Hnd.
  assert (HTp : thrower ∈ processedStates σ).
  { apply (final_processed _ _ _ HF), elem_of_stateNodeIds. eauto. }
  assert (HFin : failName ∈ catchTargets stT).
  { unfold catchTargets. rewrite Hk, Hr. apply list_elem_of_omap.
    exists cb. split; [by eapply list_elem_of_lookup_2 | done]. }
  destruct (final_laidOut _ _ _ HF thrower HTp) as (st' & HT' & [?|Hl]);
    [congruence|].
  replace st' with stT in * by congruence.
  assert (Hfail : targetIsFail (statesOf m) failName = true).
  { unfold targetIsFail. by rewrite HF'. }
  assert (HFp : failName ∈ processedStates σ).
  { by apply (lo_fails _ _ _ _ Hl). }
  apply (final_processed _ _ _ HF), elem_of_stateNodeIds in HFp
    as (nF & HnF & HsF & HidF).
  exists nF. split_and!; auto.
  - destruct (ff_justified _ _ _ HF nF HnF HsF)
      as [Hj|[(p & pst & Hp & Hin)|(n' & st'' & t & Hn' & Hs' & Hst' & Hc' & _ & _ & Hpos)]].
    + congruence.
    + exfalso. apply (Hrefs p pst Hp). rewrite <- HidF.
      by apply successors_references.
    + assert (Node.id n' = thrower) as Hid'.
      { destruct (decide (Node.id n' = thrower)) as [|Hne]; [done|]. exfalso.
        apply (Hcrefs _ _ Hst' Hne). rewrite <- HidF.
        by apply catchTargets_references. }
      assert (n' = nT) as -> by (eapply stateNode_unique; eauto; congruence).
      done.
  - intros n Hn Hs Hid. eapply stateNode_unique; eauto. congruence.
  - rewrite <- Hfail. by eapply (lo_catches _ _ _ _ Hl).
Qed.

(** X30 on a Task that catches to a Fail state: the Task at [(0, 100)], the
    Fail state at [(240, 100)]. *)
Lemma catch_fail_side_lane_witness :
  ∃ g nT, parseStateMachine rejectAll 2 (InObject catching) = Returns g
    ∧ nT ∈ g_nodes g ∧ Node.id nT = "A" ∧ Node.position nT = mkPos 0 100
    ∧ ∃ nF, nF ∈ g_nodes g ∧ isStateNode nF = true ∧ Node.id nF = "F"
        ∧ Node.position nF
          = mkPos (pos_x (Node.position nT) + HORIZONTAL_SPACING)
              (pos_y (Node.position nT))
        ∧ (∀ n, n ∈ g_nodes g → isStateNode n = true → Node.id n = "F" →
                n = nF)
        ∧ catchEdge "A" 0 "F" true ∈ g_edges g.
Proof.
  eexists.
  exists (mainNode "A" 0 100
            (mkState (Some "Task") None true
               (Some [mkCatch (Some "F"); mkCatch (Some "R")]) None None None)).
  split; [vm_compute; reflexivity|].
  split; [apply list_elem_of_In; vm_compute; auto|].
  split; [reflexivity|]. split; [reflexivity|].
  eapply (catch_fail_side_lane rejectAll 2 (InObject catching) catching _ "A" _
            _ 0%nat (mkCatch (Some "F")) "F").
  - reflexivity.
  - vm_compute; reflexivity.
  - reflexivity.
  - reflexivity.
  - reflexivity.
  - reflexivity.
  - reflexivity.
  - reflexivity.
  - reflexivity.
  - reflexivity.
  - discriminate.
  - refine (bool_decide_unpack _ _). vm_compute. exact I.
  - refine (bool_decide_unpack _ _). vm_compute. exact I.
  - apply list_elem_of_In; vm_compute; auto.
  - reflexivity.
  - reflexivity.
Defined.

(** ** C7: several references of a Choice state to one target *)

(** C7, as stated, fails: a Choice state whose two rules and default all name
    T refers to T three times, and one edge is drawn: [choiceTargets] makes
    the loop skip a target it has seen. *)
Lemma duplicate_choice_counterexample :
  ∃ g st, parseStateMachine rejectAll 3 (InObject duplicateChoice) = Returns g
    ∧ statesOf duplicateChoice !! "C" = Some st
    ∧ referenceCount st "T" = 3%nat
    ∧ length (fanEdgesBetween g "C" "T") = 1%nat.
Proof.
  eexists. eexists. split; [vm_compute; reflexivity|].
  split; [reflexivity|]. split; reflexivity.
Qed.

(** For a Choice state that has been laid out, each target named by its
    rules or its default gets exactly one choice or default edge from the
    Choice node, and the target has at most one state node. *)
Lemma choice_target_count JSON_parse fuel input m g name st cs t :
  definitionOf JSON_parse input = Some m →
  parseStateMachine JSON_parse fuel input = Returns g →
  statesOf m !! name = Some st →
  dispatch st = KChoice cs →
  name ∈ stateNodeIds (g_nodes g) →
  t ∈ successors st →
  length (fanEdgesBetween g name t) = 1%nat
  ∧ (count_occ String.string_dec (stateNodeIds (g_nodes g)) t ≤ 1)%nat
  ∧ (is_Some (statesOf m !! t) →
     count_occ String.string_dec (stateNodeIds (g_nodes g)) t = 1%nat).
Proof.
  intros Hm Hrun Hn Hk Hin Ht.
  destruct (parseStateMachine_final _ _ _ _ _ Hm Hrun)
    as [[-> Hempty]|(startAt & σ & Hstart' & -> & HF)];
    [by apply elem_of_nil in Hin|].
  simpl in *.
  pose proof (in_nodup _ _ (ff_nodes _ _ _ HF)) as Hnd. simpl in Hnd.
  apply (final_processed _ _ _ HF) in Hin.
  destruct (final_laidOut _ _ _ HF name Hin) as (st' & Hn' & [Hf|Hl]).
  { replace st' with st in * by congruence.
    rewrite dispatch_not_fail in Hf; [done | congruence]. }
  replace st' with st in * by congruence.
  split_and!.
  - destruct (lo_fan _ _ _ _ Hl cs t Hk Ht) as (e & He & Hfan & Hsrc & Htgt).
    unfold fanEdgesBetween. simpl. eapply fanEdges_one; eauto.
    apply (if_nodup _ (ff_fan _ _ _ HF)).
  - by apply List.NoDup_count_occ, NoDup_ListNoDup.
  - intros Hsome. apply count_occ_NoDup; [done|].
    apply (final_processed _ _ _ HF).
    destruct (lo_successors _ _ _ _ Hl t Ht) as [?|Hnone]; [done|].
    rewrite Hnone in Hsome. by destruct Hsome.
Qed.

(** ** C3: malformed definitions *)

(** C3, as stated, fails: when the start state is present but is not a key of
    a non-empty [States], the entry marker and the entry edge are returned. *)
Lemma start_not_a_key_counterexample :
  ∃ g, parseStateMachine rejectAll 1 (InObject startNotAKey) = Returns g
    ∧ statesOf startNotAKey !! "X" = None
    ∧ g ≠ emptyGraph.
Proof.
  eexists. split; [vm_compute; reflexivity|]. split; [reflexivity | discriminate].
Qed.

(** C3 (amended): [undefined], a text that does not parse, a definition with
    no state and a definition with no start state give the empty graph, with
    no error; a definition whose start state is present but is not a key of
    its (non-empty) [States] gives the entry marker and the entry edge, and
    one more node when the start state names a property that [States]
    inherits. *)
Theorem malformed_definition_graph JSON_parse fuel :
  parseStateMachine JSON_parse fuel InUndefined = Returns emptyGraph
  ∧ (∀ s, JSON_parse s = None →
          parseStateMachine JSON_parse fuel (InString s) = Returns emptyGraph)
  ∧ (∀ input m,
       definitionOf JSON_parse input = Some m →
       size (ownStates m) = 0%nat ∨ truthy (StartAt m) = None →
       parseStateMachine JSON_parse fuel input = Returns emptyGraph)
  ∧ (∀ input m s,
       definitionOf JSON_parse input = Some m →
       truthy (StartAt m) = Some s →
       size (ownStates m) ≠ 0%nat →
       ownStates m !! s = None →
       parseStateMachine JSON_parse (S fuel) input
       = Returns
           (if bool_decide (s ∈ Object_prototype)
            then mkGraph [startNode; mainNode s 0 VERTICAL_SPACING inheritedValue]
                   [startEdge s]
            else mkGraph [startNode] [startEdge s])).
Proof.
  split_and!.
  - reflexivity.
  - intros s Hs. unfold parseStateMachine. simpl. by rewrite Hs.
  - intros input m Hm Hbad.
    rewrite (parseStateMachine_definitionOf _ _ _ _ Hm). unfold layoutMachine.
    destruct (truthy (StartAt m)) as [s|]; [|done].
    destruct Hbad as [Hsize|?]; [|done]. by rewrite bool_decide_true.
  - intros input m s Hm Hs Hsize Hnone.
    rewrite (parseStateMachine_definitionOf _ _ _ _ Hm). unfold layoutMachine.
    rewrite Hs, bool_decide_false by done.
    simpl. unfold processState_body, bind, hasProcessed, ret. simpl.
    rewrite bool_decide_false by set_solver.
    case_bool_decide as Hin.
    + assert (statesOf m !! s = Some inheritedValue) as ->.
      { apply statesOf_Some. by right. }
      reflexivity.
    + assert (statesOf m !! s = None) as -> by by apply statesOf_None.
      reflexivity.
Qed.

(** The amended C3 on the three inputs the specification names, on a start
    state that is not a key and on one that names an inherited property. *)
Lemma malformed_definition_graph_witness :
  parseStateMachine rejectAll 0 InUndefined = Returns emptyGraph
  ∧ parseStateMachine rejectAll 0 (InString "{not json") = Returns emptyGraph
  ∧ parseStateMachine rejectAll 0 (InObject noStates) = Returns emptyGraph
  ∧ parseStateMachine rejectAll 1 (InObject startNotAKey)
    = Returns (mkGraph [startNode] [startEdge "X"])
  ∧ parseStateMachine rejectAll 1 (InObject startInherited)
    = Returns
        (mkGraph [startNode; mainNode "constructor" 0 100 inheritedValue]
           [startEdge "constructor"]).
Proof.
  destruct (malformed_definition_graph rejectAll 0) as (H1 & H2 & H3 & H4).
  split_and!.
  - exact H1.
  - apply H2. reflexivity.
  - apply (H3 _ noStates); [reflexivity | left; reflexivity].
  - apply (H4 _ startNotAKey "X"); [reflexivity | reflexivity | | reflexivity].
    vm_compute. discriminate.
  - apply (H4 _ startInherited "constructor");
      [reflexivity | reflexivity | | reflexivity].
    vm_compute. discriminate.
Defined.

(** On [null] an error is raised and no graph is returned: the argument is
    falsy, [JSON.parse(null)] returns [null] without an error, and reading
    [States] of [null] throws outside the [try] block. *)
Example null_definition_throws JSON_parse fuel :
  parseStateMachine JSON_parse fuel InNull = Throws.
Proof. reflexivity. Qed.

(** ** C9: exit markers *)

(** C9 fails on the code: a Parallel state with [End: true] is laid out, and
    no exit marker is made for it, since only the regular path reads [End]. *)
Theorem parallel_end_no_exit_marker :
  ∃ g st, parseStateMachine rejectAll 2 (InObject parallelEnd) = Returns g
    ∧ statesOf parallelEnd !! "P" = Some st ∧ End_ st = true
    ∧ "P" ∈ stateNodeIds (g_nodes g)
    ∧ (endNodeId "P" ∉ nodeIds (g_nodes g))
    ∧ (Some "End" ∉ (λ n, type (Node.data n)) <$> g_nodes g).
Proof.
  eexists. eexists. split; [vm_compute; reflexivity|].
  split; [reflexivity|]. split; [reflexivity|]. split_and!.
  - apply list_elem_of_In. vm_compute. auto.
  - intros Hin. apply list_elem_of_In in Hin. vm_compute in Hin.
    repeat destruct Hin as [Hin|Hin]; try discriminate Hin. done.
  - intros Hin. apply list_elem_of_In in Hin. vm_compute in Hin.
    repeat destruct Hin as [Hin|Hin]; try discriminate Hin. done.
Qed.


(** ** C2: termination *)

(** One turn of the branch loop. *)
Lemma walkBranch_S fuel bs name index bx cur prev by_ σ :
  walkBranch (S fuel) bs name index bx cur prev by_ σ =
  match truthy (Next cur) with
  | None => Some ((prev, by_), σ)
  | Some next =>
      match bs !! next with
      | None => Some ((prev, by_), σ)
      | Some nst =>
          walkBranch fuel bs name index bx nst (branchId name index next)
            (by_ + VERTICAL_SPACING)
            (branchAdvanced name index prev next nst bx by_ σ)
      end
  end.
Proof.
  simpl. destruct (truthy (Next cur)) as [next|]; [|done].
  by destruct (bs !! next).
Qed.

Lemma walkBranch_0 bs name index bx cur prev by_ σ next nst :
  truthy (Next cur) = Some next → bs !! next = Some nst →
  walkBranch 0 bs name index bx cur prev by_ σ = None.
Proof. intros H1 H2. simpl. by rewrite H1, H2. Qed.

(** The loop never ends on a branch whose two states name each other. *)
Lemma walkBranch_cycle fuel bs :
  bs !! "A" = Some (pass (Some "B") false) →
  bs !! "B" = Some (pass (Some "A") false) →
  ∀ name index bx cur prev by_ σ,
  cur = pass (Some "B") false ∨ cur = pass (Some "A") false →
  walkBranch fuel bs name index bx cur prev by_ σ = None.
Proof.
  intros HA HB.
  induction fuel as [|fuel IH]; intros name index bx cur prev by_ σ [-> | ->].
  - by apply (walkBranch_0 _ _ _ _ _ _ _ _ "B" (pass (Some "A") false)).
  - by apply (walkBranch_0 _ _ _ _ _ _ _ _ "A" (pass (Some "B") false)).
  - rewrite walkBranch_S.
    change (truthy (Next (pass (Some "B") false))) with (Some "B").
    cbv beta iota. rewrite HB. apply IH. by right.
  - rewrite walkBranch_S.
    change (truthy (Next (pass (Some "A") false))) with (Some "A").
    cbv beta iota. rewrite HA. apply IH. by left.
Qed.

Lemma cycle_lookup_A :
  statesOf (mkMachine (Some "A") (Some cycleStates)) !! "A"
  = Some (pass (Some "B") false).
Proof. reflexivity. Qed.

Lemma cycle_lookup_B :
  statesOf (mkMachine (Some "A") (Some cycleStates)) !! "B"
  = Some (pass (Some "A") false).
Proof. reflexivity. Qed.

Lemma layoutBranch_cycle fuel name startX nextY index mb σ :
  layoutBranch fuel name startX nextY (mkMachine (Some "A") (Some cycleStates))
    index mb σ = None.
Proof.
  destruct (layoutBranch _ _ _ _ _ _ _ _) as [[r σ']|] eqn:Hrun; [exfalso|done].
  unfold layoutBranch in Hrun. cbv zeta in Hrun.
  change (truthy (StartAt (mkMachine (Some "A") (Some cycleStates))))
    with (Some "A") in Hrun.
  cbv beta iota in Hrun. rewrite cycle_lookup_A in Hrun. minv.
  match goal with
  | H : walkBranch _ _ _ _ _ _ _ _ _ = Some _ |- _ =>
      rewrite walkBranch_cycle in H;
        [done | apply cycle_lookup_A | apply cycle_lookup_B | by left]
  end.
Qed.

(** C2 fails on the code: with a cycle inside a branch's [Next] chain the
    branch loop has no guard and the call never returns, whatever the fuel. *)
Theorem branch_cycle_diverges fuel :
  parseStateMachine rejectAll fuel (InObject branchCycle) = Diverges.
Proof.
  change (layoutMachine fuel branchCycle = Diverges).
  unfold layoutMachine.
  change (truthy (StartAt branchCycle)) with (Some "P").
  cbv beta iota.
  replace (bool_decide (size (ownStates branchCycle) = 0%nat)) with false
    by (by vm_compute).
  destruct (processState _ fuel _ _ _ _) as [[r σ']|] eqn:Hrun; [exfalso|done].
  destruct fuel as [|fuel]; [by simpl in Hrun|].
  simpl in Hrun. unfold processState_body in Hrun. minv.
  simpl in Hrun. rewrite bool_decide_false in Hrun by set_solver.
  assert (Hp : statesOf branchCycle !! "P" =
               Some (mkState (Some "Parallel") None true None None None
                       (Some [mkMachine (Some "A") (Some cycleStates)])))
    by reflexivity.
  rewrite Hp in Hrun. minv.
  change (dispatch (mkState (Some "Parallel") None true None None None
                      (Some [mkMachine (Some "A") (Some cycleStates)])))
    with (KParallel [mkMachine (Some "A") (Some cycleStates)]) in Hrun.
  cbv beta iota in Hrun. unfold processParallel in Hrun. minv.
  match goal with
  | H : forEach _ _ _ _ = Some _ |- _ =>
      unfold forEach in H; simpl in H; minv
  end.
  match goal with
  | H : layoutBranch _ _ _ _ _ _ _ _ = Some _ |- _ =>
      by rewrite layoutBranch_cycle in H
  end.
Qed.



(** ** The result does not depend on the fuel *)

Lemma extends_refl {A} (m : M A) : extends m m.
Proof. by intros σ r. Qed.

Lemma extends_bind {A B} (m m' : M A) (k k' : A → M B) :
  extends m m' → (∀ a, extends (k a) (k' a)) →
  extends (bind m k) (bind m' k').
Proof.
  intros Hm Hk σ r Hrun. apply bind_Some in Hrun as (a & σ1 & E & Hrun).
  unfold bind. rewrite (Hm _ _ E). by apply Hk.
Qed.

Lemma extends_forEachFrom {A V} (f g : A → nat → V → M V) l :
  (∀ a i s, extends (f a i s) (g a i s)) →
  ∀ i s, extends (forEachFrom f l i s) (forEachFrom g l i s).
Proof.
  intros Hfg. induction l as [|a l IH]; intros i s; simpl.
  - apply extends_refl.
  - apply extends_bind; [apply Hfg | intros s'; apply IH].
Qed.

Lemma extends_forEach {A V} (f g : A → nat → V → M V) l s :
  (∀ a i s, extends (f a i s) (g a i s)) →
  extends (forEach f l s) (forEach g l s).
Proof. intros. by apply extends_forEachFrom. Qed.

Lemma extends_walkBranch fuel : ∀ fuel' bs name index bx cur prev by_,
  (fuel ≤ fuel')%nat →
  extends (walkBranch fuel bs name index bx cur prev by_)
          (walkBranch fuel' bs name index bx cur prev by_).
Proof.
  induction fuel as [|fuel IH]; intros fuel' bs name index bx cur prev by_ Hle.
  - intros σ r Hrun. simpl in Hrun.
    destruct fuel'; [done|]. rewrite walkBranch_S.
    destruct (truthy (Next cur)) as [next|]; [|done].
    destruct (bs !! next); [|done]. by apply outOfFuel_Some in Hrun.
  - destruct fuel' as [|fuel']; [lia|].
    intros σ r. rewrite !walkBranch_S.
    destruct (truthy (Next cur)) as [next|]; [|done].
    destruct (bs !! next); [|done]. apply IH. lia.
Qed.

(** One step of a proof that a computation extends another of the same
    shape. *)
Ltac extends_step :=
  match goal with
  | |- extends ?m ?m => apply extends_refl
  | |- extends (bind _ _) (bind _ _) => apply extends_bind; [|intros ?]
  | |- extends (forEach _ _ _) (forEach _ _ _) =>
      apply extends_forEach; intros ? ? ?
  | |- extends (walkBranch _ _ _ _ _ _ _ _) (walkBranch _ _ _ _ _ _ _ _) =>
      apply extends_walkBranch; lia
  | |- extends (match ?x with _ => _ end) _ => destruct x
  end.

Section FuelBody.

Variable states : gmap string stateObj.
Variables rec rec' : string → Z → Z → M Z.
Variables fuel fuel' : nat.
Hypothesis Hrec : ∀ name x y, extends (rec name x y) (rec' name x y).
Hypothesis Hfuel : (fuel ≤ fuel')%nat.

Lemma extends_body name x y :
  extends (processState_body states rec fuel name x y)
          (processState_body states rec' fuel' name x y).
Proof.
  unfold processState_body, processParallel, processChoice, processRegular,
    layoutBranch, rejoinBranch, layoutChoice, layoutCatch.
  repeat (first [apply Hrec | extends_step]).
Qed.

End FuelBody.

Lemma extends_processState states fuel : ∀ fuel' name x y,
  (fuel ≤ fuel')%nat →
  extends (processState states fuel name x y)
          (processState states fuel' name x y).
Proof.
  induction fuel as [|fuel IH]; intros fuel' name x y Hle.
  - intros σ r Hrun. by apply outOfFuel_Some in Hrun.
  - destruct fuel' as [|fuel']; [lia|]. simpl.
    apply extends_body; [|lia]. intros name' x' y'. apply IH. lia.
Qed.

(** More fuel does not change a returned graph. *)
Lemma layoutMachine_fuel fuel fuel' m g :
  (fuel ≤ fuel')%nat →
  layoutMachine fuel m = Returns g → layoutMachine fuel' m = Returns g.
Proof.
  unfold layoutMachine. intros Hle.
  destruct (truthy (StartAt m)) as [startAt|]; [|done].
  case_bool_decide; [done|].
  destruct (processState _ fuel _ _ _ _) as [[r σ]|] eqn:Hrun; [|done].
  by rewrite (extends_processState _ _ _ _ _ _ Hle _ _ Hrun).
Qed.

(** Two budgets that both give a graph give the same graph. *)
Lemma layoutMachine_deterministic fuel1 fuel2 m g1 g2 :
  layoutMachine fuel1 m = Returns g1 → layoutMachine fuel2 m = Returns g2 →
  g1 = g2.
Proof.
  intros H1 H2.
  apply (layoutMachine_fuel _ (max fuel1 fuel2)) in H1; [|lia].
  apply (layoutMachine_fuel _ (max fuel1 fuel2)) in H2; [|lia].
  congruence.
Qed.


(** ** Strings and branch-scoped ids *)

Lemma append_cancel (p a b : string) : p +:+ a = p +:+ b → a = b.
Proof. induction p as [|c p IH]; simpl; [done|]. intros [= H]. auto. Qed.

Lemma append_length (a b : string) :
  String.length (a +:+ b) = (String.length a + String.length b)%nat.
Proof. induction a as [|c a IH]; simpl; [done|]. by rewrite IH. Qed.

Lemma entryTruthy_branchId p i x : entryTruthy (PosId (branchId p i x)) = true.
Proof.
  simpl. apply bool_decide_eq_true_2. unfold branchId.
  intros H%(f_equal String.length). rewrite !append_length in H. simpl in H. lia.
Qed.


(** ** Termination when the branch chains are finite *)

Lemma total_ret {A} (a : A) σ Q : Q a σ → total (ret a) σ Q.
Proof. intros. by exists a, σ. Qed.

Lemma total_bind {A B} (m : M A) (k : A → M B) σ Q :
  total m σ (λ a σ1, total (k a) σ1 Q) → total (bind m k) σ Q.
Proof.
  intros (a & σ1 & Hm & b & σ2 & Hk & HQ). exists b, σ2.
  split; [|done]. unfold bind. by rewrite Hm.
Qed.

Lemma total_mono {A} (m : M A) σ (Q Q' : A → layoutState → Prop) :
  total m σ Q → (∀ a σ', Q a σ' → Q' a σ') → total m σ Q'.
Proof. intros (a & σ' & ? & ?) HQ. exists a, σ'. auto. Qed.

Lemma total_pushNode n σ Q : Q tt (push_node n σ) → total (pushNode n) σ Q.
Proof. intros. by exists tt, (push_node n σ). Qed.

Lemma total_pushEdge e σ Q : Q tt (push_edge e σ) → total (pushEdge e) σ Q.
Proof. intros. by exists tt, (push_edge e σ). Qed.

Lemma total_setPosition k v σ Q :
  Q tt (set_position k v σ) → total (setPosition k v) σ Q.
Proof. intros. by exists tt, (set_position k v σ). Qed.

Lemma total_addProcessed s σ Q :
  Q tt (add_processed s σ) → total (addProcessed s) σ Q.
Proof. intros. by exists tt, (add_processed s σ). Qed.

Lemma total_getPosition k σ Q :
  Q (nodePositions σ !! k) σ → total (getPosition k) σ Q.
Proof. intros. by exists (nodePositions σ !! k), σ. Qed.

Lemma total_hasProcessed s σ Q :
  Q (bool_decide (s ∈ processedStates σ)) σ → total (hasProcessed s) σ Q.
Proof. intros. by exists (bool_decide (s ∈ processedStates σ)), σ. Qed.

Lemma total_forEachFrom {A V} (I : layoutState → Prop)
    (f : A → nat → V → M V) (l : list A) :
  ∀ i0 s σ,
    I σ →
    (∀ i a s σ, l !! i = Some a → I σ →
                total (f a (i0 + i)%nat s) σ (λ _ σ', I σ')) →
    total (forEachFrom f l i0 s) σ (λ _ σ', I σ').
Proof.
  induction l as [|a l IH]; intros i0 s σ HI Hf; simpl.
  - by apply total_ret.
  - apply total_bind.
    specialize (Hf 0%nat a s σ eq_refl HI) as Hhead.
    rewrite Nat.add_0_r in Hhead.
    eapply total_mono; [exact Hhead|]. intros s' σ' HI'. simpl in HI'.
    apply IH; [done|]. intros i b s1 σ1 Hl HI1.
    replace (S i0 + i)%nat with (i0 + S i)%nat by lia. by apply Hf.
Qed.

Lemma total_forEach {A V} (I : layoutState → Prop)
    (f : A → nat → V → M V) (l : list A) s σ :
  I σ →
  (∀ i a s σ, l !! i = Some a → I σ → total (f a i s) σ (λ _ σ', I σ')) →
  total (forEach f l s) σ (λ _ σ', I σ').
Proof. intros HI Hf. by apply total_forEachFrom. Qed.

(** The branch loop returns when the chain stops within the fuel, and leaves
    the processed states alone. *)
Lemma total_walkBranch (I : gset string → Prop) k : ∀ fuel bs name index bx cur prev by_ σ,
  chainStopsWithin k bs cur = true → (k ≤ fuel)%nat →
  I (processedStates σ) →
  total (walkBranch fuel bs name index bx cur prev by_) σ
    (λ _ σ', I (processedStates σ')).
Proof.
  unfold total.
  induction k as [|k IH]; intros fuel bs name index bx cur prev by_ σ Hk Hle HI.
  - simpl in Hk. destruct fuel as [|fuel]; [simpl|rewrite walkBranch_S].
    all: destruct (truthy (Next cur)) as [n|]; [|by eexists _, _].
    all: destruct (bs !! n); [done | by eexists _, _].
  - destruct fuel as [|fuel]; [lia|]. simpl in Hk. rewrite walkBranch_S.
    destruct (truthy (Next cur)) as [n|]; [|by eexists _, _].
    destruct (bs !! n) as [nst|]; [|by eexists _, _].
    apply IH; [done | lia | done].
Qed.

Section TotalBody.

Variable states : gmap string stateObj.
Variable rec : string → Z → Z → M Z.
Variables fuel bound : nat.
Variable kept : gset string.

Hypothesis Hbound : branchesBounded bound states.
Hypothesis Hfuel : (bound ≤ fuel)%nat.
Hypothesis Hrec : ∀ name x y σ,
  kept ⊆ processedStates σ →
  total (rec name x y) σ (λ _ σ', processedStates σ ⊆ processedStates σ').

Local Abbreviation keeps := (keeps kept).

Lemma total_rec {A} name x y σ (k : Z → M A) Q :
  keeps σ →
  (∀ r σ', keeps σ' → total (k r) σ' Q) →
  total (bind (rec name x y) k) σ Q.
Proof.
  intros Hk HQ. apply total_bind.
  eapply total_mono; [by apply Hrec|]. intros r σ' Hsub. apply HQ.
  unfold keeps in *. set_solver.
Qed.

Lemma total_rec_last name x y σ :
  keeps σ → total (rec name x y) σ (λ _ σ', keeps σ').
Proof.
  intros Hk. eapply total_mono; [by apply Hrec|]. intros r σ' Hsub.
  unfold keeps in *. set_solver.
Qed.

(** One step of a proof that a computation returns and keeps [kept]. *)
Ltac total_step :=
  match goal with
  | |- total (ret _) _ _ => apply total_ret
  | |- total (bind (rec _ _ _) _) _ _ => apply total_rec; [done | intros ? ? ?]
  | |- total (rec _ _ _) _ _ => by apply total_rec_last
  | |- total (bind _ _) _ _ => apply total_bind
  | |- total (pushNode _) _ _ => apply total_pushNode
  | |- total (pushEdge _) _ _ => apply total_pushEdge
  | |- total (setPosition _ _) _ _ => apply total_setPosition
  | |- total (addProcessed _) _ _ => apply total_addProcessed
  | |- total (getPosition _) _ _ => apply total_getPosition
  | |- total (hasProcessed _) _ _ => apply total_hasProcessed
  | |- total (match ?x with _ => _ end) _ _ => destruct x eqn:?
  | |- keeps _ => unfold keeps in *; simpl; set_solver
  end.

Lemma total_layoutCatch name x y cb index u σ :
  keeps σ → total (layoutCatch states name x y cb index u) σ (λ _ σ', keeps σ').
Proof. intros Hk. unfold layoutCatch. repeat total_step. Qed.

Lemma total_layoutChoice name startX nextY c index acc σ :
  keeps σ →
  total (layoutChoice rec name startX nextY c index acc) σ (λ _ σ', keeps σ').
Proof. intros Hk. unfold layoutChoice. destruct acc. repeat total_step. Qed.

Lemma total_rejoinBranch name next br index u σ :
  keeps σ → total (rejoinBranch name next br index u) σ (λ _ σ', keeps σ').
Proof. intros Hk. unfold rejoinBranch. repeat total_step. Qed.

Lemma total_layoutBranch name st brs startX nextY br index mb σ :
  states !! name = Some st → dispatch st = KParallel brs → br ∈ brs →
  keeps σ →
  total (layoutBranch fuel name startX nextY br index mb) σ (λ _ σ', keeps σ').
Proof.
  intros Hst Hkind Hbr Hk. unfold layoutBranch. cbv zeta.
  destruct (truthy (StartAt br)) as [start|] eqn:Hstart; [|by total_step].
  destruct (statesOf br !! start) as [sst|] eqn:Hsst; [|by total_step].
  do 7 total_step.
  apply (total_mono _ _ (λ _ σ', keeps σ')).
  - apply (total_walkBranch (λ S, kept ⊆ S) bound); [|done|].
    + eapply Hbound; eauto.
    + simpl. exact Hk.
  - intros r σ' Hk'. repeat total_step.
Qed.

Lemma total_processRegular name x y nextY st σ :
  keeps σ →
  total (processRegular states rec name x y nextY st) σ (λ _ σ', keeps σ').
Proof.
  intros Hk. unfold processRegular. apply total_bind.
  apply (total_mono _ _ (λ _ σ', keeps σ')).
  { destruct (Catch st) as [rules|]; [|by apply total_ret].
    apply (total_forEach keeps); [done|].
    intros. by apply total_layoutCatch. }
  intros _ σ1 Hk1. apply total_bind.
  apply (total_mono _ _ (λ _ σ', keeps σ')).
  { destruct (truthy (Next st)); repeat total_step. }
  intros r σ2 Hk2. repeat total_step.
Qed.

Lemma total_processChoice name x nextY st cs σ :
  keeps σ →
  total (processChoice rec name x nextY st cs) σ (λ _ σ', keeps σ').
Proof.
  intros Hk. unfold processChoice. cbv zeta. apply total_bind.
  apply (total_mono _ _ (λ _ σ', keeps σ')).
  { apply (total_forEach keeps); [done|].
    intros. by apply total_layoutChoice. }
  intros [maxY T] σ1 Hk1. repeat total_step.
Qed.

Lemma total_processParallel name x nextY st brs σ :
  states !! name = Some st → dispatch st = KParallel brs →
  keeps σ →
  total (processParallel rec fuel name x nextY st brs) σ (λ _ σ', keeps σ').
Proof.
  intros Hst Hkind Hk. unfold processParallel. cbv zeta. apply total_bind.
  apply (total_mono _ _ (λ _ σ', keeps σ')).
  { apply (total_forEach keeps); [done|].
    intros i br s σ1 Hbr Hk1.
    eapply total_layoutBranch; eauto. by eapply list_elem_of_lookup_2. }
  intros mb σ1 Hk1.
  destruct (truthy (Next st)) as [next|]; [|by total_step].
  apply total_bind. apply (total_mono _ _ (λ _ σ', keeps σ')).
  { apply (total_forEach keeps); [done|].
    intros. by apply total_rejoinBranch. }
  intros _ σ2 Hk2. by apply total_rec_last.
Qed.

End TotalBody.

(** With fuel beyond the number of unprocessed states plus the bound on the
    branch chains, [processState] returns, and only adds processed states. *)
Lemma total_processState states bound :
  branchesBounded bound states →
  ∀ fuel name x y σ,
    (size (unprocessed states σ) + bound < fuel)%nat →
    total (processState states fuel name x y) σ
      (λ _ σ', processedStates σ ⊆ processedStates σ').
Proof.
  intros Hbound. induction fuel as [|fuel IH]; intros name x y σ Hlt; [lia|].
  simpl. unfold processState_body. apply total_bind, total_hasProcessed.
  case_bool_decide as Hseen; [by apply total_ret|].
  destruct (states !! name) as [st|] eqn:Hst; [|by apply total_ret].
  apply total_bind, total_addProcessed, total_bind, total_pushNode,
    total_bind, total_setPosition.
  set (kept := {[name]} ∪ processedStates σ).
  assert (Hrec : ∀ name' x' y' σ1,
    kept ⊆ processedStates σ1 →
    total (processState states fuel name' x' y') σ1
      (λ _ σ', processedStates σ1 ⊆ processedStates σ')).
  { intros name' x' y' σ1 Hk. apply IH.
    assert (unprocessed states σ1 ⊂ unprocessed states σ) as Hsub%subset_size;
      [|lia].
    unfold unprocessed, kept in *. split; [set_solver|].
    intros Hcontra. assert (name ∈ dom states) by (apply elem_of_dom; eauto).
    set_solver. }
  assert (Hfuel : (bound ≤ fuel)%nat) by lia.
  apply (total_mono _ _ (λ _ σ', keeps kept σ')).
  - assert (Hk : keeps kept
      (set_position name (PosXY (mkPos x y))
         (push_node (mainNode name x y st) (add_processed name σ)))).
    { unfold keeps, kept. simpl. set_solver. }
    destruct (dispatch st) as [brs|cs|] eqn:Hkind.
    + eapply total_processParallel; eauto.
    + eapply total_processChoice; eauto.
    + eapply total_processRegular; eauto.
  - intros r σ' Hk. unfold keeps, kept in Hk. set_solver.
Qed.

Lemma layoutMachine_terminates fuel bound m :
  branchesBounded bound (statesOf m) →
  (size (statesOf m) + bound < fuel)%nat →
  ∃ g, layoutMachine fuel m = Returns g.
Proof.
  intros Hbound Hlt. unfold layoutMachine.
  destruct (truthy (StartAt m)) as [startAt|]; [|by eexists].
  case_bool_decide; [by eexists|].
  destruct (total_processState _ _ Hbound fuel startAt 0 (0 + VERTICAL_SPACING)
              (initialLayout startAt)) as (r & σ' & -> & _); [|by eexists].
  unfold unprocessed. simpl. rewrite difference_empty_L, size_dom. lia.
Qed.

(** X1, how deep the calls nest: when the [Next] chain of every branch stops
    within [bound] steps, a budget beyond the number of names [States] holds
    (own and inherited) plus [bound] gives a graph, cycles among the states of
    the main graph included; and every budget that gives a graph gives that
    same graph. *)
Theorem layout_terminates JSON_parse fuel bound input m :
  definitionOf JSON_parse input = Some m →
  branchesBounded bound (statesOf m) →
  (size (statesOf m) + bound < fuel)%nat →
  ∃ g, parseStateMachine JSON_parse fuel input = Returns g
    ∧ ∀ fuel' g', parseStateMachine JSON_parse fuel' input = Returns g' →
        g' = g.
Proof.
  intros Hm Hbound Hlt.
  destruct (layoutMachine_terminates fuel bound m Hbound Hlt) as [g Hg].
  exists g. rewrite (parseStateMachine_definitionOf _ _ _ _ Hm).
  split; [done|]. intros fuel' g'.
  rewrite (parseStateMachine_definitionOf _ _ _ _ Hm). intros Hg'.
  by eapply layoutMachine_deterministic.
Qed.

(** A definition with no Parallel state has no branch chain to bound. *)
Lemma branchesBounded_no_parallel states :
  map_Forall (λ _ st, laysOutBranches st = false) states →
  branchesBounded 0 states.
Proof.
  intros Hall name st brs br start sst Hst Hk.
  specialize (Hall name st Hst). unfold laysOutBranches in Hall.
  by rewrite Hk in Hall.
Qed.

(** On the two-state cycle of the main graph: the call returns the entry
    marker and the two states, with one edge each way, with a budget of 15
    and with any other that gives a graph. *)
Lemma main_cycle_returns :
  branchesBounded 0 (statesOf mainCycle)
  ∧ ∃ g, parseStateMachine rejectAll 15 (InObject mainCycle) = Returns g
      ∧ (∀ fuel' g',
           parseStateMachine rejectAll fuel' (InObject mainCycle) = Returns g' →
           g' = g)
      ∧ nodeIds (g_nodes g) = ["__START__"; "A"; "B"]
      ∧ (λ e, (Edge.source e, Edge.target e)) <$> g_edges g
        = [(PosId "__START__", "A"); (PosId "A", "B"); (PosId "B", "A")].
Proof.
  split.
  - apply branchesBounded_no_parallel.
    refine (bool_decide_unpack _ _). vm_compute. exact I.
  - destruct (layout_terminates rejectAll 15 0 (InObject mainCycle) mainCycle)
      as (g & Hg & Hsame); [reflexivity | | vm_compute; lia |].
    + apply branchesBounded_no_parallel.
      refine (bool_decide_unpack _ _). vm_compute. exact I.
    + exists g. split; [exact Hg|]. split; [exact Hsame|].
      vm_compute in Hg. injection Hg as <-. split; reflexivity.
Defined.


(** * Every processed state has its completed call *)

Lemma grows_refl σ : grows σ σ.
Proof. by split. Qed.

Lemma grows_trans σ1 σ2 σ3 : grows σ1 σ2 → grows σ2 σ3 → grows σ1 σ3.
Proof. intros [? ?] [? ?]. split; by etrans. Qed.

Lemma grows_push_node n σ : grows σ (push_node n σ).
Proof. split; simpl; [by apply prefix_app_r | done]. Qed.

Lemma grows_push_edge e σ : grows σ (push_edge e σ).
Proof. split; simpl; [done | by apply prefix_app_r]. Qed.

Lemma grows_set_position k v σ : grows σ (set_position k v σ).
Proof. by split. Qed.

Lemma grows_add_processed s σ : grows σ (add_processed s σ).
Proof. by split. Qed.

Lemma grows_nodes σ σ' n : grows σ σ' → n ∈ nodes σ → n ∈ nodes σ'.
Proof. intros [[k ->] _] Hin. apply elem_of_app. by left. Qed.

Lemma grows_edges σ σ' e : grows σ σ' → e ∈ edges σ → e ∈ edges σ'.
Proof. intros [_ [k ->]] Hin. apply elem_of_app. by left. Qed.

Lemma completed_grows states σ σ' s x y :
  grows σ σ' → completed states σ s x y → completed states σ' s x y.
Proof.
  intros Hg (fuel & σ0 & r & σ1 & Hs & Hrun & Hg1).
  exists fuel, σ0, r, σ1. split_and!; [done | done | by eapply grows_trans].
Qed.

Lemma settled_grows states pend σ σ' :
  grows σ σ' → processedStates σ' = processedStates σ →
  settled states pend σ → settled states pend σ'.
Proof.
  intros Hg Hp Hs s Hin. rewrite Hp in Hin.
  destruct (Hs s Hin) as [?|[?|(x & y & Hc)]]; [by left | by right; left |].
  right; right. exists x, y. by eapply completed_grows.
Qed.

Lemma settled_fail states pend σ next :
  targetIsFail states next = true →
  settled states pend σ → settled states pend (add_processed next σ).
Proof.
  intros Hf Hs s Hin. simpl in Hin.
  apply elem_of_union in Hin as [->%elem_of_singleton|Hin]; [by right; left|].
  destruct (Hs s Hin) as [?|[?|(x & y & Hc)]]; [by left | by right; left |].
  right; right. exists x, y. eapply completed_grows; [|done].
  apply grows_add_processed.
Qed.

(** ** The chain of a branch, and the rows it takes *)

Lemma chainNth_0 bs s t : chainNth bs s 0 = Some t → t = s ∧ is_Some (bs !! s).
Proof. simpl. destruct (bs !! s); [|done]. intros [= <-]. eauto. Qed.

Lemma chainNth_S bs s st k :
  bs !! s = Some st →
  chainNth bs s (S k) =
    match truthy (Next st) with
    | Some n => chainNth bs n k
    | None => None
    end.
Proof. intros Hs. simpl. by rewrite Hs. Qed.

Lemma chainNth_None bs s k : bs !! s = None → chainNth bs s k = None.
Proof. intros Hs. destruct k; simpl; by rewrite Hs. Qed.

Lemma chainLast_here bs c cur :
  bs !! c = Some cur →
  match truthy (Next cur) with
  | Some n => bs !! n = None
  | None => True
  end →
  chainLast bs c 0 c ∧ ∀ k last, chainLast bs c k last → k = 0%nat.
Proof.
  intros Hc Hn.
  assert (H1 : chainNth bs c 1 = None).
  { rewrite (chainNth_S _ _ _ _ Hc).
    destruct (truthy (Next cur)); [by apply chainNth_None | done]. }
  split.
  - split; [simpl; by rewrite Hc | done].
  - intros [|k] last [Hk _]; [done|]. exfalso.
    rewrite (chainNth_S _ _ _ _ Hc) in Hk.
    destruct (truthy (Next cur)); [by rewrite chainNth_None in Hk | done].
Qed.

(** The branch loop stops at the end of the chain, one row lower for every
    state it went through. *)
Lemma walkBranch_rows fuel : ∀ bs name index bx c cur prev by_ σ r σ',
  walkBranch fuel bs name index bx cur prev by_ σ = Some (r, σ') →
  bs !! c = Some cur →
  (∃ k last, chainLast bs c k last)
  ∧ ∀ k last, chainLast bs c k last →
      r.2 = by_ + VERTICAL_SPACING * Z.of_nat k.
Proof.
  induction fuel as [|fuel IH];
    intros bs name index bx c cur prev by_ σ r σ' Hrun Hc.
  all: simpl in Hrun.
  all: destruct (truthy (Next cur)) as [n|] eqn:Hnext.
  all: try destruct (bs !! n) as [nst|] eqn:Hn.
  all: try (minv; simpl;
            destruct (chainLast_here bs c cur Hc) as [H0 Hk];
            [by rewrite Hnext|];
            split; [by exists 0%nat, c|];
            intros k last ->%Hk; simpl; lia).
  minv.
  destruct (IH _ _ _ _ _ _ _ _ _ _ _ Hrun Hn) as [(k & last & Hk & Hend) Hall].
  split.
  - exists (S k), last. split; rewrite (chainNth_S _ _ _ _ Hc), Hnext; done.
  - intros [|k'] last' [Hk' Hend'].
    + rewrite (chainNth_S _ _ _ _ Hc), Hnext in Hend'. simpl in Hend'.
      by rewrite Hn in Hend'.
    + rewrite (chainNth_S _ _ _ _ Hc), Hnext in Hk'.
      rewrite (chainNth_S _ _ _ _ Hc), Hnext in Hend'.
      rewrite (Hall k' last') by done. lia.
Qed.

Lemma layoutBranch_rows fuel name startX nextY br index mb σ r σ' :
  layoutBranch fuel name startX nextY br index mb σ = Some (r, σ') →
  mb ≤ r
  ∧ (∀ b k last,
       truthy (StartAt br) = Some b → chainLast (statesOf br) b k last →
       nextY + VERTICAL_SPACING * (Z.of_nat k + 1) ≤ r)
  ∧ (r = mb
     ∨ ∃ b k last,
         truthy (StartAt br) = Some b ∧ chainLast (statesOf br) b k last ∧
         r = nextY + VERTICAL_SPACING * (Z.of_nat k + 1)).
Proof.
  intros Hrun. unfold layoutBranch in Hrun.
  destruct (truthy (StartAt br)) as [b|] eqn:Hb.
  2:{ minv. split; [lia|]. split; [done | by left]. }
  destruct (statesOf br !! b) as [bst|] eqn:Hbst.
  2:{ minv. split; [lia|]. split; [|by left].
      intros b' k last [= <-] [Hk _]. by rewrite chainNth_None in Hk. }
  minv.
  match goal with
  | H : walkBranch _ _ _ _ _ _ _ _ _ = Some (?a, _) |- _ =>
      destruct (walkBranch_rows _ _ _ _ _ _ _ _ _ _ _ _ H Hbst)
        as [(k & last & Hlast) Hall];
      pose proof (Hall _ _ Hlast) as Hrow;
      destruct (Z.max_spec mb a.2) as [[Hlt Hmax]|[Hlt Hmax]]; rewrite Hmax
  end.
  all: split; [lia|]; split.
  all: try (intros b' k' last' [= <-] Hlast';
            pose proof (Hall _ _ Hlast'); unfold VERTICAL_SPACING in *; lia).
  - right. exists b, k, last. split_and!; [done | done |].
    rewrite Hrow. unfold VERTICAL_SPACING. lia.
  - by left.
Qed.

(** [maxBranchY], after the loop over the branches. *)
Lemma layoutBranches_below fuel name startX nextY brs σ r σ' :
  forEach (layoutBranch fuel name startX nextY) brs nextY σ = Some (r, σ') →
  belowBranches brs nextY r.
Proof.
  intros Hrun.
  assert (Hall : nextY ≤ r
    ∧ (∀ j br b k last, (j < length brs)%nat →
         brs !! j = Some br → truthy (StartAt br) = Some b →
         chainLast (statesOf br) b k last →
         nextY + VERTICAL_SPACING * (Z.of_nat k + 1) ≤ r)
    ∧ (r = nextY
       ∨ ∃ j br b k last,
           brs !! j = Some br ∧ truthy (StartAt br) = Some b ∧
           chainLast (statesOf br) b k last ∧
           r = nextY + VERTICAL_SPACING * (Z.of_nat k + 1))).
  { eapply (forEach_inv (λ i s _,
      nextY ≤ s
      ∧ (∀ j br b k last, (j < i)%nat →
           brs !! j = Some br → truthy (StartAt br) = Some b →
           chainLast (statesOf br) b k last →
           nextY + VERTICAL_SPACING * (Z.of_nat k + 1) ≤ s)
      ∧ (s = nextY
         ∨ ∃ j br b k last,
             brs !! j = Some br ∧ truthy (StartAt br) = Some b ∧
             chainLast (statesOf br) b k last ∧
             s = nextY + VERTICAL_SPACING * (Z.of_nat k + 1))));
      [| | exact Hrun].
    - split; [lia|]. split; [intros; lia | by left].
    - intros i br s τ1 s1 τ2 Hi (Hle & Hup & Hmax) Hf.
      apply layoutBranch_rows in Hf as (Hle1 & Hup1 & Hmax1).
      split; [lia|]. split.
      + intros j br' b k last Hj Hbr' Hb Hlast.
        destruct (decide (j = i)) as [->|Hne].
        * rewrite Hi in Hbr'. injection Hbr' as <-. by eapply Hup1.
        * assert (Hji : (j < i)%nat) by lia.
          pose proof (Hup j br' b k last Hji Hbr' Hb Hlast). lia.
      + destruct Hmax1 as [->|(b & k & last & Hb & Hlast & ->)]; [done|].
        right. by exists i, br, b, k, last. }
  destruct Hall as (Hle & Hup & Hmax). split; [done|]. split; [|done].
  intros j br b k last Hbr Hb Hlast.
  apply (Hup j br b k last); [by eapply lookup_lt_Some | done..].
Qed.

(** ** One pass over the body of processState

    For a property [J] of the working sets that the updates keep, every part
    of the body keeps [J] and returns a row not above the one it was given.
    The nodes of states are pushed at two places only: at the head of
    [processState], and beside a state that catches to a Fail state. *)
Section Pass.

Variable states : gmap string stateObj.
Variable J : layoutState → Prop.
Hypothesis J_node : ∀ n σ, isStateNode n = false → J σ → J (push_node n σ).
Hypothesis J_edge : ∀ e σ, J σ → J (push_edge e σ).
Hypothesis J_position : ∀ k v σ, J σ → J (set_position k v σ).

Lemma pass_walkBranch fuel : ∀ bs name index bx cur prev by_,
  hoare J (walkBranch fuel bs name index bx cur prev by_)
    (λ r σ', J σ' ∧ by_ ≤ r.2).
Proof.
  induction fuel as [|fuel IH]; intros bs name index bx cur prev by_ σ r σ' HJ Hrun.
  - simpl in Hrun. destruct (truthy (Next cur)) as [n|]; [|minv; simpl; split; [done|lia]].
    destruct (bs !! n); minv. simpl; split; [done|lia].
  - simpl in Hrun.
    destruct (truthy (Next cur)) as [n|]; [|minv; simpl; split; [done|lia]].
    destruct (bs !! n) as [nst|]; [|minv; simpl; split; [done|lia]].
    minv. apply IH in Hrun as [HJ' Hle]; [|auto].
    split; [done|]. unfold VERTICAL_SPACING in Hle. lia.
Qed.

Lemma pass_layoutBranch fuel name startX nextY br index mb :
  hoare J (layoutBranch fuel name startX nextY br index mb)
    (λ r σ', J σ' ∧ mb ≤ r).
Proof.
  intros σ r σ' HJ Hrun. unfold layoutBranch in Hrun.
  destruct (truthy (StartAt br)) as [b|]; [|minv; split; [done|lia]].
  destruct (statesOf br !! b) as [bst|]; [|minv; split; [done|lia]].
  minv. apply pass_walkBranch in E2 as [HJ' _]; [|auto].
  split; [auto|lia].
Qed.

Lemma pass_layoutBranches fuel name startX nextY brs mb :
  hoare J (forEach (layoutBranch fuel name startX nextY) brs mb)
    (λ r σ', J σ' ∧ mb ≤ r).
Proof.
  intros σ r σ' HJ Hrun.
  apply (forEach_inv (λ _ s σ1, J σ1 ∧ mb ≤ s)) in Hrun; [done | split; [done|lia] |].
  intros i br s τ1 s1 τ2 _ [HJ1 Hle1] Hf.
  apply pass_layoutBranch in Hf as [? ?]; [|done]. split; [done|lia].
Qed.

Lemma pass_rejoin name next brs u :
  hoare J (forEach (rejoinBranch name next) brs u) (λ _ σ', J σ').
Proof.
  intros σ r σ' HJ Hrun.
  apply (forEach_inv (λ _ _ σ1, J σ1)) in Hrun; [done | done |].
  intros i br s τ1 s1 τ2 _ HJ1 Hf. unfold rejoinBranch in Hf. minv.
  destruct (nodePositions τ1 !! _) as [v|]; [|by minv].
  destruct (entryTruthy v); minv; auto.
Qed.

(** The body of [processState] on the state [st], named [name] and laid out
    at [(x, y)].  [Call] is what holds where the body calls [processState]
    again; it follows from [J] at each call site. *)
Section PassBody.

Variable Call : string → Z → Z → layoutState → Prop.
Variable rec : string → Z → Z → M Z.
Variable fuel : nat.
Variable name : string.
Variables x y : Z.
Variable st : stateObj.

Hypothesis J_fail : ∀ rules index cb next t σ,
  dispatch st = KRegular →
  Catch st = Some rules → rules !! index = Some cb →
  truthy (cbNext cb) = Some next →
  states !! next = Some t → isFail t = true →
  next ∉ processedStates σ →
  J σ →
  J (push_node (failNode next (x + HORIZONTAL_SPACING) y t)
       (add_processed next σ)).
Hypothesis J_site : ∀ t x' y' σ,
  callSite st x y t x' y' → J σ → Call t x' y' σ.
Hypothesis Hrec : ∀ next x' y',
  hoare (λ σ, J σ ∧ Call next x' y' σ) (rec next x' y')
    (λ r σ', J σ' ∧ y' ≤ r).

Ltac pass_rec :=
  match goal with
  | H : rec _ _ _ _ = Some _ |- _ =>
      apply Hrec in H as [? ?]; [|split; [by auto|]]
  end.

Lemma pass_layoutChoice cs startX c index acc :
  dispatch st = KChoice cs → cs !! index = Some c →
  startX + Z.of_nat index * HORIZONTAL_SPACING = choiceColumn x st cs index →
  (∀ j c' t, (j < index)%nat → cs !! j = Some c' →
     truthy (chNext c') = Some t → t ∈ acc.2) →
  hoare J (layoutChoice rec name startX (y + VERTICAL_SPACING) c index acc)
    (λ acc' σ',
       J σ' ∧ acc.1 ≤ acc'.1
       ∧ ∀ j c' t, (j < S index)%nat → cs !! j = Some c' →
           truthy (chNext c') = Some t → t ∈ acc'.2).
Proof using J_edge J_site Hrec.
  clear J_node J_position J_fail.
  intros Hkind Hc Hcol Hbefore σ r σ' HJ Hrun. unfold layoutChoice in Hrun.
  destruct acc as [my ts]. simpl in Hbefore.
  assert (Hafter : ∀ ts' : gset string,
    ts ⊆ ts' → (∀ t, truthy (chNext c) = Some t → t ∈ ts') →
    ∀ j c' t, (j < S index)%nat → cs !! j = Some c' →
      truthy (chNext c') = Some t → t ∈ ts').
  { intros ts' Hsub Hnew j c' t Hj Hc' Ht.
    destruct (decide (j = index)) as [->|Hne].
    - rewrite Hc in Hc'. injection Hc' as <-. by apply Hnew.
    - apply Hsub, (Hbefore j c' t); [lia | done | done]. }
  destruct (truthy (chNext c)) as [next|] eqn:Hnext.
  2:{ minv. simpl. split; [done|]. split; [lia|]. by apply Hafter. }
  case_bool_decide as Hin.
  { minv. simpl. split; [done|]. split; [lia|].
    apply Hafter; [done|]. by intros t [= <-]. }
  assert (Hts : ∀ j c' t, (j < S index)%nat → cs !! j = Some c' →
            truthy (chNext c') = Some t → t ∈ {[next]} ∪ ts).
  { apply Hafter; [set_solver|]. intros t [= <-]. set_solver. }
  minv. case_bool_decide; minv; simpl.
  - split; [auto|]. split; [lia | done].
  - pass_rec; [split; [done|]; split; [lia | done]|].
    apply J_site; [|by auto]. rewrite Hcol.
    eapply site_choice; [done | done | done |].
    intros j c' Hj Hc' Ht. apply Hin. by eapply Hbefore.
Qed.

Lemma pass_layoutCatch rules cb index u :
  dispatch st = KRegular → Catch st = Some rules → rules !! index = Some cb →
  hoare J (layoutCatch states name x y cb index u) (λ _ σ', J σ').
Proof.
  intros Hkind Hrules Hcb σ r σ' HJ Hrun. unfold layoutCatch in Hrun.
  destruct (truthy (cbNext cb)) as [next|] eqn:Hnext; [|by minv].
  minv.
  destruct (states !! next) as [t|] eqn:Ht; [|minv; auto].
  destruct (isFail t) eqn:Hf; simpl in Hrun; [|minv; auto].
  case_bool_decide as Hseen; simpl in Hrun; minv; [auto|].
  apply J_position. eapply J_fail; eauto.
Qed.

Lemma pass_processParallel brs :
  dispatch st = KParallel brs →
  hoare J (processParallel rec fuel name x (y + VERTICAL_SPACING) st brs)
    (λ r σ', J σ' ∧ y + VERTICAL_SPACING ≤ r).
Proof.
  intros Hkind σ r σ' HJ Hrun. unfold processParallel in Hrun. minv.
  pose proof (layoutBranches_below _ _ _ _ _ _ _ _ E) as Hbelow.
  apply pass_layoutBranches in E as [HJ0 Hle]; [|done].
  destruct (truthy (Next st)) as [next|] eqn:Hnext; [|minv; done].
  minv. apply pass_rejoin in E; [|done].
  pass_rec; [split; [done|lia]|].
  apply J_site; [|done]. by eapply site_parallel.
Qed.

Lemma pass_processChoice cs :
  dispatch st = KChoice cs →
  hoare J (processChoice rec name x (y + VERTICAL_SPACING) st cs)
    (λ r σ', J σ' ∧ y + VERTICAL_SPACING ≤ r).
Proof using J_edge J_site Hrec.
  clear J_node J_position J_fail.
  intros Hkind σ r σ' HJ Hrun. unfold processChoice in Hrun. minv.
  apply (forEach_inv
           (λ i (s : Z * gset string) σ1,
              J σ1 ∧ y + VERTICAL_SPACING ≤ s.1
              ∧ ∀ j c' t, (j < i)%nat → cs !! j = Some c' →
                  truthy (chNext c') = Some t → t ∈ s.2))
    in E; [| simpl; split; [done|]; split; [lia | intros; lia] |].
  2:{ intros i c s τ1 s1 τ2 Hi (HJ1 & Hle1 & Hts) Hf.
      apply (pass_layoutChoice cs _ c i s Hkind Hi eq_refl Hts) in Hf
        as (? & ? & ?); [|done].
      split; [done|]. split; [lia | done]. }
  destruct E as (HJ0 & Hle & Hts). destruct a as [my ts]. simpl in Hle, Hts.
  destruct (truthy (Default st)) as [next|] eqn:Hdef; [|minv; done].
  case_bool_decide as Hin; [minv; done|].
  minv. case_bool_decide; minv.
  - split; [auto|lia].
  - pass_rec; [split; [done|lia]|].
    apply J_site; [|by auto].
    assert (Hnone : ∀ j c', cs !! j = Some c' → truthy (chNext c') ≠ Some next).
    { intros j c' Hc' Ht. apply Hin. eapply Hts; [|done|done].
      by eapply lookup_lt_Some. }
    pose proof (site_default st x y cs next Hkind Hdef Hnone) as Hsite.
    unfold choiceColumn in Hsite. rewrite Hdef in Hsite. exact Hsite.
Qed.

Lemma pass_processRegular :
  dispatch st = KRegular →
  hoare J (processRegular states rec name x y (y + VERTICAL_SPACING) st)
    (λ r σ', J σ' ∧ y + VERTICAL_SPACING ≤ r).
Proof.
  intros Hkind σ r σ' HJ Hrun. unfold processRegular in Hrun. minv.
  assert (HJ0 : J σ0).
  { destruct (Catch st) as [rules|] eqn:Hrules in E; [|by minv].
    apply (forEach_inv (λ _ _ σ1, J σ1)) in E; [done | done |].
    intros i cb s τ1 s1 τ2 Hi HJ1 Hf.
    by eapply (pass_layoutCatch rules cb i s Hkind Hrules Hi) in Hf. }
  assert (HJ1 : J σ1 ∧ y + VERTICAL_SPACING ≤ a0).
  { destruct (truthy (Next st)) as [next|] eqn:Hnext;
      [|minv; split; [done|lia]].
    minv. case_bool_decide; minv; [split; [auto|lia]|].
    pass_rec; [done|].
    apply J_site; [|by auto]. by apply site_next. }
  destruct HJ1 as [HJ1 Hle].
  destruct (End_ st); minv; [|done].
  split; [auto|]. unfold VERTICAL_SPACING in *. lia.
Qed.

Lemma pass_dispatch :
  hoare J
    (match dispatch st with
     | KParallel branches =>
         processParallel rec fuel name x (y + VERTICAL_SPACING) st branches
     | KChoice choices =>
         processChoice rec name x (y + VERTICAL_SPACING) st choices
     | KRegular => processRegular states rec name x y (y + VERTICAL_SPACING) st
     end)
    (λ r σ', J σ' ∧ y + VERTICAL_SPACING ≤ r).
Proof.
  destruct (dispatch st) eqn:Hkind in |- *.
  - by apply pass_processParallel.
  - by apply pass_processChoice.
  - by apply pass_processRegular.
Qed.

End PassBody.

End Pass.

(** [processState] returns a row at or below the one it was given, and leaves
    every processed state settled. *)
Lemma processState_settled states fuel : ∀ pend name x y,
  hoare (settled states pend) (processState states fuel name x y)
    (λ r σ', settled states pend σ' ∧ y ≤ r).
Proof.
  induction fuel as [|fuel IH]; intros pend name x y σ r σ' HJ Hrun.
  { simpl in Hrun. minv. }
  pose proof Hrun as Hcall. simpl in Hrun. unfold processState_body in Hrun.
  minv. case_bool_decide as Hseen; [minv; split; [done|lia]|].
  destruct (states !! name) as [st|] eqn:Hst; [|minv; split; [done|lia]].
  minv.
  apply (pass_dispatch states (settled states ({[name]} ∪ pend)))
    with (Call := λ _ _ _ _, True) in Hrun as [HJ' Hle].
  - split; [|unfold VERTICAL_SPACING in Hle; lia].
    intros s Hin. destruct (HJ' s Hin) as [Hp|[?|?]]; [|by right; left|by right; right].
    apply elem_of_union in Hp as [->%elem_of_singleton|Hp]; [|by left].
    right; right. exists x, y, (S fuel), σ, r, σ'.
    split_and!; [done | done | apply grows_refl].
  - intros n σ1 _ H1. eapply settled_grows; [apply grows_push_node | done | done].
  - intros e σ1 H1. eapply settled_grows; [apply grows_push_edge | done | done].
  - intros k v σ1 H1. eapply settled_grows; [apply grows_set_position | done | done].
  - intros rules index cb next t σ1 _ _ _ _ Ht Hf _ H1.
    eapply settled_grows; [apply grows_push_node | done |].
    apply settled_fail; [|done]. unfold targetIsFail. by rewrite Ht.
  - done.
  - intros name' x' y' σ1 r1 σ2 [H1 _]. by apply IH.
  - eapply settled_grows; [apply grows_set_position | done |].
    eapply settled_grows; [apply grows_push_node | done |].
    intros s Hin. simpl in Hin.
    apply elem_of_union in Hin as [->%elem_of_singleton|Hin]; [left; set_solver|].
    destruct (HJ s Hin) as [Hp|[?|(x' & y' & Hc)]];
      [left; set_solver | by right; left |].
    right; right. exists x', y'. eapply completed_grows; [|done].
    apply grows_add_processed.
Qed.


(** * Where the nodes and edges of a laid-out state land *)

(** A property kept by the four updates is kept by [processState]. *)
Lemma processState_keeps states (J : layoutState → Prop) :
  (∀ n σ, J σ → J (push_node n σ)) →
  (∀ e σ, J σ → J (push_edge e σ)) →
  (∀ k v σ, J σ → J (set_position k v σ)) →
  (∀ s σ, J σ → J (add_processed s σ)) →
  ∀ fuel name x y,
    hoare J (processState states fuel name x y) (λ r σ', J σ' ∧ y ≤ r).
Proof.
  intros Jn Je Jp Ja. induction fuel as [|fuel IH]; intros name x y σ r σ' HJ Hrun.
  { simpl in Hrun. minv. }
  simpl in Hrun. unfold processState_body in Hrun.
  minv. case_bool_decide as Hseen; [minv; split; [done|lia]|].
  destruct (states !! name) as [st|] eqn:Hst; [|minv; split; [done|lia]].
  minv.
  apply (pass_dispatch states J) with (Call := λ _ _ _ _, True) in Hrun
    as [HJ' Hle]; auto.
  - split; [done|]. unfold VERTICAL_SPACING in Hle. lia.
  - intros next x' y' σ1 r1 σ2 [H1 _]. by apply IH.
Qed.

Lemma processState_grows states fuel name x y σ r σ' :
  processState states fuel name x y σ = Some (r, σ') → grows σ σ' ∧ y ≤ r.
Proof.
  intros Hrun.
  apply (processState_keeps states (grows σ)) in Hrun; [done | | | | |].
  - intros n σ1 H1. eapply grows_trans; [done | apply grows_push_node].
  - intros e σ1 H1. eapply grows_trans; [done | apply grows_push_edge].
  - intros k v σ1 H1. eapply grows_trans; [done | apply grows_set_position].
  - intros s σ1 H1. eapply grows_trans; [done | apply grows_add_processed].
  - apply grows_refl.
Qed.

(** The run behind a completed call: the state is marked and its node pushed
    at the anchor, and the branch of the body chosen by [dispatch] returns. *)
Lemma completed_inv states σ s x y st :
  completed states σ s x y → states !! s = Some st →
  ∃ fuel σ0 r σ1,
    (match dispatch st with
     | KParallel branches =>
         processParallel (processState states fuel) fuel s x
           (y + VERTICAL_SPACING) st branches
     | KChoice choices =>
         processChoice (processState states fuel) s x
           (y + VERTICAL_SPACING) st choices
     | KRegular =>
         processRegular states (processState states fuel) s x y
           (y + VERTICAL_SPACING) st
     end) (visited s x y st σ0) = Some (r, σ1)
    ∧ grows σ1 σ.
Proof.
  intros (fuel & σ0 & r & σ1 & Hs & Hrun & Hg) Hst.
  destruct fuel as [|fuel]; [simpl in Hrun; minv|].
  simpl in Hrun. unfold processState_body in Hrun. minv.
  rewrite bool_decide_eq_false_2 in Hrun by done. rewrite Hst in Hrun. minv.
  exists fuel, σ0, r, σ1. by split.
Qed.

(** The three branches of the body only push. *)
Lemma dispatch_grows states fuel s x y st σ r σ' :
  (match dispatch st with
   | KParallel branches =>
       processParallel (processState states fuel) fuel s x
         (y + VERTICAL_SPACING) st branches
   | KChoice choices =>
       processChoice (processState states fuel) s x
         (y + VERTICAL_SPACING) st choices
   | KRegular =>
       processRegular states (processState states fuel) s x y
         (y + VERTICAL_SPACING) st
   end) σ = Some (r, σ') →
  grows σ σ'.
Proof.
  intros Hrun.
  apply (pass_dispatch states (grows σ)) with (Call := λ _ _ _ _, True)
    in Hrun as [? _]; [done | | | | | | |].
  - intros n σ1 _ H1. eapply grows_trans; [done | apply grows_push_node].
  - intros e σ1 H1. eapply grows_trans; [done | apply grows_push_edge].
  - intros k v σ1 H1. eapply grows_trans; [done | apply grows_set_position].
  - intros rules index cb next t σ1 _ _ _ _ _ _ _ H1.
    eapply grows_trans; [done|].
    eapply grows_trans; [apply grows_add_processed | apply grows_push_node].
  - done.
  - intros name' x' y' σ1 r1 σ2 [H1 _] Hrec.
    apply processState_grows in Hrec as [? ?].
    split; [by eapply grows_trans | done].
  - apply grows_refl.
Qed.

Lemma completed_node states σ s x y st :
  completed states σ s x y → states !! s = Some st →
  mainNode s x y st ∈ nodes σ.
Proof.
  intros Hc Hst.
  destruct (completed_inv _ _ _ _ _ _ Hc Hst) as (fuel & σ0 & r & σ1 & Hrun & Hg).
  apply dispatch_grows in Hrun.
  eapply grows_nodes; [exact Hg|]. eapply grows_nodes; [exact Hrun|].
  simpl. apply elem_of_app. right. by apply list_elem_of_singleton.
Qed.

(** The regular path: the [Next] edge, and the exit marker with its edge in
    the column of the state, on a row below it. *)
Lemma processRegular_next states fuel s x y nextY st σ r σ' t :
  processRegular states (processState states fuel) s x y nextY st σ
    = Some (r, σ') →
  truthy (Next st) = Some t →
  plainEdge (s +:+ "-" +:+ t) (PosId s) t "#6b7280" ∈ edges σ'.
Proof.
  intros Hrun Hnext. unfold processRegular in Hrun. minv.
  rewrite Hnext in E0. minv.
  assert (Hg : grows (push_edge (plainEdge (s +:+ "-" +:+ t) (PosId s) t "#6b7280") σ0) σ').
  { assert (grows (push_edge (plainEdge (s +:+ "-" +:+ t) (PosId s) t "#6b7280") σ0) σ1) as Hg1.
    { case_bool_decide; minv; [apply grows_refl|].
      match goal with
      | H : processState _ _ _ _ _ _ = Some _ |- _ =>
          by apply processState_grows in H as [? _]
      end. }
    eapply grows_trans; [exact Hg1|].
    destruct (End_ st); minv; [|apply grows_refl].
    eapply grows_trans; [apply grows_push_node | apply grows_push_edge]. }
  eapply grows_edges; [exact Hg|]. simpl.
  apply elem_of_app. right. by apply list_elem_of_singleton.
Qed.

Lemma processRegular_end states fuel s x y nextY st σ r σ' :
  processRegular states (processState states fuel) s x y nextY st σ
    = Some (r, σ') →
  End_ st = true →
  ∃ ny, nextY ≤ ny ∧ endNode s x ny ∈ nodes σ'
    ∧ plainEdge (s +:+ "-" +:+ endNodeId s) (PosId s) (endNodeId s) "#f87171"
        ∈ edges σ'.
Proof.
  intros Hrun Hend. unfold processRegular in Hrun. minv.
  rewrite Hend in Hrun. minv.
  assert (Hle : nextY ≤ a0).
  { destruct (truthy (Next st)) as [t|]; [|minv; lia].
    minv. case_bool_decide; minv; [lia|].
    match goal with
    | H : processState _ _ _ _ _ _ = Some _ |- _ =>
        by apply processState_grows in H as [_ ?]
    end. }
  exists a0. split; [done|]. simpl. split.
  - apply elem_of_app. right. by apply list_elem_of_singleton.
  - apply elem_of_app. right. by apply list_elem_of_singleton.
Qed.

(** ** The branches of a Parallel state *)

Lemma chainPlaced_grows σ σ' p index bs b bx y0 k t :
  grows σ σ' →
  chainPlaced (nodes σ) (edges σ) p index bs b bx y0 k t →
  chainPlaced (nodes σ') (edges σ') p index bs b bx y0 k t.
Proof.
  intros Hg (tst & Ht & Hn & He). exists tst. split; [done|].
  split; [by eapply grows_nodes|].
  destruct k; [by eapply grows_edges|].
  intros t' Ht'. eapply grows_edges; eauto.
Qed.

Lemma walkBranch_grows fuel bs name index bx cur prev by_ σ r σ' :
  walkBranch fuel bs name index bx cur prev by_ σ = Some (r, σ') → grows σ σ'.
Proof.
  intros Hrun.
  apply (pass_walkBranch (grows σ)) in Hrun as [? _]; [done | | | |].
  - intros n σ1 _ H1. eapply grows_trans; [done | apply grows_push_node].
  - intros e σ1 H1. eapply grows_trans; [done | apply grows_push_edge].
  - intros k v σ1 H1. eapply grows_trans; [done | apply grows_set_position].
  - apply grows_refl.
Qed.

(** The branch loop draws the states after [c] on the chain, one row each. *)
Lemma walkBranch_chain fuel : ∀ bs name index b bx c cur by_ σ r σ' d,
  walkBranch fuel bs name index bx cur (branchId name index c) by_ σ
    = Some (r, σ') →
  bs !! c = Some cur →
  (∀ k, chainNth bs b (d + k) = chainNth bs c k) →
  ∀ k t, chainNth bs c (S k) = Some t →
    ∃ tst, bs !! t = Some tst
      ∧ branchNode (branchId name index t) bx
          (by_ + VERTICAL_SPACING * Z.of_nat k) t tst ∈ nodes σ'
      ∧ ∀ t', chainNth bs b (d + k) = Some t' →
          plainEdge (branchId name index t' +:+ "-to-" +:+ branchId name index t)
            (PosId (branchId name index t')) (branchId name index t) "#6b7280"
            ∈ edges σ'.
Proof.
  induction fuel as [|fuel IH];
    intros bs name index b bx c cur by_ σ r σ' d Hrun Hc Hd k t Hk.
  - rewrite (chainNth_S _ _ _ _ Hc) in Hk. simpl in Hrun.
    destruct (truthy (Next cur)) as [n|]; [|done].
    destruct (bs !! n) eqn:Hn; [minv|]. by rewrite chainNth_None in Hk.
  - rewrite (chainNth_S _ _ _ _ Hc) in Hk. simpl in Hrun.
    destruct (truthy (Next cur)) as [n|] eqn:Hnext; [|done].
    destruct (bs !! n) as [nst|] eqn:Hn; [|by rewrite chainNth_None in Hk].
    minv.
    pose proof (walkBranch_grows _ _ _ _ _ _ _ _ _ _ _ Hrun) as Hg.
    destruct k as [|k].
    + apply chainNth_0 in Hk as [-> _]. exists nst. split; [done|]. split.
      * eapply grows_nodes; [exact Hg|]. simpl.
        apply elem_of_app. right. apply list_elem_of_singleton.
        f_equal. f_equal. unfold VERTICAL_SPACING. lia.
      * intros t' Ht'. rewrite Hd in Ht'. apply chainNth_0 in Ht' as [-> _].
        eapply grows_edges; [exact Hg|]. simpl.
        apply elem_of_app. right. by apply list_elem_of_singleton.
    + eapply (IH bs name index b bx n nst _ _ _ _ (S d)) in Hrun; [| done | | exact Hk].
      * destruct Hrun as (tst & Ht & Hnode & Hedge). exists tst.
        split; [done|]. split.
        -- replace (by_ + VERTICAL_SPACING * Z.of_nat (S k))
             with (by_ + VERTICAL_SPACING + VERTICAL_SPACING * Z.of_nat k) by lia.
           done.
        -- intros t' Ht'. apply Hedge.
           by replace (S d + k)%nat with (d + S k)%nat by lia.
      * intros j. replace (S d + j)%nat with (d + S j)%nat by lia.
        rewrite Hd. rewrite (chainNth_S _ _ _ _ Hc). by rewrite Hnext.
Qed.

Lemma layoutBranch_grows fuel name startX nextY br index mb σ r σ' :
  layoutBranch fuel name startX nextY br index mb σ = Some (r, σ') →
  grows σ σ'.
Proof.
  intros Hrun.
  apply (pass_layoutBranch (grows σ)) in Hrun as [? _]; [done | | | |].
  - intros n σ1 _ H1. eapply grows_trans; [done | apply grows_push_node].
  - intros e σ1 H1. eapply grows_trans; [done | apply grows_push_edge].
  - intros k v σ1 H1. eapply grows_trans; [done | apply grows_set_position].
  - apply grows_refl.
Qed.

Lemma layoutBranch_placed fuel name startX nextY br index mb σ r σ' b k t :
  layoutBranch fuel name startX nextY br index mb σ = Some (r, σ') →
  truthy (StartAt br) = Some b →
  chainNth (statesOf br) b k = Some t →
  chainPlaced (nodes σ') (edges σ') name index (statesOf br) b
    (startX + Z.of_nat index * PARALLEL_BRANCH_SPACING) nextY k t.
Proof.
  intros Hrun Hb Hk. unfold layoutBranch in Hrun. rewrite Hb in Hrun.
  destruct (statesOf br !! b) as [bst|] eqn:Hbst;
    [|by rewrite chainNth_None in Hk].
  minv.
  pose proof (walkBranch_grows _ _ _ _ _ _ _ _ _ _ _ E2) as Hg.
  destruct k as [|k].
  - apply chainNth_0 in Hk as [-> _]. exists bst. split; [done|]. split.
    + eapply grows_nodes; [exact Hg|]. simpl.
      apply elem_of_app. right. apply list_elem_of_singleton.
      f_equal. f_equal. unfold VERTICAL_SPACING. lia.
    + eapply grows_edges; [exact Hg|]. simpl.
      apply elem_of_app. right. by apply list_elem_of_singleton.
  - eapply (walkBranch_chain _ _ _ _ b _ b bst _ _ _ _ 0%nat) in E2;
      [| done | done | exact Hk].
    destruct E2 as (tst & Ht & Hnode & Hedge). exists tst.
    split; [done|]. split.
    + simpl.
      replace (nextY + VERTICAL_SPACING * Z.of_nat (S k))
        with (nextY + VERTICAL_SPACING + VERTICAL_SPACING * Z.of_nat k) by lia.
      done.
    + intros t' Ht'. simpl. by apply Hedge.
Qed.

Lemma rejoin_grows name next brs u σ r σ' :
  forEach (rejoinBranch name next) brs u σ = Some (r, σ') → grows σ σ'.
Proof.
  intros Hrun.
  apply (pass_rejoin (grows σ)) in Hrun; [done | | apply grows_refl].
  intros e σ1 H1. eapply grows_trans; [done | apply grows_push_edge].
Qed.

Lemma processParallel_placed states fuel s x nextY st brs σ r σ' index br b k t :
  processParallel (processState states fuel) fuel s x nextY st brs σ
    = Some (r, σ') →
  brs !! index = Some br → truthy (StartAt br) = Some b →
  chainNth (statesOf br) b k = Some t →
  chainPlaced (nodes σ') (edges σ') s index (statesOf br) b
    (branchColumn x (length brs) index) nextY k t.
Proof.
  intros Hrun Hbr Hb Hk. unfold processParallel in Hrun. minv.
  assert (Hall : ∀ j br b k t, (j < length brs)%nat → brs !! j = Some br →
      truthy (StartAt br) = Some b → chainNth (statesOf br) b k = Some t →
      chainPlaced (nodes σ0) (edges σ0) s j (statesOf br) b
        (branchColumn x (length brs) j) nextY k t).
  { eapply (forEach_inv (λ i _ τ,
      ∀ j br b k t, (j < i)%nat → brs !! j = Some br →
        truthy (StartAt br) = Some b → chainNth (statesOf br) b k = Some t →
        chainPlaced (nodes τ) (edges τ) s j (statesOf br) b
          (branchColumn x (length brs) j) nextY k t)); [| |exact E].
    - intros; lia.
    - intros i bri si τ1 s1 τ2 Hi Hall Hf j brj bj kj tj Hj Hbrj Hbj Hkj.
      destruct (decide (j = i)) as [->|Hne].
      + replace brj with bri in * by congruence.
        by eapply layoutBranch_placed in Hf.
      + eapply chainPlaced_grows; [by eapply layoutBranch_grows|].
        eapply Hall; eauto. lia. }
  eapply chainPlaced_grows; [|eapply Hall; eauto; by eapply lookup_lt_Some].
  destruct (truthy (Next st)) as [next|]; [|minv; apply grows_refl].
  minv. apply rejoin_grows in E0.
  apply processState_grows in Hrun as [? _]. by eapply grows_trans.
Qed.

(** ** The run behind a returned graph *)

Lemma layoutMachine_settled fuel m g :
  layoutMachine fuel m = Returns g →
  (g = emptyGraph ∧ (truthy (StartAt m) = None ∨ size (ownStates m) = 0%nat))
  ∨ ∃ startAt σ,
      truthy (StartAt m) = Some startAt ∧
      g = mkGraph (nodes σ) (edges σ) ∧
      finalFacts (statesOf m) startAt σ ∧
      settled (statesOf m) ∅ σ ∧
      grows (initialLayout startAt) σ ∧
      steps (statesOf m) startAt ([], initialLayout startAt) ([], σ) ∧
      ∃ r, processState (statesOf m) fuel startAt 0 (0 + VERTICAL_SPACING)
             (initialLayout startAt) = Some (r, σ).
Proof.
  unfold layoutMachine. intros Hrun.
  destruct (truthy (StartAt m)) as [startAt|] eqn:Hstart.
  2:{ left. split; [congruence | by left]. }
  case_bool_decide as Hsize.
  { left. split; [congruence | by right]. }
  destruct (processState _ _ _ _ _ _) as [[r σ]|] eqn:Hp; [|done].
  right. exists startAt, σ.
  pose proof Hp as Hp'. pose proof Hp as Hp''.
  eapply (processState_steps (statesOf m) startAt fuel []) in Hp as [Hs Hd];
    [|done].
  apply (processState_settled _ _ ∅) in Hp' as [Hset _].
  2:{ intros s Hin. simpl in Hin. set_solver. }
  pose proof Hp'' as Hcall.
  apply processState_grows in Hp'' as [Hg _].
  split; [done|]. split; [congruence|]. split; [|by eauto].
  pose proof (invNodes_initial (statesOf m) startAt) as HN.
  split.
  - eapply invNodes_steps; eauto.
  - eapply invTargets_steps; eauto using invTargets_initial.
  - eapply invClosed_steps; eauto using invClosed_initial.
  - eapply invJustified_steps; eauto using invJustified_initial.
  - eapply invFan_steps; eauto using invFan_initial.
  - done.
Qed.

Lemma parseStateMachine_settled JSON_parse fuel input m g :
  definitionOf JSON_parse input = Some m →
  parseStateMachine JSON_parse fuel input = Returns g →
  (g = emptyGraph ∧ (truthy (StartAt m) = None ∨ size (ownStates m) = 0%nat))
  ∨ ∃ startAt σ,
      truthy (StartAt m) = Some startAt ∧
      g = mkGraph (nodes σ) (edges σ) ∧
      finalFacts (statesOf m) startAt σ ∧
      settled (statesOf m) ∅ σ ∧
      grows (initialLayout startAt) σ ∧
      steps (statesOf m) startAt ([], initialLayout startAt) ([], σ) ∧
      ∃ r, processState (statesOf m) fuel startAt 0 (0 + VERTICAL_SPACING)
             (initialLayout startAt) = Some (r, σ).
Proof.
  unfold definitionOf, parseStateMachine.
  destruct (decode JSON_parse input) as [[|m'|]|]; try discriminate.
  intros [= ->]. apply layoutMachine_settled.
Qed.

(** The node of a state that is not a Fail state is the one pushed by the
    completed call of [processState] on it. *)
Lemma stateNode_completed states startAt σ n st :
  finalFacts states startAt σ → settled states ∅ σ →
  n ∈ nodes σ → isStateNode n = true →
  states !! Node.id n = Some st → isFail st = false →
  ∃ x y, n = mainNode (Node.id n) x y st ∧ completed states σ (Node.id n) x y.
Proof.
  intros HF Hset Hn Hs Hst Hfail.
  assert (Hp : Node.id n ∈ processedStates σ).
  { apply (final_processed _ _ _ HF), elem_of_stateNodeIds. eauto. }
  destruct (Hset _ Hp) as [Hin|[Hf|(x & y & Hc)]].
  - set_solver.
  - unfold targetIsFail in Hf. rewrite Hst in Hf. congruence.
  - exists x, y. split; [|done].
    pose proof (completed_node _ _ _ _ _ _ Hc Hst) as Hm.
    eapply stateNode_unique; eauto.
    apply (in_nodup _ _ (ff_nodes _ _ _ HF)).
Qed.


(** * Placement of exit markers, sequential edges and branches *)

(** X2: a state that is not a Fail state, is laid out by the regular path and
    has [End: true] gets its exit marker: a node with the id [__END_<name>__]
    in the column of the state's node and at least one row
    ([VERTICAL_SPACING]) below it, and the exit edge from the state to the
    marker. *)
Theorem exit_marker_placed JSON_parse fuel input m g s st n :
  definitionOf JSON_parse input = Some m →
  parseStateMachine JSON_parse fuel input = Returns g →
  statesOf m !! s = Some st →
  isFail st = false → dispatch st = KRegular → End_ st = true →
  n ∈ g_nodes g → isStateNode n = true → Node.id n = s →
  ∃ ny, pos_y (Node.position n) + VERTICAL_SPACING ≤ ny
    ∧ endNode s (pos_x (Node.position n)) ny ∈ g_nodes g
    ∧ plainEdge (s +:+ "-" +:+ endNodeId s) (PosId s) (endNodeId s) "#f87171"
        ∈ g_edges g.
Proof.
  intros Hm Hrun Hst Hfail Hkind Hend Hn Hs Hid.
  destruct (parseStateMachine_settled _ _ _ _ _ Hm Hrun)
    as [[-> _]|(startAt & σ & _ & -> & HF & Hset & _)];
    [by apply elem_of_nil in Hn|].
  simpl in *. subst s.
  destruct (stateNode_completed _ _ _ _ _ HF Hset Hn Hs Hst Hfail)
    as (x & y & Hnode & Hc).
  destruct (completed_inv _ _ _ _ _ _ Hc Hst) as (fuel' & σ0 & r & σ1 & Hbody & Hg).
  rewrite Hkind in Hbody.
  apply processRegular_end in Hbody as (ny & Hle & Hnd & Hed); [|done].
  assert (Hpos : Node.position n = mkPos x y) by (by rewrite Hnode).
  exists ny. rewrite Hpos. simpl.
  split; [done|]. split; [by eapply grows_nodes | by eapply grows_edges].
Qed.

(** X2 on a Task with [End: true] (and two catch rules): its marker is two
    rows under the entry marker, in the same column. *)
Lemma exit_marker_placed_witness :
  ∃ g n ny,
    parseStateMachine rejectAll 2 (InObject catching) = Returns g
    ∧ n ∈ g_nodes g ∧ Node.id n = "A"
    ∧ pos_y (Node.position n) + VERTICAL_SPACING ≤ ny
    ∧ endNode "A" (pos_x (Node.position n)) ny ∈ g_nodes g
    ∧ plainEdge ("A" +:+ "-" +:+ endNodeId "A") (PosId "A") (endNodeId "A")
        "#f87171" ∈ g_edges g.
Proof.
  pose (st := mkState (Some "Task") None true
                (Some [mkCatch (Some "F"); mkCatch (Some "R")]) None None None).
  destruct (exit_marker_placed rejectAll 2 (InObject catching) catching
              (mkGraph
                 [startNode; mainNode "A" 0 100 st;
                  failNode "F" 240 100
                    (mkState (Some "Fail") None false None None None None);
                  endNode "A" 0 200]
                 [startEdge "A"; catchEdge "A" 0 "F" true;
                  catchEdge "A" 1 "R" false;
                  plainEdge ("A" +:+ "-" +:+ endNodeId "A") (PosId "A")
                    (endNodeId "A") "#f87171"])
              "A" st (mainNode "A" 0 100 st)) as (ny & H1 & H2 & H3).
  - reflexivity.
  - vm_compute; reflexivity.
  - reflexivity.
  - reflexivity.
  - reflexivity.
  - reflexivity.
  - apply list_elem_of_In; simpl; auto.
  - reflexivity.
  - reflexivity.
  - eexists _, (mainNode "A" 0 100 st), ny.
    split; [vm_compute; reflexivity|].
    split; [apply list_elem_of_In; simpl; auto|].
    split; [reflexivity|]. split; [exact H1|]. split; [exact H2 | exact H3].
Defined.

(** X3: a state that is not a Fail state, is laid out by the regular path and
    has a [Next] has its sequential edge, from its node to the state named by
    [Next], whether or not that name is a state of the definition. *)
Theorem sequential_edge_drawn JSON_parse fuel input m g s st t :
  definitionOf JSON_parse input = Some m →
  parseStateMachine JSON_parse fuel input = Returns g →
  statesOf m !! s = Some st →
  isFail st = false → dispatch st = KRegular →
  truthy (Next st) = Some t →
  s ∈ stateNodeIds (g_nodes g) →
  plainEdge (s +:+ "-" +:+ t) (PosId s) t "#6b7280" ∈ g_edges g.
Proof.
  intros Hm Hrun Hst Hfail Hkind Hnext (n & Hn & Hs & Hid)%elem_of_stateNodeIds.
  destruct (parseStateMachine_settled _ _ _ _ _ Hm Hrun)
    as [[-> _]|(startAt & σ & _ & -> & HF & Hset & _)];
    [by apply elem_of_nil in Hn|].
  simpl in *. subst s.
  destruct (stateNode_completed _ _ _ _ _ HF Hset Hn Hs Hst Hfail)
    as (x & y & Hnode & Hc).
  destruct (completed_inv _ _ _ _ _ _ Hc Hst) as (fuel' & σ0 & r & σ1 & Hbody & Hg).
  rewrite Hkind in Hbody.
  eapply processRegular_next in Hbody; [|done].
  by eapply grows_edges.
Qed.

(** X3 on two states that name each other: both edges are drawn. *)
Lemma sequential_edge_drawn_witness :
  ∃ g, parseStateMachine rejectAll 3 (InObject mainCycle) = Returns g
    ∧ plainEdge ("B" +:+ "-" +:+ "A") (PosId "B") "A" "#6b7280" ∈ g_edges g.
Proof.
  eexists. split; [vm_compute; reflexivity|].
  apply (sequential_edge_drawn rejectAll 3 (InObject mainCycle) mainCycle _
           "B" (task (Some "A") false) "A").
  - reflexivity.
  - vm_compute; reflexivity.
  - reflexivity.
  - reflexivity.
  - reflexivity.
  - reflexivity.
  - apply list_elem_of_In. vm_compute. auto.
Defined.

(** X4: the branches of a Parallel state are drawn as columns.  For a
    Parallel state [p] with a node at [(x, y)] and [n] branches, the [k]-th
    state on the [Next] chain of branch [index] has a branch node with the
    branch-scoped id, in the column
    [x - (n - 1) * PARALLEL_BRANCH_SPACING / 2 + index * PARALLEL_BRANCH_SPACING]
    and on the row [y + (k + 1) * VERTICAL_SPACING], together with the edge
    that leads to it (from [p] for [k = 0], from the node before it on the
    chain otherwise). *)
Theorem branch_columns JSON_parse fuel input m g p st brs n index br b k t :
  definitionOf JSON_parse input = Some m →
  parseStateMachine JSON_parse fuel input = Returns g →
  statesOf m !! p = Some st → dispatch st = KParallel brs →
  n ∈ g_nodes g → isStateNode n = true → Node.id n = p →
  brs !! index = Some br → truthy (StartAt br) = Some b →
  chainNth (statesOf br) b k = Some t →
  chainPlaced (g_nodes g) (g_edges g) p index (statesOf br) b
    (branchColumn (pos_x (Node.position n)) (length brs) index)
    (pos_y (Node.position n) + VERTICAL_SPACING) k t.
Proof.
  intros Hm Hrun Hst Hkind Hn Hs Hid Hbr Hb Hk.
  destruct (parseStateMachine_settled _ _ _ _ _ Hm Hrun)
    as [[-> _]|(startAt & σ & _ & -> & HF & Hset & _)];
    [by apply elem_of_nil in Hn|].
  simpl in *. subst p.
  assert (Hfail : isFail st = false).
  { apply dispatch_not_fail. by rewrite Hkind. }
  destruct (stateNode_completed _ _ _ _ _ HF Hset Hn Hs Hst Hfail)
    as (x & y & Hnode & Hc).
  destruct (completed_inv _ _ _ _ _ _ Hc Hst) as (fuel' & σ0 & r & σ1 & Hbody & Hg).
  rewrite Hkind in Hbody.
  eapply processParallel_placed in Hbody; eauto.
  assert (Hpos : Node.position n = mkPos x y) by (by rewrite Hnode).
  rewrite Hpos. simpl.
  by eapply chainPlaced_grows.
Qed.

(** X4 on a Parallel state at [(0, 100)] with two branches: the second state
    of the second branch is in the column [100], on the row [300]. *)
Lemma branch_columns_witness :
  ∃ g, parseStateMachine rejectAll 2 (InObject rejoinExample) = Returns g
    ∧ branchColumn 0 2 1 = 100
    ∧ chainPlaced (g_nodes g) (g_edges g) "P" 1
        (statesOf (mkMachine (Some "b1")
           (Some {[ "b1" := task (Some "b2") false; "b2" := task None true ]})))
        "b1" (branchColumn 0 2 1) (100 + VERTICAL_SPACING) 1 "b2".
Proof.
  pose (brA := mkMachine (Some "a1")
                 (Some {[ "a1" := task (Some "a2") false;
                          "a2" := task None true ]})).
  pose (brB := mkMachine (Some "b1")
                 (Some {[ "b1" := task (Some "b2") false;
                          "b2" := task None true ]})).
  pose (stP := mkState (Some "Parallel") (Some "S") false None None None
                 (Some [brA; brB])).
  pose (g := match parseStateMachine rejectAll 2 (InObject rejoinExample) with
             | Returns g => g
             | _ => emptyGraph
             end).
  exists g. split; [vm_compute; reflexivity|]. split; [reflexivity|].
  apply (branch_columns rejectAll 2 (InObject rejoinExample) rejoinExample g
           "P" stP [brA; brB] (mainNode "P" 0 100 stP) 1%nat brB "b1" 1%nat
           "b2").
  - reflexivity.
  - vm_compute; reflexivity.
  - reflexivity.
  - reflexivity.
  - apply list_elem_of_In. vm_compute. auto.
  - reflexivity.
  - reflexivity.
  - reflexivity.
  - reflexivity.
  - reflexivity.
Defined.


(** * The origin of every node and edge *)

Section OriginInvariant.

Variable states : gmap string stateObj.
Variable startAt : string.

Local Abbreviation step := (step states startAt).
Local Abbreviation steps := (steps states startAt).
Local Abbreviation invOrigin := (invOrigin states startAt).
Local Abbreviation nodeOrigin := (nodeOrigin states).
Local Abbreviation edgeOrigin := (edgeOrigin states startAt).

Lemma invOrigin_initial : invOrigin ([], initialLayout startAt).
Proof.
  split; simpl.
  - intros n ->%list_elem_of_singleton. constructor.
  - intros e ->%list_elem_of_singleton. constructor.
  - by intros fr ?%elem_of_nil.
  - intros s index t b Hin%list_elem_of_singleton. discriminate Hin.
  - intros n ->%list_elem_of_singleton _. by left.
  - exists [], []. split_and!; [done | done | |]; by intros ? ?%elem_of_nil.
Qed.

Lemma sameFrames_refl stk : sameFrames stk stk.
Proof. split; intros fr Hin; exists fr; auto. Qed.

Lemma sameFrames_withTarget fr t stk :
  sameFrames (fr :: stk) (withTarget fr t :: stk).
Proof.
  split.
  - intros fr' [->|Hin]%elem_of_cons.
    + exists fr. split; [by left | done].
    + exists fr'. split; [by right | done].
  - intros fr0 [->|Hin]%elem_of_cons.
    + exists (withTarget fr t). split; [by left | done].
    + exists fr0. split; [by right | done].
Qed.

(** A push of a node that has an origin, and that carries a state object or
    is the exit marker of a state with its node. *)
Lemma invOrigin_push_node stk σ n :
  invOrigin (stk, σ) → nodeOrigin n →
  (state (Node.data n) = None →
     ∃ s st x y ny, n = endNode s x ny ∧ states !! s = Some st ∧
       dispatch st = KRegular ∧ End_ st = true ∧
       mainNode s x y st ∈ nodes σ) →
  invOrigin (stk, push_node n σ).
Proof.
  intros [Hn He Hf Hc Hm Hent] Ho Hmark. split; simpl in *.
  - intros n' [Hin| ->%list_elem_of_singleton]%elem_of_app; auto.
  - done.
  - intros fr Hin. destruct (Hf fr Hin) as (st & Hst & Hmain).
    exists st. split; [done|]. apply elem_of_app. by left.
  - intros s index t b Hin.
    destruct (Hc s index t b Hin) as (st & x & y & Hst & Hmain & Hrest).
    exists st, x, y. split; [done|]. split; [|done]. apply elem_of_app. by left.
  - intros n' [Hin| ->%list_elem_of_singleton]%elem_of_app Hnone.
    + destruct (Hm n' Hin Hnone)
        as [?|(s & st & x & y & ny & ? & ? & ? & ? & Hmain)]; [by left|].
      right. exists s, st, x, y, ny. split_and!; auto.
      apply elem_of_app. by left.
    + destruct (Hmark Hnone) as (s & st & x & y & ny & ? & ? & ? & ? & Hmain).
      right. exists s, st, x, y, ny. split_and!; auto.
      apply elem_of_app. by left.
  - destruct Hent as (ns & es & Hns & Hes & Hnot & Han).
    exists (ns ++ [n]), es. rewrite Hns. split_and!; [done | done | | done].
    intros n' [Hin| ->%list_elem_of_singleton]%elem_of_app; [by apply Hnot|].
    intros ->. destruct (Hmark eq_refl) as (s & st & x & y & ny & Heq & _).
    discriminate Heq.
Qed.

(** A push of an edge with an origin that is not a catch edge. *)
Lemma invOrigin_push_edge stk stk' σ e :
  invOrigin (stk, σ) → sameFrames stk stk' → edgeOrigin e →
  Edge.sourceHandle e = None → Edge.animated e = false →
  invOrigin (stk', push_edge e σ).
Proof.
  intros [Hn He Hf Hc Hm Hent] [Hs1 Hs2] Ho Hh Ha. split; simpl in *.
  - done.
  - intros e' [Hin| ->%list_elem_of_singleton]%elem_of_app; auto.
  - intros fr' Hin. destruct (Hs1 fr' Hin) as (fr & Hfr & -> & -> & ->). auto.
  - intros s index t b [Hin|Heq%list_elem_of_singleton]%elem_of_app.
    + destruct (Hc s index t b Hin) as (st & x & y & Hst & Hmain & Hk & Ht & Hb & Hp).
      exists st, x, y. split_and!; auto.
      intros Hbt. destruct (Hp Hbt) as [?|(fr & Hfr & Hname)]; [by left|].
      right. destruct (Hs2 fr Hfr) as (fr' & Hfr' & Hname').
      exists fr'. split; [done | congruence].
    + subst e. discriminate Hh.
  - done.
  - destruct Hent as (ns & es & Hns & Hes & Hnot & Han).
    exists ns, (es ++ [e]). rewrite Hes. split_and!; [done | done | done |].
    intros e' [Hin| ->%list_elem_of_singleton]%elem_of_app; auto.
Qed.

Lemma invOrigin_set_position stk σ k v :
  invOrigin (stk, σ) → invOrigin (stk, set_position k v σ).
Proof. intros [? ? ? ? ? ?]. by split. Qed.

Lemma invOrigin_add_processed stk σ s :
  invOrigin (stk, σ) → invOrigin (stk, add_processed s σ).
Proof.
  intros [Hn He Hf Hc Hm Hent]. split; simpl in *; try done.
  intros s' index t b Hin.
  destruct (Hc s' index t b Hin) as (st & x & y & Hst & Hmain & Hk & Ht & Hb & Hp).
  exists st, x, y. split_and!; auto.
  intros Hbt. destruct (Hp Hbt) as [?|?]; [left; set_solver | by right].
Qed.

Lemma invOrigin_step c c' : invOrigin c → step c c' → invOrigin c'.
Proof.
  intros HO Hstep. destruct Hstep.
  - (* visit *)
    unfold visited. apply invOrigin_set_position.
    assert (HO' : invOrigin (stk, push_node (mainNode name x y st)
                                    (add_processed name σ))).
    { apply invOrigin_push_node; [by apply invOrigin_add_processed | | done].
      by constructor. }
    destruct HO' as [Hn He Hf Hc Hm Hent]. split; simpl in *; try done.
    + intros fr [->|Hin]%elem_of_cons; [|by apply Hf].
      exists st. split; [done|]. simpl.
      apply elem_of_app. right. by apply list_elem_of_singleton.
    + intros s index t b Hin.
      destruct (Hc s index t b Hin) as (st' & x' & y' & Hst & Hmain & Hk & Ht & Hb & Hp).
      exists st', x', y'. split_and!; auto.
      intros Hbt. destruct (Hp Hbt) as [?|(fr & Hfr & Hname)]; [by left|].
      right. exists fr. split; [by right | done].
  - (* return *)
    destruct HO as [Hn He Hf Hc Hm Hent]. split; simpl in *; try done.
    + intros fr' Hin. apply Hf. by right.
    + intros s index t b Hin.
      destruct (Hc s index t b Hin) as (st' & x' & y' & Hst & Hmain & Hk & Ht & Hb & Hp).
      exists st', x', y'. split_and!; auto.
      intros Hbt. destruct (Hp Hbt) as [?|(fr' & [->|Hfr]%elem_of_cons & Hname)];
        [by left | | right; eauto].
      left. subst s. replace st' with st in * by congruence.
      eapply ret_fails; [exact H0 | exact Ht | congruence].
  - (* branch start *)
    unfold branchStarted. apply invOrigin_set_position.
    eapply invOrigin_push_edge; [| apply sameFrames_refl | | done | done].
    + apply invOrigin_push_node; [done | by econstructor | done].
    + econstructor; eauto.
  - (* branch next *)
    unfold branchAdvanced. apply invOrigin_set_position.
    eapply invOrigin_push_edge; [| apply sameFrames_refl | | done | done].
    + apply invOrigin_push_node; [done | by econstructor | done].
    + econstructor; eauto.
  - (* branch end *)
    by apply invOrigin_set_position.
  - (* rejoin *)
    eapply invOrigin_push_edge; [done | apply sameFrames_refl | | done | done].
    by econstructor.
  - (* choice edge *)
    eapply invOrigin_push_edge;
      [done | apply sameFrames_withTarget | | done | done].
    by econstructor.
  - (* default edge *)
    eapply invOrigin_push_edge;
      [done | apply sameFrames_withTarget | | done | done].
    by econstructor.
  - (* catch edge *)
    destruct HO as [Hn He Hf Hc Hm Hent]. split; simpl in *; try done.
    + intros e' [Hin| ->%list_elem_of_singleton]%elem_of_app; auto.
      by econstructor.
    + intros s index' t b [Hin|Heq%list_elem_of_singleton]%elem_of_app;
        [by apply (Hc s index' t b)|].
      injection Heq as Hid Hs Ht Hb.
      destruct (Hf fr) as (st' & Hst' & Hmain); [by left|].
      replace st' with st in * by congruence. subst s t.
      exists st, (f_x fr), (f_y fr). split_and!; auto.
      * unfold catchTargets.
        repeat match goal with
               | H : dispatch _ = _ |- _ => rewrite H
               | H : Catch _ = _ |- _ => rewrite H
               end.
        apply list_elem_of_omap. exists cb.
        split; [by eapply list_elem_of_lookup_2 | done].
      * by destruct b, (targetIsFail states next).
      * intros _. right. exists fr. split; [by left | done].
    + destruct Hent as (ns & es & Hns & Hes & Hnot & Han).
      exists ns, (es ++ [catchEdge (f_name fr) index next
                            (targetIsFail states next)]).
      rewrite Hes. split_and!; [done | done | done |].
      intros e' [Hin| ->%list_elem_of_singleton]%elem_of_app; auto.
  - (* catch fail *)
    unfold failPlaced. apply invOrigin_set_position.
    apply invOrigin_push_node; [by apply invOrigin_add_processed | | done].
    by constructor.
  - (* next edge *)
    eapply invOrigin_push_edge; [done | apply sameFrames_refl | | done | done].
    by econstructor.
  - (* end marker *)
    unfold endPlaced.
    eapply invOrigin_push_edge; [| apply sameFrames_refl | | done | done].
    + apply invOrigin_push_node; [done | by econstructor |].
      intros _. destruct (io_frames _ _ _ HO fr) as (st' & Hst' & Hmain);
        [by left|].
      replace st' with st in * by congruence.
      exists (f_name fr), st, (f_x fr), (f_y fr), ny. by split_and!.
    + by econstructor.
Qed.

Lemma invOrigin_steps c c' : invOrigin c → steps c c' → invOrigin c'.
Proof. intros HO Hs. eapply inv_steps; eauto. apply invOrigin_step. Qed.

End OriginInvariant.

Lemma parseStateMachine_origin JSON_parse fuel input m g :
  definitionOf JSON_parse input = Some m →
  parseStateMachine JSON_parse fuel input = Returns g →
  (g = emptyGraph ∧ (truthy (StartAt m) = None ∨ size (ownStates m) = 0%nat))
  ∨ ∃ startAt σ,
      truthy (StartAt m) = Some startAt ∧
      g = mkGraph (nodes σ) (edges σ) ∧
      finalFacts (statesOf m) startAt σ ∧
      settled (statesOf m) ∅ σ ∧
      invOrigin (statesOf m) startAt ([], σ) ∧
      ∃ r, processState (statesOf m) fuel startAt 0 (0 + VERTICAL_SPACING)
             (initialLayout startAt) = Some (r, σ).
Proof.
  intros Hm Hrun.
  destruct (parseStateMachine_settled _ _ _ _ _ Hm Hrun)
    as [?|(startAt & σ & ? & ? & ? & ? & _ & Hs & Hcall)]; [by left | right].
  exists startAt, σ. split_and!; auto.
  eapply invOrigin_steps; [apply invOrigin_initial | exact Hs].
Qed.


(** * What the returned graph never contains *)

(** X5: every node of a returned graph is the entry marker, the node of a
    name that [states[name]] finds, a key of [States] or a property that every
    object inherits (with the name as id and label, and the [Type] and the
    object found), the node of a name found in a branch of a Parallel state
    (under the branch-scoped id), or the exit marker of a state with
    [End: true] that is laid out by the regular path. *)
Theorem node_provenance JSON_parse fuel input m g n :
  definitionOf JSON_parse input = Some m →
  parseStateMachine JSON_parse fuel input = Returns g →
  n ∈ g_nodes g →
  nodeOrigin (statesOf m) n.
Proof.
  intros Hm Hrun Hn.
  destruct (parseStateMachine_origin _ _ _ _ _ Hm Hrun)
    as [[-> _]|(startAt & σ & _ & -> & _ & _ & HO & _)];
    [by apply elem_of_nil in Hn|].
  by apply (io_nodes _ _ _ HO).
Qed.

(** X5 on the Fail state placed beside the Task that catches to it. *)
Lemma node_provenance_witness :
  ∃ g, parseStateMachine rejectAll 2 (InObject catching) = Returns g
    ∧ nodeOrigin (statesOf catching)
        (failNode "F" 240 100
           (mkState (Some "Fail") None false None None None None)).
Proof.
  pose (g := match parseStateMachine rejectAll 2 (InObject catching) with
             | Returns g => g
             | _ => emptyGraph
             end).
  exists g. split; [vm_compute; reflexivity|].
  apply (node_provenance rejectAll 2 (InObject catching) catching g).
  - reflexivity.
  - vm_compute; reflexivity.
  - apply list_elem_of_In. vm_compute. auto.
Defined.

(** X7: a node without a state object is the entry marker, or is the exit
    marker of a state that has [End: true], is laid out by the regular path
    and has its own node in the graph, in the column of the marker.  So a
    state without [End: true] (a Fail or Succeed state as they are written),
    and a Parallel or Choice state, has no exit marker. *)
Theorem exit_marker_justified JSON_parse fuel input m g n :
  definitionOf JSON_parse input = Some m →
  parseStateMachine JSON_parse fuel input = Returns g →
  n ∈ g_nodes g → state (Node.data n) = None →
  n = startNode
  ∨ ∃ s st x y ny, n = endNode s x ny ∧ statesOf m !! s = Some st ∧
      dispatch st = KRegular ∧ End_ st = true ∧
      mainNode s x y st ∈ g_nodes g.
Proof.
  intros Hm Hrun Hn Hnone.
  destruct (parseStateMachine_origin _ _ _ _ _ Hm Hrun)
    as [[-> _]|(startAt & σ & _ & -> & _ & _ & HO & _)];
    [by apply elem_of_nil in Hn|].
  by apply (io_markers _ _ _ HO).
Qed.

(** X7 on the exit marker of a Task with [End: true]. *)
Lemma exit_marker_justified_witness :
  ∃ g, parseStateMachine rejectAll 2 (InObject catching) = Returns g
    ∧ (endNode "A" 0 200 = startNode
       ∨ ∃ s st x y ny, endNode "A" 0 200 = endNode s x ny ∧
           statesOf catching !! s = Some st ∧
           dispatch st = KRegular ∧ End_ st = true ∧
           mainNode s x y st ∈ g_nodes g).
Proof.
  pose (g := match parseStateMachine rejectAll 2 (InObject catching) with
             | Returns g => g
             | _ => emptyGraph
             end).
  exists g. split; [vm_compute; reflexivity|].
  apply (exit_marker_justified rejectAll 2 (InObject catching) catching g).
  - reflexivity.
  - vm_compute; reflexivity.
  - apply list_elem_of_In. vm_compute. auto.
  - reflexivity.
Defined.

Lemma start_state_second states fuel startAt st r σ :
  processState states fuel startAt 0 (0 + VERTICAL_SPACING)
    (initialLayout startAt) = Some (r, σ) →
  states !! startAt = Some st →
  ∃ ns, nodes σ = startNode :: mainNode startAt 0 VERTICAL_SPACING st :: ns.
Proof.
  intros Hrun Hst. destruct fuel as [|fuel]; [simpl in Hrun; minv|].
  simpl in Hrun. unfold processState_body in Hrun. minv.
  rewrite bool_decide_eq_false_2 in Hrun by (simpl; set_solver).
  rewrite Hst in Hrun. minv.
  apply dispatch_grows in Hrun as [[k Hk] _]. simpl in Hk.
  exists k. by rewrite Hk.
Qed.

(** X8: a graph returned for a definition with a start state and states
    begins with the entry marker, at the origin, and with the entry edge to
    the start state, which is the only animated edge; the other nodes carry a
    state object or are exit markers; and when the start state is a state of
    the definition, its node comes second, one row under the entry marker. *)
Theorem entry_marker_first JSON_parse fuel input m g s :
  definitionOf JSON_parse input = Some m →
  parseStateMachine JSON_parse fuel input = Returns g →
  truthy (StartAt m) = Some s → size (ownStates m) ≠ 0%nat →
  ∃ ns es,
    g_nodes g = startNode :: ns ∧ g_edges g = startEdge s :: es
    ∧ (∀ n, n ∈ ns →
         is_Some (state (Node.data n)) ∨ type (Node.data n) = Some "End")
    ∧ (∀ e, e ∈ es → Edge.animated e = false)
    ∧ (∀ st, statesOf m !! s = Some st →
         ∃ ns', ns = mainNode s 0 VERTICAL_SPACING st :: ns').
Proof.
  intros Hm Hrun Hstart Hsize.
  destruct (parseStateMachine_origin _ _ _ _ _ Hm Hrun)
    as [[_ [?|?]]|(startAt & σ & Hstart' & -> & _ & _ & HO & r & Hcall)];
    [congruence | done |].
  replace startAt with s in * by congruence.
  destruct (io_entry _ _ _ HO) as (ns & es & Hns & Hes & Hnot & Han).
  simpl in *. exists ns, es. split_and!; auto.
  - intros n Hn.
    destruct (state (Node.data n)) eqn:Hstate; [left; eauto | right].
    destruct (io_markers _ _ _ HO n) as [->|(? & ? & ? & ? & ? & -> & _)];
      [simpl; rewrite Hns; by right | done | | done].
    by destruct (Hnot _ Hn).
  - intros st Hst.
    destruct (start_state_second _ _ _ _ _ _ Hcall Hst) as (ns' & Hns').
    rewrite Hns in Hns'. injection Hns' as ->. eauto.
Qed.

(** X8 on a Task that is the start state. *)
Lemma entry_marker_first_witness :
  ∃ g ns es,
    parseStateMachine rejectAll 2 (InObject catching) = Returns g
    ∧ g_nodes g = startNode :: ns ∧ g_edges g = startEdge "A" :: es
    ∧ (∀ n, n ∈ ns →
         is_Some (state (Node.data n)) ∨ type (Node.data n) = Some "End")
    ∧ (∀ e, e ∈ es → Edge.animated e = false)
    ∧ (∀ st, statesOf catching !! "A" = Some st →
         ∃ ns', ns = mainNode "A" 0 VERTICAL_SPACING st :: ns').
Proof.
  pose (g := match parseStateMachine rejectAll 2 (InObject catching) with
             | Returns g => g
             | _ => emptyGraph
             end).
  destruct (entry_marker_first rejectAll 2 (InObject catching) catching g "A")
    as (ns & es & H).
  - reflexivity.
  - vm_compute; reflexivity.
  - reflexivity.
  - vm_compute. discriminate.
  - exists g, ns, es. split; [vm_compute; reflexivity | exact H].
Defined.


(** * The returned graph as CustomNode draws it *)

Section Render.

Variable toLowerCase : string → string.

Lemma CustomNode_top data r :
  CustomNode toLowerCase data = Some r → type data ≠ Some "Start" →
  hasHandle r "target" "top".
Proof.
  unfold CustomNode. destruct (type data) as [ty|]; [|done].
  intros [= <-] Hne. simpl.
  rewrite bool_decide_eq_false_2 by congruence. simpl.
  eexists. split; [by left | done].
Qed.

Lemma CustomNode_left data :
  type data = Some "Fail" →
  ∃ r, CustomNode toLowerCase data = Some r ∧ hasHandle r "target" "left".
Proof.
  unfold CustomNode. intros ->. eexists. split; [done|]. simpl.
  eexists. split; [right; left | done].
Qed.

Lemma CustomNode_right data r :
  CustomNode toLowerCase data = Some r → hasCatch data = Some true →
  hasHandle r "source" "right".
Proof.
  unfold CustomNode. destruct (type data) as [ty|]; [|done].
  intros [= <-] ->. simpl.
  exists (mkHandle "source" Right "right" "custom-handle custom-handle-error").
  split; [|done].
  repeat (apply elem_of_app; right). by left.
Qed.

(** The type of a node made for a state is the state's [Type]. *)
Lemma nodeOrigin_type states n st :
  nodeOrigin states n → state (Node.data n) = Some st →
  type (Node.data n) = Type_ st.
Proof. intros [] Hst; simpl in *; congruence. Qed.

Lemma nodeOrigin_state states n :
  nodeOrigin states n → isStateNode n = true →
  ∃ st, states !! Node.id n = Some st ∧ state (Node.data n) = Some st.
Proof. intros [] Hs; simpl in *; try discriminate; eauto. Qed.

End Render.

(** Every node of a returned graph has an origin. *)
Lemma node_origin_of JSON_parse fuel input m g n :
  definitionOf JSON_parse input = Some m →
  parseStateMachine JSON_parse fuel input = Returns g →
  n ∈ g_nodes g →
  nodeOrigin (statesOf m) n.
Proof.
  intros Hm Hrun Hn.
  destruct (parseStateMachine_origin _ _ _ _ _ Hm Hrun)
    as [[-> _]|(startAt & σ & _ & -> & _ & _ & HO & _)];
    [by apply elem_of_nil in Hn|].
  by apply (io_nodes _ _ _ HO).
Qed.

(** X9: the handles that edges name.  An edge of a returned graph that names
    a source handle or a target handle is a catch edge: its source handle is
    ["right"] and its target handle is ["left"] exactly when its target is a
    Fail state, ["top"] otherwise.  The state that catches has its node, on
    which CustomNode, whenever it draws it, draws the handle ["right"].  When
    the target is a Fail state it has a node, drawn with a ["left"] handle.
    When it is not, every node with the target's id whose type is not
    ["Start"] is drawn with a ["top"] handle, and there is such a node when
    the target is a laid-out state with a [Type] other than ["Start"]; a
    target without node leaves the edge without a handle to attach to. *)
Theorem edge_handles_rendered toLowerCase JSON_parse fuel input m g e :
  definitionOf JSON_parse input = Some m →
  parseStateMachine JSON_parse fuel input = Returns g →
  e ∈ g_edges g →
  is_Some (Edge.sourceHandle e) ∨ is_Some (Edge.targetHandle e) →
  ∃ s st x y index t,
    e = catchEdge s index t (targetIsFail (statesOf m) t)
    ∧ Edge.sourceHandle e = Some "right"
    ∧ Edge.targetHandle e
      = Some (if targetIsFail (statesOf m) t then "left" else "top")
    ∧ statesOf m !! s = Some st ∧ dispatch st = KRegular
    ∧ t ∈ catchTargets st
    ∧ mainNode s x y st ∈ g_nodes g
    ∧ (∀ r, CustomNode toLowerCase (Node.data (mainNode s x y st)) = Some r →
            hasHandle r "source" "right")
    ∧ (targetIsFail (statesOf m) t = true →
         ∃ nT r, nT ∈ g_nodes g ∧ isStateNode nT = true ∧ Node.id nT = t
           ∧ CustomNode toLowerCase (Node.data nT) = Some r
           ∧ hasHandle r "target" "left")
    ∧ (targetIsFail (statesOf m) t = false →
         ∀ nT r, nT ∈ g_nodes g → Node.id nT = t →
           type (Node.data nT) ≠ Some "Start" →
           CustomNode toLowerCase (Node.data nT) = Some r →
           hasHandle r "target" "top")
    ∧ (targetIsFail (statesOf m) t = false →
         t ∈ stateNodeIds (g_nodes g) →
         ∀ tst ty, statesOf m !! t = Some tst → Type_ tst = Some ty →
           ty ≠ "Start" →
           ∃ nT r, nT ∈ g_nodes g ∧ isStateNode nT = true ∧ Node.id nT = t
             ∧ CustomNode toLowerCase (Node.data nT) = Some r
             ∧ hasHandle r "target" "top").
Proof.
  intros Hm Hrun He Hh.
  destruct (parseStateMachine_origin _ _ _ _ _ Hm Hrun)
    as [[-> _]|(startAt & σ & _ & -> & HF & _ & HO & _)];
    [by apply elem_of_nil in He|].
  simpl in *.
  pose proof (io_edges _ _ _ HO e He) as Ho.
  destruct Ho; try (by destruct Hh as [[? Hh]|[? Hh]]; discriminate Hh).
  clear Hh.
  destruct (io_catch _ _ _ HO _ _ _ _ He)
    as (st' & x & y & Hst & Hmain & Hk & Ht & _ & Hp).
  simpl in *.
  exists s, st', x, y, index, t.
  split_and!; try done.
  - intros r Hr. eapply CustomNode_right; [exact Hr|]. simpl.
    apply catchTargets_lookup in Ht as (rules' & index' & cb' & _ & -> & Hcb' & _).
    f_equal. apply bool_decide_eq_true_2.
    apply lookup_lt_Some in Hcb'. lia.
  - intros Hfail.
    destruct (Hp Hfail) as [Hproc|(fr & []%elem_of_nil & _)].
    apply (final_processed _ _ _ HF), elem_of_stateNodeIds in Hproc
      as (nT & HnT & HsT & HidT).
    pose proof (io_nodes _ _ _ HO nT HnT) as HoT.
    destruct (nodeOrigin_state _ _ HoT HsT) as (tst & Htst & Hstate).
    pose proof (nodeOrigin_type _ _ _ HoT Hstate) as Htype.
    unfold targetIsFail in Hfail. rewrite <- HidT, Htst in Hfail.
    unfold isFail in Hfail. apply bool_decide_eq_true_1 in Hfail.
    rewrite Hfail in Htype.
    destruct (CustomNode_left toLowerCase _ Htype) as (r & Hr & Hl).
    exists nT, r. by split_and!.
  - intros _ nT r _ _ Hty Hr. by eapply CustomNode_top.
  - intros _ (nT & HnT & HsT & HidT)%elem_of_stateNodeIds tst ty Htst Hty Hne.
    pose proof (io_nodes _ _ _ HO nT HnT) as HoT.
    destruct (nodeOrigin_state _ _ HoT HsT) as (tst' & Htst' & Hstate).
    pose proof (nodeOrigin_type _ _ _ HoT Hstate) as Htype.
    rewrite HidT in Htst'. replace tst' with tst in * by congruence.
    rewrite Hty in Htype.
    assert (Hr : is_Some (CustomNode toLowerCase (Node.data nT))).
    { unfold CustomNode. rewrite Htype. eauto. }
    destruct Hr as [r Hr]. exists nT, r. split_and!; try done.
    eapply CustomNode_top; [exact Hr|]. rewrite Htype. congruence.
Qed.

(** X9 on the catch edge from a Task to a Fail state, and on the catch edge
    from a Task to the Pass state that is also its [Next]. *)
Lemma edge_handles_rendered_witness :
  (∃ g nT r,
     parseStateMachine rejectAll 2 (InObject catching) = Returns g
     ∧ catchEdge "A" 0 "F" true ∈ g_edges g
     ∧ nT ∈ g_nodes g ∧ Node.id nT = "F"
     ∧ CustomNode (λ x, x) (Node.data nT) = Some r
     ∧ hasHandle r "target" "left")
  ∧ (∃ g nT r,
       parseStateMachine rejectAll 3 (InObject catchBelow) = Returns g
       ∧ catchEdge "A" 0 "B" false ∈ g_edges g
       ∧ nT ∈ g_nodes g ∧ Node.id nT = "B"
       ∧ CustomNode (λ x, x) (Node.data nT) = Some r
       ∧ hasHandle r "target" "top").
Proof.
  split.
  - pose (g := match parseStateMachine rejectAll 2 (InObject catching) with
               | Returns g => g
               | _ => emptyGraph
               end).
    assert (He : catchEdge "A" 0 "F" true ∈ g_edges g)
      by (apply list_elem_of_In; vm_compute; auto).
    destruct (edge_handles_rendered (λ x, x) rejectAll 2 (InObject catching)
                catching g (catchEdge "A" 0 "F" true))
      as (s & st & x & y & index & t & Heq & _ & _ & _ & _ & _ & _ & _ & Hleft & _).
    + reflexivity.
    + vm_compute; reflexivity.
    + exact He.
    + left. simpl. eauto.
    + apply (f_equal Edge.target) in Heq. simpl in Heq. subst t.
      destruct (Hleft eq_refl) as (nT & r & HnT & _ & Hid & Hr & Hl).
      exists g, nT, r. split; [vm_compute; reflexivity|]. by split_and!.
  - pose (g := match parseStateMachine rejectAll 3 (InObject catchBelow) with
               | Returns g => g
               | _ => emptyGraph
               end).
    assert (He : catchEdge "A" 0 "B" false ∈ g_edges g)
      by (apply list_elem_of_In; vm_compute; auto).
    destruct (edge_handles_rendered (λ x, x) rejectAll 3 (InObject catchBelow)
                catchBelow g (catchEdge "A" 0 "B" false))
      as (s & st & x & y & index & t & Heq & _ & _ & _ & _ & _ & _ & _ & _ & _ & Htop).
    + reflexivity.
    + vm_compute; reflexivity.
    + exact He.
    + left. simpl. eauto.
    + apply (f_equal Edge.target) in Heq. simpl in Heq. subst t.
      destruct (Htop eq_refl) with (tst := pass None true) (ty := "Pass")
        as (nT & r & HnT & _ & Hid & Hr & Hl).
      * apply list_elem_of_In. vm_compute. auto.
      * reflexivity.
      * reflexivity.
      * discriminate.
      * exists g, nT, r. split; [vm_compute; reflexivity|]. by split_and!.
Defined.

(** X10: CustomNode draws a node of a returned graph exactly when the state
    the node stands for has a [Type]: the markers are always drawn, and a
    state (of the definition or of a branch) written without [Type] gives a
    node on which the component throws. *)
Theorem node_renders_iff toLowerCase JSON_parse fuel input m g n :
  definitionOf JSON_parse input = Some m →
  parseStateMachine JSON_parse fuel input = Returns g →
  n ∈ g_nodes g →
  is_Some (CustomNode toLowerCase (Node.data n))
  ↔ (∀ st, state (Node.data n) = Some st → is_Some (Type_ st)).
Proof.
  intros Hm Hrun Hn.
  pose proof (node_origin_of _ _ _ _ _ _ Hm Hrun Hn) as Ho.
  unfold CustomNode. split.
  - intros Hr st Hst. rewrite (nodeOrigin_type _ _ _ Ho Hst) in Hr.
    destruct (Type_ st); [eauto | by destruct Hr].
  - intros Hall. destruct (state (Node.data n)) as [st|] eqn:Hst.
    + rewrite (nodeOrigin_type _ _ _ Ho Hst).
      destruct (Hall st eq_refl) as [ty ->]. eauto.
    + destruct Ho; simpl in *; try discriminate; eauto.
Qed.

(** X10 on the node of a Task. *)
Lemma node_renders_iff_witness :
  ∃ g n, parseStateMachine rejectAll 2 (InObject catching) = Returns g
    ∧ n ∈ g_nodes g ∧ Node.id n = "A"
    ∧ (is_Some (CustomNode (λ x, x) (Node.data n))
       ↔ (∀ st, state (Node.data n) = Some st → is_Some (Type_ st))).
Proof.
  pose (g := match parseStateMachine rejectAll 2 (InObject catching) with
             | Returns g => g
             | _ => emptyGraph
             end).
  pose (n := mainNode "A" 0 100
               (mkState (Some "Task") None true
                  (Some [mkCatch (Some "F"); mkCatch (Some "R")])
                  None None None)).
  assert (Hn : n ∈ g_nodes g) by (apply list_elem_of_In; vm_compute; auto).
  exists g, n. split; [vm_compute; reflexivity|]. split; [exact Hn|].
  split; [reflexivity|].
  apply (node_renders_iff (λ x, x) rejectAll 2 (InObject catching) catching g n).
  - reflexivity.
  - vm_compute; reflexivity.
  - exact Hn.
Defined.


(** * Branch-scoped ids and the rejoin edges of every Parallel state *)

Lemma pretty_N_char_noUnderscore x s :
  noUnderscore s = true → noUnderscore (String (pretty_N_char x) s) = true.
Proof.
  unfold noUnderscore. intros Hs. simpl. rewrite Hs. unfold pretty_N_char.
  by repeat case_match.
Qed.

Lemma pretty_N_go_noUnderscore x : ∀ s,
  noUnderscore s = true → noUnderscore (pretty_N_go x s) = true.
Proof.
  induction (N.lt_wf_0 x) as [x _ IH]; intros s Hs.
  destruct (decide (x = 0)%N) as [->|Hne]; [by rewrite pretty_N_go_0|].
  rewrite pretty_N_go_step by lia.
  apply IH; [apply N.div_lt; lia|]. by apply pretty_N_char_noUnderscore.
Qed.

Lemma pretty_nat_noUnderscore (n : nat) : noUnderscore (pretty n) = true.
Proof.
  unfold pretty, pretty_nat, pretty, pretty_N.
  case_decide; [done|]. by apply pretty_N_go_noUnderscore.
Qed.

(** Two strings that agree up to their first underscore and after it. *)
Lemma underscore_split d1 : ∀ d2 a b,
  noUnderscore d1 = true → noUnderscore d2 = true →
  d1 +:+ "_" +:+ a = d2 +:+ "_" +:+ b → d1 = d2 ∧ a = b.
Proof.
  unfold noUnderscore.
  induction d1 as [|c d1 IH]; intros [|c' d2] a b H1 H2 Heq; simpl in *.
  - by injection Heq.
  - injection Heq as <- _. by apply andb_prop in H2 as [? _].
  - injection Heq as -> _. by apply andb_prop in H1 as [? _].
  - injection Heq as -> Heq.
    apply andb_prop in H1 as [_ H1]. apply andb_prop in H2 as [_ H2].
    destruct (IH d2 a b H1 H2 Heq) as [-> ->]. done.
Qed.

Lemma branchId_index p i j x y : branchId p i x = branchId p j y → i = j.
Proof.
  unfold branchId. intros H%append_cancel.
  change ("_branch_" +:+ pretty i +:+ "_" +:+ x)
    with ("_branch_" +:+ (pretty i +:+ "_" +:+ x)) in H.
  apply (append_cancel "_branch_") in H.
  apply underscore_split in H as [Hp _]; auto using pretty_nat_noUnderscore.
  by apply (inj pretty).
Qed.

(** X11: under one Parallel state, the branch-scoped ids of two branch states
    are equal only for the same branch index and the same state name: a state
    name used in two branches gives two node ids. *)
Theorem branchId_inj p i j x y :
  branchId p i x = branchId p j y → i = j ∧ x = y.
Proof.
  unfold branchId. intros H%append_cancel.
  change ("_branch_" +:+ pretty i +:+ "_" +:+ x)
    with ("_branch_" +:+ (pretty i +:+ "_" +:+ x)) in H.
  apply (append_cancel "_branch_") in H.
  apply underscore_split in H as [Hp ->]; auto using pretty_nat_noUnderscore.
  split; [|done]. by apply (inj pretty).
Qed.

(** X11 on the id of the state [a] of branch 10. *)
Lemma branchId_inj_witness :
  branchId "P" 10 "a" = branchId "P" 10 "a" ∧ 10%nat = 10%nat ∧ "a" = "a".
Proof.
  split; [reflexivity|]. apply (branchId_inj "P" 10 10 "a" "a"). reflexivity.
Defined.

(** ** The end of a branch, as [nodePositions] records it *)

Lemma walkBranch_last fuel : ∀ bs name index bx c cur by_ σ r σ' k last,
  walkBranch fuel bs name index bx cur (branchId name index c) by_ σ
    = Some (r, σ') →
  bs !! c = Some cur →
  chainLast bs c k last →
  r.1 = branchId name index last.
Proof.
  induction fuel as [|fuel IH];
    intros bs name index bx c cur by_ σ r σ' k last Hrun Hc [Hk Hend].
  all: simpl in Hrun.
  all: rewrite (chainNth_S _ _ _ _ Hc) in Hend.
  all: destruct (truthy (Next cur)) as [n|] eqn:Hnext.
  all: try destruct (bs !! n) as [nst|] eqn:Hn.
  all: try (minv; simpl; destruct k as [|k];
            [by apply chainNth_0 in Hk as [-> _]|];
            rewrite (chainNth_S _ _ _ _ Hc), Hnext in Hk;
            first [by rewrite chainNth_None in Hk | done]).
  minv. destruct k as [|k].
  - simpl in Hend. by rewrite Hn in Hend.
  - rewrite (chainNth_S _ _ _ _ Hc), Hnext in Hk.
    eapply IH; [exact Hrun | exact Hn | by split].
Qed.

Lemma walkBranch_positions fuel : ∀ bs name index bx cur prev by_ σ r σ' key,
  walkBranch fuel bs name index bx cur prev by_ σ = Some (r, σ') →
  (∀ x, key ≠ branchId name index x) →
  nodePositions σ' !! key = nodePositions σ !! key.
Proof.
  induction fuel as [|fuel IH];
    intros bs name index bx cur prev by_ σ r σ' key Hrun Hkey.
  all: simpl in Hrun.
  all: destruct (truthy (Next cur)) as [n|]; [|by minv].
  all: destruct (bs !! n) as [nst|]; [|by minv].
  all: minv.
  erewrite IH; [| exact Hrun | done]. simpl.
  apply lookup_insert_ne. intros Heq. by apply (Hkey n).
Qed.

Lemma layoutBranch_positions fuel name startX nextY br index mb σ r σ' key :
  layoutBranch fuel name startX nextY br index mb σ = Some (r, σ') →
  (∀ x, key ≠ branchId name index x) →
  nodePositions σ' !! key = nodePositions σ !! key.
Proof.
  intros Hrun Hkey. unfold layoutBranch in Hrun.
  destruct (truthy (StartAt br)) as [b|]; [|by minv].
  destruct (statesOf br !! b) as [bst|]; [|by minv].
  minv. simpl. rewrite lookup_insert_ne by (intros Heq; by apply (Hkey "end")).
  erewrite walkBranch_positions; [| exact E2 | done]. simpl.
  apply lookup_insert_ne. intros Heq. by apply (Hkey b).
Qed.

Lemma layoutBranch_end fuel name startX nextY br index mb σ r σ' b k last :
  layoutBranch fuel name startX nextY br index mb σ = Some (r, σ') →
  truthy (StartAt br) = Some b →
  chainLast (statesOf br) b k last →
  nodePositions σ' !! branchId name index "end"
    = Some (PosId (branchId name index last)).
Proof.
  intros Hrun Hb Hlast. unfold layoutBranch in Hrun. rewrite Hb in Hrun.
  destruct (statesOf br !! b) as [bst|] eqn:Hbst.
  2:{ destruct Hlast as [Hk _]. by rewrite chainNth_None in Hk. }
  minv. simpl. rewrite lookup_insert_eq.
  by rewrite (walkBranch_last _ _ _ _ _ _ _ _ _ _ _ _ _ E2 Hbst Hlast).
Qed.

Lemma layoutBranches_end fuel name startX nextY brs mb σ r σ' :
  forEach (layoutBranch fuel name startX nextY) brs mb σ = Some (r, σ') →
  ∀ index br b k last,
    brs !! index = Some br → truthy (StartAt br) = Some b →
    chainLast (statesOf br) b k last →
    nodePositions σ' !! branchId name index "end"
      = Some (PosId (branchId name index last)).
Proof.
  intros Hrun.
  assert (Hall : ∀ j br b k last, (j < length brs)%nat →
    brs !! j = Some br → truthy (StartAt br) = Some b →
    chainLast (statesOf br) b k last →
    nodePositions σ' !! branchId name j "end"
      = Some (PosId (branchId name j last))).
  { eapply (forEach_inv (λ i _ τ,
      ∀ j br b k last, (j < i)%nat →
        brs !! j = Some br → truthy (StartAt br) = Some b →
        chainLast (statesOf br) b k last →
        nodePositions τ !! branchId name j "end"
          = Some (PosId (branchId name j last)))); [| |exact Hrun].
    - intros; lia.
    - intros i bri si τ1 s1 τ2 Hi Hall Hf j brj bj kj lastj Hj Hbrj Hbj Hlast.
      destruct (decide (j = i)) as [->|Hne].
      + replace brj with bri in * by congruence.
        by eapply layoutBranch_end in Hf.
      + erewrite layoutBranch_positions; [| exact Hf |].
        * eapply Hall; eauto. lia.
        * intros x Heq. apply branchId_index in Heq. done. }
  intros index br b k last Hbr. eapply Hall; eauto. by eapply lookup_lt_Some.
Qed.

(** The second loop over the branches pushes one edge for every branch whose
    end is recorded. *)
Lemma rejoin_edges name next brs u σ r σ' index v :
  forEach (rejoinBranch name next) brs u σ = Some (r, σ') →
  (index < length brs)%nat →
  nodePositions σ !! branchId name index "end" = Some v →
  entryTruthy v = true →
  plainEdge (entryString v +:+ "-to-" +:+ next) v next "#a78bfa" ∈ edges σ'.
Proof.
  intros Hrun Hi Hv Ht.
  assert (Hall : nodePositions σ' = nodePositions σ ∧
    ∀ j w, (j < length brs)%nat →
      nodePositions σ !! branchId name j "end" = Some w →
      entryTruthy w = true →
      plainEdge (entryString w +:+ "-to-" +:+ next) w next "#a78bfa"
        ∈ edges σ').
  { eapply (forEach_inv (λ i _ τ,
      nodePositions τ = nodePositions σ ∧
      ∀ j w, (j < i)%nat →
        nodePositions σ !! branchId name j "end" = Some w →
        entryTruthy w = true →
        plainEdge (entryString w +:+ "-to-" +:+ next) w next "#a78bfa"
          ∈ edges τ)); [| |exact Hrun].
    - split; [done|]. intros; lia.
    - intros i bri si τ1 s1 τ2 Hbri [Hpos Hall] Hf.
      unfold rejoinBranch in Hf. minv. rewrite Hpos in Hf.
      destruct (nodePositions σ !! branchId name i "end") as [w|] eqn:Hw.
      + destruct (entryTruthy w) eqn:Htw; minv.
        * split; [done|]. intros j w' Hj Hw' Htw'. simpl.
          apply elem_of_app.
          destruct (decide (j = i)) as [->|Hne].
          -- right. replace w' with w by congruence.
             by apply list_elem_of_singleton.
          -- left. eapply Hall; eauto. lia.
        * split; [done|]. intros j w' Hj Hw' Htw'.
          destruct (decide (j = i)) as [->|Hne]; [congruence|].
          eapply Hall; eauto. lia.
      + minv. split; [done|]. intros j w' Hj Hw' Htw'.
        destruct (decide (j = i)) as [->|Hne]; [congruence|].
        eapply Hall; eauto. lia. }
  destruct Hall as [_ Hall]. by eapply Hall.
Qed.

Lemma processParallel_rejoined states fuel s x nextY st brs σ r σ'
    next index br b k last :
  processParallel (processState states fuel) fuel s x nextY st brs σ
    = Some (r, σ') →
  truthy (Next st) = Some next →
  brs !! index = Some br → truthy (StartAt br) = Some b →
  chainLast (statesOf br) b k last →
  plainEdge (branchId s index last +:+ "-to-" +:+ next)
    (PosId (branchId s index last)) next "#a78bfa" ∈ edges σ'.
Proof.
  intros Hrun Hnext Hbr Hb Hlast. unfold processParallel in Hrun. minv.
  rewrite Hnext in Hrun. minv.
  pose proof (layoutBranches_end _ _ _ _ _ _ _ _ _ E _ _ _ _ _ Hbr Hb Hlast)
    as Hend.
  eapply rejoin_edges in E0;
    [| by eapply lookup_lt_Some | exact Hend | apply entryTruthy_branchId].
  apply processState_grows in Hrun as [Hg _].
  by eapply grows_edges.
Qed.

Lemma parseStateMachine_rejoined JSON_parse fuel input m g p st brs next
    index br b k last :
  definitionOf JSON_parse input = Some m →
  parseStateMachine JSON_parse fuel input = Returns g →
  statesOf m !! p = Some st → dispatch st = KParallel brs →
  truthy (Next st) = Some next →
  p ∈ stateNodeIds (g_nodes g) →
  brs !! index = Some br → truthy (StartAt br) = Some b →
  chainLast (statesOf br) b k last →
  plainEdge (branchId p index last +:+ "-to-" +:+ next)
    (PosId (branchId p index last)) next "#a78bfa" ∈ g_edges g.
Proof.
  intros Hm Hrun Hst Hkind Hnext (n & Hn & Hs & Hid)%elem_of_stateNodeIds
    Hbr Hb Hlast.
  destruct (parseStateMachine_settled _ _ _ _ _ Hm Hrun)
    as [[-> _]|(startAt & σ & _ & -> & HF & Hset & _)];
    [by apply elem_of_nil in Hn|].
  simpl in *. subst p.
  assert (Hfail : isFail st = false).
  { apply dispatch_not_fail. by rewrite Hkind. }
  destruct (stateNode_completed _ _ _ _ _ HF Hset Hn Hs Hst Hfail)
    as (x & y & Hnode & Hc).
  destruct (completed_inv _ _ _ _ _ _ Hc Hst) as (fuel' & σ0 & r & σ1 & Hbody & Hg).
  rewrite Hkind in Hbody.
  eapply processParallel_rejoined in Hbody; eauto.
  by eapply grows_edges.
Qed.

(** X12: the rejoin edges of every Parallel state.  For a Parallel state with
    a node in the returned graph and a [Next], every branch whose [StartAt]
    is found by [branchStates[StartAt]] has a rejoin edge to [Next], from the
    branch node of the last name on the branch's [Next] chain, the chain being
    followed as long as [branchStates[name]] finds the name, a key of the
    [States] of the branch or a property that every object inherits. *)
Theorem parallel_rejoin_edges JSON_parse fuel input m g p st brs next
    index br b k last :
  definitionOf JSON_parse input = Some m →
  parseStateMachine JSON_parse fuel input = Returns g →
  statesOf m !! p = Some st → dispatch st = KParallel brs →
  truthy (Next st) = Some next →
  p ∈ stateNodeIds (g_nodes g) →
  brs !! index = Some br → truthy (StartAt br) = Some b →
  chainLast (statesOf br) b k last →
  plainEdge (branchId p index last +:+ "-to-" +:+ next)
    (PosId (branchId p index last)) next "#a78bfa" ∈ g_edges g.
Proof. apply parseStateMachine_rejoined. Qed.

(** X12 on a Parallel state with two branches of two states: the second
    branch rejoins from its second state. *)
Lemma parallel_rejoin_edges_witness :
  ∃ g, parseStateMachine rejectAll 2 (InObject rejoinExample) = Returns g
    ∧ plainEdge (branchId "P" 1 "b2" +:+ "-to-" +:+ "S")
        (PosId (branchId "P" 1 "b2")) "S" "#a78bfa" ∈ g_edges g.
Proof.
  pose (brA := mkMachine (Some "a1")
                 (Some {[ "a1" := task (Some "a2") false;
                          "a2" := task None true ]})).
  pose (brB := mkMachine (Some "b1")
                 (Some {[ "b1" := task (Some "b2") false;
                          "b2" := task None true ]})).
  pose (stP := mkState (Some "Parallel") (Some "S") false None None None
                 (Some [brA; brB])).
  pose (g := match parseStateMachine rejectAll 2 (InObject rejoinExample) with
             | Returns g => g
             | _ => emptyGraph
             end).
  exists g. split; [vm_compute; reflexivity|].
  apply (parallel_rejoin_edges rejectAll 2 (InObject rejoinExample)
           rejoinExample g "P" stP [brA; brB] "S" 1%nat brB "b1" 1%nat "b2").
  - reflexivity.
  - vm_compute; reflexivity.
  - reflexivity.
  - reflexivity.
  - reflexivity.
  - apply list_elem_of_In. vm_compute. auto.
  - reflexivity.
  - reflexivity.
  - split; reflexivity.
Defined.


(** * getChoiceLabel *)

Lemma string_app_assoc (a b c : string) : (a +:+ b) +:+ c = a +:+ (b +:+ c).
Proof.
  induction a as [|x a IH]; [done|]. exact (f_equal (String x) IH).
Qed.

Lemma string_app_nil_r (a : string) : a +:+ EmptyString = a.
Proof.
  induction a as [|x a IH]; [done|]. exact (f_equal (String x) IH).
Qed.

Lemma lacks_app c a b : lacks c (a +:+ b) = lacks c a && lacks c b.
Proof.
  induction a as [|x a IH]; [done|].
  change (negb (Ascii.eqb x c) && lacks c (a +:+ b)
          = negb (Ascii.eqb x c) && lacks c a && lacks c b).
  rewrite IH. by rewrite andb_assoc.
Qed.

(** Without a dot, the whole string is its last segment. *)
Lemma lastSegment_go_plain q : ∀ acc,
  lacks dot q = true → lastSegment_go acc q = acc +:+ q.
Proof.
  induction q as [|c q IH]; intros acc Hq; simpl in *.
  - by rewrite string_app_nil_r.
  - apply andb_prop in Hq as [Hc Hq].
    apply negb_true_iff in Hc. rewrite Hc.
    rewrite IH by done. rewrite string_app_assoc. done.
Qed.

Lemma lastSegment_go_path p : ∀ acc q,
  lastSegment_go acc (p +:+ String dot q) = lastSegment_go EmptyString q.
Proof.
  induction p as [|c p IH]; intros acc q.
  - change (EmptyString +:+ String dot q) with (String dot q). done.
  - change (String c p +:+ String dot q) with (String c (p +:+ String dot q)).
    simpl. destruct (Ascii.eqb c dot); apply IH.
Qed.

(** X13: [Variable.split(".").pop()] keeps what follows the last dot of a
    path, and the whole of a name without a dot: the label of a rule on
    [$.order.status] starts with [status]. *)
Theorem lastSegment_path p q :
  lacks dot q = true →
  lastSegment (p +:+ "." +:+ q) = q ∧ lastSegment q = q.
Proof.
  intros Hq. unfold lastSegment. split.
  - change ("." +:+ q) with (String dot q).
    rewrite lastSegment_go_path. by rewrite lastSegment_go_plain.
  - by rewrite lastSegment_go_plain.
Qed.

(** X13 on [$.order.status]. *)
Lemma lastSegment_path_witness :
  lastSegment ("$.order" +:+ "." +:+ "status") = "status"
  ∧ lastSegment "status" = "status".
Proof. apply (lastSegment_path "$.order" "status"). reflexivity. Defined.

(** X14: the label of a choice rule is the fallback arrow exactly when the
    rule has no [Variable] (or an empty one) or none of the eight comparisons
    [getChoiceLabel] knows: a rule with a variable and a comparison is never
    labelled with the bare arrow. *)
Theorem getChoiceLabel_fallback c :
  getChoiceLabel c = arrowLabel
  ↔ truthy (Variable_ c) = None ∨ noComparison c.
Proof.
  assert (Hne : ∀ a b, a +:+ String space b ≠ arrowLabel).
  { intros a b Heq. apply (f_equal (lacks space)) in Heq.
    rewrite lacks_app in Heq. simpl in Heq.
    rewrite andb_false_r in Heq. discriminate Heq. }
  unfold getChoiceLabel, noComparison. split.
  - destruct (truthy (Variable_ c)) as [v|]; [|by left].
    intros Hlabel. right.
    destruct (StringEquals c);
      [by destruct (Hne (lastSegment v) ("= " +:+ quote +:+ s +:+ quote))|].
    destruct (BooleanEquals c);
      [by destruct (Hne (lastSegment v) ("= " +:+ boolString b))|].
    destruct (NumericEquals c) as [n|];
      [by destruct (Hne (lastSegment v) ("= " +:+ numberText n))|].
    destruct (NumericGreaterThan c) as [n|];
      [by destruct (Hne (lastSegment v) ("> " +:+ numberText n))|].
    destruct (NumericLessThan c) as [n|];
      [by destruct (Hne (lastSegment v) ("< " +:+ numberText n))|].
    destruct (NumericGreaterThanEquals c) as [n|];
      [by destruct (Hne (lastSegment v) (">= " +:+ numberText n))|].
    destruct (NumericLessThanEquals c) as [n|];
      [by destruct (Hne (lastSegment v) ("<= " +:+ numberText n))|].
    destruct (IsPresent c) as [[|]|];
      [by destruct (Hne (lastSegment v) "exists")
      |by destruct (Hne (lastSegment v) "!exists") |].
    done.
  - intros [->|(-> & -> & -> & -> & -> & -> & -> & ->)]; [done|].
    by destruct (truthy (Variable_ c)).
Qed.


(** * Only the states the traversal can reach are drawn *)

Section DrawnInvariant.

Variable states : gmap string stateObj.
Variable startAt : string.

Local Abbreviation step := (step states startAt).
Local Abbreviation steps := (steps states startAt).
Local Abbreviation invDrawn := (invDrawn states startAt).

Lemma invDrawn_initial : invDrawn ([], initialLayout startAt).
Proof.
  split; simpl.
  - intros s Hin. set_solver.
  - by intros fr ?%elem_of_nil.
Qed.

Lemma invDrawn_step c c' : invDrawn c → step c c' → invDrawn c'.
Proof.
  intros [HD HF] Hstep. destruct Hstep; simpl in *; try (by split).
  - (* visit *)
    split; simpl.
    + intros s [->%elem_of_singleton|Hin]%elem_of_union; [|by apply HD].
      destruct stk as [|fr stk]; simpl in *.
      * subst. by constructor.
      * destruct H1 as (st' & Hst' & Hin).
        eapply drawn_successor; eauto. apply HD, HF. by left.
    + intros fr [->|Hin]%elem_of_cons; simpl; [set_solver|].
      apply elem_of_union. right. by apply HF.
  - (* return *)
    split; [done|]. intros fr' Hin. apply HF. by right.
  - (* choice edge *)
    split; [done|]. intros fr' [->|Hin]%elem_of_cons;
      [apply (HF fr); by left | apply HF; by right].
  - (* default edge *)
    split; [done|]. intros fr' [->|Hin]%elem_of_cons;
      [apply (HF fr); by left | apply HF; by right].
  - (* catch fail *)
    split; simpl.
    + intros s [->%elem_of_singleton|Hin]%elem_of_union; [|by apply HD].
      eapply (drawn_caught _ _ (f_name fr) st); eauto.
      * apply HD, HF. by left.
      * unfold catchTargets.
        repeat match goal with
               | H : dispatch _ = _ |- _ => rewrite H
               | H : Catch _ = _ |- _ => rewrite H
               end.
        apply list_elem_of_omap. exists cb.
        split; [by eapply list_elem_of_lookup_2 | done].
      * unfold targetIsFail.
        by repeat match goal with
                  | H : states !! _ = _ |- _ => rewrite H
                  end.
    + intros fr' Hin. apply elem_of_union. right. by apply HF.
Qed.

Lemma invDrawn_steps c c' : invDrawn c → steps c c' → invDrawn c'.
Proof. intros HO Hs. eapply inv_steps; eauto. apply invDrawn_step. Qed.

End DrawnInvariant.

(** X15: no node for a state the traversal cannot reach.  The id of every
    state node of a returned graph is the start state, or is reached from it
    through the transitions [processState] follows ([Next], choice rules and
    default), or is a Fail state named by a catch rule of such a state; the
    names are those that [states[name]] finds, keys of [States] and
    properties that every object inherits. *)
Theorem drawn_states_reachable JSON_parse fuel input m g s :
  definitionOf JSON_parse input = Some m →
  parseStateMachine JSON_parse fuel input = Returns g →
  s ∈ stateNodeIds (g_nodes g) →
  ∃ startAt, truthy (StartAt m) = Some startAt
    ∧ drawnFrom (statesOf m) startAt s.
Proof.
  intros Hm Hrun Hs.
  destruct (parseStateMachine_settled _ _ _ _ _ Hm Hrun)
    as [[-> _]|(startAt & σ & Hstart & -> & HF & _ & _ & Hsteps & _)];
    [by apply elem_of_nil in Hs|].
  exists startAt. split; [done|].
  apply (final_processed _ _ _ HF) in Hs.
  pose proof (invDrawn_steps _ _ _ _ (invDrawn_initial _ _) Hsteps) as [HD _].
  by apply HD.
Qed.

(** X15 on the Fail state a Task catches to. *)
Lemma drawn_states_reachable_witness :
  ∃ g startAt, parseStateMachine rejectAll 2 (InObject catching) = Returns g
    ∧ truthy (StartAt catching) = Some startAt
    ∧ drawnFrom (statesOf catching) startAt "F".
Proof.
  pose (g := match parseStateMachine rejectAll 2 (InObject catching) with
             | Returns g => g
             | _ => emptyGraph
             end).
  destruct (drawn_states_reachable rejectAll 2 (InObject catching) catching g
              "F") as (startAt & Hs & Hd).
  - reflexivity.
  - vm_compute; reflexivity.
  - apply list_elem_of_In. vm_compute. auto.
  - exists g, startAt. split; [vm_compute; reflexivity|]. by split.
Defined.


(** * A branch chain that comes back on itself *)

Lemma chainNth_add bs : ∀ k s t j,
  chainNth bs s k = Some t → chainNth bs s (k + j) = chainNth bs t j.
Proof.
  induction k as [|k IH]; intros s t j Hk.
  - by apply chainNth_0 in Hk as [-> _].
  - simpl in *. destruct (bs !! s) as [st|]; [|done].
    destruct (truthy (Next st)) as [n|]; [|done]. by apply IH.
Qed.

Lemma chainNth_prefix bs : ∀ k s j,
  is_Some (chainNth bs s (k + j)) → is_Some (chainNth bs s k).
Proof.
  induction k as [|k IH]; intros s j Hk; simpl in *.
  - destruct (bs !! s) as [st|] eqn:Hs; [eauto|].
    rewrite chainNth_None in Hk by done. by destruct Hk.
  - destruct (bs !! s) as [st|]; [|by destruct Hk].
    destruct (truthy (Next st)) as [n|]; [|by destruct Hk]. by eapply IH.
Qed.

(** A chain that visits a state twice never ends. *)
Lemma chainNth_cycle bs b k1 k2 t :
  chainNth bs b k1 = Some t → chainNth bs b k2 = Some t → (k1 < k2)%nat →
  ∀ k, is_Some (chainNth bs b k).
Proof.
  intros H1 H2 Hlt.
  assert (Hd : chainNth bs t (k2 - k1) = Some t).
  { rewrite <- (chainNth_add _ _ _ _ _ H1).
    by replace (k1 + (k2 - k1))%nat with k2 by lia. }
  assert (Hall : ∀ j, is_Some (chainNth bs t j)).
  { intros j. induction (lt_wf j) as [j _ IH].
    destruct (decide (j < k2 - k1)%nat) as [Hj|Hj].
    - apply (chainNth_prefix _ _ _ (k2 - k1 - j)).
      replace (j + (k2 - k1 - j))%nat with (k2 - k1)%nat by lia. eauto.
    - replace j with ((k2 - k1) + (j - (k2 - k1)))%nat by lia.
      rewrite (chainNth_add _ _ _ _ _ Hd). apply IH. lia. }
  intros k. destruct (decide (k ≤ k1)%nat) as [Hk|Hk].
  - apply (chainNth_prefix _ _ _ (k1 - k)).
    replace (k + (k1 - k))%nat with k1 by lia. eauto.
  - replace k with (k1 + (k - k1))%nat by lia.
    rewrite (chainNth_add _ _ _ _ _ H1). apply Hall.
Qed.

(** Finitely many nodes cannot hold one node on each of infinitely many
    rows. *)
Lemma rows_bounded (ns : list Node.t) (y0 : Z) :
  (∀ k : nat, ∃ n, n ∈ ns
     ∧ pos_y (Node.position n) = y0 + VERTICAL_SPACING * Z.of_nat k) →
  False.
Proof.
  intros Hall.
  pose (ys := (λ k : nat, y0 + VERTICAL_SPACING * Z.of_nat k)
                <$> seq 0 (S (length ns))).
  assert (Hnd : NoDup ys).
  { apply NoDup_fmap_2; [|apply NoDup_seq].
    intros k1 k2 Heq. unfold VERTICAL_SPACING in Heq. lia. }
  assert (Hsub : ∀ y, y ∈ ys → y ∈ (λ n, pos_y (Node.position n)) <$> ns).
  { intros y (k & -> & _)%list_elem_of_fmap.
    destruct (Hall k) as (n & Hn & Hy). apply list_elem_of_fmap. eauto. }
  apply NoDup_submseteq in Hsub; [|done].
  apply submseteq_length in Hsub. unfold ys in Hsub.
  rewrite !length_fmap, length_seq in Hsub. lia.
Qed.

(** X16: a loop in a branch makes the layout hang.  When a Parallel state
    that is reachable from the start state has a branch whose [Next] chain
    comes back to a state it has already visited, [parseStateMachine] does not
    return, whatever the fuel: the branch loop has no visited set. *)
Theorem cyclic_branch_diverges JSON_parse fuel input m startAt p st brs
    index br b k1 k2 t :
  definitionOf JSON_parse input = Some m →
  truthy (StartAt m) = Some startAt →
  reachable (statesOf m) startAt p →
  statesOf m !! p = Some st → dispatch st = KParallel brs →
  brs !! index = Some br → truthy (StartAt br) = Some b →
  chainNth (statesOf br) b k1 = Some t →
  chainNth (statesOf br) b k2 = Some t →
  (k1 < k2)%nat →
  parseStateMachine JSON_parse fuel input = Diverges.
Proof.
  intros Hm Hstart Hreach Hst Hkind Hbr Hb H1 H2 Hlt.
  destruct (parseStateMachine JSON_parse fuel input) as [g| |] eqn:Hrun;
    [exfalso | exfalso | done].
  2:{ unfold definitionOf, parseStateMachine in *.
      destruct (decode JSON_parse input) as [[|m'|]|]; try discriminate.
      unfold layoutMachine in Hrun.
      destruct (truthy (StartAt m')); [|done].
      case_bool_decide; [done|].
      by destruct (processState _ _ _ _ _ _) as [[? ?]|]. }
  destruct (parseStateMachine_settled _ _ _ _ _ Hm Hrun)
    as [[_ [?|Hsize]]|(startAt' & σ & Hstart' & -> & HF & Hset & _)].
  - congruence.
  - apply (statesOf_parallel m p st brs) in Hst; [|done].
    by apply ownStates_size in Hst.
  - replace startAt' with startAt in * by congruence.
    pose proof (final_reachable _ _ _ HF p Hreach) as Hp.
    apply (final_processed _ _ _ HF), elem_of_stateNodeIds in Hp
      as (n & Hn & Hs & Hid).
    subst p.
    assert (Hfail : isFail st = false).
    { apply dispatch_not_fail. by rewrite Hkind. }
    destruct (stateNode_completed _ _ _ _ _ HF Hset Hn Hs Hst Hfail)
      as (x & y & Hnode & Hc).
    destruct (completed_inv _ _ _ _ _ _ Hc Hst)
      as (fuel' & σ0 & r & σ1 & Hbody & Hg).
    rewrite Hkind in Hbody.
    apply (rows_bounded (nodes σ1) (y + VERTICAL_SPACING)).
    intros k.
    destruct (chainNth_cycle _ _ _ _ _ H1 H2 Hlt k) as [tk Hk].
    eapply processParallel_placed in Hbody as (tst & _ & Hin & _); eauto.
Qed.

(** X16 on the branch [A → B → A] of a Parallel start state. *)
Lemma cyclic_branch_diverges_witness :
  parseStateMachine rejectAll 5 (InObject branchCycle) = Diverges.
Proof.
  apply (cyclic_branch_diverges rejectAll 5 (InObject branchCycle) branchCycle
           "P" "P"
           (mkState (Some "Parallel") None true None None None
              (Some [mkMachine (Some "A") (Some cycleStates)]))
           [mkMachine (Some "A") (Some cycleStates)] 0%nat
           (mkMachine (Some "A") (Some cycleStates)) "A" 0%nat 2%nat "A").
  - reflexivity.
  - reflexivity.
  - apply reachable_start. vm_compute. eauto.
  - reflexivity.
  - reflexivity.
  - reflexivity.
  - reflexivity.
  - reflexivity.
  - reflexivity.
  - lia.
Defined.


(** * The endpoint and the connection status *)

Lemma orElse_ne message fallback :
  fallback ≠ EmptyString → orElse message fallback ≠ EmptyString.
Proof.
  intros Hne. unfold orElse, truthy.
  destruct message as [s|]; [|done].
  by destruct (decide (s = EmptyString)).
Qed.

(** X17: an endpoint saved with [updateEndpoint] is the current endpoint at
    once, whatever was stored before, and is the endpoint of the provider the
    next time it is mounted, unless it is empty: an empty endpoint comes back
    as the default [http://localhost:8083]. *)
Theorem endpoint_round_trip newEndpoint p localStorage :
  endpoint (updateEndpoint newEndpoint (p, localStorage)).1 = newEndpoint
  ∧ endpoint (EndpointProvider (updateEndpoint newEndpoint (p, localStorage)).2)
    = (if decide (newEndpoint = EmptyString) then DEFAULT_ENDPOINT
       else newEndpoint).
Proof.
  split; [done|]. unfold EndpointProvider, updateEndpoint. simpl.
  rewrite lookup_insert_eq. unfold truthy. by case_decide.
Qed.

(** An event that is not the settling of a run of [checkConnection]. *)
Lemma unsettled_checking nullMessage es : ∀ a,
  Forall (λ e, ∀ r, e ≠ Checked r) es →
  isChecking (provider a) = true → lastError (provider a) = None →
  isChecking (provider (foldl (handle nullMessage) a es)) = true
  ∧ lastError (provider (foldl (handle nullMessage) a es)) = None.
Proof.
  induction es as [|e es IH]; intros a Hes Hc Hl; [done|].
  apply Forall_cons in Hes as [He Hes]. simpl. apply IH; [done| |].
  - destruct e as [|value| | | |r]; simpl; try done;
      try (by destruct (isEditing _)).
    by destruct (He r).
  - destruct e as [|value| | | |r]; simpl; try done;
      try (by destruct (isEditing _)).
    by destruct (He r).
Qed.

(** X18: the connection status around the runs of [checkConnection], which
    may overlap.  From the start of a run until the next time a run settles
    (that run or another one), whatever else happens, ConnectionStatus shows
    "Checking..." and no error box.  Whenever a run settles, in whatever
    state, also while another run is under way, the provider is no longer
    checking and its endpoint is unchanged; it is connected exactly when
    the response of that run was [ok]; and ConnectionStatus then shows
    "Connected" without an error box, or "Disconnected" with one: a failed
    check always leaves an error message to show. *)
Theorem check_settles nullMessage a es r :
  Forall (λ e, ∀ r', e ≠ Checked r') es →
  let started := foldl (handle nullMessage) (handle nullMessage a CheckStarted) es in
  let settled := provider (handle nullMessage a (Checked r)) in
  getStatusText (provider started) = "Checking..."
  ∧ showsError (provider started) = false
  ∧ isChecking settled = false ∧ endpoint settled = endpoint (provider a)
  ∧ (isConnected settled = true ↔ r = FetchOk)
  ∧ showsError settled = negb (isConnected settled)
  ∧ getStatusText settled
    = (if isConnected settled then "Connected" else "Disconnected")
  ∧ getStatusClass settled
    = (if isConnected settled then "status-connected" else "status-disconnected").
Proof.
  intros Hes.
  destruct (unsettled_checking nullMessage es (handle nullMessage a CheckStarted)
              Hes eq_refl eq_refl) as [Hc Hl].
  cbv zeta. unfold showsError at 1, getStatusText at 1. rewrite Hc, Hl.
  split; [done|]. split; [done|].
  clear Hes Hc Hl. simpl. generalize (provider a) as p. intros p.
  unfold showsError, getStatusText, getStatusClass.
  destruct r as [message| |[message| |message|]]; simpl;
    repeat case_decide;
    try (exfalso; eapply orElse_ne; [|eassumption]; discriminate);
    split_and!; try done; split; discriminate.
Qed.

(** X18 on two runs that overlap, the application just mounted: the second
    run starts, the user opens the editor and types, and the first run
    settles with a rejected request. *)
Lemma check_settles_witness :
  let started := foldl (handle None) (handle None (mount ∅) CheckStarted)
                   [CheckStarted; ClickEdit; Change "x"] in
  let settled := provider (handle None started (Checked (FetchRejected None))) in
  getStatusText (provider started) = "Checking..."
  ∧ showsError (provider started) = false
  ∧ getStatusText settled = "Disconnected"
  ∧ showsError settled = true.
Proof.
  destruct (check_settles None (mount ∅) [CheckStarted; ClickEdit; Change "x"]
              (FetchRejected None)) as (Htext & Herr & _).
  - repeat constructor; discriminate.
  - cbv zeta. split_and!; [exact Htext | exact Herr | reflexivity | reflexivity].
Defined.


(** * Where the node of a state is put *)

Lemma placed_mono states startAt ns ns' n :
  ns ⊆ ns' → placed states startAt ns n → placed states startAt ns' n.
Proof.
  intros Hsub [H|[(s & st & x & y & t & tst & x' & y' & Hs & Hin & H)
                 |(s & st & x & y & t & tst & Hs & Hin & H)]].
  - by left.
  - right; left. exists s, st, x, y, t, tst, x', y'. split; [done|].
    split; [by apply Hsub | done].
  - right; right. exists s, st, x, y, t, tst. split; [done|].
    split; [by apply Hsub | done].
Qed.

Lemma allPlaced_push states startAt ns n :
  allPlaced states startAt ns →
  (isStateNode n = true → placed states startAt ns n) →
  allPlaced states startAt (ns ++ [n]).
Proof.
  intros Hall Hn i n' Hi Hs.
  destruct (decide (i < length ns)%nat) as [Hlt|Hge].
  - rewrite lookup_app_l in Hi by done.
    rewrite take_app_le by lia. by apply Hall.
  - rewrite lookup_app_r in Hi by lia.
    destruct (i - length ns)%nat as [|k] eqn:Hk; [|done].
    simpl in Hi. injection Hi as <-.
    assert (i = length ns) as -> by lia.
    rewrite take_app_length. by apply Hn.
Qed.

Lemma catchTargets_rule st rules index cb next :
  dispatch st = KRegular → Catch st = Some rules →
  rules !! index = Some cb → truthy (cbNext cb) = Some next →
  next ∈ catchTargets st.
Proof.
  intros Hkind Hrules Hcb Hnext. unfold catchTargets.
  rewrite Hkind, Hrules. apply list_elem_of_omap.
  exists cb. split; [by eapply list_elem_of_lookup_2 | done].
Qed.

(** Called at top level or from a call site, [processState] puts every node
    of a state where [placed] says. *)
Lemma processState_placed states startAt fuel : ∀ name x y,
  hoare
    (λ σ, allPlaced states startAt (nodes σ)
          ∧ calledFrom states startAt name x y σ)
    (processState states fuel name x y)
    (λ r σ', allPlaced states startAt (nodes σ') ∧ y ≤ r).
Proof.
  induction fuel as [|fuel IH]; intros name x y σ r σ' [HP Hcall] Hrun.
  { simpl in Hrun. minv. }
  simpl in Hrun. unfold processState_body in Hrun.
  minv. case_bool_decide as Hseen; [minv; split; [done|lia]|].
  destruct (states !! name) as [st|] eqn:Hst; [|minv; split; [done|lia]].
  minv.
  apply (pass_dispatch states
           (λ τ, allPlaced states startAt (nodes τ)
                 ∧ mainNode name x y st ∈ nodes τ))
    with (Call := calledFrom states startAt) in Hrun as [[HP' _] Hle].
  - split; [done|]. unfold VERTICAL_SPACING in Hle. lia.
  - intros n τ Hn [H1 H2]. simpl. split.
    + apply allPlaced_push; [done|]. by rewrite Hn.
    + apply elem_of_app. by left.
  - by intros e τ.
  - by intros k v τ.
  - intros rules index cb next t τ Hkind Hrules Hcb Hnext Ht Hf _ [H1 H2].
    simpl. split.
    + apply allPlaced_push; [done|]. intros _. right; right.
      exists name, st, x, y, next, t. split_and!; try done.
      by eapply catchTargets_rule.
    + apply elem_of_app. by left.
  - intros t x' y' τ Hsite [H1 H2]. right. by exists name, st, x, y.
  - intros next x' y' τ r1 τ' [[H1 H2] H3] Hrec.
    pose proof Hrec as Hg. apply processState_grows in Hg as [Hg _].
    apply IH in Hrec as [? ?]; [|done].
    split; [|done]. split; [done | by eapply grows_nodes].
  - simpl. split.
    + apply allPlaced_push; [done|]. intros _.
      destruct Hcall as [(-> & -> & ->)|(s & st' & xs & ys & Hs & Hin & Hsite)].
      * left. by exists st.
      * right; left. by exists s, st', xs, ys, name, st, x, y.
    + apply elem_of_app. right. by apply list_elem_of_singleton.
Qed.

(** X19: every node of a state in the returned graph is where one call put
    it.  It is the node of the start state, at [(0, VERTICAL_SPACING)], one
    row under the entry marker; or the node of a Fail state, in the row of a
    state that catches to it and one column ([HORIZONTAL_SPACING]) to its
    right; or it was laid out by a call made from a state [s] whose node, at
    [(x, y)], comes before it in the list: at [(x, y + VERTICAL_SPACING)] for
    the [Next] of a regular state, at
    [(choiceColumn x st cs index, y + VERTICAL_SPACING)] for the target of a
    Choice rule (at the first rule that names it; the default is the column
    after the last rule), and at [(x, ny)] for the [Next] of a Parallel
    state, [ny] being the row under its longest branch. *)
Theorem state_nodes_placed JSON_parse fuel input m g startAt i n :
  definitionOf JSON_parse input = Some m →
  parseStateMachine JSON_parse fuel input = Returns g →
  truthy (StartAt m) = Some startAt →
  g_nodes g !! i = Some n → isStateNode n = true →
  placed (statesOf m) startAt (take i (g_nodes g)) n.
Proof.
  intros Hm Hrun Hstart Hi Hs.
  destruct (parseStateMachine_settled _ _ _ _ _ Hm Hrun)
    as [[-> _]|(startAt' & σ & Hstart' & -> & _ & _ & _ & _ & r & Hcall)];
    [done|].
  rewrite Hstart in Hstart'. injection Hstart' as <-. simpl in *.
  apply (processState_placed (statesOf m) startAt) in Hcall as [HP _].
  - by apply HP.
  - split; [|by left].
    intros [|j] n' Hj Hs'; [|done]. simpl in Hj. by injection Hj as <-.
Qed.

(** X19 on a Parallel state at [(0, 100)] with two branches of two states:
    its successor is put by the call made after the branches, in the column
    of the Parallel state and on the row [400]. *)
Lemma state_nodes_placed_witness :
  ∃ g, parseStateMachine rejectAll 2 (InObject rejoinExample) = Returns g
    ∧ g_nodes g !! 6%nat = Some (mainNode "S" 0 400 (task None true))
    ∧ placed (statesOf rejoinExample) "P" (take 6 (g_nodes g))
        (mainNode "S" 0 400 (task None true)).
Proof.
  pose (g := match parseStateMachine rejectAll 2 (InObject rejoinExample) with
             | Returns g => g
             | _ => emptyGraph
             end).
  exists g. split; [vm_compute; reflexivity|].
  split; [vm_compute; reflexivity|].
  apply (state_nodes_placed rejectAll 2 (InObject rejoinExample) rejoinExample
           g "P" 6 (mainNode "S" 0 400 (task None true))).
  - reflexivity.
  - vm_compute; reflexivity.
  - reflexivity.
  - vm_compute; reflexivity.
  - reflexivity.
Defined.

(** ** States with one referrer *)

Lemma parseStateMachine_placed JSON_parse fuel input m g n :
  definitionOf JSON_parse input = Some m →
  parseStateMachine JSON_parse fuel input = Returns g →
  n ∈ g_nodes g → isStateNode n = true →
  ∃ startAt σ,
    truthy (StartAt m) = Some startAt ∧ g = mkGraph (nodes σ) (edges σ) ∧
    finalFacts (statesOf m) startAt σ ∧
    placed (statesOf m) startAt (nodes σ) n.
Proof.
  intros Hm Hrun Hn Hs.
  destruct (parseStateMachine_settled _ _ _ _ _ Hm Hrun)
    as [[-> _]|(startAt & σ & Hstart & -> & HF & _ & _ & _ & r & Hcall)];
    [by apply elem_of_nil in Hn|].
  exists startAt, σ. split_and!; [done | done | done |]. simpl in Hn.
  apply (processState_placed (statesOf m) startAt) in Hcall as [HP _].
  - apply list_elem_of_lookup_1 in Hn as [i Hi].
    eapply placed_mono; [|by apply (HP i)]. apply subseteq_take.
  - split; [|by left].
    intros [|j] n' Hj Hs'; [|done]. simpl in Hj. by injection Hj as <-.
Qed.

Lemma callSite_successors st x y t x' y' :
  callSite st x y t x' y' → t ∈ successors st.
Proof.
  unfold successors. intros [t' Hk Hn|cs i c t' Hk Hc Hn _|cs t' Hk Hd _
                            |brs t' ny Hk Hn _]; rewrite Hk.
  - rewrite Hn. by apply list_elem_of_singleton.
  - apply elem_of_app. left. apply list_elem_of_omap. exists c.
    split; [by eapply list_elem_of_lookup_2 | done].
  - apply elem_of_app. right. rewrite Hd. by apply list_elem_of_singleton.
  - rewrite Hn. by apply list_elem_of_singleton.
Qed.

Lemma elem_of_referrers states t s :
  s ∈ referrers states t ↔ ∃ st, states !! s = Some st ∧ t ∈ successors st.
Proof.
  unfold referrers. rewrite list_elem_of_fmap. split.
  - intros ([s' st] & -> & Hin). simpl.
    apply elem_of_map_to_list, map_lookup_filter_Some in Hin as [? ?]. eauto.
  - intros (st & Hs & Ht). exists (s, st). split; [done|].
    apply elem_of_map_to_list, map_lookup_filter_Some. by split.
Qed.

Lemma elem_of_catchers states t s :
  s ∈ catchers states t ↔ ∃ st, states !! s = Some st ∧ t ∈ catchTargets st.
Proof.
  unfold catchers. rewrite list_elem_of_fmap. split.
  - intros ([s' st] & -> & Hin). simpl.
    apply elem_of_map_to_list, map_lookup_filter_Some in Hin as [? ?]. eauto.
  - intros (st & Hs & Ht). exists (s, st). split; [done|].
    apply elem_of_map_to_list, map_lookup_filter_Some. by split.
Qed.

(** A state with one referrer, which is not the start state and is not put
    beside a state that catches to it, is at a call site of its referrer. *)
Lemma sole_referrer_site JSON_parse fuel input m g s st t tst nS nT :
  definitionOf JSON_parse input = Some m →
  parseStateMachine JSON_parse fuel input = Returns g →
  statesOf m !! s = Some st → statesOf m !! t = Some tst →
  truthy (StartAt m) ≠ Some t →
  referrers (statesOf m) t = [s] →
  (isFail tst = true → catchers (statesOf m) t = []) →
  nS ∈ g_nodes g → isStateNode nS = true → Node.id nS = s →
  nT ∈ g_nodes g → isStateNode nT = true → Node.id nT = t →
  callSite st (pos_x (Node.position nS)) (pos_y (Node.position nS)) t
    (pos_x (Node.position nT)) (pos_y (Node.position nT)).
Proof.
  intros Hm Hrun Hs Ht Hstart Href Hcatch HnS HsS HidS HnT HsT HidT.
  destruct (parseStateMachine_placed _ _ _ _ _ _ Hm Hrun HnT HsT)
    as (startAt & σ & Hst & -> & HF & Hp).
  simpl in *.
  destruct Hp as [(st0 & _ & ->)
                 |[(s' & st' & x & y & t' & tst' & x' & y'
                    & Hs' & Hin & Ht' & Hsite & ->)
                  |(s' & st' & x & y & t' & tst' & Hs' & Hin & Hc & Ht' & Hf
                    & ->)]].
  - simpl in HidT. congruence.
  - simpl in HidT. subst t'.
    assert (s' = s) as ->.
    { apply list_elem_of_singleton. rewrite <- Href.
      apply elem_of_referrers. exists st'. split; [done|].
      by eapply callSite_successors. }
    assert (st' = st) as -> by congruence.
    assert (nS = mainNode s x y st) as ->; [|done].
    eapply stateNode_unique; eauto.
    apply (in_nodup _ _ (ff_nodes _ _ _ HF)).
  - simpl in HidT. subst t'.
    assert (tst' = tst) as -> by congruence.
    assert (Hin' : s' ∈ catchers (statesOf m) t).
    { apply elem_of_catchers. eauto. }
    rewrite (Hcatch Hf) in Hin'. by apply elem_of_nil in Hin'.
Qed.

Lemma choiceIndex_first cs : ∀ index c t,
  cs !! index = Some c → truthy (chNext c) = Some t →
  (∀ j c', (j < index)%nat → cs !! j = Some c' →
     truthy (chNext c') ≠ Some t) →
  choiceIndex cs t = index.
Proof.
  induction cs as [|c0 cs IH]; intros index c t Hc Ht Hfirst; [done|].
  simpl. destruct index as [|index].
  - simpl in Hc. injection Hc as ->. by rewrite bool_decide_eq_true_2.
  - rewrite bool_decide_eq_false_2.
    + f_equal. apply (IH index c t); [done | done |].
      intros j c' Hj Hc'. apply (Hfirst (S j)); [lia | done].
    + apply (Hfirst 0%nat); [lia | done].
Qed.

Lemma choiceIndex_none cs t :
  (∀ j c', cs !! j = Some c' → truthy (chNext c') ≠ Some t) →
  choiceIndex cs t = length cs.
Proof.
  induction cs as [|c0 cs IH]; intros Hnone; [done|].
  simpl. rewrite bool_decide_eq_false_2 by (by apply (Hnone 0%nat)).
  f_equal. apply IH. intros j c'. apply (Hnone (S j)).
Qed.

(** X20: the layout runs downwards.  The state [t] named by the [Next] of a
    state [s] laid out by the regular path, when no other state leads to [t]
    (as [Next], target of a Choice rule or default), [t] is not the start
    state and, if it is a Fail state, no state catches to it, has its node in
    the column of the node of [s], one row ([VERTICAL_SPACING]) below it. *)
Theorem next_state_below JSON_parse fuel input m g s st t tst nS nT :
  definitionOf JSON_parse input = Some m →
  parseStateMachine JSON_parse fuel input = Returns g →
  statesOf m !! s = Some st → dispatch st = KRegular →
  statesOf m !! t = Some tst →
  truthy (StartAt m) ≠ Some t →
  referrers (statesOf m) t = [s] →
  (isFail tst = true → catchers (statesOf m) t = []) →
  nS ∈ g_nodes g → isStateNode nS = true → Node.id nS = s →
  nT ∈ g_nodes g → isStateNode nT = true → Node.id nT = t →
  Node.position nT
    = mkPos (pos_x (Node.position nS))
        (pos_y (Node.position nS) + VERTICAL_SPACING).
Proof.
  intros Hm Hrun Hs Hkind Ht Hstart Href Hcatch HnS HsS HidS HnT HsT HidT.
  pose proof (sole_referrer_site _ _ _ _ _ _ _ _ _ _ _ Hm Hrun Hs Ht Hstart
                Href Hcatch HnS HsS HidS HnT HsT HidT) as Hsite.
  destruct (Node.position nT) as [x' y']. simpl in Hsite.
  inversion Hsite; subst; congruence.
Qed.

(** X20 on two states that name each other: the second is one row under
    the first. *)
Lemma next_state_below_witness :
  ∃ g, parseStateMachine rejectAll 3 (InObject mainCycle) = Returns g
    ∧ mainNode "B" 0 200 (task (Some "A") false) ∈ g_nodes g
    ∧ Node.position (mainNode "B" 0 200 (task (Some "A") false))
      = mkPos (pos_x (Node.position (mainNode "A" 0 100 (task (Some "B") false))))
          (pos_y (Node.position (mainNode "A" 0 100 (task (Some "B") false)))
           + VERTICAL_SPACING).
Proof.
  pose (g := match parseStateMachine rejectAll 3 (InObject mainCycle) with
             | Returns g => g
             | _ => emptyGraph
             end).
  assert (HB : mainNode "B" 0 200 (task (Some "A") false) ∈ g_nodes g).
  { apply list_elem_of_In. vm_compute. auto. }
  exists g. split; [vm_compute; reflexivity|]. split; [exact HB|].
  apply (next_state_below rejectAll 3 (InObject mainCycle) mainCycle g
           "A" (task (Some "B") false) "B" (task (Some "A") false)
           (mainNode "A" 0 100 (task (Some "B") false))
           (mainNode "B" 0 200 (task (Some "A") false))).
  - reflexivity.
  - vm_compute; reflexivity.
  - reflexivity.
  - reflexivity.
  - reflexivity.
  - discriminate.
  - vm_compute; reflexivity.
  - discriminate.
  - apply list_elem_of_In. vm_compute. auto.
  - reflexivity.
  - reflexivity.
  - exact HB.
  - reflexivity.
  - reflexivity.
Defined.

(** X21: the targets of a Choice state fan out under it.  A state [t] to
    which only the Choice state [s] leads (and which is not the start state
    nor, if a Fail state, caught to) has its node one row below the node of
    [s], in the column of the first rule that names it, the default taking
    the column after the last rule: the columns are [HORIZONTAL_SPACING]
    apart, and centred under [s]. *)
Theorem choice_target_column JSON_parse fuel input m g s st cs t tst nS nT :
  definitionOf JSON_parse input = Some m →
  parseStateMachine JSON_parse fuel input = Returns g →
  statesOf m !! s = Some st → dispatch st = KChoice cs →
  statesOf m !! t = Some tst →
  truthy (StartAt m) ≠ Some t →
  referrers (statesOf m) t = [s] →
  (isFail tst = true → catchers (statesOf m) t = []) →
  nS ∈ g_nodes g → isStateNode nS = true → Node.id nS = s →
  nT ∈ g_nodes g → isStateNode nT = true → Node.id nT = t →
  Node.position nT
    = mkPos (choiceColumn (pos_x (Node.position nS)) st cs (choiceIndex cs t))
        (pos_y (Node.position nS) + VERTICAL_SPACING).
Proof.
  intros Hm Hrun Hs Hkind Ht Hstart Href Hcatch HnS HsS HidS HnT HsT HidT.
  pose proof (sole_referrer_site _ _ _ _ _ _ _ _ _ _ _ Hm Hrun Hs Ht Hstart
                Href Hcatch HnS HsS HidS HnT HsT HidT) as Hsite.
  destruct (Node.position nT) as [x' y']. simpl in Hsite.
  inversion Hsite as [t' Hk|cs' index c t' Hk Hc Hn Hfirst|cs' t' Hk Hd Hnone
                     |brs t' ny Hk]; subst; try congruence.
  - assert (cs' = cs) as -> by congruence.
    by rewrite (choiceIndex_first _ _ _ _ Hc Hn Hfirst).
  - assert (cs' = cs) as -> by congruence.
    by rewrite (choiceIndex_none _ _ Hnone).
Qed.

(** X21 on a Choice state at [(0, 100)] with two rules and a default: the
    default, a Fail state, is in the third column, [240]. *)
Lemma choice_target_column_witness :
  ∃ g nC nZ,
    parseStateMachine rejectAll 2 (InObject choiceFan) = Returns g
    ∧ nC ∈ g_nodes g ∧ Node.id nC = "C" ∧ Node.position nC = mkPos 0 100
    ∧ nZ ∈ g_nodes g ∧ Node.id nZ = "Z"
    ∧ choiceColumn 0 (mkState (Some "Choice") None false None
                        (Some [rule "X"; rule "Y"]) (Some "Z") None)
        [rule "X"; rule "Y"] (choiceIndex [rule "X"; rule "Y"] "Z") = 240
    ∧ Node.position nZ
      = mkPos
          (choiceColumn (pos_x (Node.position nC))
             (mkState (Some "Choice") None false None
                (Some [rule "X"; rule "Y"]) (Some "Z") None)
             [rule "X"; rule "Y"] (choiceIndex [rule "X"; rule "Y"] "Z"))
          (pos_y (Node.position nC) + VERTICAL_SPACING).
Proof.
  pose (stC := mkState (Some "Choice") None false None
                 (Some [rule "X"; rule "Y"]) (Some "Z") None).
  pose (stZ := mkState (Some "Fail") None false None None None None).
  pose (g := match parseStateMachine rejectAll 2 (InObject choiceFan) with
             | Returns g => g
             | _ => emptyGraph
             end).
  assert (HC : mainNode "C" 0 100 stC ∈ g_nodes g).
  { apply list_elem_of_In. vm_compute. auto. }
  assert (HZ : mainNode "Z" 240 200 stZ ∈ g_nodes g).
  { apply list_elem_of_In. vm_compute. auto 10. }
  exists g, (mainNode "C" 0 100 stC), (mainNode "Z" 240 200 stZ).
  split; [vm_compute; reflexivity|].
  split; [exact HC|]. split; [reflexivity|]. split; [reflexivity|].
  split; [exact HZ|]. split; [reflexivity|]. split; [reflexivity|].
  apply (choice_target_column rejectAll 2 (InObject choiceFan) choiceFan g
           "C" stC [rule "X"; rule "Y"] "Z" stZ
           (mainNode "C" 0 100 stC) (mainNode "Z" 240 200 stZ)).
  - reflexivity.
  - vm_compute; reflexivity.
  - reflexivity.
  - reflexivity.
  - reflexivity.
  - discriminate.
  - vm_compute; reflexivity.
  - intros _. vm_compute; reflexivity.
  - exact HC.
  - reflexivity.
  - reflexivity.
  - exact HZ.
  - reflexivity.
  - reflexivity.
Defined.

(** X22: the state after a Parallel state comes under its branches.  A
    state [t] to which only the Parallel state [s] leads (and which is not
    the start state nor, if a Fail state, caught to) has its node in the
    column of the node of [s], on the row under the last node of the longest
    branch: one row below [s] when no branch has a start state among its
    states. *)
Theorem parallel_next_below JSON_parse fuel input m g s st brs t tst nS nT :
  definitionOf JSON_parse input = Some m →
  parseStateMachine JSON_parse fuel input = Returns g →
  statesOf m !! s = Some st → dispatch st = KParallel brs →
  statesOf m !! t = Some tst →
  truthy (StartAt m) ≠ Some t →
  referrers (statesOf m) t = [s] →
  (isFail tst = true → catchers (statesOf m) t = []) →
  nS ∈ g_nodes g → isStateNode nS = true → Node.id nS = s →
  nT ∈ g_nodes g → isStateNode nT = true → Node.id nT = t →
  pos_x (Node.position nT) = pos_x (Node.position nS)
  ∧ belowBranches brs (pos_y (Node.position nS) + VERTICAL_SPACING)
      (pos_y (Node.position nT)).
Proof.
  intros Hm Hrun Hs Hkind Ht Hstart Href Hcatch HnS HsS HidS HnT HsT HidT.
  pose proof (sole_referrer_site _ _ _ _ _ _ _ _ _ _ _ Hm Hrun Hs Ht Hstart
                Href Hcatch HnS HsS HidS HnT HsT HidT) as Hsite.
  inversion Hsite as [t' Hk|cs' index c t' Hk|cs' t' Hk
                     |brs' t' ny Hk Hn Hbelow]; subst; try congruence.
  assert (brs' = brs) as -> by congruence. done.
Qed.

(** X22 on a Parallel state at [(0, 100)] with two branches of two states:
    its successor is in the column [0], on the row [400]. *)
Lemma parallel_next_below_witness :
  ∃ g nP nS brs,
    parseStateMachine rejectAll 2 (InObject rejoinExample) = Returns g
    ∧ nP ∈ g_nodes g ∧ Node.id nP = "P" ∧ Node.position nP = mkPos 0 100
    ∧ nS ∈ g_nodes g ∧ Node.id nS = "S" ∧ Node.position nS = mkPos 0 400
    ∧ pos_x (Node.position nS) = pos_x (Node.position nP)
    ∧ belowBranches brs (pos_y (Node.position nP) + VERTICAL_SPACING)
        (pos_y (Node.position nS)).
Proof.
  pose (brA := mkMachine (Some "a1")
                 (Some {[ "a1" := task (Some "a2") false;
                          "a2" := task None true ]})).
  pose (brB := mkMachine (Some "b1")
                 (Some {[ "b1" := task (Some "b2") false;
                          "b2" := task None true ]})).
  pose (stP := mkState (Some "Parallel") (Some "S") false None None None
                 (Some [brA; brB])).
  pose (g := match parseStateMachine rejectAll 2 (InObject rejoinExample) with
             | Returns g => g
             | _ => emptyGraph
             end).
  assert (HP : mainNode "P" 0 100 stP ∈ g_nodes g).
  { apply list_elem_of_In. vm_compute. auto. }
  assert (HS : mainNode "S" 0 400 (task None true) ∈ g_nodes g).
  { apply list_elem_of_In. vm_compute. auto 10. }
  exists g, (mainNode "P" 0 100 stP), (mainNode "S" 0 400 (task None true)),
    [brA; brB].
  split; [vm_compute; reflexivity|].
  split; [exact HP|]. split; [reflexivity|]. split; [reflexivity|].
  split; [exact HS|]. split; [reflexivity|]. split; [reflexivity|].
  apply (parallel_next_below rejectAll 2 (InObject rejoinExample)
           rejoinExample g "P" stP [brA; brB] "S" (task None true)
           (mainNode "P" 0 100 stP) (mainNode "S" 0 400 (task None true))).
  - reflexivity.
  - vm_compute; reflexivity.
  - reflexivity.
  - reflexivity.
  - reflexivity.
  - discriminate.
  - vm_compute; reflexivity.
  - discriminate.
  - exact HP.
  - reflexivity.
  - reflexivity.
  - exact HS.
  - reflexivity.
  - reflexivity.
Defined.


(** * The endpoint editor and the diagram page *)

Lemma truthy_nonempty (s : string) : s ≠ EmptyString → truthy (Some s) = Some s.
Proof. intros Hs. unfold truthy. simpl. by destruct s. Qed.

Lemma truthy_Some_nonempty (o : option string) s :
  truthy o = Some s → s ≠ EmptyString.
Proof.
  unfold truthy. destruct o as [s'|]; [|done]. simpl.
  destruct s'; [done|]. by intros [= <-].
Qed.

Lemma checkConnection_endpoint nullMessage r p :
  endpoint (checkConnection nullMessage r p) = endpoint p.
Proof. by destruct r as [?| |[?| |?|]]. Qed.

(** X23: whatever is done to the application after it is mounted (edit,
    type, save, cancel, connection checks), when the editor is closed the
    text it holds is the endpoint in use, so that opening it shows that
    endpoint; and the endpoint in use, unless it is the empty text, is the
    one a reload of the page would start with. *)
Theorem editor_keeps_endpoint nullMessage storage events :
  let a := foldl (handle nullMessage) (mount storage) events in
  (isEditing (widget a) = false → tempEndpoint (widget a) = endpoint (provider a))
  ∧ (endpoint (provider a) ≠ EmptyString →
     endpoint (EndpointProvider (localStorage a)) = endpoint (provider a)).
Proof.
  simpl.
  assert (Hinit :
    (isEditing (widget (mount storage)) = false →
     tempEndpoint (widget (mount storage)) = endpoint (provider (mount storage)))
    ∧ (endpoint (provider (mount storage)) ≠ EmptyString →
       endpoint (EndpointProvider (localStorage (mount storage)))
       = endpoint (provider (mount storage)))) by done.
  revert Hinit. generalize (mount storage) as a.
  induction events as [|e events IH]; intros a [H1 H2]; [done|].
  simpl. apply IH.
  destruct a as [p st [ed tmp]]. simpl in *.
  destruct e as [|value| | | |r]; simpl.
  - destruct ed; simpl; [done|]. by split.
  - destruct ed; simpl; [|done]. by split.
  - destruct ed; simpl; [|done]. split; [done|].
    intros Hne. unfold EndpointProvider. simpl.
    rewrite lookup_insert_eq. by rewrite truthy_nonempty.
  - destruct ed; simpl; [|done]. by split.
  - done.
  - rewrite checkConnection_endpoint. done.
Qed.

(** X24: what the diagram page shows for the definition it receives, by
    what [parseStateMachine] does on it.  The request for a state machine (a
    non-empty ARN) being answered with an object: when [parseStateMachine]
    returns a graph, [fetchStateMachine] ends, the page stops loading, keeps
    the object and shows the nodes and edges of that graph; this is an empty
    diagram without error when the definition is absent or is a text that is
    not JSON or decodes to a value that is not an object.  When it throws,
    which it does exactly when the definition decodes to [null],
    [fetchStateMachine] ends with the error of the failed read recorded and
    the nodes left as they were.  When it does not return,
    [fetchStateMachine] does not end either. *)
Theorem definition_shown JSON_parse nullMessage throwMessage fuel arn name
    definition d :
  arn ≠ EmptyString →
  let run := fetchStateMachine JSON_parse nullMessage throwMessage fuel arn
               (DescribeJson (DescribedObject name definition)) d in
  match parseStateMachine JSON_parse fuel definition with
  | Returns g =>
      ∃ d', run = Some d' ∧ Page.loading d' = false
        ∧ Page.stateMachine d' = DescribedObject name definition
        ∧ render d' = ViewDiagram name (g_nodes g) (g_edges g)
  | Throws =>
      ∃ d', run = Some d' ∧ Page.loading d' = false
        ∧ Page.stateMachine d' = DescribedObject name definition
        ∧ Page.error d' = throwMessage
        ∧ Page.nodes d' = Page.nodes d ∧ Page.edges d' = Page.edges d
  | Diverges => run = None
  end
  ∧ match decode JSON_parse definition with
    | Some (ParsedObject m) =>
        parseStateMachine JSON_parse fuel definition = layoutMachine fuel m
        ∧ layoutMachine fuel m ≠ Throws
    | Some ParsedNull => parseStateMachine JSON_parse fuel definition = Throws
    | Some ParsedOther | None =>
        parseStateMachine JSON_parse fuel definition = Returns emptyGraph
    end.
Proof.
  intros Harn. cbv zeta. unfold fetchStateMachine.
  rewrite bool_decide_eq_false_2 by done. split.
  - destruct (parseStateMachine JSON_parse fuel definition) as [g| |].
    + eexists. by split_and!.
    + eexists. by split_and!.
    + done.
  - unfold parseStateMachine.
    destruct (decode JSON_parse definition) as [[|m|]|]; try done.
    split; [done|]. unfold layoutMachine.
    destruct (truthy (StartAt m)); [|done].
    case_bool_decide; [done|].
    by destruct (processState _ _ _ _ _ _) as [[? ?]|].
Qed.

(** X24 on a definition text that is not JSON, received by the page as it
    is mounted: an empty diagram. *)
Lemma definition_shown_witness :
  ∃ d',
    fetchStateMachine rejectAll None None 0 "arn"
      (DescribeJson (DescribedObject (Some "M") (InString "{")))
      StateMachineDiagram = Some d'
    ∧ Page.loading d' = false
    ∧ render d' = ViewDiagram (Some "M") [] [].
Proof.
  destruct (definition_shown rejectAll None None 0 "arn" (Some "M")
              (InString "{") StateMachineDiagram) as [Hrun _].
  - discriminate.
  - cbv zeta in Hrun.
    change (parseStateMachine rejectAll 0 (InString "{"))
      with (Returns emptyGraph) in Hrun.
    destruct Hrun as (d' & Hd' & Hl & _ & Hr). exists d'. by split_and!.
Defined.

(** X25: a request that fails (the fetch rejects, the response is not ok,
    or its body is not JSON) stops the loading, records the message and
    leaves the state machine and the diagram as they were.  The error screen
    is rendered when the message is not empty; with an empty message the page
    renders what it held before. *)
Theorem failed_request_shown JSON_parse nullMessage throwMessage fuel arn r
    message d d' :
  arn ≠ EmptyString →
  r = DescribeRejected message ∨ r = DescribeInvalid message
  ∨ (r = DescribeNotOk ∧ message = Some "Failed to fetch state machine") →
  fetchStateMachine JSON_parse nullMessage throwMessage fuel arn r d = Some d' →
  d' = Page.mk (Page.stateMachine d) false message (Page.nodes d) (Page.edges d)
  ∧ render d'
    = match truthy message with
      | Some text => ViewError text
      | None =>
          ViewDiagram (nameOf (Page.stateMachine d)) (Page.nodes d)
            (Page.edges d)
      end.
Proof.
  intros Harn Hr Hrun. unfold fetchStateMachine in Hrun.
  rewrite bool_decide_eq_false_2 in Hrun by done.
  destruct Hr as [->|[->|[-> ->]]]; injection Hrun as <-; by split.
Qed.

(** X25 on a response that is not ok, after a diagram was loaded: the error
    screen. *)
Lemma failed_request_shown_witness :
  ∃ d',
    fetchStateMachine rejectAll None None 0 "arn" DescribeNotOk
      (Page.mk (DescribedObject (Some "M") InUndefined) false None [startNode] [])
    = Some d'
    ∧ Page.nodes d' = [startNode]
    ∧ render d' = ViewError "Failed to fetch state machine".
Proof.
  eexists. split; [reflexivity|].
  destruct (failed_request_shown rejectAll None None 0 "arn" DescribeNotOk
              (Some "Failed to fetch state machine")
              (Page.mk (DescribedObject (Some "M") InUndefined) false None
                 [startNode] [])
              (Page.mk (DescribedObject (Some "M") InUndefined) false
                 (Some "Failed to fetch state machine") [startNode] []))
    as [H1 H2].
  - discriminate.
  - right; right. split; reflexivity.
  - reflexivity.
  - split; [reflexivity | exact H2].
Defined.


(** * The ids of the nodes are distinct *)

(** ** The four shapes of ids *)

Lemma string_app_inv_tail (t : string) : ∀ a b, a +:+ t = b +:+ t → a = b.
Proof.
  assert (Hlen : ∀ a : string,
    String.length (a +:+ t) = (String.length a + String.length t)%nat).
  { induction a as [|c a IH]; [done|].
    change (S (String.length (a +:+ t))
            = S (String.length a + String.length t)). by rewrite IH. }
  induction a as [|c a IH]; intros [|c' b] Heq.
  - done.
  - exfalso. apply (f_equal String.length) in Heq.
    rewrite (Hlen EmptyString), (Hlen (String c' b)) in Heq.
    simpl in Heq. lia.
  - exfalso. apply (f_equal String.length) in Heq.
    rewrite (Hlen EmptyString), (Hlen (String c a)) in Heq.
    simpl in Heq. lia.
  - change (String c (a +:+ t) = String c' (b +:+ t)) in Heq.
    injection Heq as -> Heq. f_equal. by apply IH.
Qed.

Lemma endNodeId_inj s s' : endNodeId s = endNodeId s' → s = s'.
Proof.
  unfold endNodeId. intros H%append_cancel. by apply string_app_inv_tail in H.
Qed.

Lemma noUnderscore_branchId p index x : noUnderscore (branchId p index x) = false.
Proof.
  unfold noUnderscore, branchId. rewrite lacks_app.
  apply andb_false_iff. by right.
Qed.

Lemma noUnderscore_endNodeId s : noUnderscore (endNodeId s) = false.
Proof. done. Qed.

Lemma branchId_head p index x :
  branchId p index x
  = p +:+ "_" +:+ ("branch_" +:+ pretty index +:+ "_" +:+ x).
Proof. done. Qed.

Lemma branchId_not_start p index x :
  noUnderscore p = true → branchId p index x ≠ "__START__".
Proof.
  intros Hp Heq. rewrite branchId_head in Heq.
  change "__START__" with (EmptyString +:+ "_" +:+ "_START__") in Heq.
  by apply underscore_split in Heq as [_ Heq].
Qed.

Lemma branchId_not_end p index x s :
  noUnderscore p = true → branchId p index x ≠ endNodeId s.
Proof.
  intros Hp Heq. rewrite branchId_head in Heq.
  change (endNodeId s) with (EmptyString +:+ "_" +:+ ("_END_" +:+ s +:+ "__"))
    in Heq.
  by apply underscore_split in Heq as [_ Heq].
Qed.

Lemma branchId_parent p p' i j x y :
  noUnderscore p = true → noUnderscore p' = true →
  branchId p i x = branchId p' j y → p = p'.
Proof.
  intros Hp Hp' Heq. rewrite !branchId_head in Heq.
  by apply underscore_split in Heq as [-> _].
Qed.

Lemma branchId_state p index x y :
  branchId p index x = branchId p index y → x = y.
Proof.
  unfold branchId. intros H%append_cancel.
  change ("_branch_" +:+ pretty index +:+ "_" +:+ x)
    with ("_branch_" +:+ (pretty index +:+ ("_" +:+ x))) in H.
  change ("_branch_" +:+ pretty index +:+ "_" +:+ y)
    with ("_branch_" +:+ (pretty index +:+ ("_" +:+ y))) in H.
  apply (append_cancel "_branch_"), append_cancel in H. by injection H.
Qed.

(** ** Names that no made-up id can be taken for *)

(** An inherited name holds no underscore, or is a word without underscore
    between two pairs of underscores. *)
Lemma inherited_shape s :
  s ∈ Object_prototype →
  noUnderscore s = true
  ∨ ∃ w, noUnderscore w = true ∧ s = "_" +:+ "_" +:+ w +:+ "__".
Proof.
  unfold Object_prototype. intros Hin.
  repeat (apply elem_of_cons in Hin as [->|Hin]);
    [..|by apply elem_of_nil in Hin].
  all: first [ by left | right ].
  - by exists "defineGetter".
  - by exists "defineSetter".
  - by exists "lookupGetter".
  - by exists "lookupSetter".
  - by exists "proto".
Qed.

Lemma noUnderscore_tame s : noUnderscore s = true → tame s.
Proof. by left. Qed.

Lemma tame_not_start s : tame s → s ≠ "__START__".
Proof.
  intros [Hu|Hin]; [by intros ->|].
  unfold Object_prototype in Hin.
  repeat (apply elem_of_cons in Hin as [->|Hin]);
    [..|by apply elem_of_nil in Hin]; discriminate.
Qed.

Lemma tame_not_end s t : tame s → s ≠ endNodeId t.
Proof.
  intros [Hu|Hin] ->; [done|].
  unfold Object_prototype, endNodeId in Hin.
  repeat (apply elem_of_cons in Hin as [Heq|Hin]);
    [..|by apply elem_of_nil in Hin].
  all: vm_compute in Heq; discriminate Heq.
Qed.

Lemma dunder_branchId w index x :
  branchId ("_" +:+ "_" +:+ w +:+ "__") index x
  = "_" +:+ "_" +:+ w +:+ "_"
    +:+ ("_" +:+ "_" +:+ "branch_" +:+ pretty index +:+ "_" +:+ x).
Proof. unfold branchId. rewrite !string_app_assoc. reflexivity. Qed.

(** The first character of a branch-scoped id under a dunder name, and what
    follows the first underscore. *)
Lemma dunder_head w rest :
  "_" +:+ "_" +:+ w +:+ rest = EmptyString +:+ "_" +:+ ("_" +:+ w +:+ rest).
Proof. reflexivity. Qed.

Lemma tame_not_branch s p index x : tame s → tame p → s ≠ branchId p index x.
Proof.
  intros [Hs|Hs]; [intros _ ->; by rewrite noUnderscore_branchId in Hs|].
  apply inherited_shape in Hs as [Hs|(w & Hw & ->)];
    [intros _ ->; by rewrite noUnderscore_branchId in Hs|].
  assert (Hplain : ∀ q, noUnderscore q = true →
            "_" +:+ "_" +:+ w +:+ "__" ≠ branchId q index x).
  { intros q Hq Heq. rewrite branchId_head, dunder_head in Heq.
    apply underscore_split in Heq as [<- Heq]; [|done|done].
    discriminate Heq. }
  intros [Hp|Hp]; [by apply Hplain|].
  apply inherited_shape in Hp as [Hp|(w' & Hw' & ->)]; [by apply Hplain|].
  rewrite dunder_branchId. intros Heq. injection Heq as Heq.
  change (w +:+ "__") with (w +:+ "_" +:+ "_") in Heq.
  apply underscore_split in Heq as [<- Heq]; [|done|done].
  discriminate Heq.
Qed.

Lemma tame_branch_not_start p index x : tame p → branchId p index x ≠ "__START__".
Proof.
  intros [Hp|Hp]; [by apply branchId_not_start|].
  apply inherited_shape in Hp as [Hp|(w & Hw & ->)];
    [by apply branchId_not_start|].
  rewrite dunder_branchId. intros Heq. injection Heq as Heq.
  change "START__" with ("START" +:+ "_" +:+ "_") in Heq.
  apply underscore_split in Heq as [_ Heq]; [|done|done].
  discriminate Heq.
Qed.

Lemma tame_branch_not_end p index x s : tame p → branchId p index x ≠ endNodeId s.
Proof.
  intros [Hp|Hp]; [by apply branchId_not_end|].
  unfold Object_prototype in Hp. unfold endNodeId, branchId. intros Heq.
  repeat (apply elem_of_cons in Hp as [->|Hp]);
    [..|by apply elem_of_nil in Hp].
  all: vm_compute in Heq; discriminate Heq.
Qed.

(** The parent of a branch-scoped id. *)
Lemma tame_parent p q i j x y :
  tame p → tame q → branchId p i x = branchId q j y → p = q.
Proof.
  assert (Hmixed : ∀ w a k z b l,
    noUnderscore w = true → noUnderscore a = true →
    branchId ("_" +:+ "_" +:+ w +:+ "__") k z ≠ branchId a l b).
  { intros w a k z b l Hw Ha Heq. rewrite dunder_branchId in Heq.
    rewrite (branchId_head a), dunder_head in Heq.
    apply underscore_split in Heq as [<- Heq]; [|done|done].
    discriminate Heq. }
  intros [Hp|Hp] [Hq|Hq].
  - by apply branchId_parent.
  - apply inherited_shape in Hq as [Hq|(w & Hw & ->)];
      [by apply branchId_parent|].
    intros Heq. symmetry in Heq. by apply Hmixed in Heq.
  - apply inherited_shape in Hp as [Hp|(w & Hw & ->)];
      [by apply branchId_parent|].
    intros Heq. by apply Hmixed in Heq.
  - apply inherited_shape in Hp as [Hp|(w & Hw & ->)];
      apply inherited_shape in Hq as [Hq|(w' & Hw' & ->)].
    + by apply branchId_parent.
    + intros Heq. symmetry in Heq. by apply Hmixed in Heq.
    + intros Heq. by apply Hmixed in Heq.
    + rewrite !dunder_branchId. intros Heq. injection Heq as Heq.
      by apply underscore_split in Heq as [-> _].
Qed.

(** The names [states[name]] finds are tame when the keys hold no
    underscore. *)
Lemma plainNames_tame m s :
  plainNames (ownStates m) = true → is_Some (statesOf m !! s) → tame s.
Proof.
  unfold plainNames. intros H%bool_decide_eq_true [st Hst].
  apply statesOf_Some in Hst as [Hst|(_ & Hin & _)]; [|by right].
  left. by apply (H s st).
Qed.

(** ** The nodes pushed by the branch loops *)

Lemma walkBranch_ids fuel : ∀ bs name index bx c cur prev by_ σ r σ',
  walkBranch fuel bs name index bx cur prev by_ σ = Some (r, σ') →
  bs !! c = Some cur →
  ∃ ts,
    nodeIds (nodes σ') = nodeIds (nodes σ) ++ (branchId name index <$> ts)
    ∧ (∀ t, t ∈ ts → ∃ k, chainNth bs c (S k) = Some t)
    ∧ NoDup (c :: ts)
    ∧ processedStates σ' = processedStates σ.
Proof.
  induction fuel as [|fuel IH];
    intros bs name index bx c cur prev by_ σ r σ' Hrun Hc.
  all: pose proof (walkBranch_rows _ _ _ _ _ _ _ _ _ _ _ _ Hrun Hc)
         as [(K & last & _ & Hend) _].
  all: simpl in Hrun.
  all: destruct (truthy (Next cur)) as [n|] eqn:Hnext.
  all: try destruct (bs !! n) as [nst|] eqn:Hn.
  all: try (minv; exists []; simpl; rewrite app_nil_r;
            split_and!; [done | by intros t ?%elem_of_nil
                        | apply NoDup_singleton | done]).
  minv.
  destruct (IH _ _ _ _ _ _ _ _ _ _ _ Hrun Hn) as (ts & Hids & Hts & Hnd & Hp).
  exists (n :: ts).
  assert (Hmem : ∀ t, t ∈ n :: ts → ∃ k, chainNth bs c (S k) = Some t).
  { intros t [->|Ht]%elem_of_cons.
    - exists 0%nat. rewrite (chainNth_S _ _ _ _ Hc), Hnext. simpl.
      by rewrite Hn.
    - destruct (Hts t Ht) as [k Hk]. exists (S k).
      by rewrite (chainNth_S _ _ _ _ Hc), Hnext. }
  split_and!.
  - rewrite Hids. simpl. unfold nodeIds. rewrite fmap_app. simpl.
    by rewrite <- app_assoc.
  - done.
  - apply NoDup_cons. split; [|done].
    intros Hin. destruct (Hmem c Hin) as [k Hk].
    assert (H0 : chainNth bs c 0 = Some c) by (simpl; by rewrite Hc).
    pose proof (chainNth_cycle bs c 0 (S k) c H0 Hk ltac:(lia) (S K)) as Hsome.
    rewrite Hend in Hsome. by destruct Hsome.
  - by rewrite Hp.
Qed.

Lemma layoutBranch_ids fuel name startX nextY br index mb σ r σ' :
  layoutBranch fuel name startX nextY br index mb σ = Some (r, σ') →
  ∃ ts,
    nodeIds (nodes σ') = nodeIds (nodes σ) ++ (branchId name index <$> ts)
    ∧ NoDup ts
    ∧ processedStates σ' = processedStates σ.
Proof.
  intros Hrun. unfold layoutBranch in Hrun.
  destruct (truthy (StartAt br)) as [b|] eqn:Hb.
  2:{ minv. exists []. simpl. rewrite app_nil_r. split_and!; [done| |done].
      apply NoDup_nil_2. }
  destruct (statesOf br !! b) as [bst|] eqn:Hbst.
  2:{ minv. exists []. simpl. rewrite app_nil_r. split_and!; [done| |done].
      apply NoDup_nil_2. }
  minv.
  match goal with
  | H : walkBranch _ _ _ _ _ _ _ _ _ = Some _ |- _ =>
      destruct (walkBranch_ids _ _ _ _ _ _ _ _ _ _ _ _ H Hbst)
        as (ts & Hids & _ & Hnd & Hp)
  end.
  exists (b :: ts). split_and!; [|done|simpl; by rewrite Hp].
  simpl. rewrite Hids. simpl. unfold nodeIds. rewrite fmap_app. simpl.
  by rewrite <- app_assoc.
Qed.

Lemma layoutBranches_ids fuel name startX nextY brs mb σ r σ' :
  forEach (layoutBranch fuel name startX nextY) brs mb σ = Some (r, σ') →
  ∃ ids,
    nodeIds (nodes σ') = nodeIds (nodes σ) ++ ids
    ∧ NoDup ids
    ∧ (∀ id, id ∈ ids → ∃ index x, id = branchId name index x)
    ∧ processedStates σ' = processedStates σ.
Proof.
  intros Hrun.
  assert (Hall : ∃ ids,
    nodeIds (nodes σ') = nodeIds (nodes σ) ++ ids
    ∧ NoDup ids
    ∧ (∀ id, id ∈ ids →
         ∃ j x, (j < length brs)%nat ∧ id = branchId name j x)
    ∧ processedStates σ' = processedStates σ).
  { eapply (forEach_inv (λ i _ τ, ∃ ids,
      nodeIds (nodes τ) = nodeIds (nodes σ) ++ ids
      ∧ NoDup ids
      ∧ (∀ id, id ∈ ids → ∃ j x, (j < i)%nat ∧ id = branchId name j x)
      ∧ processedStates τ = processedStates σ)); [| | exact Hrun].
    - exists []. rewrite app_nil_r.
      split_and!; [done | apply NoDup_nil_2 | by intros id ?%elem_of_nil | done].
    - intros i br s τ1 s1 τ2 Hi (ids & Hids & Hnd & Hshape & Hp) Hf.
      apply layoutBranch_ids in Hf as (ts & Hids' & Hnd' & Hp').
      exists (ids ++ (branchId name i <$> ts)). split_and!.
      + by rewrite Hids', Hids, <- app_assoc.
      + apply NoDup_app. split_and!; [done | |].
        * intros id Hin (t & -> & Ht)%list_elem_of_fmap.
          destruct (Hshape _ Hin) as (j & x & Hj & Heq).
          apply branchId_index in Heq. lia.
        * apply NoDup_fmap_2_strong; [|done].
          intros t1 t2 _ _. apply branchId_state.
      + intros id [Hin|(t & -> & Ht)%list_elem_of_fmap]%elem_of_app.
        * destruct (Hshape _ Hin) as (j & x & Hj & Heq).
          exists j, x. split; [lia | done].
        * exists i, t. split; [lia | done].
      + by rewrite Hp'. }
  destruct Hall as (ids & Hids & Hnd & Hshape & Hp).
  exists ids. split_and!; [done | done | | done].
  intros id Hin. destruct (Hshape _ Hin) as (j & x & _ & Heq). eauto.
Qed.

(** ** The invariant on ids *)

Section Ids.

Variable states : gmap string stateObj.
Hypothesis Hnames : ∀ s, is_Some (states !! s) → tame s.

Lemma idKind_mono σ σ' pre pre' pend pend' id :
  processedStates σ ⊆ processedStates σ' →
  (∀ p, p ∈ processedStates σ → p ∉ pre → p ∉ pre') →
  (∀ s, s ∈ processedStates σ → s ∉ pend → s ∉ pend') →
  idKind states σ pre pend id → idKind states σ' pre' pend' id.
Proof.
  intros Hp Hpre Hpend [|s Hs Hst|p index x Hs Hst Hn|s Hs Hn].
  - apply kind_start.
  - apply kind_state; auto.
  - apply kind_branch; auto.
  - apply kind_end; auto.
Qed.

Lemma idsInv_same pre pend σ σ' :
  nodes σ' = nodes σ → processedStates σ' = processedStates σ →
  idsInv states pre pend σ → idsInv states pre pend σ'.
Proof.
  intros Hn Hp [H1 H2 H3]. split; rewrite ?Hn, ?Hp; [done | | done].
  intros id Hid. eapply idKind_mono; [| | |by apply H2]; [by rewrite Hp|auto..].
Qed.

Lemma idsInv_weaken pre pre' pend pend' σ :
  pre' ⊆ pre → pend' ⊆ pend →
  idsInv states pre pend σ → idsInv states pre' pend' σ.
Proof.
  intros Hpre Hpend [H1 H2 H3]. split; [done | | set_solver].
  intros id Hid. eapply idKind_mono; [| | |by apply H2]; set_solver.
Qed.

Lemma idsInv_push pre pend σ n :
  Node.id n ∉ nodeIds (nodes σ) →
  idKind states σ pre pend (Node.id n) →
  idsInv states pre pend σ → idsInv states pre pend (push_node n σ).
Proof.
  intros Hfresh Hkind [H1 H2 H3]. split; simpl; [| |done].
  - unfold nodeIds. rewrite fmap_app. apply NoDup_app. split_and!; [done| |].
    + intros id Hid ->%list_elem_of_singleton. done.
    + apply NoDup_singleton.
  - unfold nodeIds. rewrite fmap_app.
    intros id [Hid| ->%list_elem_of_singleton]%elem_of_app.
    + eapply idKind_mono; [| | |by apply H2]; auto.
    + eapply idKind_mono; [| | |exact Hkind]; auto.
Qed.

Lemma state_fresh pre pend σ s :
  idsInv states pre pend σ → is_Some (states !! s) →
  s ∉ processedStates σ → s ∉ nodeIds (nodes σ).
Proof.
  intros [_ H2 _] Hst Hs Hin. pose proof (Hnames s Hst) as Hu.
  assert (Hno : ∀ id, idKind states σ pre pend id → id ≠ s).
  { intros id [|s' Hs' _|p index x _ Hp' _|s' _ _] Heq.
    - symmetry in Heq. by apply tame_not_start in Heq.
    - by subst.
    - symmetry in Heq. apply tame_not_branch in Heq; auto.
    - symmetry in Heq. by apply tame_not_end in Heq. }
  by apply (Hno s (H2 s Hin)).
Qed.

Lemma idsInv_state pre pend σ n s :
  Node.id n = s → is_Some (states !! s) → s ∉ processedStates σ →
  idsInv states pre pend σ →
  idsInv states ({[s]} ∪ pre) ({[s]} ∪ pend)
    (push_node n (add_processed s σ)).
Proof.
  intros Hid Hst Hs HI.
  pose proof (state_fresh _ _ _ _ HI Hst Hs) as Hfresh.
  apply idsInv_push.
  - by rewrite Hid.
  - rewrite Hid. apply kind_state; [simpl; set_solver | done].
  - destruct HI as [H1 H2 H3]. split; simpl; [done | | set_solver].
    intros id Hin. eapply idKind_mono; [| | |by apply H2]; simpl; set_solver.
Qed.

Lemma idsInv_branches pre pend σ σ' name ids :
  name ∈ pre → name ∈ processedStates σ → is_Some (states !! name) →
  nodeIds (nodes σ') = nodeIds (nodes σ) ++ ids →
  NoDup ids →
  (∀ id, id ∈ ids → ∃ index x, id = branchId name index x) →
  processedStates σ' = processedStates σ →
  idsInv states pre pend σ → idsInv states (pre ∖ {[name]}) pend σ'.
Proof.
  intros Hpre Hp Hst Hids Hnd Hshape Hproc [H1 H2 H3].
  split; rewrite ?Hids, ?Hproc; [| |done].
  - apply NoDup_app. split_and!; [done | | done].
    intros id Hin Hnew. destruct (Hshape _ Hnew) as (index & x & Heq).
    pose proof (Hnames _ Hst) as Hu.
    assert (Hno : ∀ id', idKind states σ pre pend id' →
              id' ≠ branchId name index x).
    { intros id' [|s' Hs' Hst'|p j y _ Hst' Hn|s' _ _] Heq'.
      - symmetry in Heq'. by apply tame_branch_not_start in Heq'.
      - apply tame_not_branch in Heq'; auto.
      - apply tame_parent in Heq'; auto. by subst.
      - symmetry in Heq'. by apply tame_branch_not_end in Heq'. }
    subst id. by apply (Hno _ (H2 _ Hin)).
  - intros id [Hin|Hnew]%elem_of_app.
    + eapply idKind_mono; [| | |by apply H2]; [by rewrite Hproc | set_solver | auto].
    + destruct (Hshape _ Hnew) as (index & x & ->).
      apply kind_branch; [by rewrite Hproc | done | set_solver].
Qed.

Lemma idsInv_end pre pend σ name x ny :
  name ∈ pend → is_Some (states !! name) →
  idsInv states pre pend σ →
  idsInv states pre (pend ∖ {[name]}) (push_node (endNode name x ny) σ).
Proof.
  intros Hpend Hst HI. pose proof HI as [H1 H2 H3].
  apply idsInv_push.
  - simpl. intros Hin.
    assert (Hno : ∀ id, idKind states σ pre pend id → id ≠ endNodeId name).
    { intros id [|s' Hs' Hst'|p j y _ Hst' Hn|s' _ Hn] Heq.
      - done.
      - apply tame_not_end in Heq; auto.
      - apply tame_branch_not_end in Heq; auto.
      - apply endNodeId_inj in Heq. by subst. }
    by apply (Hno _ (H2 _ Hin)).
  - simpl. apply kind_end; [set_solver | set_solver].
  - eapply idsInv_weaken; [| |done]; set_solver.
Qed.

Lemma processState_ids fuel : ∀ pend name x y,
  hoare (idsInv states ∅ pend) (processState states fuel name x y)
    (λ _ σ', idsInv states ∅ pend σ').
Proof.
  induction fuel as [|fuel IH]; intros pend name x y σ r σ' HI Hrun.
  { simpl in Hrun. minv. }
  simpl in Hrun. unfold processState_body in Hrun.
  minv. case_bool_decide as Hseen; [by minv|].
  destruct (states !! name) as [st|] eqn:Hst; [|by minv].
  minv.
  assert (Hsome : is_Some (states !! name)) by eauto.
  assert (Hnp : name ∉ pend).
  { intros Hin. apply Hseen. by apply (ids_pend _ _ _ _ HI). }
  pose proof (idsInv_state ∅ pend σ (mainNode name x y st) name eq_refl
                Hsome Hseen HI) as H1.
  apply (idsInv_same _ _ _
           (set_position name (PosXY (mkPos x y))
              (push_node (mainNode name x y st) (add_processed name σ))))
    in H1; [|done|done].
  assert (Hback : ∀ τ, idsInv states ∅ ({[name]} ∪ pend) τ →
                       idsInv states ∅ pend τ).
  { intros τ. apply idsInv_weaken; set_solver. }
  assert (Hedge : ∀ e τ, idsInv states ∅ ({[name]} ∪ pend) τ →
                         idsInv states ∅ ({[name]} ∪ pend) (push_edge e τ)).
  { intros e τ. by apply idsInv_same. }
  assert (Hrec : ∀ next x' y',
    hoare (λ τ, idsInv states ∅ ({[name]} ∪ pend) τ ∧ True)
      (processState states fuel next x' y')
      (λ r τ', idsInv states ∅ ({[name]} ∪ pend) τ' ∧ y' ≤ r)).
  { intros next x' y' τ r1 τ' [Hτ _] Hcall. split.
    - by eapply IH.
    - by apply processState_grows in Hcall as [_ ?]. }
  destruct (dispatch st) as [brs|cs|] eqn:Hkind.
  - unfold processParallel in Hrun. minv.
    match goal with
    | H : forEach (layoutBranch _ _ _ _) _ _ _ = Some _ |- _ =>
        apply layoutBranches_ids in H as (ids & Hids & Hnd & Hshape & Hp)
    end.
    eapply (idsInv_branches _ _ _ _ name) in H1;
      [| set_solver | simpl; set_solver | done | exact Hids | done | done
       | done].
    eapply idsInv_weaken in H1; [| apply empty_subseteq | reflexivity].
    destruct (truthy (Next st)) as [next|]; [|minv; by apply Hback].
    minv.
    match goal with
    | H : forEach (rejoinBranch _ _) _ _ _ = Some _ |- _ =>
        apply (pass_rejoin (idsInv states ∅ ({[name]} ∪ pend)) Hedge) in H;
          [|done]
    end.
    apply Hback. eapply IH; [|exact Hrun]. done.
  - eapply idsInv_weaken in H1; [| apply empty_subseteq | reflexivity].
    apply Hback.
    by destruct (pass_processChoice (idsInv states ∅ ({[name]} ∪ pend)) Hedge
                   (λ _ _ _ _, True) (processState states fuel) name x y st
                   (λ _ _ _ _ _ _, I) Hrec cs Hkind _ _ _ H1 Hrun) as [? _].
  - eapply idsInv_weaken in H1; [| apply empty_subseteq | reflexivity].
    unfold processRegular in Hrun. minv.
    assert (H2 : idsInv states ∅ ({[name]} ∪ pend) σ0).
    { destruct (Catch st) as [rules|] eqn:Hrules; [|by minv].
      match goal with
      | H : forEach _ _ _ _ = Some _ |- _ =>
          apply (forEach_inv (λ _ _ τ, idsInv states ∅ ({[name]} ∪ pend) τ))
            in H; [done | done |]
      end.
      intros i cb s τ1 s1 τ2 Hi Hτ Hf.
      eapply (pass_layoutCatch states (idsInv states ∅ ({[name]} ∪ pend))
                Hedge) in Hf; [done | | | done | done | done | done].
      - intros k v τ. by apply idsInv_same.
      - intros rules' index cb' next t τ _ _ _ _ Ht _ Hfresh Hτ'.
        eapply idsInv_weaken; [| |eapply (idsInv_state _ _ _ _ next)];
          [| |done| |done|done]; [set_solver | set_solver | eauto]. }
    assert (H3 : idsInv states ∅ ({[name]} ∪ pend) σ1).
    { destruct (truthy (Next st)) as [next|]; [|by minv].
      minv. case_bool_decide; minv; [by apply Hedge|].
      eapply IH; [|done]. by apply Hedge. }
    destruct (End_ st); minv; [|by apply Hback].
    apply idsInv_same with (σ := push_node (endNode name x a0) σ1);
      [done | done |].
    eapply idsInv_weaken;
      [| |eapply (idsInv_end _ _ _ name); [|done|exact H3]];
      set_solver.
Qed.

End Ids.

Lemma parseStateMachine_node_ids JSON_parse fuel input m g :
  definitionOf JSON_parse input = Some m →
  parseStateMachine JSON_parse fuel input = Returns g →
  plainNames (ownStates m) = true →
  NoDup (nodeIds (g_nodes g)).
Proof.
  intros Hm Hrun Hplain.
  destruct (parseStateMachine_settled _ _ _ _ _ Hm Hrun)
    as [[-> _]|(startAt & σ & _ & -> & _ & _ & _ & _ & r & Hcall)];
    [apply NoDup_nil_2|].
  simpl.
  apply (processState_ids (statesOf m)) with (pend := ∅) in Hcall.
  - apply (ids_nodup _ _ _ _ Hcall).
  - intros s. by apply plainNames_tame.
  - split; simpl; [apply NoDup_singleton | | done].
    intros id ->%list_elem_of_singleton. apply kind_start.
Qed.

(** X26: when no name of a state of the definition holds an underscore, the
    ids of the nodes of the returned graph are pairwise distinct: no two of
    the entry marker, the states, the states of the branches of the Parallel
    states (whatever their names) and the exit markers share an id. *)
Theorem node_ids_distinct JSON_parse fuel input m g :
  definitionOf JSON_parse input = Some m →
  parseStateMachine JSON_parse fuel input = Returns g →
  plainNames (ownStates m) = true →
  NoDup (nodeIds (g_nodes g)).
Proof. apply parseStateMachine_node_ids. Qed.

(** X26 on a Parallel state with two branches and a successor. *)
Lemma node_ids_distinct_witness :
  ∃ g, parseStateMachine rejectAll 2 (InObject rejoinExample) = Returns g
    ∧ length (g_nodes g) = 8%nat
    ∧ NoDup (nodeIds (g_nodes g)).
Proof.
  pose (g := match parseStateMachine rejectAll 2 (InObject rejoinExample) with
             | Returns g => g
             | _ => emptyGraph
             end).
  exists g. split; [vm_compute; reflexivity|].
  split; [vm_compute; reflexivity|].
  apply (node_ids_distinct rejectAll 2 (InObject rejoinExample) rejoinExample g).
  - reflexivity.
  - vm_compute; reflexivity.
  - vm_compute; reflexivity.
Defined.

(** The condition on the names cannot be dropped: a state named like the
    exit marker of another state shares its id. *)
Lemma marker_name_collides :
  ∃ g, parseStateMachine rejectAll 3 (InObject markerName) = Returns g
    ∧ ¬ NoDup (nodeIds (g_nodes g)).
Proof.
  eexists. split; [vm_compute; reflexivity|].
  intros Hnd. vm_compute in Hnd.
  apply NoDup_cons in Hnd as [_ Hnd]. apply NoDup_cons in Hnd as [_ Hnd].
  apply NoDup_cons in Hnd as [Hnd _]. apply Hnd.
  apply list_elem_of_In. simpl. auto.
Qed.


(** * The ids of the edges are distinct *)

(** ** Ids and hyphens *)

(** Two strings that agree up to the first occurrence of a character, and
    after it. *)
Lemma lacks_split c d1 : ∀ d2 a b,
  lacks c d1 = true → lacks c d2 = true →
  d1 +:+ String c a = d2 +:+ String c b → d1 = d2 ∧ a = b.
Proof.
  induction d1 as [|x d1 IH]; intros [|x' d2] a b H1 H2 Heq; simpl in *.
  - by injection Heq.
  - injection Heq as <- _. apply andb_prop in H2 as [H2 _].
    by rewrite Ascii.eqb_refl in H2.
  - injection Heq as -> _. apply andb_prop in H1 as [H1 _].
    by rewrite Ascii.eqb_refl in H1.
  - injection Heq as -> Heq.
    apply andb_prop in H1 as [_ H1]. apply andb_prop in H2 as [_ H2].
    destruct (IH d2 a b H1 H2 Heq) as [-> ->]. done.
Qed.

Lemma hyphen_split d1 d2 a b :
  noHyphen d1 = true → noHyphen d2 = true →
  d1 +:+ "-" +:+ a = d2 +:+ "-" +:+ b → d1 = d2 ∧ a = b.
Proof. apply lacks_split. Qed.

Lemma pretty_N_char_noHyphen x s :
  noHyphen s = true → noHyphen (String (pretty_N_char x) s) = true.
Proof.
  unfold noHyphen. intros Hs. simpl. rewrite Hs. unfold pretty_N_char.
  by repeat case_match.
Qed.

Lemma pretty_N_go_noHyphen x : ∀ s,
  noHyphen s = true → noHyphen (pretty_N_go x s) = true.
Proof.
  induction (N.lt_wf_0 x) as [x _ IH]; intros s Hs.
  destruct (decide (x = 0)%N) as [->|Hne]; [by rewrite pretty_N_go_0|].
  rewrite pretty_N_go_step by lia.
  apply IH; [apply N.div_lt; lia|]. by apply pretty_N_char_noHyphen.
Qed.

Lemma pretty_nat_noHyphen (n : nat) : noHyphen (pretty n) = true.
Proof.
  unfold pretty, pretty_nat, pretty, pretty_N.
  case_decide; [done|]. by apply pretty_N_go_noHyphen.
Qed.

Lemma plain_noHyphen s : plain s = true → noHyphen s = true.
Proof. by intros [? _]%andb_prop. Qed.

Lemma plain_noUnderscore s : plain s = true → noUnderscore s = true.
Proof. by intros [_ ?]%andb_prop. Qed.

Lemma noHyphen_branchId p index t :
  noHyphen p = true → noHyphen t = true →
  noHyphen (branchId p index t) = true.
Proof.
  intros Hp Ht. pose proof (pretty_nat_noHyphen index) as Hd.
  unfold noHyphen, branchId in *.
  by rewrite !lacks_app, Hp, Ht, Hd.
Qed.

(** ** Owners *)

Lemma idOwned_mono (P Q : gset string) id :
  P ⊆ Q → idOwned P id → idOwned Q id.
Proof.
  intros Hsub (src & rest & -> & Hsrc & [Hin|(p & i & t & -> & Hin)]).
  - exists src, rest. split_and!; [done | done |]. left. by apply Hsub.
  - exists (branchId p i t), rest. split_and!; [done | done |].
    right. exists p, i, t. split; [done|]. by apply Hsub.
Qed.

Lemma idOwned_own (s : string) rest :
  noHyphen s = true → idOwned {[s]} (s +:+ "-" +:+ rest).
Proof.
  intros Hs. exists s, rest. split_and!; [done | done |]. left. set_solver.
Qed.

Lemma idOwned_branch p index t rest :
  noHyphen p = true → noHyphen t = true →
  idOwned {[p]} (branchId p index t +:+ "-" +:+ rest).
Proof.
  intros Hp Ht. exists (branchId p index t), rest.
  split_and!; [done | by apply noHyphen_branchId |].
  right. exists p, index, t. split; [done | set_solver].
Qed.

(** An id has one owner. *)
Lemma idOwned_meet (P Q : gset string) id :
  (∀ s, s ∈ P → tame s) →
  (∀ s, s ∈ Q → tame s) →
  idOwned P id → idOwned Q id → ∃ s, s ∈ P ∧ s ∈ Q.
Proof.
  intros HP HQ (src & rest & -> & Hsrc & HinP) (src' & rest' & Heq & Hsrc' & HinQ).
  apply hyphen_split in Heq as [<- _]; [|done|done].
  destruct HinP as [HinP|(p & i & t & -> & HinP)];
    destruct HinQ as [HinQ|(p' & i' & t' & Heq & HinQ)].
  - by exists src.
  - exfalso. apply tame_not_branch in Heq; auto.
  - exfalso. by apply (tame_not_branch _ p i t (HQ _ HinQ) (HP _ HinP)).
  - apply tame_parent in Heq; [| by apply HP | by apply HQ].
    subst. by exists p'.
Qed.

Lemma idOwned_not_start (P : gset string) startAt :
  (∀ s, s ∈ P → tame s) →
  ¬ idOwned P ("__START__-" +:+ startAt).
Proof.
  intros HP (src & rest & Heq & Hsrc & Hin).
  change ("__START__-" +:+ startAt) with ("__START__" +:+ "-" +:+ startAt)
    in Heq.
  apply hyphen_split in Heq as [<- _]; [|done|done].
  destruct Hin as [Hin|(p & i & t & Heq & Hin)].
  - apply HP in Hin. by apply tame_not_start in Hin.
  - symmetry in Heq. by eapply tame_branch_not_start; [apply HP|].
Qed.

(** ** The edges of a branch *)

Lemma chainNth_state bs : ∀ k s t,
  chainNth bs s k = Some t → is_Some (bs !! t).
Proof.
  induction k as [|k IH]; intros s t Hk.
  - by apply chainNth_0 in Hk as [-> ?].
  - simpl in Hk. destruct (bs !! s) as [st|]; [|done].
    destruct (truthy (Next st)) as [n|]; [|done]. by eapply IH.
Qed.

Lemma chainLast_unique bs b k l k' l' :
  chainLast bs b k l → chainLast bs b k' l' → l = l'.
Proof.
  intros [Hk Hend] [Hk' Hend'].
  assert (k = k') as ->; [|congruence].
  destruct (lt_eq_lt_dec k k') as [[Hlt| ->]|Hlt]; [|done|].
  - pose proof (chainNth_prefix bs (S k) b (k' - S k)) as Hp.
    replace (S k + (k' - S k))%nat with k' in Hp by lia.
    rewrite Hk', Hend in Hp. by destruct Hp.
  - pose proof (chainNth_prefix bs (S k') b (k - S k')) as Hp.
    replace (S k' + (k - S k'))%nat with k in Hp by lia.
    rewrite Hk, Hend' in Hp. by destruct Hp.
Qed.

Lemma chainEdgeIds_src (f : string → string) : ∀ cs id,
  NoDup cs → id ∈ chainEdgeIds (f <$> cs) →
  ∃ t t', id = f t +:+ "-to-" +:+ f t' ∧ t ∈ cs ∧ last cs ≠ Some t.
Proof.
  induction cs as [|c cs IH]; intros id Hnd Hin; [by apply elem_of_nil in Hin|].
  destruct cs as [|n cs]; [by apply elem_of_nil in Hin|].
  apply NoDup_cons in Hnd as [Hc Hnd].
  change (chainEdgeIds (f <$> c :: n :: cs))
    with ((f c +:+ "-to-" +:+ f n) :: chainEdgeIds (f <$> n :: cs)) in Hin.
  apply elem_of_cons in Hin as [->|Hin].
  - exists c, n. split_and!; [done | set_solver |].
    change (last (c :: n :: cs)) with (last (n :: cs)).
    intros Hl. apply Hc. by eapply last_Some_elem_of.
  - destruct (IH id Hnd Hin) as (t & t' & -> & Ht & Hl).
    exists t, t'. split_and!; [done | set_solver | done].
Qed.

Lemma chainEdgeIds_NoDup (f : string → string) : ∀ cs,
  NoDup cs → (∀ t, t ∈ cs → noHyphen (f t) = true) →
  (∀ t t', f t = f t' → t = t') →
  NoDup (chainEdgeIds (f <$> cs)).
Proof.
  induction cs as [|c cs IH]; intros Hnd Hh Hinj; [apply NoDup_nil_2|].
  destruct cs as [|n cs]; [apply NoDup_nil_2|].
  pose proof Hnd as [Hc Hnd']%NoDup_cons.
  change (chainEdgeIds (f <$> c :: n :: cs))
    with ((f c +:+ "-to-" +:+ f n) :: chainEdgeIds (f <$> n :: cs)).
  apply NoDup_cons. split.
  - intros Hin.
    destruct (chainEdgeIds_src f _ _ Hnd' Hin) as (t & t' & Heq & Ht & _).
    change (f c +:+ "-" +:+ ("to-" +:+ f n) = f t +:+ "-" +:+ ("to-" +:+ f t'))
      in Heq.
    apply hyphen_split in Heq as [Heq _];
      [| apply Hh; set_solver | apply Hh; set_solver].
    apply Hinj in Heq. by subst.
  - apply IH; [done | | done]. intros t Ht. apply Hh. set_solver.
Qed.

Lemma walkBranch_edges fuel : ∀ bs name index bx c cur by_ σ r σ',
  walkBranch fuel bs name index bx cur (branchId name index c) by_ σ
    = Some (r, σ') →
  bs !! c = Some cur →
  ∃ ts,
    edgeIds (edges σ')
    = edgeIds (edges σ) ++ chainEdgeIds (branchId name index <$> c :: ts)
    ∧ (∀ t, t ∈ ts → ∃ k, chainNth bs c (S k) = Some t)
    ∧ NoDup (c :: ts)
    ∧ (∃ k l, last (c :: ts) = Some l ∧ chainLast bs c k l)
    ∧ processedStates σ' = processedStates σ
    ∧ (∀ key, is_Some (nodePositions σ' !! key) →
         is_Some (nodePositions σ !! key)
         ∨ ∃ x, key = branchId name index x).
Proof.
  induction fuel as [|fuel IH];
    intros bs name index bx c cur by_ σ r σ' Hrun Hc.
  all: pose proof (walkBranch_rows _ _ _ _ _ _ _ _ _ _ _ _ Hrun Hc)
         as [(K & lastK & _ & Hend) _].
  all: simpl in Hrun.
  all: destruct (truthy (Next cur)) as [n|] eqn:Hnext.
  all: try destruct (bs !! n) as [nst|] eqn:Hn.
  all: try (minv; exists []; simpl; rewrite app_nil_r;
            destruct (chainLast_here bs c cur Hc) as [H0 _];
            [by rewrite Hnext|];
            split_and!; [done | by intros t ?%elem_of_nil
                        | apply NoDup_singleton | by exists 0%nat, c
                        | done | by left]).
  minv.
  destruct (IH _ _ _ _ _ _ _ _ _ _ Hrun Hn)
    as (ts & Hids & Hts & Hnd & (k & l & Hl & Hlast) & Hp & Hkeys).
  exists (n :: ts).
  assert (Hmem : ∀ t, t ∈ n :: ts → ∃ k, chainNth bs c (S k) = Some t).
  { intros t [->|Ht]%elem_of_cons.
    - exists 0%nat. rewrite (chainNth_S _ _ _ _ Hc), Hnext. simpl.
      by rewrite Hn.
    - destruct (Hts t Ht) as [k' Hk']. exists (S k').
      by rewrite (chainNth_S _ _ _ _ Hc), Hnext. }
  split_and!.
  - rewrite Hids. simpl. unfold edgeIds. rewrite fmap_app. simpl.
    by rewrite <- app_assoc.
  - done.
  - apply NoDup_cons. split; [|done].
    intros Hin. destruct (Hmem c Hin) as [k' Hk'].
    assert (H0 : chainNth bs c 0 = Some c) by (simpl; by rewrite Hc).
    pose proof (chainNth_cycle bs c 0 (S k') c H0 Hk' ltac:(lia) (S K)) as Hsome.
    rewrite Hend in Hsome. by destruct Hsome.
  - exists (S k), l. split; [done|]. destruct Hlast as [H1 H2].
    split; rewrite (chainNth_S _ _ _ _ Hc), Hnext; done.
  - by rewrite Hp.
  - intros key Hkey. destruct (Hkeys key Hkey) as [Hk|?]; [|by right].
    simpl in Hk. destruct (decide (key = branchId name index n)) as [->|Hne].
    + right. by exists n.
    + left. by rewrite lookup_insert_ne in Hk.
Qed.

Lemma layoutBranch_edges fuel name startX nextY br index mb σ r σ' :
  layoutBranch fuel name startX nextY br index mb σ = Some (r, σ') →
  (σ' = σ
   ∧ ∀ b, truthy (StartAt br) = Some b → statesOf br !! b = None)
  ∨ ∃ b ts l k,
      truthy (StartAt br) = Some b
      ∧ edgeIds (edges σ')
        = edgeIds (edges σ)
          ++ (name +:+ "-to-" +:+ branchId name index b)
             :: chainEdgeIds (branchId name index <$> b :: ts)
      ∧ NoDup (b :: ts)
      ∧ (∀ t, t ∈ b :: ts → is_Some (statesOf br !! t))
      ∧ last (b :: ts) = Some l ∧ chainLast (statesOf br) b k l
      ∧ processedStates σ' = processedStates σ
      ∧ (∀ key, is_Some (nodePositions σ' !! key) →
           is_Some (nodePositions σ !! key)
           ∨ ∃ x, key = branchId name index x).
Proof.
  intros Hrun. unfold layoutBranch in Hrun.
  destruct (truthy (StartAt br)) as [b|] eqn:Hb; [|minv; by left].
  destruct (statesOf br !! b) as [bst|] eqn:Hbst.
  2:{ minv. left. split; [done|]. by intros b' [= <-]. }
  minv. right.
  match goal with
  | H : walkBranch _ _ _ _ _ _ _ _ _ = Some _ |- _ =>
      destruct (walkBranch_edges _ _ _ _ _ _ _ _ _ _ _ H Hbst)
        as (ts & Hids & Hts & Hnd & (k & l & Hl & Hlast) & Hp & Hkeys)
  end.
  exists b, ts, l, k. split_and!; try done.
  - simpl. rewrite Hids. simpl. unfold edgeIds. rewrite fmap_app. simpl.
    by rewrite <- app_assoc.
  - intros t [->|Ht]%elem_of_cons; [eauto|].
    destruct (Hts t Ht) as [k' Hk']. by eapply chainNth_state.
  - simpl. intros key Hkey.
    destruct (decide (key = branchId name index "end")) as [->|Hne];
      [right; by exists "end"|].
    rewrite lookup_insert_ne in Hkey by done.
    destruct (Hkeys key Hkey) as [Hk|?]; [|by right].
    simpl in Hk. destruct (decide (key = branchId name index b)) as [->|Hne'].
    + right. by exists b.
    + left. by rewrite lookup_insert_ne in Hk.
Qed.

(** ** The invariant, while a state is laid out *)

Section Edges.

Variable states : gmap string stateObj.
Variable startAt : string.
Hypothesis Hnames : ∀ s, is_Some (states !! s) → noHyphen s = true ∧ tame s.

Lemma processed_tame σ s :
  edgesInv states startAt σ → s ∈ processedStates σ → tame s.
Proof.
  intros HI Hs. apply Hnames. by apply (ei_states _ _ _ HI).
Qed.

Lemma newOwned_refl σ : newOwned σ σ.
Proof. split; [done|]. intros id Hid. by left. Qed.

Lemma newOwned_trans σ1 σ2 σ3 :
  newOwned σ1 σ2 → newOwned σ2 σ3 → newOwned σ1 σ3.
Proof.
  intros [Hp1 H1] [Hp2 H2]. split; [set_solver|].
  intros id Hid. destruct (H2 id Hid) as [Hin|Hown].
  - destruct (H1 id Hin) as [?|Hown]; [by left|].
    right. eapply idOwned_mono; [|done]. set_solver.
  - right. eapply idOwned_mono; [|done]. set_solver.
Qed.

(** The layout of [name] starts. *)
Lemma bodyInv_init σ name x y st :
  edgesInv states startAt σ →
  name ∉ processedStates σ → states !! name = Some st →
  bodyInv states startAt σ name (λ _, False)
    (set_position name (PosXY (mkPos x y))
       (push_node (mainNode name x y st) (add_processed name σ))).
Proof.
  intros HI Hfresh Hst. pose proof HI as [H1 H2 H3 H4].
  assert (HI' : edgesInv states startAt
    (set_position name (PosXY (mkPos x y))
       (push_node (mainNode name x y st) (add_processed name σ)))).
  { split; simpl.
    - done.
    - intros id Hid. destruct (H2 id Hid) as [?|Hown]; [by left|].
      right. eapply idOwned_mono; [|done]. set_solver.
    - intros s [->%elem_of_singleton|Hs]%elem_of_union; [eauto | auto].
    - intros key Hkey.
      destruct (decide (key = name)) as [->|Hne]; [left; set_solver|].
      rewrite lookup_insert_ne in Hkey by done.
      destruct (H4 key Hkey) as [?|(p & i & t & -> & ?)];
        [left; set_solver|].
      right. exists p, i, t. split; [done | set_solver]. }
  split; [done | done | simpl; set_solver | |].
  - split; simpl; [set_solver|]. intros id Hid. by left.
  - simpl. intros id Hid Hown.
    destruct (H2 id Hid) as [->|Hown'].
    + eapply idOwned_not_start; [|exact Hown].
      intros s ->%elem_of_singleton. apply Hnames. eauto.
    + assert (HP : ∀ s, s ∈ ({[name]} : gset string) → tame s).
      { intros s ->%elem_of_singleton. apply Hnames. eauto. }
      assert (HQ : ∀ s, s ∈ processedStates σ → tame s).
      { intros s Hs. by apply (processed_tame σ). }
      destruct (idOwned_meet _ _ _ HP HQ Hown Hown')
        as (s & ->%elem_of_singleton & Hs).
      done.
Qed.

Lemma bodyInv_final σ name own τ :
  bodyInv states startAt σ name own τ →
  edgesInv states startAt τ ∧ newOwned σ τ.
Proof. intros [H1 _ _ H2 _]. done. Qed.

Lemma bodyInv_weaken σ name (own own' : string → Prop) τ :
  (∀ id, own id → own' id) →
  bodyInv states startAt σ name own τ → bodyInv states startAt σ name own' τ.
Proof. intros Hsub [H1 H2 H3 H4 H5]. split; auto. Qed.

(** Pushing edges for [name], setting the positions of its branch nodes. *)
Lemma bodyInv_extend σ name own τ τ' ids :
  bodyInv states startAt σ name own τ →
  edgeIds (edges τ') = edgeIds (edges τ) ++ ids →
  processedStates τ' = processedStates τ →
  (∀ key, is_Some (nodePositions τ' !! key) →
     is_Some (nodePositions τ !! key) ∨ key ∈ processedStates τ
     ∨ ∃ index x, key = branchId name index x) →
  NoDup ids →
  (∀ id, id ∈ ids → idOwned {[name]} id ∧ ¬ own id) →
  bodyInv states startAt σ name (λ id, own id ∨ id ∈ ids) τ'.
Proof.
  intros [[H1 H2 H3 H4] Hf Hn [Hp Hnew] Hown] Hids Hproc Hkeys Hnd Hall.
  assert (Hsub : ({[name]} : gset string) ⊆ processedStates τ ∖ processedStates σ)
    by set_solver.
  split; [split| | | |]; rewrite ?Hids, ?Hproc; try done.
  - apply NoDup_app. split_and!; [done | | done].
    intros id Hin Hin'. destruct (Hall id Hin') as [Ho Hno].
    apply Hno. by apply Hown.
  - intros id [Hin|Hin]%elem_of_app; [by apply H2|].
    right. destruct (Hall id Hin) as [Ho _].
    eapply idOwned_mono; [|done]. set_solver.
  - intros key Hkey. destruct (Hkeys key Hkey) as [Hk|[Hk|(i & t & ->)]].
    + by apply H4.
    + by left.
    + right. by exists name, i, t.
  - split; rewrite ?Hids, ?Hproc; [done|].
    intros id [Hin|Hin]%elem_of_app; [by apply Hnew|].
    right. destruct (Hall id Hin) as [Ho _].
    eapply idOwned_mono; [|done]. done.
  - intros id [Hin|Hin]%elem_of_app Ho; [left; by apply Hown | by right].
Qed.

(** One edge pushed for [name]. *)
Lemma bodyInv_push σ name own τ e :
  bodyInv states startAt σ name own τ →
  idOwned {[name]} (Edge.id e) → ¬ own (Edge.id e) →
  bodyInv states startAt σ name (λ id, own id ∨ id = Edge.id e)
    (push_edge e τ).
Proof.
  intros HB Ho Hno.
  eapply bodyInv_weaken;
    [|eapply (bodyInv_extend _ _ _ τ _ [Edge.id e]); [done|..]].
  - intros id [Hid | ->%list_elem_of_singleton]; auto.
  - simpl. unfold edgeIds. by rewrite fmap_app.
  - done.
  - intros key Hkey. by left.
  - apply NoDup_singleton.
  - by intros id ->%list_elem_of_singleton.
Qed.

(** A state's node is put without its layout being run (a Fail state beside
    a state that catches to it). *)
Lemma bodyInv_fail σ name own τ next n v :
  is_Some (states !! next) →
  bodyInv states startAt σ name own τ →
  bodyInv states startAt σ name own
    (set_position next v (push_node n (add_processed next τ))).
Proof.
  intros Hst [[H1 H2 H3 H4] Hf Hn [Hp Hnew] Hown].
  split; [split| | | |]; simpl; try done.
  - intros id Hid. destruct (H2 id Hid) as [?|Ho]; [by left|].
    right. eapply idOwned_mono; [|done]. set_solver.
  - intros s [->%elem_of_singleton|Hs]%elem_of_union; auto.
  - intros key Hkey.
    destruct (decide (key = next)) as [->|Hne]; [left; set_solver|].
    rewrite lookup_insert_ne in Hkey by done.
    destruct (H4 key Hkey) as [?|(p & i & t & -> & ?)]; [left; set_solver|].
    right. exists p, i, t. split; [done | set_solver].
  - set_solver.
  - split; simpl; [set_solver|].
    intros id Hid. destruct (Hnew id Hid) as [?|Ho]; [by left|].
    right. eapply idOwned_mono; [|done].
    intros s Hs. apply elem_of_difference in Hs as [Hs1 Hs2].
    apply elem_of_difference. split; [set_solver | done].
Qed.

(** A node is pushed. *)
Lemma bodyInv_node σ name own τ n :
  bodyInv states startAt σ name own τ →
  bodyInv states startAt σ name own (push_node n τ).
Proof. intros [[H1 H2 H3 H4] Hf Hn [Hp Hnew] Hown]. by split; [split|..]. Qed.

(** A call of [processState] has returned. *)
Lemma bodyInv_rec σ name own τ τ' :
  bodyInv states startAt σ name own τ →
  edgesInv states startAt τ' → newOwned τ τ' →
  bodyInv states startAt σ name own τ'.
Proof.
  intros [HI Hf Hn Hnew Hown] HI' Hnew'.
  pose proof Hnew' as [Hp' Hn'].
  split; [done | done | set_solver | by eapply newOwned_trans |].
  intros id Hid Ho. destruct (Hn' id Hid) as [Hin|Ho']; [by apply Hown|].
  exfalso.
  assert (HP : ∀ s, s ∈ ({[name]} : gset string) → tame s).
  { intros s ->%elem_of_singleton. by apply (processed_tame τ). }
  assert (HQ : ∀ s, s ∈ processedStates τ' ∖ processedStates τ →
                    tame s).
  { intros s [Hs _]%elem_of_difference.
    by apply (processed_tame τ'). }
  destruct (idOwned_meet _ _ _ HP HQ Ho Ho')
    as (s & ->%elem_of_singleton & Hs).
  set_solver.
Qed.

(** ** The ids pushed for one state *)

Lemma indexed_id_inj (name kind : string) (i j : nat) a b :
  name +:+ kind +:+ pretty i +:+ "-" +:+ a
  = name +:+ kind +:+ pretty j +:+ "-" +:+ b → i = j.
Proof.
  intros H%append_cancel%append_cancel.
  apply hyphen_split in H as [H _]; auto using pretty_nat_noHyphen.
  by apply (inj pretty).
Qed.

Lemma own_id name rest :
  is_Some (states !! name) → idOwned {[name]} (name +:+ "-" +:+ rest).
Proof. intros Hst. apply idOwned_own. by apply Hnames. Qed.

Section Bodies.

Variable rec : string → Z → Z → M Z.
Hypothesis Hrec : ∀ next x y τ r τ',
  rec next x y τ = Some (r, τ') →
  edgesInv states startAt τ →
  edgesInv states startAt τ' ∧ newOwned τ τ'.

Variable σ : layoutState.
Variable name : string.
Variable st : stateObj.
Hypothesis Hst : states !! name = Some st.

Lemma bodyInv_call own τ next x y r τ' :
  bodyInv states startAt σ name own τ →
  rec next x y τ = Some (r, τ') →
  bodyInv states startAt σ name own τ'.
Proof.
  intros HB Hrun. pose proof (bi_inv _ _ _ _ _ _ HB) as HI.
  destruct (Hrec _ _ _ _ _ _ Hrun HI) as [HI' Hnew].
  by eapply bodyInv_rec.
Qed.

Local Abbreviation catchIds := (indexedIds name "-catch-").

Lemma layoutCatch_edges x y cb index u τ r τ' :
  bodyInv states startAt σ name (catchIds index) τ →
  layoutCatch states name x y cb index u τ = Some (r, τ') →
  bodyInv states startAt σ name (catchIds (S index)) τ'.
Proof.
  intros HB Hrun. unfold layoutCatch in Hrun.
  assert (Hw : ∀ τ0, bodyInv states startAt σ name (catchIds index) τ0 →
                     bodyInv states startAt σ name (catchIds (S index)) τ0).
  { intros τ0. apply bodyInv_weaken.
    intros id (j & next & Hj & ->). exists j, next. split; [lia | done]. }
  destruct (truthy (cbNext cb)) as [next|] eqn:Hnext; [|minv; by apply Hw].
  minv.
  assert (HB1 : bodyInv states startAt σ name (catchIds (S index))
                  (push_edge (catchEdge name index next
                     match states !! next with
                     | Some t => isFail t
                     | None => false
                     end) τ)).
  { eapply bodyInv_weaken; [|apply bodyInv_push; [exact HB| |]].
    - intros id [(j & n & Hj & ->)| ->].
      + exists j, n. split; [lia | done].
      + exists index, next. split; [lia | done].
    - apply (own_id name ("catch-" +:+ pretty index +:+ "-" +:+ next)). eauto.
    - intros (j & n & Hj & Heq). simpl in Heq.
      apply indexed_id_inj in Heq. lia. }
  destruct (states !! next) as [t|] eqn:Ht; [|by minv].
  destruct (isFail t); simpl in Hrun; [|by minv].
  case_bool_decide; simpl in Hrun; minv; [done|].
  apply bodyInv_fail; [eauto | done].
Qed.

Lemma processRegular_edges x y nextY τ r τ' :
  dispatch st = KRegular →
  (∀ next, truthy (Next st) = Some next → plain next = true) →
  bodyInv states startAt σ name (λ _, False) τ →
  processRegular states rec name x y nextY st τ = Some (r, τ') →
  ∃ own, bodyInv states startAt σ name own τ'.
Proof.
  intros Hkind Hplain HB Hrun. unfold processRegular in Hrun. minv.
  assert (∃ n, bodyInv states startAt σ name (catchIds n) σ0) as [n HB0].
  { destruct (Catch st) as [rules|]; [|minv].
    - exists (length rules).
      match goal with
      | H : forEach _ _ _ _ = Some _ |- _ =>
          apply (forEach_inv
                   (λ i _ τ0, bodyInv states startAt σ name (catchIds i) τ0))
            in H; [done | |]
      end.
      + eapply bodyInv_weaken; [|exact HB]. done.
      + intros i cb s0 τ1 s1 τ2 _ HB1 Hf. by eapply layoutCatch_edges.
    - exists 0%nat. eapply bodyInv_weaken; [|exact HB]. done. }
  assert (∃ own, bodyInv states startAt σ name own σ1
            ∧ ∀ id, own id → catchIds n id ∨ ∃ next,
                truthy (Next st) = Some next ∧ id = name +:+ "-" +:+ next)
    as (own & HB1 & Hown).
  { destruct (truthy (Next st)) as [next|] eqn:Hnext.
    2:{ minv. exists (catchIds n). split; [done | by left]. }
    minv.
    exists (λ id, catchIds n id ∨ id = name +:+ "-" +:+ next). split.
    2:{ intros id [?| ->]; [by left|]. right. by exists next. }
    assert (HBe : bodyInv states startAt σ name
                    (λ id, catchIds n id ∨ id = name +:+ "-" +:+ next)
                    (push_edge (plainEdge (name +:+ "-" +:+ next)
                                  (PosId name) next "#6b7280") σ0)).
    { apply (bodyInv_push σ name (catchIds n) _
               (plainEdge (name +:+ "-" +:+ next) (PosId name) next "#6b7280"));
        [done | apply own_id; eauto |].
      intros (j & n' & _ & Heq). simpl in Heq.
      apply append_cancel in Heq.
      change ("-catch-" +:+ pretty j +:+ "-" +:+ n')
        with ("-" +:+ ("catch-" +:+ pretty j +:+ "-" +:+ n')) in Heq.
      apply append_cancel in Heq.
      pose proof (plain_noHyphen _ (Hplain _ eq_refl)) as Hh.
      by rewrite Heq in Hh. }
    case_bool_decide; minv; [done|]. by eapply bodyInv_call. }
  destruct (End_ st); minv; [|by exists own].
  exists (λ id, own id ∨ id = name +:+ "-" +:+ endNodeId name).
  apply (bodyInv_push σ name own _
           (plainEdge (name +:+ "-" +:+ endNodeId name) (PosId name)
              (endNodeId name) "#f87171"));
    [by apply bodyInv_node | apply own_id; eauto |].
  intros Ho. simpl in Ho.
  destruct (Hown _ Ho) as [(j & n' & _ & Heq)|(next & Hnext & Heq)].
  - apply append_cancel in Heq. by injection Heq.
  - apply append_cancel, append_cancel in Heq.
    pose proof (plain_noUnderscore _ (Hplain _ Hnext)) as Hu.
    by rewrite <- Heq in Hu.
Qed.

Local Abbreviation choiceIds := (indexedIds name "-choice-").

Lemma layoutChoice_edges startX nextY c index acc τ r τ' :
  bodyInv states startAt σ name (choiceIds index) τ →
  layoutChoice rec name startX nextY c index acc τ = Some (r, τ') →
  bodyInv states startAt σ name (choiceIds (S index)) τ'.
Proof.
  intros HB Hrun. unfold layoutChoice in Hrun. destruct acc as [my ts].
  assert (Hw : ∀ τ0, bodyInv states startAt σ name (choiceIds index) τ0 →
                     bodyInv states startAt σ name (choiceIds (S index)) τ0).
  { intros τ0. apply bodyInv_weaken.
    intros id (j & next & Hj & ->). exists j, next. split; [lia | done]. }
  destruct (truthy (chNext c)) as [next|] eqn:Hnext; [|minv; by apply Hw].
  case_bool_decide; [minv; by apply Hw|].
  minv.
  assert (HB1 : bodyInv states startAt σ name (choiceIds (S index))
                  (push_edge (choiceEdge name index c next) τ)).
  { eapply bodyInv_weaken; [|apply bodyInv_push; [exact HB| |]].
    - intros id [(j & n & Hj & ->)| ->].
      + exists j, n. split; [lia | done].
      + exists index, next. split; [lia | done].
    - apply (own_id name ("choice-" +:+ pretty index +:+ "-" +:+ next)). eauto.
    - intros (j & n & Hj & Heq). simpl in Heq.
      apply indexed_id_inj in Heq. lia. }
  case_bool_decide; minv; [done|]. by eapply bodyInv_call.
Qed.

Lemma processChoice_edges x nextY cs τ r τ' :
  bodyInv states startAt σ name (λ _, False) τ →
  processChoice rec name x nextY st cs τ = Some (r, τ') →
  ∃ own, bodyInv states startAt σ name own τ'.
Proof.
  intros HB Hrun. unfold processChoice in Hrun. minv.
  match goal with
  | H : forEach _ _ _ _ = Some _ |- _ =>
      apply (forEach_inv
               (λ i _ τ0, bodyInv states startAt σ name (choiceIds i) τ0))
        in H; [| by eapply bodyInv_weaken; [|exact HB] |]
  end.
  2:{ intros i c s0 τ1 s1 τ2 _ HB1 Hf. by eapply layoutChoice_edges. }
  destruct a as [my ts].
  destruct (truthy (Default st)) as [next|]; [|minv; eauto].
  case_bool_decide; [minv; eauto|].
  minv. eexists.
  assert (HBe : bodyInv states startAt σ name
                  (λ id, choiceIds (length cs) id
                         ∨ id = Edge.id (defaultEdge name next))
                  (push_edge (defaultEdge name next) σ0)).
  { apply bodyInv_push; [done | |].
    - apply (own_id name ("default-" +:+ next)). eauto.
    - intros (j & n & _ & Heq). simpl in Heq.
      apply append_cancel in Heq. by injection Heq. }
  case_bool_decide; minv; [exact HBe|]. by eapply bodyInv_call.
Qed.

Lemma branchId_not_name index t : name ≠ branchId name index t.
Proof.
  intros Heq. destruct (Hnames name ltac:(eauto)) as [_ Hu].
  apply tame_not_branch in Heq; auto.
Qed.

Lemma layoutBranch_body fuel startX nextY brs br index mb τ r τ' :
  (∀ br t, br ∈ brs → is_Some (statesOf br !! t) → noHyphen t = true) →
  brs !! index = Some br →
  bodyInv states startAt σ name (branchIds brs name index) τ →
  branchKeys brs name index τ →
  layoutBranch fuel name startX nextY br index mb τ = Some (r, τ') →
  bodyInv states startAt σ name (branchIds brs name (S index)) τ'
  ∧ branchKeys brs name (S index) τ'.
Proof.
  intros Hbranch Hbr HB HK Hrun.
  destruct (Hnames name ltac:(eauto)) as [Hname _].
  destruct (layoutBranch_edges _ _ _ _ _ _ _ _ _ _ Hrun)
    as [[-> Hinv]|(b & ts & l & k & Hb & Hids & Hnd & Hsts & Hl & Hlast
                   & Hp & Hkeys)].
  { split.
    - eapply bodyInv_weaken; [|exact HB].
      intros id (j & Hj & H). exists j. split; [lia | done].
    - intros j x' Hkey. destruct (HK j x' Hkey) as [Hj H].
      split; [lia | done]. }
  assert (Hh : ∀ t, t ∈ b :: ts → noHyphen t = true).
  { intros t Ht. eapply Hbranch; [by eapply list_elem_of_lookup_2 | by apply Hsts]. }
  assert (HhB : ∀ t, t ∈ b :: ts → noHyphen (branchId name index t) = true).
  { intros t Ht. apply noHyphen_branchId; [done | by apply Hh]. }
  assert (Hsrc : ∀ id, id ∈ chainEdgeIds (branchId name index <$> b :: ts) →
    ∃ t t', id = branchId name index t +:+ "-" +:+ ("to-" +:+ branchId name index t')
            ∧ t ∈ b :: ts ∧ t ≠ l).
  { intros id Hin.
    destruct (chainEdgeIds_src _ _ _ Hnd Hin) as (t & t' & -> & Ht & Hlt).
    exists t, t'. split_and!; [done | done |]. intros ->. by rewrite Hl in Hlt. }
  split.
  - eapply bodyInv_weaken;
      [|eapply (bodyInv_extend _ _ _ τ τ'); [exact HB | exact Hids | done | ..]].
    + intros id [(j & Hj & H)|Hin]; [exists j; split; [lia | done]|].
      exists index. split; [lia|].
      apply elem_of_cons in Hin as [->|Hin]; [left; by exists b|].
      right. destruct (Hsrc id Hin) as (t & t' & -> & Ht & Hne).
      exists t, ("to-" +:+ branchId name index t').
      split; [done|]. split; [by apply Hh|].
      intros br' b' k' l' Hbr' Hb' Hlast'.
      replace br' with br in * by congruence.
      replace b' with b in * by congruence.
      by rewrite <- (chainLast_unique _ _ _ _ _ _ Hlast Hlast').
    + intros key Hkey. destruct (Hkeys key Hkey) as [?|[x' ->]]; [by left|].
      right; right. by exists index, x'.
    + apply NoDup_cons. split.
      * intros Hin. destruct (Hsrc _ Hin) as (t & t' & Heq & Ht & _).
        change (name +:+ "-to-" +:+ branchId name index b)
          with (name +:+ "-" +:+ ("to-" +:+ branchId name index b)) in Heq.
        apply hyphen_split in Heq as [Heq _]; [|done|by apply HhB].
        by apply branchId_not_name in Heq.
      * apply chainEdgeIds_NoDup; [done | done |].
        intros t t'. apply branchId_state.
    + intros id Hin. apply elem_of_cons in Hin as [->|Hin].
      * split; [apply (own_id name ("to-" +:+ branchId name index b)); eauto|].
        intros (j & Hj & [(b' & Heq)|(t & rest & Heq & Ht & _)]).
        -- apply append_cancel, (append_cancel "-to-") in Heq.
           apply branchId_index in Heq. lia.
        -- change (name +:+ "-to-" +:+ branchId name index b)
             with (name +:+ "-" +:+ ("to-" +:+ branchId name index b)) in Heq.
           apply hyphen_split in Heq as [Heq _];
             [|done|by apply noHyphen_branchId].
           by apply branchId_not_name in Heq.
      * destruct (Hsrc id Hin) as (t & t' & -> & Ht & Hne).
        split; [apply idOwned_branch; [done | by apply Hh]|].
        intros (j & Hj & [(b' & Heq)|(t0 & rest & Heq & Ht0 & _)]).
        -- change (name +:+ "-to-" +:+ branchId name j b')
             with (name +:+ "-" +:+ ("to-" +:+ branchId name j b')) in Heq.
           apply hyphen_split in Heq as [Heq _]; [|by apply HhB|done].
           symmetry in Heq. by apply branchId_not_name in Heq.
        -- apply hyphen_split in Heq as [Heq _];
             [|by apply HhB|by apply noHyphen_branchId].
           apply branchId_index in Heq. lia.
  - intros j x' Hkey. destruct (Hkeys _ Hkey) as [Hk|[x'' Heq]].
    + destruct (HK j x' Hk) as [Hj H]. split; [lia | done].
    + apply branchId_index in Heq. subst j. split; [lia|].
      exists l, br, b, k. done.
Qed.

Lemma rejoinBranch_body brs next br index u τ0 τ r τ' :
  (∀ br t, br ∈ brs → is_Some (statesOf br !! t) → noHyphen t = true) →
  (∀ j x, is_Some (nodePositions τ0 !! branchId name j x) →
     ∃ l, isLast brs j l
          ∧ nodePositions τ0 !! branchId name j "end"
            = Some (PosId (branchId name j l))) →
  bodyInv states startAt σ name (rejoinIds brs name next index) τ →
  nodePositions τ = nodePositions τ0 →
  rejoinBranch name next br index u τ = Some (r, τ') →
  bodyInv states startAt σ name (rejoinIds brs name next (S index)) τ'
  ∧ nodePositions τ' = nodePositions τ0.
Proof.
  intros Hbranch Hends HB Hpos Hrun.
  destruct (Hnames name ltac:(eauto)) as [Hname _].
  assert (Hw : ∀ τ1, bodyInv states startAt σ name (rejoinIds brs name next index) τ1 →
                     bodyInv states startAt σ name (rejoinIds brs name next (S index)) τ1).
  { intros τ1. apply bodyInv_weaken.
    intros id [?|(j & l & Hj & H)]; [by left|].
    right. exists j, l. split; [lia | done]. }
  unfold rejoinBranch in Hrun. minv. rewrite Hpos in Hrun.
  destruct (nodePositions τ0 !! branchId name index "end") as [v|] eqn:Hv;
    [|minv; split; [by apply Hw | done]].
  destruct (Hends index "end" ltac:(by rewrite Hv))
    as (l & (br' & b & k & Hbr' & Hb & Hlast) & Hend).
  rewrite Hv in Hend. injection Hend as ->.
  rewrite entryTruthy_branchId in Hrun. minv.
  split; [|done].
  assert (Hl : noHyphen l = true).
  { eapply Hbranch; [by eapply list_elem_of_lookup_2|].
    destruct Hlast as [Hk _]. by eapply chainNth_state. }
  eapply bodyInv_weaken; [|apply bodyInv_push; [exact HB| |]].
  - intros id [[?|(j & l' & Hj & H)]| ->]; [by left | |].
    + right. exists j, l'. split; [lia | done].
    + right. exists index, l. split; [lia|]. split; [done|].
      by exists br', b, k.
  - simpl.
    apply (idOwned_branch name index l ("to-" +:+ next)); done.
  - simpl.
    change (branchId name index l +:+ "-to-" +:+ next)
      with (branchId name index l +:+ "-" +:+ ("to-" +:+ next)).
    pose proof (noHyphen_branchId name index l Hname Hl) as HhB.
    intros [(j & Hj & [(b' & Heq)|(t & rest & Heq & Ht & Hnl)])
           |(j & l' & Hj & Heq & Hl')].
    + change (name +:+ "-to-" +:+ branchId name j b')
        with (name +:+ "-" +:+ ("to-" +:+ branchId name j b')) in Heq.
      apply hyphen_split in Heq as [Heq _]; [|done|done].
      symmetry in Heq. by apply branchId_not_name in Heq.
    + apply hyphen_split in Heq as [Heq _];
        [|done|by apply noHyphen_branchId].
      pose proof (branchId_index _ _ _ _ _ Heq) as <-.
      apply branchId_state in Heq as <-.
      by apply (Hnl br' b k l).
    + destruct Hl' as (br2 & b2 & k2 & Hbr2 & Hb2 & Hlast2).
      assert (Hl2 : noHyphen l' = true).
      { eapply Hbranch; [by eapply list_elem_of_lookup_2|].
        destruct Hlast2 as [Hk2 _]. by eapply chainNth_state. }
      change (branchId name j l' +:+ "-to-" +:+ next)
        with (branchId name j l' +:+ "-" +:+ ("to-" +:+ next)) in Heq.
      apply hyphen_split in Heq as [Heq _];
        [|done|by apply noHyphen_branchId].
      apply branchId_index in Heq. lia.
Qed.

Lemma processParallel_edges fuel x nextY brs τ r τ' :
  (∀ br t, br ∈ brs → is_Some (statesOf br !! t) → noHyphen t = true) →
  bodyInv states startAt σ name (λ _, False) τ →
  branchKeys brs name 0 τ →
  processParallel rec fuel name x nextY st brs τ = Some (r, τ') →
  ∃ own, bodyInv states startAt σ name own τ'.
Proof.
  intros Hbranch HB HK Hrun. unfold processParallel in Hrun. minv.
  pose proof E as Eend.
  apply (forEach_inv
           (λ i _ τ0, bodyInv states startAt σ name (branchIds brs name i) τ0
                      ∧ branchKeys brs name i τ0)) in E.
  2:{ split; [|done]. eapply bodyInv_weaken; [|exact HB]. done. }
  2:{ intros i br s0 τ1 s1 τ2 Hi [HB1 HK1] Hf. by eapply layoutBranch_body. }
  destruct E as [HBn HKn].
  destruct (truthy (Next st)) as [next|]; [|minv; eauto].
  minv.
  assert (Hends : ∀ j x', is_Some (nodePositions σ0 !! branchId name j x') →
     ∃ l, isLast brs j l
          ∧ nodePositions σ0 !! branchId name j "end"
            = Some (PosId (branchId name j l))).
  { intros j x' Hkey. destruct (HKn j x' Hkey) as [Hj (l & Hl)].
    exists l. split; [done|].
    destruct Hl as (br & b & k & Hbr & Hb & Hlast).
    by eapply layoutBranches_end. }
  match goal with
  | H : forEach (rejoinBranch _ _) _ _ _ = Some _ |- _ =>
      apply (forEach_inv
               (λ i _ τ0,
                  bodyInv states startAt σ name (rejoinIds brs name next i) τ0
                  ∧ nodePositions τ0 = nodePositions σ0)) in H
  end.
  2:{ split; [|done]. eapply bodyInv_weaken; [|exact HBn]. by left. }
  2:{ intros i br s0 τ1 s1 τ2 Hi [HB1 HP1] Hf.
      by eapply rejoinBranch_body. }
  match goal with
  | H : bodyInv _ _ _ _ _ _ ∧ _ |- _ => destruct H as [HBr _]
  end.
  eexists. by eapply bodyInv_call.
Qed.

End Bodies.

(** ** The traversal *)

Hypothesis Hstates : ∀ s st,
  states !! s = Some st → plainState s st ∨ st = inheritedValue.

Lemma processState_edges fuel : ∀ name x y σ r σ',
  processState states fuel name x y σ = Some (r, σ') →
  edgesInv states startAt σ →
  edgesInv states startAt σ' ∧ newOwned σ σ'.
Proof.
  induction fuel as [|fuel IH]; intros name x y σ r σ' Hrun HI.
  { simpl in Hrun. minv. }
  simpl in Hrun. unfold processState_body in Hrun.
  minv. case_bool_decide as Hseen; [minv; split; [done | apply newOwned_refl]|].
  destruct (states !! name) as [st|] eqn:Hst;
    [|minv; split; [done | apply newOwned_refl]].
  minv.
  pose proof (bodyInv_init σ name x y st HI Hseen Hst) as HB.
  assert (Hkind : match dispatch st with
                  | KRegular =>
                      match truthy (Next st) with
                      | Some next => plain next = true
                      | None => True
                      end
                  | KChoice _ => True
                  | KParallel branches =>
                      Forall (λ br, map_Forall (λ t _, noHyphen t = true)
                                      (statesOf br)) branches
                  end).
  { destruct (Hstates _ _ Hst) as [[_ Hkind]| ->]; [exact Hkind | exact I]. }
  assert (∃ own, bodyInv states startAt σ name own σ') as [own HB'];
    [|by eapply bodyInv_final].
  destruct (dispatch st) as [brs|cs|] eqn:Hd.
  - eapply (processParallel_edges (processState states fuel) IH σ name st Hst);
      [| exact HB | | exact Hrun].
    + intros br t Hbr Ht. rewrite Forall_forall in Hkind.
      destruct Ht as [bst Ht]. by apply (Hkind br Hbr t bst).
    + intros j x' Hkey. exfalso. simpl in Hkey.
      rewrite lookup_insert_ne in Hkey
        by apply (branchId_not_name name st Hst).
      destruct (ei_keys _ _ _ HI _ Hkey) as [Hin|(p & i & t & Heq & Hin)].
      * apply (processed_tame σ) in Hin; [|done].
        assert (Hp : tame name) by (apply Hnames; eauto).
        by apply (tame_not_branch _ name j x' Hin Hp).
      * apply tame_parent in Heq;
          [| apply Hnames; eauto
           | by apply (processed_tame σ)].
        by subst.
  - by eapply (processChoice_edges (processState states fuel) IH σ name st Hst).
  - eapply (processRegular_edges (processState states fuel) IH σ name st Hst);
      [done | | exact HB | exact Hrun].
    intros next Hnext. by rewrite Hnext in Hkind.
Qed.

End Edges.

Lemma plainDefinition_spec states s st :
  plainDefinition states = true → states !! s = Some st → plainState s st.
Proof.
  unfold plainDefinition. intros H%bool_decide_eq_true Hst. by apply (H s st).
Qed.

Lemma inherited_noHyphen s : s ∈ Object_prototype → noHyphen s = true.
Proof.
  unfold Object_prototype. intros Hin.
  repeat (apply elem_of_cons in Hin as [->|Hin]);
    [..|by apply elem_of_nil in Hin]; reflexivity.
Qed.

Lemma parseStateMachine_edge_ids JSON_parse fuel input m g :
  definitionOf JSON_parse input = Some m →
  parseStateMachine JSON_parse fuel input = Returns g →
  plainDefinition (ownStates m) = true →
  NoDup (edgeIds (g_edges g)).
Proof.
  intros Hm Hrun Hplain.
  destruct (parseStateMachine_settled _ _ _ _ _ Hm Hrun)
    as [[-> _]|(startAt & σ & _ & -> & _ & _ & _ & _ & r & Hcall)];
    [apply NoDup_nil_2|].
  simpl.
  apply (processState_edges (statesOf m) startAt) in Hcall as [HI _].
  - apply (ei_nodup _ _ _ HI).
  - intros s [st [Hst|(_ & Hin & _)]%statesOf_Some].
    + destruct (plainDefinition_spec _ _ _ Hplain Hst) as [Hs _].
      split; [by apply plain_noHyphen | left; by apply plain_noUnderscore].
    + split; [by apply inherited_noHyphen | by right].
  - intros s st [Hst|(_ & _ & ->)]%statesOf_Some; [left | by right].
    by eapply plainDefinition_spec.
  - split; simpl.
    + apply NoDup_singleton.
    + intros id ->%list_elem_of_singleton. by left.
    + intros s Hs. by apply elem_of_empty in Hs.
    + intros key [v Hkey]. by rewrite lookup_empty in Hkey.
Qed.

(** X27: the ids of the edges of the returned graph are pairwise distinct,
    when the names are plain: no name of a state of the definition holds a
    hyphen or an underscore, neither does the [Next] of a state laid out by
    the regular path, and no name of a state of a branch of a Parallel state
    holds a hyphen. *)
Theorem edge_ids_distinct JSON_parse fuel input m g :
  definitionOf JSON_parse input = Some m →
  parseStateMachine JSON_parse fuel input = Returns g →
  plainDefinition (ownStates m) = true →
  NoDup (edgeIds (g_edges g)).
Proof. apply parseStateMachine_edge_ids. Qed.

(** X27 on a Parallel state with two branches and a successor. *)
Lemma edge_ids_distinct_witness :
  ∃ g, parseStateMachine rejectAll 2 (InObject rejoinExample) = Returns g
    ∧ length (g_edges g) = 8%nat
    ∧ NoDup (edgeIds (g_edges g)).
Proof.
  pose (g := match parseStateMachine rejectAll 2 (InObject rejoinExample) with
             | Returns g => g
             | _ => emptyGraph
             end).
  exists g. split; [vm_compute; reflexivity|].
  split; [vm_compute; reflexivity|].
  apply (edge_ids_distinct rejectAll 2 (InObject rejoinExample) rejoinExample g).
  - reflexivity.
  - vm_compute; reflexivity.
  - vm_compute; reflexivity.
Defined.

(** The condition on the names cannot be dropped: with hyphens in names, the
    edge from [A-B] to [C] and the edge from [A] to [B-C] share their id. *)
Lemma hyphen_names_collide :
  ∃ g, parseStateMachine rejectAll 4 (InObject hyphenNames) = Returns g
    ∧ ¬ NoDup (edgeIds (g_edges g)).
Proof.
  eexists. split; [vm_compute; reflexivity|].
  intros Hnd. vm_compute in Hnd.
  apply NoDup_cons in Hnd as [_ Hnd]. apply NoDup_cons in Hnd as [Hnd _].
  apply Hnd. apply list_elem_of_In. simpl. auto.
Qed.


(** * A sequence of states is drawn as one column *)

Lemma follows_spec states startAt : ∀ rest s,
  follows states startAt s rest = true →
  (∀ i t, (s :: rest) !! i = Some t →
     ∃ st, states !! t = Some st ∧ dispatch st = KRegular ∧ isFail st = false)
  ∧ (∀ i a b st,
       (s :: rest) !! i = Some a → (s :: rest) !! S i = Some b →
       states !! a = Some st →
       truthy (Next st) = Some b ∧ b ≠ startAt ∧ referrers states b = [a]).
Proof.
  induction rest as [|t rest IH]; intros s Hf; simpl in Hf.
  all: destruct (states !! s) as [st|] eqn:Hst; [|done].
  all: apply andb_prop in Hf as [[Hk Hfail]%andb_prop Hrest].
  all: apply negb_true_iff in Hfail.
  all: assert (Hkind : dispatch st = KRegular) by (by destruct (dispatch st)).
  - split.
    + intros [|i] t Hi; [|done]. injection Hi as <-. eauto.
    + intros [|i] a b st' Ha Hb; done.
  - apply andb_prop in Hrest as [[[Hn Hne]%andb_prop Href]%andb_prop Hrest].
    apply bool_decide_eq_true in Hn, Hne, Href.
    destruct (IH t Hrest) as [IH1 IH2]. split.
    + intros [|i] u Hi; [injection Hi as <-; eauto|]. by apply (IH1 i).
    + intros [|i] a b st' Ha Hb Hst'.
      * injection Ha as <-. injection Hb as <-.
        replace st' with st by congruence. done.
      * by apply (IH2 i a b st').
Qed.

(** X28: a definition that runs through a sequence of states (each laid out
    by the regular path, not a Fail state, the [Next] of the one before it
    and led to by no other state, the first being the start state) has them
    drawn in one column under the entry marker, one row apart: the [i]-th
    state of the sequence, counted from 0, has its node at
    [(0, (i + 1) * VERTICAL_SPACING)]. *)
Theorem sequence_in_column JSON_parse fuel input m g startAt names i s st :
  definitionOf JSON_parse input = Some m →
  parseStateMachine JSON_parse fuel input = Returns g →
  truthy (StartAt m) = Some startAt →
  straightLine (statesOf m) startAt names = true →
  names !! i = Some s → ownStates m !! s = Some st →
  mainNode s 0 (VERTICAL_SPACING * (Z.of_nat i + 1)) st ∈ g_nodes g.
Proof.
  intros Hm Hrun Hstart Hline Hi Hown.
  pose proof (statesOf_own _ _ _ Hown) as Hst.
  assert (names !! 0%nat = Some startAt
    ∧ (∀ i s, names !! i = Some s →
         ∃ st, statesOf m !! s = Some st ∧ dispatch st = KRegular
               ∧ isFail st = false)
    ∧ (∀ i s t st,
         names !! i = Some s → names !! S i = Some t →
         statesOf m !! s = Some st →
         truthy (Next st) = Some t ∧ t ≠ startAt
         ∧ referrers (statesOf m) t = [s])) as (H0 & Hreg & Hnext).
  { destruct names as [|s0 rest]; [done|]. simpl in Hline.
    apply andb_prop in Hline as [->%bool_decide_eq_true Hf].
    destruct (follows_spec _ _ _ _ Hf) as [H1 H2]. done. }
  destruct (parseStateMachine_settled _ _ _ _ _ Hm Hrun)
    as [[_ [He|He]]|(startAt' & σ & Hstart' & Hg & HF & Hset & _ & _ & r & Hcall)].
  { congruence. }
  { by apply ownStates_size in Hown. }
  rewrite Hstart in Hstart'. injection Hstart' as <-.
  assert (Hall : reachable (statesOf m) startAt s
                 ∧ mainNode s 0 (VERTICAL_SPACING * (Z.of_nat i + 1)) st
                   ∈ nodes σ); [|subst g; by destruct Hall].
  clear Hown. revert s st Hi Hst. induction i as [|i IH]; intros t tst Hi Ht.
  - rewrite H0 in Hi. injection Hi as <-.
    split; [apply reachable_start; eauto|].
    destruct (start_state_second _ _ _ _ _ _ Hcall Ht) as [ns Hns].
    rewrite Hns. apply elem_of_cons. right. apply elem_of_cons. by left.
  - assert (is_Some (names !! i)) as [s Hs].
    { apply lookup_lt_is_Some. apply lookup_lt_Some in Hi. lia. }
    destruct (Hreg i s Hs) as (st & Hst & Hkind & Hfail).
    destruct (IH s st Hs Hst) as [Hr HnS].
    destruct (Hnext i s t st Hs Hi Hst) as (Hn & Hne & Href).
    destruct (Hreg (S i) t Hi) as (tst' & Ht' & Hkind' & Hfail').
    replace tst' with tst in * by congruence.
    assert (Hrt : reachable (statesOf m) startAt t).
    { eapply reachable_step; [exact Hr | exact Hst | | eauto].
      unfold transitions, successors. rewrite Hfail, Hkind, Hn.
      by apply list_elem_of_singleton. }
    split; [done|].
    pose proof (final_reachable _ _ _ HF t Hrt) as Hp.
    apply (final_processed _ _ _ HF), elem_of_stateNodeIds in Hp
      as (nT & HnT & HsT & HidT).
    destruct (stateNode_completed _ _ _ _ tst HF Hset HnT HsT)
      as (x' & y' & HeqT & _); [by rewrite HidT | done |].
    rewrite HidT in HeqT.
    pose proof (sole_referrer_site JSON_parse fuel input m g s st t tst
                  (mainNode s 0 (VERTICAL_SPACING * (Z.of_nat i + 1)) st) nT
                  Hm Hrun Hst Ht) as Hsite.
    rewrite Hg in Hsite. simpl in Hsite.
    specialize (Hsite ltac:(congruence) Href ltac:(congruence) HnS eq_refl
                  eq_refl HnT HsT HidT).
    rewrite HeqT in Hsite. simpl in Hsite.
    rewrite HeqT in HnT.
    inversion Hsite; subst; try congruence.
    replace (VERTICAL_SPACING * (Z.of_nat (S i) + 1))
      with (VERTICAL_SPACING * (Z.of_nat i + 1) + VERTICAL_SPACING)
      by (unfold VERTICAL_SPACING; lia).
    done.
Qed.

(** X28 on three Pass states in a row: the third is at [(0, 300)]. *)
Lemma sequence_in_column_witness :
  ∃ g, parseStateMachine rejectAll 3 (InObject threeSteps) = Returns g
    ∧ VERTICAL_SPACING * (Z.of_nat 2 + 1) = 300
    ∧ mainNode "C" 0 (VERTICAL_SPACING * (Z.of_nat 2 + 1)) (pass None true)
      ∈ g_nodes g.
Proof.
  pose (g := match parseStateMachine rejectAll 3 (InObject threeSteps) with
             | Returns g => g
             | _ => emptyGraph
             end).
  exists g. split; [vm_compute; reflexivity|]. split; [reflexivity|].
  apply (sequence_in_column rejectAll 3 (InObject threeSteps) threeSteps g
           "A" ["A"; "B"; "C"] 2 "C" (pass None true)).
  - reflexivity.
  - vm_compute; reflexivity.
  - reflexivity.
  - vm_compute; reflexivity.
  - reflexivity.
  - vm_compute; reflexivity.
Defined.


(** * The edges of the branches: where a rejoin edge starts *)

(** ** What the loops over the branches push *)

Lemma walkBranch_strokes fuel : ∀ bs name index bx cur prev by_ σ r σ' e,
  walkBranch fuel bs name index bx cur prev by_ σ = Some (r, σ') →
  e ∈ edges σ' → e ∈ edges σ ∨ Edge.stroke e = "#6b7280".
Proof.
  induction fuel as [|fuel IH];
    intros bs name index bx cur prev by_ σ r σ' e Hrun He.
  all: simpl in Hrun.
  all: destruct (truthy (Next cur)) as [n|]; [|minv; by left].
  all: destruct (bs !! n) as [nst|]; [|minv; by left].
  all: minv.
  destruct (IH _ _ _ _ _ _ _ _ _ _ _ Hrun He) as [Hin|?]; [|by right].
  simpl in Hin. apply elem_of_app in Hin as [?| ->%list_elem_of_singleton];
    [by left | by right].
Qed.

Lemma layoutBranch_strokes fuel name startX nextY br index mb σ r σ' e :
  layoutBranch fuel name startX nextY br index mb σ = Some (r, σ') →
  e ∈ edges σ' →
  e ∈ edges σ ∨ Edge.stroke e = "#6b7280"
  ∨ ∃ b, truthy (StartAt br) = Some b ∧ is_Some (statesOf br !! b)
         ∧ e = entryEdge name index b.
Proof.
  intros Hrun He. unfold layoutBranch in Hrun.
  destruct (truthy (StartAt br)) as [b|] eqn:Hb; [|minv; by left].
  destruct (statesOf br !! b) as [bst|] eqn:Hbst; [|minv; by left].
  minv. simpl in He.
  match goal with
  | H : walkBranch _ _ _ _ _ _ _ _ _ = Some _ |- _ =>
      destruct (walkBranch_strokes _ _ _ _ _ _ _ _ _ _ _ _ H He) as [Hin|?];
        [|by right; left]
  end.
  simpl in Hin. apply elem_of_app in Hin as [?| ->%list_elem_of_singleton];
    [by left|].
  right; right. exists b. split_and!; [done | eauto | done].
Qed.

(** The first loop: the edges into the branches and along them; the keys
    it sets are scoped to a branch that has a chain. *)
Lemma layoutBranches_pushed fuel name startX nextY brs mb σ r σ' :
  forEach (layoutBranch fuel name startX nextY) brs mb σ = Some (r, σ') →
  (∀ e, e ∈ edges σ' →
     e ∈ edges σ ∨ Edge.stroke e = "#6b7280"
     ∨ ∃ index br b, brs !! index = Some br ∧ truthy (StartAt br) = Some b
         ∧ is_Some (statesOf br !! b) ∧ e = entryEdge name index b)
  ∧ processedStates σ' = processedStates σ
  ∧ (∀ key, is_Some (nodePositions σ' !! key) →
       is_Some (nodePositions σ !! key)
       ∨ ∃ index x br b k l,
           key = branchId name index x ∧ brs !! index = Some br
           ∧ truthy (StartAt br) = Some b ∧ chainLast (statesOf br) b k l).
Proof.
  intros Hrun.
  apply (forEach_inv (λ _ _ τ,
    (∀ e, e ∈ edges τ →
       e ∈ edges σ ∨ Edge.stroke e = "#6b7280"
       ∨ ∃ index br b, brs !! index = Some br ∧ truthy (StartAt br) = Some b
           ∧ is_Some (statesOf br !! b) ∧ e = entryEdge name index b)
    ∧ processedStates τ = processedStates σ
    ∧ (∀ key, is_Some (nodePositions τ !! key) →
         is_Some (nodePositions σ !! key)
         ∨ ∃ index x br b k l,
             key = branchId name index x ∧ brs !! index = Some br
             ∧ truthy (StartAt br) = Some b ∧ chainLast (statesOf br) b k l)))
    in Hrun; [done | |].
  - split_and!; [by left | done | by left].
  - intros i br s τ1 s1 τ2 Hi (He & Hp & Hk) Hf. split_and!.
    + intros e Hin.
      destruct (layoutBranch_strokes _ _ _ _ _ _ _ _ _ _ _ Hf Hin)
        as [Hold|[?|(b & Hb & Hbst & ->)]].
      * by apply He.
      * by right; left.
      * right; right. by exists i, br, b.
    + destruct (layoutBranch_edges _ _ _ _ _ _ _ _ _ _ Hf)
        as [[-> _]|(b & ts & l & k & _ & _ & _ & _ & _ & _ & Hp' & _)];
        [done | congruence].
    + intros key Hkey.
      destruct (layoutBranch_edges _ _ _ _ _ _ _ _ _ _ Hf)
        as [[-> _]|(b & ts & l & k & Hb & _ & _ & _ & _ & Hlast & _ & Hkeys)];
        [by apply Hk|].
      destruct (Hkeys key Hkey) as [Hold|[x ->]]; [by apply Hk|].
      right. by exists i, x, br, b, k, l.
Qed.

(** The second loop: one edge for every branch whose end is recorded. *)
Lemma rejoin_pushed name next brs u σ r σ' :
  forEach (rejoinBranch name next) brs u σ = Some (r, σ') →
  nodePositions σ' = nodePositions σ
  ∧ processedStates σ' = processedStates σ
  ∧ ∀ e, e ∈ edges σ' →
      e ∈ edges σ
      ∨ ∃ index v, (index < length brs)%nat
          ∧ nodePositions σ !! branchId name index "end" = Some v
          ∧ entryTruthy v = true
          ∧ e = plainEdge (entryString v +:+ "-to-" +:+ next) v next "#a78bfa".
Proof.
  intros Hrun.
  apply (forEach_inv (λ _ _ τ,
    nodePositions τ = nodePositions σ
    ∧ processedStates τ = processedStates σ
    ∧ ∀ e, e ∈ edges τ →
        e ∈ edges σ
        ∨ ∃ index v, (index < length brs)%nat
            ∧ nodePositions σ !! branchId name index "end" = Some v
            ∧ entryTruthy v = true
            ∧ e = plainEdge (entryString v +:+ "-to-" +:+ next) v next
                    "#a78bfa"))
    in Hrun; [done | by split_and!; [| |left] |].
  intros i br s τ1 s1 τ2 Hi (Hpos & Hp & He) Hf.
  unfold rejoinBranch in Hf. minv. rewrite Hpos in Hf.
  destruct (nodePositions σ !! branchId name i "end") as [v|] eqn:Hv;
    [|minv; by split_and!].
  destruct (entryTruthy v) eqn:Hv'; minv; [|by split_and!].
  split_and!; [done | done |]. simpl.
  intros e [Hin| ->%list_elem_of_singleton]%elem_of_app; [by apply He|].
  right. exists i, v. split_and!; [by eapply lookup_lt_Some | done..].
Qed.

(** ** The invariant *)

Section Branches.

Variable states : gmap string stateObj.
Hypothesis Hnames : ∀ s, is_Some (states !! s) → tame s.

Lemma rejoinInv_edge σ e :
  Edge.stroke e ≠ "#a78bfa" → rejoinInv states σ →
  rejoinInv states (push_edge e σ).
Proof.
  intros Hs [H1 H2 H3]. split; [|done|done]. simpl.
  intros e' [Hin| ->%list_elem_of_singleton]%elem_of_app; [by apply H1|done].
Qed.

Lemma rejoinInv_node σ n : rejoinInv states σ → rejoinInv states (push_node n σ).
Proof. intros [H1 H2 H3]. by split. Qed.

(** A name is processed and gets its position. *)
Lemma rejoinInv_placed σ name v :
  is_Some (states !! name) → rejoinInv states σ →
  rejoinInv states (set_position name v (add_processed name σ)).
Proof.
  intros Hst [H1 H2 H3]. split; simpl.
  - done.
  - intros s [->%elem_of_singleton|Hs]%elem_of_union; auto.
  - intros key Hkey. destruct (decide (key = name)) as [->|Hne];
      [left; set_solver|].
    rewrite lookup_insert_ne in Hkey by done.
    destruct (H3 key Hkey) as [?|(p & i & x & -> & ?)]; [left; set_solver|].
    right. exists p, i, x. split; [done | set_solver].
Qed.

(** Before a state is laid out, no key is scoped to it. *)
Lemma rejoinInv_fresh σ name index x :
  rejoinInv states σ → is_Some (states !! name) →
  name ∉ processedStates σ →
  nodePositions σ !! branchId name index x = None.
Proof.
  intros [_ H2 H3] Hst Hfresh.
  destruct (nodePositions σ !! branchId name index x) as [v|] eqn:Hv; [|done].
  exfalso. destruct (H3 (branchId name index x)) as [Hin|(p & i & y & Heq & Hin)];
    [eauto | |].
  - apply H2, Hnames in Hin.
    by apply (tame_not_branch _ name index x Hin (Hnames _ Hst)).
  - apply tame_parent in Heq; [| by apply Hnames | by apply Hnames, H2].
    by subst.
Qed.

Lemma processState_branches fuel : ∀ name x y σ r σ',
  processState states fuel name x y σ = Some (r, σ') →
  rejoinInv states σ → rejoinInv states σ'.
Proof.
  induction fuel as [|fuel IH]; intros name x y σ r σ' Hrun HI.
  { simpl in Hrun. minv. }
  simpl in Hrun. unfold processState_body in Hrun.
  minv. case_bool_decide as Hseen; [by minv|].
  destruct (states !! name) as [st|] eqn:Hst; [|by minv].
  minv.
  assert (Hsome : is_Some (states !! name)) by eauto.
  assert (H1 : rejoinInv states
    (set_position name (PosXY (mkPos x y))
       (push_node (mainNode name x y st) (add_processed name σ)))).
  { apply (rejoinInv_placed (push_node (mainNode name x y st) σ)); [done|].
    by apply rejoinInv_node. }
  assert (Hfresh : ∀ index z,
    nodePositions (set_position name (PosXY (mkPos x y))
       (push_node (mainNode name x y st) (add_processed name σ)))
      !! branchId name index z = None).
  { intros index z. simpl. rewrite lookup_insert_ne.
    - by apply rejoinInv_fresh.
    - apply (tame_not_branch name name index z); by apply Hnames. }
  destruct (dispatch st) as [brs|cs|] eqn:Hkind.
  - (* Parallel *)
    unfold processParallel in Hrun. minv.
    match goal with
    | H : forEach (layoutBranch _ _ _ _) _ _ _ = Some _ |- _ =>
        pose proof (layoutBranches_end _ _ _ _ _ _ _ _ _ H) as Hend;
        apply layoutBranches_pushed in H as (He & Hp & Hk)
    end.
    assert (Hname : name ∈ processedStates σ0).
    { rewrite Hp. simpl. set_solver. }
    assert (H2 : rejoinInv states σ0).
    { destruct H1 as [G1 G2 G3]. split.
      - intros e Hin Hs.
        destruct (He e Hin) as [?|[Hg|(i & br & b & Hbr & Hb & Hbst & ->)]];
          [by apply G1 | by rewrite Hg in Hs |].
        by eapply branch_entry.
      - intros s Hs. rewrite Hp in Hs. by apply G2.
      - intros key Hkey.
        destruct (Hk key Hkey) as [Hold|(i & z & _ & _ & _ & _ & -> & _)].
        + rewrite Hp. by apply G3.
        + right. by exists name, i, z. }
    destruct (truthy (Next st)) as [next|] eqn:Hnext; [|by minv].
    minv.
    match goal with
    | H : forEach (rejoinBranch _ _) _ _ _ = Some _ |- _ =>
        apply rejoin_pushed in H as (Hpos & Hp' & He')
    end.
    eapply IH; [exact Hrun|].
    destruct H2 as [G1 G2 G3]. split.
    + intros e Hin Hs.
      destruct (He' e Hin) as [?|(i & v & Hi & Hv & Hv' & ->)];
        [by apply G1|].
      destruct (Hk (branchId name i "end")) as [Hold|Hnew]; [eauto | |].
      { rewrite Hfresh in Hold. by destruct Hold. }
      destruct Hnew as (j & z & br & b & k & l & Heq & Hbr & Hb & Hlast).
      apply branchId_inj in Heq as [-> _].
      rewrite (Hend _ _ _ _ _ Hbr Hb Hlast) in Hv. injection Hv as <-.
      by eapply (branch_rejoin states name st brs j br b k l next).
    + intros s Hs. rewrite Hp' in Hs. by apply G2.
    + intros key Hkey. rewrite Hpos in Hkey. rewrite Hp'. by apply G3.
  - (* Choice *)
    unfold processChoice in Hrun. minv.
    match goal with
    | H : forEach (layoutChoice _ _ _ _) _ _ _ = Some _ |- _ =>
        apply (forEach_inv (λ _ _ τ, rejoinInv states τ)) in H; [|done|]
    end.
    2:{ intros i c s τ1 s1 τ2 _ Hτ Hf. unfold layoutChoice in Hf.
        destruct s as [my ts].
        destruct (truthy (chNext c)) as [next|]; [|by minv].
        case_bool_decide; [by minv|]. minv.
        case_bool_decide; minv; [by apply rejoinInv_edge|].
        eapply IH; [done|]. by apply rejoinInv_edge. }
    destruct a as [my ts].
    destruct (truthy (Default st)) as [next|]; [|by minv].
    case_bool_decide; [by minv|]. minv.
    case_bool_decide; minv; [by apply rejoinInv_edge|].
    eapply IH; [done|]. by apply rejoinInv_edge.
  - (* regular *)
    unfold processRegular in Hrun. minv.
    assert (H2 : rejoinInv states σ0).
    { destruct (Catch st) as [rules|]; [|by minv].
      match goal with
      | H : forEach _ _ _ _ = Some _ |- _ =>
          apply (forEach_inv (λ _ _ τ, rejoinInv states τ)) in H; [done|done|]
      end.
      intros i cb s τ1 s1 τ2 _ Hτ Hf. unfold layoutCatch in Hf.
      destruct (truthy (cbNext cb)) as [next|]; [|by minv].
      minv.
      destruct (states !! next) as [t|] eqn:Ht;
        [|minv; by apply rejoinInv_edge].
      destruct (isFail t); simpl in Hf; [|minv; by apply rejoinInv_edge].
      case_bool_decide; simpl in Hf; minv; [by apply rejoinInv_edge|].
      apply (rejoinInv_placed
               (push_node (failNode next (x + HORIZONTAL_SPACING) y t)
                  (push_edge _ τ1))); [eauto|].
      by apply rejoinInv_node, rejoinInv_edge. }
    assert (H3 : rejoinInv states σ1).
    { destruct (truthy (Next st)) as [next|]; [|by minv].
      minv. case_bool_decide; minv; [by apply rejoinInv_edge|].
      eapply IH; [done|]. by apply rejoinInv_edge. }
    destruct (End_ st); minv; [|done].
    by apply rejoinInv_edge, rejoinInv_node.
Qed.

End Branches.

Lemma rejoinInv_initial states startAt : rejoinInv states (initialLayout startAt).
Proof.
  split; simpl.
  - by intros e ->%list_elem_of_singleton.
  - by intros s ?%elem_of_empty.
  - intros key [v Hv]. by rewrite lookup_empty in Hv.
Qed.

(** When no key of [States] holds an underscore, every edge of the returned
    graph with the stroke of the branches leads into a branch or is the
    rejoin edge of a branch, from the node of the last state of its chain. *)
Lemma parseStateMachine_branches JSON_parse fuel input m g e :
  definitionOf JSON_parse input = Some m →
  parseStateMachine JSON_parse fuel input = Returns g →
  plainNames (ownStates m) = true →
  e ∈ g_edges g → Edge.stroke e = "#a78bfa" →
  branchEdge (statesOf m) e.
Proof.
  intros Hm Hrun Hplain He Hs.
  destruct (parseStateMachine_settled _ _ _ _ _ Hm Hrun)
    as [[-> _]|(startAt & σ & _ & -> & _ & _ & _ & _ & r & Hcall)];
    [by apply elem_of_nil in He|].
  apply (processState_branches (statesOf m)) in Hcall.
  - by apply (ri_edges _ _ Hcall).
  - intros s. by apply plainNames_tame.
  - apply rejoinInv_initial.
Qed.


(** * The claims on Choice targets, catch targets and the rejoin *)

(** ** C7: the edge of a target of a Choice state *)

Lemma choiceIndex_lt cs t c index :
  cs !! index = Some c → truthy (chNext c) = Some t →
  (choiceIndex cs t ≤ index)%nat.
Proof.
  revert index. induction cs as [|c0 cs IH]; intros index Hc Ht; [done|].
  simpl. case_bool_decide; [lia|].
  destruct index as [|index]; simpl in Hc; [congruence|].
  specialize (IH index Hc Ht). lia.
Qed.

Lemma choiceIndex_names cs t c :
  cs !! choiceIndex cs t = Some c → truthy (chNext c) = Some t.
Proof.
  induction cs as [|c0 cs IH]; [done|]. simpl.
  case_bool_decide; simpl; [congruence | done].
Qed.

(** The index of the first rule that names [t]. *)
Lemma choiceIndex_here cs index c t :
  cs !! index = Some c → truthy (chNext c) = Some t →
  (∀ j c', (j < index)%nat → cs !! j = Some c' →
     truthy (chNext c') ≠ Some t) →
  choiceIndex cs t = index.
Proof.
  intros Hc Ht Hfirst.
  pose proof (choiceIndex_lt _ _ _ _ Hc Ht) as Hle.
  destruct (decide (choiceIndex cs t = index)) as [|Hne]; [done|exfalso].
  assert (Hlt : (choiceIndex cs t < index)%nat) by lia.
  destruct (lookup_lt_is_Some_2 cs (choiceIndex cs t)) as [c' Hc'].
  { apply lookup_lt_Some in Hc. lia. }
  apply (Hfirst _ _ Hlt Hc'). by eapply choiceIndex_names.
Qed.

Lemma choiceIndex_absent cs t :
  (∀ j c', cs !! j = Some c' → truthy (chNext c') ≠ Some t) →
  cs !! choiceIndex cs t = None.
Proof.
  intros Hnone. destruct (cs !! choiceIndex cs t) as [c|] eqn:Hc; [|done].
  exfalso. apply (Hnone _ _ Hc). by eapply choiceIndex_names.
Qed.

Section FanEdges.

Variable rec : string → Z → Z → M Z.
Hypothesis Hrec : ∀ next x y σ r σ',
  rec next x y σ = Some (r, σ') → grows σ σ'.

(** The loop over the rules: [choiceTargets] holds the targets of the rules
    seen, each with the edge of the first rule that names it. *)
Lemma layoutChoices_first name startX nextY cs my σ acc σ' :
  forEach (layoutChoice rec name startX nextY) cs (my, ∅) σ = Some (acc, σ') →
  grows σ σ'
  ∧ (∀ t, t ∈ acc.2 ↔ ∃ j c, cs !! j = Some c ∧ truthy (chNext c) = Some t)
  ∧ (∀ t, t ∈ acc.2 → fanEdge name cs t ∈ edges σ').
Proof.
  intros Hrun.
  apply (forEach_inv (λ i (s : Z * gset string) τ,
    grows σ τ
    ∧ (∀ t, t ∈ s.2 ↔ ∃ j c, (j < i)%nat ∧ cs !! j = Some c
                              ∧ truthy (chNext c) = Some t)
    ∧ (∀ t, t ∈ s.2 → fanEdge name cs t ∈ edges τ))) in Hrun.
  - destruct Hrun as (Hg & Hts & He). split_and!; [done | | done].
    intros t. rewrite Hts. split.
    + intros (j & c & _ & ? & ?). eauto.
    + intros (j & c & Hc & ?). exists j, c.
      split_and!; [by eapply lookup_lt_Some | done..].
  - split_and!; [apply grows_refl | | set_solver].
    intros t. split; [set_solver|]. intros (j & c & ? & _); lia.
  - intros i c [my1 ts] τ1 s1 τ2 Hi (Hg & Hts & He) Hf.
    simpl in Hts, He. unfold layoutChoice in Hf.
    assert (Hnext : ∀ ts' : gset string,
      (∀ t, t ∈ ts' ↔ t ∈ ts ∨ truthy (chNext c) = Some t) →
      ∀ t, t ∈ ts' ↔ ∃ j c', (j < S i)%nat ∧ cs !! j = Some c'
                             ∧ truthy (chNext c') = Some t).
    { intros ts' Hts' t. rewrite Hts', Hts. split.
      - intros [(j & c' & ? & ? & ?)|?].
        + exists j, c'. split_and!; [lia | done..].
        + exists i, c. split_and!; [lia | done..].
      - intros (j & c' & Hj & Hc' & Ht).
        destruct (decide (j = i)) as [->|Hne].
        + right. congruence.
        + left. exists j, c'. split_and!; [lia | done..]. }
    destruct (truthy (chNext c)) as [next|] eqn:Hn.
    2:{ minv. split_and!; [done | | done]. apply Hnext. intros t. simpl.
        split; [by left | by intros [?|?]]. }
    case_bool_decide as Hin.
    { minv. split_and!; [done | | done]. apply Hnext. intros t. simpl.
      split; [by left | intros [?|[= <-]]; done]. }
    assert (Hfirst : choiceIndex cs next = i).
    { apply (choiceIndex_here cs i c next Hi Hn).
      intros j c' Hj Hc' Ht. apply Hin, Hts. by exists j, c'. }
    assert (Hedge : fanEdge name cs next = choiceEdge name i c next).
    { unfold fanEdge. by rewrite Hfirst, Hi. }
    clear Hfirst. minv.
    assert (Hall : ∀ τ, grows (push_edge (choiceEdge name i c next) τ1) τ →
      grows σ τ
      ∧ (∀ t, t ∈ {[next]} ∪ ts ↔
              ∃ j c', (j < S i)%nat ∧ cs !! j = Some c'
                      ∧ truthy (chNext c') = Some t)
      ∧ (∀ t, t ∈ {[next]} ∪ ts → fanEdge name cs t ∈ edges τ)).
    { intros τ Hτ. split_and!.
      - eapply grows_trans; [done|].
        eapply grows_trans; [apply grows_push_edge | done].
      - apply Hnext. intros t. rewrite elem_of_union, elem_of_singleton.
        split; [intros [->|?]; [by right | by left]
               |intros [?|[= <-]]; [by right | by left]].
      - intros t [->%elem_of_singleton|Ht]%elem_of_union.
        + rewrite Hedge. eapply grows_edges; [done|]. simpl.
          apply elem_of_app. right. by apply list_elem_of_singleton.
        + eapply grows_edges; [done|]. simpl. apply elem_of_app. left. auto. }
    case_bool_decide; minv; simpl.
    + apply Hall, grows_refl.
    + apply Hall. by eapply Hrec.
Qed.

Lemma processChoice_first name x nextY st cs σ r σ' t :
  processChoice rec name x nextY st cs σ = Some (r, σ') →
  dispatch st = KChoice cs → t ∈ successors st →
  fanEdge name cs t ∈ edges σ'.
Proof.
  intros Hrun Hkind Ht. unfold processChoice in Hrun. minv.
  match goal with
  | H : forEach _ _ _ _ = Some _ |- _ =>
      apply layoutChoices_first in H as (Hg & Hts & He)
  end.
  destruct a as [my ts]. simpl in Hts, He.
  unfold successors in Ht. rewrite Hkind in Ht.
  assert (Hrule : t ∈ ts → ∀ τ, grows σ0 τ → fanEdge name cs t ∈ edges τ).
  { intros Hin τ Hτ. eapply grows_edges; [done|]. by apply He. }
  apply elem_of_app in Ht as [Ht|Ht].
  - apply list_elem_of_omap in Ht as (c & Hc & Hn).
    apply list_elem_of_lookup_1 in Hc as [j Hj].
    assert (Hin : t ∈ ts) by (apply Hts; eauto).
    destruct (truthy (Default st)) as [next|]; [|minv; by apply Hrule, grows_refl].
    case_bool_decide; [minv; by apply Hrule, grows_refl|].
    minv. case_bool_decide; minv.
    + apply Hrule; [done|]. apply grows_push_edge.
    + apply Hrule; [done|].
      eapply grows_trans; [apply grows_push_edge | by eapply Hrec].
  - destruct (truthy (Default st)) as [next|] eqn:Hd;
      [|by apply elem_of_nil in Ht].
    apply list_elem_of_singleton in Ht as ->.
    case_bool_decide as Hin; [minv; by apply Hrule, grows_refl|].
    assert (Hedge : fanEdge name cs next = defaultEdge name next).
    { unfold fanEdge. rewrite choiceIndex_absent; [done|].
      intros j c' Hc' Hn. apply Hin, Hts. eauto. }
    rewrite Hedge. minv.
    assert (Hpushed : ∀ τ, grows (push_edge (defaultEdge name next) σ0) τ →
              defaultEdge name next ∈ edges τ).
    { intros τ Hτ. eapply grows_edges; [done|]. simpl.
      apply elem_of_app. right. by apply list_elem_of_singleton. }
    case_bool_decide; minv; [apply Hpushed, grows_refl|].
    apply Hpushed. by eapply Hrec.
Qed.

End FanEdges.

Lemma fanEdge_between name cs t :
  isFanEdge (fanEdge name cs t) = true
  ∧ Edge.source (fanEdge name cs t) = PosId name
  ∧ Edge.target (fanEdge name cs t) = t.
Proof. unfold fanEdge. by destruct (cs !! choiceIndex cs t). Qed.

(** The edge of the first reference is drawn for every target of a Choice
    state that has its node. *)
Lemma parseStateMachine_fanEdge JSON_parse fuel input m g name st cs t :
  definitionOf JSON_parse input = Some m →
  parseStateMachine JSON_parse fuel input = Returns g →
  statesOf m !! name = Some st →
  dispatch st = KChoice cs →
  name ∈ stateNodeIds (g_nodes g) →
  t ∈ successors st →
  fanEdge name cs t ∈ g_edges g.
Proof.
  intros Hm Hrun Hst Hkind (n & Hn & Hs & Hid)%elem_of_stateNodeIds Ht.
  destruct (parseStateMachine_settled _ _ _ _ _ Hm Hrun)
    as [[-> _]|(startAt & σ & _ & -> & HF & Hset & _)];
    [by apply elem_of_nil in Hn|].
  simpl in *. subst name.
  assert (Hfail : isFail st = false).
  { apply dispatch_not_fail. by rewrite Hkind. }
  destruct (stateNode_completed _ _ _ _ _ HF Hset Hn Hs Hst Hfail)
    as (x & y & Hnode & Hc).
  destruct (completed_inv _ _ _ _ _ _ Hc Hst)
    as (fuel' & σ0 & r & σ1 & Hbody & Hg).
  rewrite Hkind in Hbody.
  eapply grows_edges; [done|].
  eapply (processChoice_first (processState (statesOf m) fuel'));
    [| exact Hbody | done | done].
  intros next x' y' τ r' τ' Hcall. by apply processState_grows in Hcall as [? _].
Qed.

(** C7, as amended: for a Choice state that has been laid out, each target
    named by its rules or its default gets exactly one choice or default edge
    from the Choice node, the edge of the first reference: that of the first
    rule that names the target, with that rule's index in its id and that
    rule's label, or the default edge when no rule names it.  Later
    references draw nothing, and the target has at most one state node. *)
Theorem choice_target_one_edge JSON_parse fuel input m g name st cs t :
  definitionOf JSON_parse input = Some m →
  parseStateMachine JSON_parse fuel input = Returns g →
  statesOf m !! name = Some st →
  dispatch st = KChoice cs →
  name ∈ stateNodeIds (g_nodes g) →
  t ∈ successors st →
  fanEdgesBetween g name t = [fanEdge name cs t]
  ∧ (count_occ String.string_dec (stateNodeIds (g_nodes g)) t ≤ 1)%nat
  ∧ (is_Some (statesOf m !! t) →
     count_occ String.string_dec (stateNodeIds (g_nodes g)) t = 1%nat).
Proof.
  intros Hm Hrun Hst Hkind Hname Ht.
  destruct (choice_target_count _ _ _ _ _ _ _ _ _ Hm Hrun Hst Hkind Hname Ht)
    as (Hlen & Hle & Hone).
  split_and!; [|done|done].
  pose proof (parseStateMachine_fanEdge _ _ _ _ _ _ _ _ _ Hm Hrun Hst Hkind
                Hname Ht) as Hin.
  destruct (fanEdge_between name cs t) as (Hfan & Hsrc & Htgt).
  assert (Hmem : fanEdge name cs t ∈ fanEdgesBetween g name t).
  { unfold fanEdgesBetween. apply list_elem_of_In, List.filter_In.
    split; [by apply list_elem_of_In|].
    rewrite Hfan. simpl. by apply bool_decide_eq_true. }
  destruct (fanEdgesBetween g name t) as [|e [|e' l]];
    [done | | done].
  by apply list_elem_of_singleton in Hmem as ->.
Qed.

(** The amended C7 on a Choice state whose two rules and default all name
    [T]: the one edge is that of rule 0. *)
Lemma choice_target_one_edge_witness :
  ∃ g, parseStateMachine rejectAll 3 (InObject duplicateChoice) = Returns g
    ∧ fanEdge "C" [rule "T"; rule "T"] "T" = choiceEdge "C" 0 (rule "T") "T"
    ∧ fanEdgesBetween g "C" "T" = [fanEdge "C" [rule "T"; rule "T"] "T"]
    ∧ (count_occ String.string_dec (stateNodeIds (g_nodes g)) "T" ≤ 1)%nat
    ∧ (is_Some (statesOf duplicateChoice !! "T") →
       count_occ String.string_dec (stateNodeIds (g_nodes g)) "T" = 1%nat).
Proof.
  eexists. split; [vm_compute; reflexivity|]. split; [reflexivity|].
  eapply (choice_target_one_edge rejectAll 3 (InObject duplicateChoice)
            duplicateChoice _ "C").
  - reflexivity.
  - vm_compute; reflexivity.
  - reflexivity.
  - reflexivity.
  - apply list_elem_of_In. vm_compute. auto.
  - apply list_elem_of_In. vm_compute. auto.
Defined.

(** ** C10: a state reached only through catch rules *)

Section FollowedInvariant.

Variable states : gmap string stateObj.
Variable startAt : string.

Local Abbreviation step := (step states startAt).
Local Abbreviation steps := (steps states startAt).
Local Abbreviation invFollowed := (invFollowed states startAt).

Lemma invFollowed_initial : invFollowed ([], initialLayout startAt).
Proof.
  split; simpl.
  - intros s Hin. set_solver.
  - by intros fr ?%elem_of_nil.
Qed.

Lemma invFollowed_step c c' : invFollowed c → step c c' → invFollowed c'.
Proof.
  intros [HD HF] Hstep. destruct Hstep; simpl in *; try (by split).
  - (* visit *)
    assert (Hname : followed states startAt name).
    { destruct stk as [|fr stk]; simpl in *.
      - subst. by constructor.
      - destruct H1 as (st' & Hst' & Hin).
        eapply followed_successor; eauto. apply HF. by left. }
    split; simpl.
    + intros s [->%elem_of_singleton|Hin]%elem_of_union; [by left|by apply HD].
    + intros fr [->|Hin]%elem_of_cons; simpl; [done | by apply HF].
  - (* return *)
    split; [done|]. intros fr' Hin. apply HF. by right.
  - (* choice edge *)
    split; [done|]. intros fr' [->|Hin]%elem_of_cons;
      [apply (HF fr); by left | apply HF; by right].
  - (* default edge *)
    split; [done|]. intros fr' [->|Hin]%elem_of_cons;
      [apply (HF fr); by left | apply HF; by right].
  - (* catch fail *)
    split; simpl; [|done].
    intros s [->%elem_of_singleton|Hin]%elem_of_union; [|by apply HD].
    right. exists (f_name fr), st. split_and!.
    + apply HF. by left.
    + done.
    + by eapply catchTargets_rule.
    + unfold targetIsFail.
      by repeat match goal with
                | H : states !! _ = _ |- _ => rewrite H
                end.
Qed.

Lemma invFollowed_steps c c' : invFollowed c → steps c c' → invFollowed c'.
Proof. intros HO Hs. eapply inv_steps; eauto. apply invFollowed_step. Qed.

End FollowedInvariant.




(** * C6: the edges that arrive at the successor of a Parallel state *)

(** ** Ids that begin with the name of a Parallel state *)

Lemma prefix_app (p rest : string) : String.prefix p (p +:+ rest) = true.
Proof.
  induction p as [|c p IH]; [by destruct rest|].
  change (String.prefix (String c p) (String c (p +:+ rest)) = true).
  simpl. by destruct (Ascii.ascii_dec c c).
Qed.

Lemma prefix_inv : ∀ p s : string,
  String.prefix p s = true → ∃ rest, s = p +:+ rest.
Proof.
  induction p as [|c p IH]; intros s H; [by exists s|].
  destruct s as [|c' s]; [done|]. simpl in H.
  destruct (Ascii.ascii_dec c c') as [<-|]; [|done].
  destruct (IH s H) as [rest ->]. by exists rest.
Qed.

Lemma branch_prefix_here p index x :
  String.prefix (p +:+ "_branch_") (branchId p index x) = true.
Proof.
  replace (branchId p index x)
    with ((p +:+ "_branch_") +:+ pretty index +:+ "_" +:+ x);
    [apply prefix_app|].
  unfold branchId. by rewrite !string_app_assoc.
Qed.

Lemma branch_prefix_head p rest :
  (p +:+ "_branch_") +:+ rest = p +:+ "_" +:+ ("branch_" +:+ rest).
Proof. by rewrite !string_app_assoc. Qed.

(** No name that [states[name]] finds begins with [<p>_branch_]. *)
Lemma branch_prefix_tame p s :
  noUnderscore p = true → tame s →
  String.prefix (p +:+ "_branch_") s = false.
Proof.
  intros Hp Hs. apply not_true_is_false. intros [rest ->]%prefix_inv.
  rewrite branch_prefix_head in Hs.
  assert (Hu : noUnderscore (p +:+ "_" +:+ ("branch_" +:+ rest)) = false).
  { unfold noUnderscore. rewrite lacks_app. apply andb_false_iff. by right. }
  destruct Hs as [Hs|Hs]; [congruence|].
  apply inherited_shape in Hs as [Hs|(w & Hw & Heq)]; [congruence|].
  rewrite dunder_head in Heq.
  apply underscore_split in Heq as [_ Heq]; [|done|done].
  discriminate Heq.
Qed.

Lemma branch_prefix_start p :
  noUnderscore p = true → String.prefix (p +:+ "_branch_") "__START__" = false.
Proof.
  intros Hp. apply not_true_is_false. intros [rest Heq]%prefix_inv.
  rewrite branch_prefix_head in Heq.
  change "__START__" with (EmptyString +:+ "_" +:+ "_START__") in Heq.
  apply underscore_split in Heq as [_ Heq]; [|done|done].
  discriminate Heq.
Qed.

(** A branch-scoped id begins with [<p>_branch_] only under [p]. *)
Lemma branch_prefix_parent p q index x :
  noUnderscore p = true → noUnderscore q = true →
  String.prefix (p +:+ "_branch_") (branchId q index x) = true → p = q.
Proof.
  intros Hp Hq [rest Heq]%prefix_inv.
  rewrite branch_prefix_head, branchId_head in Heq.
  by apply underscore_split in Heq as [-> _].
Qed.

Lemma linearChain2_last br a1 sa1 a2 sa2 :
  linearChain2 br a1 sa1 a2 sa2 → chainLast (statesOf br) a1 1 a2.
Proof.
  intros [H1 H2 H3 H4 H5]. unfold chainLast, chainStops in *. simpl.
  rewrite H2, H3, H4. split; [done|].
  destruct (truthy (Next sa2)) as [n|]; [|done]. by rewrite H5.
Qed.

Lemma plainDefinition_names states :
  plainDefinition states = true → plainNames states = true.
Proof.
  unfold plainDefinition, plainNames.
  intros H%bool_decide_eq_true. apply bool_decide_eq_true.
  intros s st Hst. destruct (H s st Hst) as [Hplain _].
  by apply plain_noUnderscore.
Qed.

Lemma parallel_noUnderscore m p st brs :
  plainNames (ownStates m) = true →
  statesOf m !! p = Some st → dispatch st = KParallel brs →
  noUnderscore p = true.
Proof.
  unfold plainNames. intros H%bool_decide_eq_true Hst Hk.
  apply (H p st). by eapply statesOf_parallel.
Qed.

(** ** Where the edges that arrive at a state come from *)

(** An edge that arrives at a name that [states[name]] finds is the entry
    edge, or leaves the node of a Choice state or of a state laid out by the
    regular path that names its target, or is the rejoin edge of a branch of
    a Parallel state that names its target as [Next]. *)
Lemma parseStateMachine_incoming JSON_parse fuel input m g e next :
  definitionOf JSON_parse input = Some m →
  parseStateMachine JSON_parse fuel input = Returns g →
  plainNames (ownStates m) = true →
  is_Some (statesOf m !! next) →
  e ∈ g_edges g → Edge.target e = next →
  (truthy (StartAt m) = Some next ∧ e = startEdge next)
  ∨ (∃ s st, Edge.source e = PosId s ∧ statesOf m !! s = Some st
       ∧ dispatch st ≠ KParallel (default [] (Branches st))
       ∧ (next ∈ successors st ∨ next ∈ catchTargets st))
  ∨ (∃ p st brs index br b k last,
       statesOf m !! p = Some st ∧ dispatch st = KParallel brs
       ∧ truthy (Next st) = Some next ∧ brs !! index = Some br
       ∧ truthy (StartAt br) = Some b
       ∧ chainLast (statesOf br) b k last
       ∧ e = rejoinEdge p index last next).
Proof.
  intros Hm Hrun Hplain Hnext He Ht.
  assert (Htame : tame next) by by eapply plainNames_tame.
  destruct (decide (Edge.stroke e = "#a78bfa")) as [Hstroke|Hstroke].
  { pose proof (parseStateMachine_branches _ _ _ _ _ _ Hm Hrun Hplain He
                  Hstroke) as Hb.
    destruct Hb as [p st brs index br b Hp Hk Hbr Hb Hin
                   |p st brs index br b k last next' Hp Hk Hn Hbr Hb Hlast].
    - exfalso. simpl in Ht. symmetry in Ht. revert Ht.
      apply tame_not_branch; [done|].
      apply (plainNames_tame m); [done|by eexists].
    - simpl in Ht. subst next'. right. right.
      exists p, st, brs, index, br, b, k, last. by split_and!. }
  destruct (parseStateMachine_origin _ _ _ _ _ Hm Hrun)
    as [[-> _]|(startAt & σ & Hstart & -> & _ & _ & HO & _)];
    [by apply elem_of_nil in He|].
  simpl in He. pose proof (io_edges _ _ _ HO e He) as Horigin.
  simpl in Horigin.
  destruct Horigin
    as [|s st t Hs Hk Hn|s st rules index cb t Hs Hk Hr Hcb Hn|s st Hs Hk Hend
       |s st cs index c t Hs Hk Hc Hn|s st cs t Hs Hk Hd
       |p st brs index br b Hp Hk Hbr Hb Hin
       |p st brs index br cur curSt t Hp Hk Hbr Hcur Hn Hin
       |p st brs index v t Hp Hk Hn Hlt Hv]; simpl in Ht.
  - left. subst. done.
  - subst t. right. left. exists s, st. split_and!; [done|done| |].
    + rewrite Hk. done.
    + left. unfold successors. rewrite Hk, Hn. by left.
  - subst t. right. left. exists s, st. split_and!; [done|done| |].
    + rewrite Hk. done.
    + right. by eapply catchTargets_rule.
  - exfalso. symmetry in Ht. revert Ht. by apply tame_not_end.
  - subst t. right. left. exists s, st. split_and!; [done|done| |].
    + rewrite Hk. done.
    + left. unfold successors. rewrite Hk. apply elem_of_app. left.
      apply list_elem_of_omap. exists c. split; [|done].
      by eapply list_elem_of_lookup_2.
  - subst t. right. left. exists s, st. split_and!; [done|done| |].
    + rewrite Hk. done.
    + left. unfold successors. rewrite Hk, Hd. apply elem_of_app. right.
      by left.
  - by destruct Hstroke.
  - exfalso. symmetry in Ht. revert Ht.
    apply tame_not_branch; [done|].
    apply (plainNames_tame m); [done|by eexists].
  - by destruct Hstroke.
Qed.

(** A list of edges without repetition that holds two different edges and
    nothing else. *)
Lemma two_edges (l : list Edge.t) r0 r1 :
  NoDup l → r0 ≠ r1 → (∀ e, e ∈ l ↔ e = r0 ∨ e = r1) → l ≡ₚ [r0; r1].
Proof.
  intros Hnd Hne Hiff. apply NoDup_Permutation; [done| |].
  - apply NoDup_cons. split; [by intros ->%list_elem_of_singleton|].
    apply NoDup_singleton.
  - intros e. rewrite Hiff, elem_of_cons, list_elem_of_singleton. done.
Qed.

Lemma elem_of_incoming g t e :
  e ∈ incoming g t ↔ e ∈ g_edges g ∧ Edge.target e = t.
Proof.
  unfold incoming. rewrite !list_elem_of_In, List.filter_In.
  by rewrite bool_decide_eq_true.
Qed.

Lemma elem_of_fromBranches g p t e :
  e ∈ fromBranches g p t ↔
  e ∈ g_edges g ∧ Edge.target e = t
  ∧ ∃ s, Edge.source e = PosId s ∧ String.prefix (p +:+ "_branch_") s = true.
Proof.
  unfold fromBranches. rewrite list_elem_of_In, List.filter_In.
  rewrite <- list_elem_of_In, elem_of_incoming. split.
  - intros [[? ?] Hsrc]. split_and!; [done|done|].
    destruct (Edge.source e) as [xy|s]; [done|by exists s].
  - intros (? & ? & s & -> & ?). done.
Qed.

Lemma NoDup_edges_of_ids (es : list Edge.t) : NoDup (edgeIds es) → NoDup es.
Proof. apply NoDup_fmap_1. Qed.

Lemma NoDup_List_filter {A} (f : A → bool) (l : list A) :
  NoDup l → NoDup (List.filter f l).
Proof.
  intros H%NoDup_ListNoDup. by apply NoDup_ListNoDup, List.NoDup_filter.
Qed.





(** * Where every edge comes from *)



